(** * Sheet synchronisation and order workflow: a shallow embedding

    The program is a Supabase Edge Function (TypeScript, Deno) that copies
    the rows of a Google Sheet into the [orders] table, and two dashboard
    handlers that claim and complete orders.  Each definition below
    follows one function of the source; the name of the source function
    is kept. *)

From Stdlib Require Import String Ascii.
From Stdlib Require Import ZArith List Bool Lia SpecFloat.
Import ListNotations.
Open Scope Z_scope.
Set Warnings "-register-all".

(** ** JavaScript strings

    A JavaScript string is a sequence of UTF-16 code units;
    [charCodeAt] reads one of them. *)

Definition jsstring := list Z.

Definition lit (s : string) : jsstring :=
  map (fun c => Z.of_N (N_of_ascii c)) (list_ascii_of_string s).

Fixpoint jsstring_eqb (a b : jsstring) : bool :=
  match a, b with
  | [], [] => true
  | x :: a', y :: b' => (x =? y) && jsstring_eqb a' b'
  | _, _ => false
  end.

(** [!s] for a string: only the empty string is falsy. *)
Definition is_empty (s : jsstring) : bool :=
  match s with [] => true | _ => false end.

(** [a || b] on strings. *)
Definition or_else (a b : jsstring) : jsstring :=
  if is_empty a then b else a.

(** WhiteSpace and LineTerminator of ECMAScript: what [trim] removes and
    what [\s] matches. *)
Definition is_space (c : Z) : bool :=
  ((9 <=? c) && (c <=? 13)) || (c =? 32) || (c =? 160) || (c =? 5760)
  || ((8192 <=? c) && (c <=? 8202)) || (c =? 8232) || (c =? 8233)
  || (c =? 8239) || (c =? 8287) || (c =? 12288) || (c =? 65279).

Definition is_digit (c : Z) : bool := (48 <=? c) && (c <=? 57).

Fixpoint trimStart (s : jsstring) : jsstring :=
  match s with
  | c :: s' => if is_space c then trimStart s' else s
  | [] => []
  end.

Definition trim (s : jsstring) : jsstring :=
  rev (trimStart (rev (trimStart s))).

(** [toLowerCase], one code unit at a time.  The ASCII capitals map to
    their small letters.  Outside ASCII two code units have a lower-case
    form that contains an ASCII letter: U+212A (Kelvin sign) gives [k]
    and U+0130 gives [i] followed by U+0307.  Every other code unit
    lower-cases to code units outside ASCII, which no pattern of this
    program tells apart; it is kept as it is. *)
Definition lower_unit (c : Z) : list Z :=
  if (65 <=? c) && (c <=? 90) then [c + 32]
  else if c =? 8490 then [107]
  else if c =? 304 then [105; 775]
  else [c].

Definition toLowerCase (s : jsstring) : jsstring := flat_map lower_unit s.

Fixpoint startsWith (p s : jsstring) : bool :=
  match p, s with
  | [], _ => true
  | x :: p', y :: s' => (x =? y) && startsWith p' s'
  | _ :: _, [] => false
  end.

(** [s.indexOf(p)]: the first position where [p] occurs, [None] for -1. *)
Fixpoint indexOf (p s : jsstring) : option nat :=
  if startsWith p s then Some 0%nat
  else match s with
       | [] => None
       | _ :: s' => option_map S (indexOf p s')
       end.

(** [s.lastIndexOf(p)]: the last position where [p] occurs. *)
Fixpoint lastIndexOf (p s : jsstring) : option nat :=
  match s with
  | [] => if startsWith p s then Some 0%nat else None
  | _ :: s' =>
      match lastIndexOf p s' with
      | Some i => Some (S i)
      | None => if startsWith p s then Some 0%nat else None
      end
  end.

Definition includes (s p : jsstring) : bool :=
  match indexOf p s with Some _ => true | None => false end.

(** [s.substring(a, b)]: the arguments are swapped when [a > b]. *)
Definition substring (a b : nat) (s : jsstring) : jsstring :=
  let lo := Nat.min a b in
  let hi := Nat.max a b in
  firstn (hi - lo) (skipn lo s).

(** [parts.join(sep)]. *)
Fixpoint join (sep : jsstring) (parts : list jsstring) : jsstring :=
  match parts with
  | [] => []
  | [p] => p
  | p :: rest => p ++ sep ++ join sep rest
  end.

(** ** Numbers

    A Number is an IEEE 754 binary64 value, [spec_float] with 53 bits of
    precision and [emax = 1024]. *)

Definition prec : Z := 53.
Definition emax : Z := 1024.

Definition number_of_Z (z : Z) : spec_float := binary_normalize prec emax z 0 false.

(** The Number nearest to the rational [p / q] ([0 <= p], [0 < q]), ties
    to even: the quotient is taken with enough bits and the position of
    the remainder decides the rounding. *)
Definition number_of_ratio (p q : Z) : spec_float :=
  if p =? 0 then S754_zero false
  else
    let s := Z.max 0 (Zdigits2 q - Zdigits2 p + 55) in
    let '(m, r) := Z.div_eucl (p * 2 ^ s) q in
    let l := if r =? 0 then loc_Exact else loc_Inexact (Z.compare (2 * r) q) in
    binary_round_aux prec emax false m (- s) l.

Fixpoint digits_value (acc : Z) (ds : jsstring) : Z :=
  match ds with
  | [] => acc
  | d :: ds' => digits_value (10 * acc + (d - 48)) ds'
  end.

Fixpoint take_digits (s : jsstring) : jsstring * jsstring :=
  match s with
  | c :: s' =>
      if is_digit c then let '(ds, rest) := take_digits s' in (c :: ds, rest)
      else ([], s)
  | [] => ([], [])
  end.

(** [parseFloat] on the texts this program gives it: decimal digits,
    optionally followed by a point and more digits.  The longest such
    prefix is read; a text that does not start with a digit gives NaN. *)
Definition parseFloat (s : jsstring) : spec_float :=
  let '(ip, rest) := take_digits s in
  match ip with
  | [] => S754_nan
  | _ =>
      let fp := match rest with
                | 46 :: rest' => fst (take_digits rest')
                | _ => []
                end in
      number_of_ratio (digits_value 0 (ip ++ fp)) (10 ^ Z.of_nat (length fp))
  end.

Definition isFinite (x : spec_float) : bool :=
  match x with
  | S754_zero _ | S754_finite _ _ _ => true
  | S754_infinity _ | S754_nan => false
  end.

(** An integral Number, or one of the three values that are not finite. *)
Inductive jsint :=
| JInt (z : Z)
| JPosInf
| JNegInf
| JNaN.

(** [Math.round]: the nearest integer, a tie going up.  The result is
    exact, so it is kept as an integer (-0 is not told from 0). *)
Definition Math_round (x : spec_float) : jsint :=
  match x with
  | S754_zero _ => JInt 0
  | S754_infinity false => JPosInf
  | S754_infinity true => JNegInf
  | S754_nan => JNaN
  | S754_finite sg m e =>
      let n := if sg then Z.neg m else Z.pos m in
      if 0 <=? e then JInt (n * 2 ^ e)
      else JInt ((2 * n + 2 ^ (- e)) / 2 ^ (- e + 1))
  end.

Definition jsint_max (a b : jsint) : jsint :=
  match a, b with
  | JNaN, _ | _, JNaN => JNaN
  | JPosInf, _ | _, JPosInf => JPosInf
  | JNegInf, x | x, JNegInf => x
  | JInt x, JInt y => JInt (Z.max x y)
  end.

(** [Math.max(...values)]: -Infinity for no argument. *)
Definition Math_max (values : list jsint) : jsint :=
  fold_left jsint_max values JNegInf.

(** ** Regular expressions

    The subset of ECMAScript patterns the program uses, with the
    backtracking semantics of the language: alternatives are tried left
    to right, quantifiers are greedy, and a capture group records the
    text it matched. *)

Inductive regex :=
| REmpty
| RClass (p : Z -> bool)
| RSeq (a b : regex)
| RAlt (a b : regex)
| RRep (lo : nat) (hi : option nat) (a : regex)
| RGroup (n : nat) (a : regex).

Definition captures := list (nat * jsstring).

Fixpoint capture (n : nat) (caps : captures) : option jsstring :=
  match caps with
  | [] => None
  | (i, s) :: caps' => if Nat.eqb i n then Some s else capture n caps'
  end.

Definition matcher (R : Type) :=
  jsstring -> captures -> (jsstring -> captures -> option R) -> option R.

(** Greedy repetition [{lo,hi}] of the matcher [ma].  One more
    iteration is tried first; an iteration that consumes nothing is
    rejected (no repeated atom of this program's pattern can match the
    empty string).  [fuel] bounds the number of iterations; the length of
    the input plus one is always enough. *)
Fixpoint rep_loop {R} (ma : matcher R) (fuel lo : nat) (hi : option nat)
  (s : jsstring) (caps : captures) (k : jsstring -> captures -> option R) : option R :=
  match fuel with
  | O => None
  | S fuel' =>
      let more :=
        match hi with
        | Some O => None
        | _ =>
            ma s caps (fun s' caps' =>
              if (length s' <? length s)%nat
              then rep_loop ma fuel' (pred lo) (option_map pred hi) s' caps' k
              else None)
        end in
      match more with
      | Some x => Some x
      | None => if Nat.eqb lo 0 then k s caps else None
      end
  end.

Fixpoint rmatch {R} (r : regex) : matcher R :=
  fun s caps k =>
  match r with
  | REmpty => k s caps
  | RClass p =>
      match s with
      | c :: s' => if p c then k s' caps else None
      | [] => None
      end
  | RSeq a b => rmatch a s caps (fun s' caps' => rmatch b s' caps' k)
  | RAlt a b =>
      match rmatch a s caps k with
      | Some x => Some x
      | None => rmatch b s caps k
      end
  | RRep lo hi a => rep_loop (rmatch a) (S (length s)) lo hi s caps k
  | RGroup n a =>
      rmatch a s caps (fun s' caps' =>
        k s' ((n, firstn (length s - length s') s) :: caps'))
  end.

Definition RChar (c : Z) : regex := RClass (Z.eqb c).

Fixpoint RLit (s : jsstring) : regex :=
  match s with
  | [] => REmpty
  | c :: s' => RSeq (RChar c) (RLit s')
  end.

(** One call of [re.exec] from the current [lastIndex]: the leftmost
    position where the pattern matches.  The result is the captures and
    the text after the match. *)
Fixpoint exec (r : regex) (s : jsstring) : option (captures * jsstring) :=
  match rmatch r s [] (fun s' caps => Some (caps, s')) with
  | Some x => Some x
  | None =>
      match s with
      | [] => None
      | _ :: s' => exec r s'
      end
  end.

(** The [while ((m = re.exec(s)) !== null)] loop of a global pattern:
    all matches, left to right. *)
Fixpoint exec_all (fuel : nat) (r : regex) (s : jsstring) : list captures :=
  match fuel with
  | O => []
  | S fuel' =>
      match exec r s with
      | None => []
      | Some (caps, s') =>
          caps :: (if (length s' <? length s)%nat then exec_all fuel' r s' else [])
      end
  end.

(** ** Budget parser *)

(** [/(\d{1,3}(?:[,\s]\d{2,3})+|\d+(?:\.\d+)?)\s*(k|m|l|lac|lakh|lakhs|cr|crore)?/g] *)
Definition budget_re : regex :=
  let d := RClass is_digit in
  let sep := RClass (fun c => (c =? 44) || is_space c) in
  RSeq
    (RGroup 1
       (RAlt
          (RSeq (RRep 1 (Some 3%nat) d)
                (RRep 1 None (RSeq sep (RRep 2 (Some 3%nat) d))))
          (RSeq (RRep 1 None d)
                (RRep 0 (Some 1%nat) (RSeq (RChar 46) (RRep 1 None d))))))
    (RSeq
       (RRep 0 None (RClass is_space))
       (RRep 0 (Some 1%nat)
          (RGroup 2
             (RAlt (RLit (lit "k"))
             (RAlt (RLit (lit "m"))
             (RAlt (RLit (lit "l"))
             (RAlt (RLit (lit "lac"))
             (RAlt (RLit (lit "lakh"))
             (RAlt (RLit (lit "lakhs"))
             (RAlt (RLit (lit "cr"))
                   (RLit (lit "crore")))))))))))).

(** [s.replace(/[–—−]/g, "-")] *)
Definition normalize_dashes (s : jsstring) : jsstring :=
  map (fun c => if (c =? 8211) || (c =? 8212) || (c =? 8722) then 45 else c) s.

(** [numStr.replace(/[\s,]/g, "")] *)
Definition strip_separators (s : jsstring) : jsstring :=
  filter (fun c => negb (is_space c || (c =? 44))) s.

(** The multiplication chain of the loop body: [val *= ...] by suffix. *)
Definition scale (suf : jsstring) (val : spec_float) : spec_float :=
  if jsstring_eqb suf (lit "k") then SFmul prec emax val (number_of_Z 1000)
  else if jsstring_eqb suf (lit "m") then SFmul prec emax val (number_of_Z 1000000)
  else if jsstring_eqb suf (lit "l") || jsstring_eqb suf (lit "lac")
          || jsstring_eqb suf (lit "lakh") || jsstring_eqb suf (lit "lakhs")
       then SFmul prec emax val (number_of_Z 100000)
  else if jsstring_eqb suf (lit "cr") || jsstring_eqb suf (lit "crore")
       then SFmul prec emax val (number_of_Z 10000000)
  else val.

Definition capture_or_empty (n : nat) (m : captures) : jsstring :=
  match capture n m with Some s => s | None => [] end.

(** The body of the loop for one match: what it pushes on [values].
    Nothing is pushed when the parsed number is not finite. *)
Definition budget_value (m : captures) : list jsint :=
  let numStr := capture_or_empty 1 m in
  let suffix := capture_or_empty 2 m in
  let numStr := strip_separators numStr in
  let val := parseFloat numStr in
  if negb (isFinite val) then []
  else
    let suf := toLowerCase suffix in
    [Math_round (scale suf val)].

Definition budget_matches (s : jsstring) : list captures :=
  exec_all (S (length s)) budget_re s.

Definition budget_values (s : jsstring) : list jsint :=
  flat_map budget_value (budget_matches s).

Definition parseBudgetToNumber (budget : option jsstring) : jsint :=
  match budget with
  | None => JInt 0
  | Some b =>
      if is_empty b then JInt 0
      else
        let s := trim (toLowerCase b) in
        let s := normalize_dashes s in
        let values := budget_values s in
        match values with
        | [] => JInt 0
        | _ => Math_max values
        end
  end.

(** ** Timeline classifier *)

Definition ms_per_day : Z := 86400000.

(** [addDays]: [now] is the reading of the wall clock, in milliseconds
    since the epoch.  The function runs in UTC, where [setDate] moves the
    instant by whole days of 86 400 000 ms; the ISO text of the result is
    not modelled, the instant stands for it. *)
Definition addDays (now : Z) (days : Z) : Z := now + days * ms_per_day.

Definition mapTimelineToDueDate (now : Z) (timeline : option jsstring) : option Z :=
  match timeline with
  | None => None
  | Some tl =>
      if is_empty tl then None
      else
        let t := toLowerCase tl in
        if includes t (lit "urgent") || includes t (lit "1-3") then Some (addDays now 3)
        else if includes t (lit "week") || includes t (lit "3-7") then Some (addDays now 7)
        else if includes t (lit "month") || includes t (lit "1-4") then Some (addDays now 28)
        else None
  end.

(** ** Row identity *)

(** [x | 0]: the signed 32-bit integer congruent to [x]. *)
Definition to_int32 (x : Z) : Z := (x + 2 ^ 31) mod 2 ^ 32 - 2 ^ 31.

(** [x >>> 0]: the unsigned 32-bit integer congruent to [x]. *)
Definition to_uint32 (x : Z) : Z := x mod 2 ^ 32.

(** [x << n] on a 32-bit integer. *)
Definition shl32 (x : Z) (n : Z) : Z := to_int32 (Z.shiftl (to_int32 x) n).

Definition radix_digit (d : Z) : Z := if d <? 10 then 48 + d else 87 + d.

Fixpoint to_radix (fuel : nat) (radix n : Z) (acc : jsstring) : jsstring :=
  match fuel with
  | O => acc
  | S fuel' =>
      let acc' := radix_digit (n mod radix) :: acc in
      if n / radix =? 0 then acc' else to_radix fuel' radix (n / radix) acc'
  end.

(** [n.toString(radix)] for an integer [0 <= n]. *)
Definition toString_radix (radix n : Z) : jsstring :=
  to_radix (S (Z.to_nat (Z.log2 n))) radix n [].

Definition djb2_step (hash c : Z) : Z :=
  to_int32 ((shl32 hash 5 + hash) + c).

Definition djb2Hash (input : jsstring) : jsstring :=
  let hash := fold_left djb2_step input 5381 in
  toString_radix 36 (to_uint32 hash).

(** [`${fullName}|${service}|${desc}|${budgetRaw}|${timeline}`] *)
Definition fingerprint (fullName service desc budgetRaw timeline : jsstring) : jsstring :=
  fullName ++ lit "|" ++ service ++ lit "|" ++ desc ++ lit "|" ++ budgetRaw
  ++ lit "|" ++ timeline.

(** [timestamp || djb2Hash(fingerprint)] *)
Definition resolve_sheet_row_id (timestamp fullName service desc budgetRaw timeline : jsstring)
  : jsstring :=
  or_else timestamp (djb2Hash (fingerprint fullName service desc budgetRaw timeline)).

(** ** Values decoded from JSON

    What [JSON.parse] returns.  A number is kept as the text [String]
    gives for it, the only thing the program does with one.  An object is
    its list of properties; [undefined] is [None] of [option json]. *)

Inductive json :=
| JNull
| JBool (b : bool)
| JNum (text : jsstring)
| JStr (s : jsstring)
| JArr (items : list json)
| JObj (props : list (jsstring * json)).

Fixpoint assoc {A} (key : jsstring) (kv : list (jsstring * A)) : option A :=
  match kv with
  | [] => None
  | (k, v) :: kv' => if jsstring_eqb k key then Some v else assoc key kv'
  end.

(** [String(v)]; inside an array [null] is printed as the empty text. *)
Fixpoint String_of (v : json) : jsstring :=
  match v with
  | JNull => lit "null"
  | JBool true => lit "true"
  | JBool false => lit "false"
  | JNum t => t
  | JStr s => s
  | JArr items =>
      join (lit ",")
        (map (fun x => match x with JNull => [] | _ => String_of x end) items)
  | JObj _ => lit "[object Object]"
  end.

(** [Boolean(v)] *)
Definition truthy (v : option json) : bool :=
  match v with
  | None | Some JNull => false
  | Some (JBool b) => b
  | Some (JNum t) => negb (jsstring_eqb t (lit "0"))
  | Some (JStr s) => negb (is_empty s)
  | Some (JArr _) | Some (JObj _) => true
  end.

(** [a ?? b] *)
Definition nullish {A} (a : option json) (b : A) (f : json -> A) : A :=
  match a with
  | None | Some JNull => b
  | Some v => f v
  end.

(** ** Errors

    What the handler throws; the message of each is what the response
    carries.  [StoreFailure] is an error reported by the database. *)

Record pgerror := { code : jsstring; message : jsstring }.

Inductive error :=
| InvalidGvizJsonp
| SyntaxError
| MissingColumn (label : jsstring)
| SheetFetchFailed (status : Z)
| NotAnArray
| TypeError
| StoreFailure (e : pgerror).

(** The taxonomy of the specification: a payload that cannot be decoded. *)
Definition MalformedFeed (e : error) : bool :=
  match e with
  | InvalidGvizJsonp | SyntaxError => true
  | _ => false
  end.

(** [obj[key]] for a key that is no index and no built-in property:
    reading a property of [null] or [undefined] throws. *)
Definition prop (v : option json) (key : jsstring) : error + option json :=
  match v with
  | None | Some JNull => inl TypeError
  | Some (JObj kv) => inr (assoc key kv)
  | Some _ => inr None
  end.

(** [obj?.key] *)
Definition opt_prop (v : option json) (key : jsstring) : option json :=
  match v with
  | Some (JObj kv) => assoc key kv
  | _ => None
  end.

(** [arr[i]] for an index [i]. *)
Definition index (v : option json) (i : nat) : error + option json :=
  match v with
  | None | Some JNull => inl TypeError
  | Some (JArr items) => inr (nth_error items i)
  | Some (JStr s) => inr (option_map (fun c => JStr [c]) (nth_error s i))
  | Some (JObj kv) => inr (assoc (toString_radix 10 (Z.of_nat i)) kv)
  | Some _ => inr None
  end.

(** ** Feed parser *)

Section Feed.

(** [JSON.parse] of the runtime: [None] when it throws. *)
Variable JSON_parse : jsstring -> option json.

Definition setResponse : jsstring := lit "setResponse(".

Definition parseGvizJsonp (input : jsstring) : error + json :=
  match indexOf setResponse input, lastIndexOf (lit ")") input with
  | Some start, Some end_ =>
      let json := substring (start + length setResponse) end_ input in
      match JSON_parse json with
      | Some v => inr v
      | None => inl SyntaxError
      end
  | _, _ => inl InvalidGvizJsonp
  end.

(** One element of [toInsert]; [status] and [source] are the constants
    ["available"] and ["google_sheet"]. *)
Record record := {
  rec_client_name : jsstring;
  rec_requirement_text : jsstring;
  rec_price : jsint;
  rec_due_date : option Z;
  rec_sheet_row_id : jsstring;
  rec_raw_sheet_json : json
}.

Definition em_dash_sep : jsstring := [32; 8212; 32].

(** The part of the two [map] callbacks that is the same: from the six
    trimmed fields to a record, or [null] for an empty row. *)
Definition build_record (now : Z) (row : json)
  (name service desc budgetRaw timeline timestamp : jsstring) : option record :=
  let fullName := or_else name (lit "Client") in
  let requirement_text :=
    join em_dash_sep (filter (fun x => negb (is_empty x)) [service; desc]) in
  let price := parseBudgetToNumber (Some budgetRaw) in
  let due_date := mapTimelineToDueDate now (Some timeline) in
  let sheet_row_id :=
    resolve_sheet_row_id timestamp fullName service desc budgetRaw timeline in
  if is_empty service && is_empty desc then None
  else Some {| rec_client_name := fullName;
               rec_requirement_text := requirement_text;
               rec_price := price;
               rec_due_date := due_date;
               rec_sheet_row_id := sheet_row_id;
               rec_raw_sheet_json := row |}.

(** [String(get(a) ?? get(b) ?? "").trim()] where [get] is
    [row[label] ?? null]. *)
Definition field2 (row : json) (a b : jsstring) : error + jsstring :=
  match prop (Some row) a with
  | inl e => inl e
  | inr va =>
      nullish va
        (match prop (Some row) b with
         | inl e => inl e
         | inr vb => inr (nullish vb [] (fun v => trim (String_of v)))
         end)
        (fun v => inr (trim (String_of v)))
  end.

(** The six fields the callbacks read from a row, each trimmed. *)
Record fields := {
  f_name : jsstring;
  f_service : jsstring;
  f_desc : jsstring;
  f_budgetRaw : jsstring;
  f_timeline : jsstring;
  f_timestamp : jsstring
}.

Definition record_of_fields (now : Z) (row : json) (f : fields) : option record :=
  build_record now row (f_name f) (f_service f) (f_desc f) (f_budgetRaw f)
    (f_timeline f) (f_timestamp f).

(** The reads of the callback of [json.map] on the array variant, in
    the order of the source. *)
Definition opensheet_fields (row : json) : error + fields :=
  match field2 row (lit "What is your full name?") (lit "Full Name") with
  | inl e => inl e
  | inr name =>
  match field2 row (lit "What type of service you want ?") (lit "Service") with
  | inl e => inl e
  | inr service =>
  match field2 row (lit "Could you briefly describe your project or needs?")
          (lit "Description") with
  | inl e => inl e
  | inr desc =>
  match field2 row (lit "What is your estimated budget for this project?")
          (lit "Budget") with
  | inl e => inl e
  | inr budgetRaw =>
  match field2 row (lit "What is your preferred timeline for project completion?")
          (lit "Timeline") with
  | inl e => inl e
  | inr timeline =>
  match field2 row (lit "Timestamp") (lit "timestamp") with
  | inl e => inl e
  | inr timestamp =>
      inr {| f_name := name; f_service := service; f_desc := desc;
             f_budgetRaw := budgetRaw; f_timeline := timeline;
             f_timestamp := timestamp |}
  end end end end end end.

(** The callback of [json.map] on the array variant. *)
Definition opensheet_row (now : Z) (row : json) : error + option record :=
  match opensheet_fields row with
  | inl e => inl e
  | inr f => inr (record_of_fields now row f)
  end.

(** [rows.map(f).filter(Boolean)], stopping at the first exception. *)
Fixpoint map_rows (f : json -> error + option record) (rows : list json)
  : error + list record :=
  match rows with
  | [] => inr []
  | row :: rows' =>
      match f row with
      | inl e => inl e
      | inr r =>
          match map_rows f rows' with
          | inl e => inl e
          | inr rs => inr (match r with Some x => x :: rs | None => rs end)
          end
      end
  end.

Definition required : list jsstring :=
  [ lit "What type of service you want ?";
    lit "Could you briefly describe your project or needs?";
    lit "What is your estimated budget for this project?";
    lit "What is your preferred timeline for project completion?";
    lit "What is your full name?";
    lit "Timestamp" ].

(** [colIndex[label] = idx]: a later column with the same label wins. *)
Fixpoint set_index (key : jsstring) (idx : nat) (m : list (jsstring * nat))
  : list (jsstring * nat) :=
  match m with
  | [] => [(key, idx)]
  | (k, v) :: m' =>
      if jsstring_eqb k key then (k, idx) :: m' else (k, v) :: set_index key idx m'
  end.

(** [gviz.table.cols.forEach((c, idx) => (colIndex[c.label] = idx))] *)
Fixpoint build_colIndex (cols : list json) (idx : nat) (m : list (jsstring * nat))
  : error + list (jsstring * nat) :=
  match cols with
  | [] => inr m
  | c :: cols' =>
      match prop (Some c) (lit "label") with
      | inl e => inl e
      | inr l =>
          let key := match l with None => lit "undefined" | Some v => String_of v end in
          build_colIndex cols' (S idx) (set_index key idx m)
      end
  end.

(** [for (const r of required) if (!(r in colIndex)) throw ...] *)
Fixpoint check_required (labels : list jsstring) (colIndex : list (jsstring * nat))
  : option error :=
  match labels with
  | [] => None
  | r :: labels' =>
      match assoc r colIndex with
      | None => Some (MissingColumn r)
      | Some _ => check_required labels' colIndex
      end
  end.

(** [String(get(label) ?? "").trim()] where [get] is
    [row.c[colIndex[label]]?.f ?? row.c[colIndex[label]]?.v ?? null]. *)
Definition gviz_field (colIndex : list (jsstring * nat)) (row : json) (label : jsstring)
  : error + jsstring :=
  match prop (Some row) (lit "c") with
  | inl e => inl e
  | inr c =>
      match match assoc label colIndex with
            | Some i => index c i
            | None => prop c (lit "undefined")
            end with
      | inl e => inl e
      | inr cell =>
          inr (nullish (opt_prop cell (lit "f"))
                 (nullish (opt_prop cell (lit "v")) []
                    (fun v => trim (String_of v)))
                 (fun v => trim (String_of v)))
      end
  end.

(** The reads of the callback of [rows.map] on the wrapped variant. *)
Definition gviz_fields (colIndex : list (jsstring * nat)) (row : json) : error + fields :=
  match gviz_field colIndex row (lit "What is your full name?") with
  | inl e => inl e
  | inr name =>
  match gviz_field colIndex row (lit "What type of service you want ?") with
  | inl e => inl e
  | inr service =>
  match gviz_field colIndex row (lit "Could you briefly describe your project or needs?") with
  | inl e => inl e
  | inr desc =>
  match gviz_field colIndex row (lit "What is your estimated budget for this project?") with
  | inl e => inl e
  | inr budgetRaw =>
  match gviz_field colIndex row
          (lit "What is your preferred timeline for project completion?") with
  | inl e => inl e
  | inr timeline =>
  match gviz_field colIndex row (lit "Timestamp") with
  | inl e => inl e
  | inr timestamp =>
      inr {| f_name := name; f_service := service; f_desc := desc;
             f_budgetRaw := budgetRaw; f_timeline := timeline;
             f_timestamp := timestamp |}
  end end end end end end.

(** The callback of [rows.map] on the wrapped variant. *)
Definition gviz_row (now : Z) (colIndex : list (jsstring * nat)) (row : json)
  : error + option record :=
  match gviz_fields colIndex row with
  | inl e => inl e
  | inr f => inr (record_of_fields now row f)
  end.

(** The array branch of the handler: [toInsert] and [rowsLength]. *)
Definition parse_opensheet (now : Z) (body : jsstring) : error + (list record * nat) :=
  match JSON_parse body with
  | None => inl SyntaxError
  | Some (JArr rows) =>
      match map_rows (opensheet_row now) rows with
      | inl e => inl e
      | inr toInsert => inr (toInsert, length rows)
      end
  | Some _ => inl NotAnArray
  end.

(** The wrapped branch of the handler. *)
Definition parse_gviz (now : Z) (text : jsstring) : error + (list record * nat) :=
  match parseGvizJsonp text with
  | inl e => inl e
  | inr gviz =>
  match prop (Some gviz) (lit "table") with
  | inl e => inl e
  | inr table =>
  match prop table (lit "cols") with
  | inl e => inl e
  | inr (Some (JArr cols)) =>
      match build_colIndex cols 0 [] with
      | inl e => inl e
      | inr colIndex =>
          match check_required required colIndex with
          | Some e => inl e
          | None =>
              match prop table (lit "rows") with
              | inl e => inl e
              | inr (Some (JArr rows)) =>
                  match map_rows (gviz_row now colIndex) rows with
                  | inl e => inl e
                  | inr toInsert => inr (toInsert, length rows)
                  end
              | inr _ => inl TypeError
              end
          end
      end
  | inr _ => inl TypeError
  end end end.

End Feed.

(** ** The persisted store

    The [orders] and [assignments] tables of the migration.  The primary
    key is generated by the database; the model numbers the rows.
    Nullable columns are options; instants are milliseconds. *)

Inductive status_t := available | taken | completed.

Definition status_eqb (a b : status_t) : bool :=
  match a, b with
  | available, available | taken, taken | completed, completed => true
  | _, _ => false
  end.

Record order := {
  id : nat;
  source : option jsstring;
  sheet_row_id : option jsstring;
  client_name : jsstring;
  requirement_text : jsstring;
  price : jsint;
  due_date : option Z;
  status : status_t;
  taken_by : option jsstring;
  taken_at : option Z;
  completed_at : option Z;
  deliverable_link : option jsstring;
  raw_sheet_json : option json;
  created_at : Z;
  updated_at : Z;
  actual_amount : option spec_float;
  editor_feedback : option jsstring
}.

Record assignment := {
  order_id : nat;
  user_id : jsstring;
  action : jsstring;
  timestamp : Z
}.

Record database := {
  orders : list order;
  assignments : list assignment
}.

(** The store together with the answers the backend will give to the
    next calls: [Some e] makes the call fail with [e] and leave the
    tables as they are, [None] (or no entry) lets it through. *)
Record world := {
  db : database;
  pending : list (option pgerror)
}.

Definition store_call {A} (op : database -> A * database) (w : world)
  : (pgerror + A) * world :=
  match pending w with
  | Some e :: rest => (inl e, {| db := db w; pending := rest |})
  | None :: rest =>
      let '(a, d) := op (db w) in (inr a, {| db := d; pending := rest |})
  | [] =>
      let '(a, d) := op (db w) in (inr a, {| db := d; pending := [] |})
  end.

Definition google_sheet : jsstring := lit "google_sheet".

(** [col = v] of SQL: never true of NULL. *)
Definition sql_eq (col : option jsstring) (v : jsstring) : bool :=
  match col with
  | Some x => jsstring_eqb x v
  | None => false
  end.

(** [col <> v] of SQL: never true of NULL. *)
Definition sql_neq (col : option jsstring) (v : jsstring) : bool :=
  match col with
  | Some x => negb (jsstring_eqb x v)
  | None => false
  end.

(** [col IN (vs)] of SQL. *)
Definition sql_in (col : option jsstring) (vs : list jsstring) : bool :=
  match col with
  | Some x => existsb (jsstring_eqb x) vs
  | None => false
  end.

Definition next_id (os : list order) : nat :=
  S (fold_right (fun o m => Nat.max (id o) m) 0%nat os).

(** The row the database makes of one inserted record: the columns that
    are not given take their defaults. *)
Definition order_of_record (now : Z) (key : nat) (r : record) : order :=
  {| id := key;
     source := Some google_sheet;
     sheet_row_id := Some (rec_sheet_row_id r);
     client_name := rec_client_name r;
     requirement_text := rec_requirement_text r;
     price := rec_price r;
     due_date := rec_due_date r;
     status := available;
     taken_by := None;
     taken_at := None;
     completed_at := None;
     deliverable_link := None;
     raw_sheet_json := Some (rec_raw_sheet_json r);
     created_at := now;
     updated_at := now;
     actual_amount := None;
     editor_feedback := None |}.

Fixpoint insert_rows (now : Z) (rs : list record) (os : list order) : list order :=
  match rs with
  | [] => os
  | r :: rs' => insert_rows now rs' (os ++ [order_of_record now (next_id os) r])
  end.

(** [from("orders").select("sheet_row_id, status, taken_by")] *)
Definition select_existing (d : database)
  : list (option jsstring * status_t * option jsstring) * database :=
  (map (fun o => (sheet_row_id o, status o, taken_by o)) (orders d), d).

(** [from("orders").insert(newRecords)] *)
Definition insert_orders (now : Z) (rs : list record) (d : database)
  : unit * database :=
  (tt, {| orders := insert_rows now rs (orders d); assignments := assignments d |}).

(** The [update({...})] of the reconciliation loop, applied to one row. *)
Definition apply_update (now : Z) (r : record) (o : order) : order :=
  {| id := id o;
     source := Some google_sheet;
     sheet_row_id := sheet_row_id o;
     client_name := rec_client_name r;
     requirement_text := rec_requirement_text r;
     price := rec_price r;
     due_date := rec_due_date r;
     status := status o;
     taken_by := taken_by o;
     taken_at := taken_at o;
     completed_at := completed_at o;
     deliverable_link := deliverable_link o;
     raw_sheet_json := Some (rec_raw_sheet_json r);
     created_at := created_at o;
     updated_at := now;
     actual_amount := actual_amount o;
     editor_feedback := editor_feedback o |}.

(** [from("orders").update({...}).eq("sheet_row_id", r.sheet_row_id)] *)
Definition update_order (now : Z) (r : record) (d : database) : unit * database :=
  (tt, {| orders := map (fun o => if sql_eq (sheet_row_id o) (rec_sheet_row_id r)
                                  then apply_update now r o else o) (orders d);
          assignments := assignments d |}).

(** A [delete({ count: "exact" })] with its filter: the rows that match
    go, with the assignments that refer to them ([ON DELETE CASCADE]),
    and their number is returned. *)
Definition delete_where (p : order -> bool) (d : database) : nat * database :=
  let deleted := filter p (orders d) in
  (length deleted,
   {| orders := filter (fun o => negb (p o)) (orders d);
      assignments :=
        filter (fun a => negb (existsb (fun o => Nat.eqb (id o) (order_id a)) deleted))
          (assignments d) |}).

(** ** Reconciliation engine *)

Definition M (A : Type) := world -> (error + A) * world.

Definition ret {A} (a : A) : M A := fun w => (inr a, w).

Definition throw {A} (e : error) : M A := fun w => (inl e, w).

Definition bind {A B} (c : M A) (k : A -> M B) : M B :=
  fun w =>
    match c w with
    | (inl e, w') => (inl e, w')
    | (inr a, w') => k a w'
    end.

Notation "x <- c ;; k" := (bind c (fun x => k))
  (at level 61, c at next level, right associativity).

(** A call to the store whose error is rethrown:
    [if (err) throw err]. *)
Definition call {A} (op : database -> A * database) : M A :=
  fun w =>
    match store_call op w with
    | (inl e, w') => (inl (StoreFailure e), w')
    | (inr a, w') => (inr a, w')
    end.

Definition existing_map := list (jsstring * (status_t * option jsstring)).

(** [existingMap.set(id, v)]: a key keeps the place of its first
    insertion. *)
Fixpoint map_set (key : jsstring) (v : status_t * option jsstring) (m : existing_map)
  : existing_map :=
  match m with
  | [] => [(key, v)]
  | (k, x) :: m' =>
      if jsstring_eqb k key then (k, v) :: m' else (k, x) :: map_set key v m'
  end.

Definition map_has (key : jsstring) (m : existing_map) : bool :=
  match assoc key m with Some _ => true | None => false end.

(** The loop that fills [existingMap]: rows without an identity
    ([null] or empty) are skipped. *)
Fixpoint build_existingMap (rows : list (option jsstring * status_t * option jsstring))
  (m : existing_map) : existing_map :=
  match rows with
  | [] => m
  | (i, st, tb) :: rows' =>
      match i with
      | Some key =>
          if is_empty key then build_existingMap rows' m
          else build_existingMap rows' (map_set key (st, tb) m)
      | None => build_existingMap rows' m
      end
  end.

(** [for (const r of updateRecords) { update; updated += 1 }] *)
Fixpoint update_loop (now : Z) (rs : list record) (updated : nat) : M nat :=
  match rs with
  | [] => ret updated
  | r :: rs' =>
      _ <- call (update_order now r) ;;
      update_loop now rs' (S updated)
  end.

Definition chunk : nat := 1000.

(** [for (let i = 0; i < staleIds.length; i += chunk)]; every iteration
    advances [i], so [length staleIds] iterations are enough. *)
Fixpoint purge_loop (fuel : nat) (staleIds : list jsstring) (i : nat) (purged : nat)
  : M nat :=
  match fuel with
  | O => ret purged
  | S fuel' =>
      if (i <? length staleIds)%nat then
        let slice := firstn chunk (skipn i staleIds) in
        sheetDelCount <- call (delete_where (fun o => sql_in (sheet_row_id o) slice)) ;;
        purge_loop fuel' staleIds (i + chunk) (purged + sheetDelCount)
      else ret purged
  end.

Definition reconcile (now : Z) (purge : bool) (toInsert : list record)
  : M (nat * nat * nat) :=
  existing <- call select_existing ;;
  let existingMap := build_existingMap existing [] in
  let newRecords :=
    filter (fun r => negb (map_has (rec_sheet_row_id r) existingMap)) toInsert in
  let updateRecords :=
    filter (fun r => map_has (rec_sheet_row_id r) existingMap) toInsert in
  inserted <-
    (if (0 <? length newRecords)%nat
     then (_ <- call (insert_orders now newRecords) ;; ret (length newRecords))
     else ret 0%nat) ;;
  updated <- update_loop now updateRecords 0 ;;
  purged <-
    (if purge then
       nonSheetCount <- call (delete_where (fun o => sql_neq (source o) google_sheet)) ;;
       let currentIds := map rec_sheet_row_id toInsert in
       let staleIds :=
         filter (fun k => negb (existsb (jsstring_eqb k) currentIds))
           (map fst existingMap) in
       purge_loop (length staleIds) staleIds 0 nonSheetCount
     else ret 0%nat) ;;
  ret (inserted, updated, purged).

(** ** The HTTP handler *)

Record request := {
  is_options : bool;
  body : option json
}.

Record fetch_response := {
  ok : bool;
  http_status : Z;
  text : jsstring
}.

Inductive response :=
| NoContent204
| MissingEnv500
| Error500 (e : error)
| Ok200 (inserted updated purged totalRows : nat).

Section Serve.

Variable JSON_parse : jsstring -> option json.
Variable fetch : jsstring -> fetch_response.

Definition defaultGviz (nowBust : Z) : jsstring :=
  lit "https://docs.google.com/spreadsheets/d/1U3FZz4TCV3axNXy9U97xa9Zq85pCpTPZFNIy4Nfg7us/gviz/tq?tqx=out:json&cacheBust="
  ++ toString_radix 10 nowBust.

(** [purge = Boolean(body?.purge)] *)
Definition purge_flag (req : request) : bool :=
  truthy (opt_prop (body req) (lit "purge")).

(** [sheetUrlOverride]: a non-empty string [body.sheetUrl]. *)
Definition sheetUrlOverride (req : request) : option jsstring :=
  match opt_prop (body req) (lit "sheetUrl") with
  | Some (JStr u) => if is_empty u then None else Some u
  | _ => None
  end.

Definition targetUrl (now : Z) (req : request) : jsstring :=
  match sheetUrlOverride req with
  | Some u =>
      if includes u (lit "?")
      then u ++ lit "&cacheBust=" ++ toString_radix 10 now
      else u ++ lit "?cacheBust=" ++ toString_radix 10 now
  | None => defaultGviz now
  end.

(** From the fetch to [toInsert] and [rowsLength]. *)
Definition load_feed (now : Z) (req : request) : error + (list record * nat) :=
  let url := targetUrl now req in
  let res := fetch url in
  if negb (ok res) then inl (SheetFetchFailed (http_status res))
  else if includes url (lit "opensheet.elk.sh")
       then parse_opensheet JSON_parse now (text res)
       else parse_gviz JSON_parse now (text res).

(** The handler.  [env_ok] says that both secrets are configured; [now]
    is the reading of the clock for this run. *)
Definition serve (env_ok : bool) (now : Z) (req : request) (w : world)
  : response * world :=
  if is_options req then (NoContent204, w)
  else if negb env_ok then (MissingEnv500, w)
  else
    match load_feed now req with
    | inl e => (Error500 e, w)
    | inr (toInsert, rowsLength) =>
        match reconcile now (purge_flag req) toInsert w with
        | (inl e, w') => (Error500 e, w')
        | (inr (inserted, updated, purged), w') =>
            (Ok200 inserted updated purged rowsLength, w')
        end
    end.

End Serve.

(** ** Dashboard handlers *)

Inductive toast :=
| ToastAlreadyTaken
| ToastTakeFailed
| ToastTaken
| ToastCompleteFailed
| ToastCompleted.

(** An [update] with its filters and no [select]: the rows that match
    are rewritten; [updated_at] is set by the table's trigger.  The
    answer carries no row count, the number is returned here for the
    proofs only. *)
Definition update_where (p : order -> bool) (f : order -> order)
  (d : database) : nat * database :=
  (length (filter p (orders d)),
   {| orders := map (fun o => if p o then f o else o) (orders d);
      assignments := assignments d |}).

Definition insert_assignment (now : Z) (oid : nat) (uid : jsstring) (act : jsstring)
  (d : database) : unit * database :=
  (tt, {| orders := orders d;
          assignments := assignments d
            ++ [{| order_id := oid; user_id := uid; action := act; timestamp := now |}] |}).

Definition set_taken (now : Z) (userId : jsstring) (o : order) : order :=
  {| id := id o; source := source o; sheet_row_id := sheet_row_id o;
     client_name := client_name o; requirement_text := requirement_text o;
     price := price o; due_date := due_date o;
     status := taken;
     taken_by := Some userId;
     taken_at := Some now;
     completed_at := completed_at o; deliverable_link := deliverable_link o;
     raw_sheet_json := raw_sheet_json o; created_at := created_at o;
     updated_at := now;
     actual_amount := actual_amount o; editor_feedback := editor_feedback o |}.

Definition PGRST116 : jsstring := lit "PGRST116".

(** [.eq("id", orderId).eq("status", "available")] *)
Definition take_filter (orderId : nat) (o : order) : bool :=
  Nat.eqb (id o) orderId && status_eqb (status o) available.

Definition handleTakeOrder (userId : jsstring) (now : Z) (orderId : nat) (w : world)
  : toast * world :=
  match store_call (update_where (take_filter orderId) (set_taken now userId)) w with
  | (inl e, w') =>
      if jsstring_eqb (code e) PGRST116 then (ToastAlreadyTaken, w')
      else (ToastTakeFailed, w')
  | (inr _, w') =>
      let '(_, w'') := store_call (insert_assignment now orderId userId (lit "taken")) w' in
      (ToastTaken, w'')
  end.

Definition set_completed (now : Z) (deliverableLink : option jsstring)
  (actualAmount : option spec_float) (feedback : option jsstring) (o : order) : order :=
  {| id := id o; source := source o; sheet_row_id := sheet_row_id o;
     client_name := client_name o; requirement_text := requirement_text o;
     price := price o; due_date := due_date o;
     status := completed;
     taken_by := taken_by o;
     taken_at := taken_at o;
     completed_at := Some now;
     deliverable_link := deliverableLink;
     raw_sheet_json := raw_sheet_json o; created_at := created_at o;
     updated_at := now;
     actual_amount := actualAmount;
     editor_feedback := feedback |}.

(** [.eq("id", orderId).eq("taken_by", userId)] *)
Definition complete_filter (userId : jsstring) (orderId : nat) (o : order) : bool :=
  Nat.eqb (id o) orderId && sql_eq (taken_by o) userId.

(** [x || null] on an optional text of the form. *)
Definition or_null (x : option jsstring) : option jsstring :=
  match x with
  | Some s => if is_empty s then None else Some s
  | None => None
  end.

Section Complete.

(** [Number(text)] of the runtime. *)
Variable Number : jsstring -> spec_float.

(** The three arguments after [orderId] are the form's entries for this
    order: [deliverableLinks[orderId]], [actualAmounts[orderId]] and
    [feedbacks[orderId]]. *)
Definition handleCompleteOrder (userId : jsstring) (now : Z) (orderId : nat)
  (deliverableLink actualAmountRaw feedback : option jsstring) (w : world)
  : toast * world :=
  let actualAmount := option_map Number (or_null actualAmountRaw) in
  match store_call
          (update_where (complete_filter userId orderId)
             (set_completed now (or_null deliverableLink) actualAmount (or_null feedback)))
          w with
  | (inl e, w') => (ToastCompleteFailed, w')
  | (inr _, w') =>
      let '(_, w'') :=
        store_call (insert_assignment now orderId userId (lit "completed")) w' in
      (ToastCompleted, w'')
  end.

End Complete.

(** ** Row level security

    The policies of the migration on [orders] for the role
    [authenticated], under which the dashboards act; the Edge Function
    holds the service role and is not subject to them.  A policy
    expression admits a row when it is true of it; the expressions below
    are built of [OR] and [AND] only, so that a comparison with [NULL]
    counts as false. *)

(** The caller of a statement: [auth.uid()] and
    [has_role(auth.uid(), 'admin')]. *)
Record caller := {
  auth_uid : jsstring;
  has_role_admin : bool
}.

(** "Editors can take available orders", [FOR UPDATE]: [USING]. *)
Definition editors_using (c : caller) (o : order) : bool :=
  status_eqb (status o) available || sql_eq (taken_by o) (auth_uid c)
  || has_role_admin c.

(** "Editors can take available orders": [WITH CHECK]. *)
Definition editors_with_check (c : caller) (o : order) : bool :=
  (status_eqb (status o) taken && sql_eq (taken_by o) (auth_uid c))
  || (status_eqb (status o) completed && sql_eq (taken_by o) (auth_uid c))
  || has_role_admin c.

(** "Admins can manage all orders", [FOR ALL]: its [USING] expression is
    also its check. *)
Definition admins_manage (c : caller) (o : order) : bool := has_role_admin c.

Definition rls_violation : pgerror :=
  {| code := lit "42501";
     message := lit "new row violates row-level security policy for table "
                ++ [34] ++ lit "orders" ++ [34] |}.

(** An [update] of [orders] by an authenticated caller.  The policies
    are permissive: a row is a target when it matches the filters and one
    of the [USING] expressions; the statement fails, and changes
    nothing, when a rewritten row passes none of the checks. *)
Definition rls_update (c : caller) (p : order -> bool) (f : order -> order)
  (d : database) : pgerror + (nat * database) :=
  let target o := p o && (editors_using c o || admins_manage c o) in
  if forallb (fun o => implb (target o)
                         (editors_with_check c (f o) || admins_manage c (f o)))
       (orders d)
  then inr (update_where target f d)
  else inl rls_violation.

(** A call to the store that the database itself may refuse. *)
Definition store_try {A} (op : database -> pgerror + (A * database)) (w : world)
  : (pgerror + A) * world :=
  let rest := tl (pending w) in
  match pending w with
  | Some e :: _ => (inl e, {| db := db w; pending := rest |})
  | _ =>
      match op (db w) with
      | inl e => (inl e, {| db := db w; pending := rest |})
      | inr (a, d) => (inr a, {| db := d; pending := rest |})
      end
  end.

(** ** The editor's list of orders *)

(** What [toast.error], [toast.success] and [toast.info] are given. *)
Inductive sonner :=
| toast_error (msg : jsstring)
| toast_success (msg : jsstring)
| toast_info (msg : jsstring).

Definition set_left (now : Z) (o : order) : order :=
  {| id := id o; source := source o; sheet_row_id := sheet_row_id o;
     client_name := client_name o; requirement_text := requirement_text o;
     price := price o; due_date := due_date o;
     status := available;
     taken_by := None;
     taken_at := None;
     completed_at := completed_at o; deliverable_link := deliverable_link o;
     raw_sheet_json := raw_sheet_json o; created_at := created_at o;
     updated_at := now;
     actual_amount := actual_amount o; editor_feedback := editor_feedback o |}.

(** The caller is the editor of the session; [userId] is the property
    the page gives the list. *)
Definition handleLeaveOrder (c : caller) (userId : jsstring) (now : Z) (orderId : nat)
  (w : world) : sonner * world :=
  match store_try (rls_update c (complete_filter userId orderId) (set_left now)) w with
  | (inl _, w') => (toast_error (lit "Failed to leave order"), w')
  | (inr _, w') => (toast_success (lit "Order released back to available"), w')
  end.

Definition FAILED : jsstring := lit "FAILED".

Definition set_failed (now : Z) (o : order) : order :=
  {| id := id o; source := source o; sheet_row_id := sheet_row_id o;
     client_name := client_name o; requirement_text := requirement_text o;
     price := price o; due_date := due_date o;
     status := completed;
     taken_by := taken_by o;
     taken_at := taken_at o;
     completed_at := Some now;
     deliverable_link := Some FAILED;
     raw_sheet_json := raw_sheet_json o; created_at := created_at o;
     updated_at := now;
     actual_amount := actual_amount o; editor_feedback := editor_feedback o |}.

Definition handleFailOrder (c : caller) (userId : jsstring) (now : Z) (orderId : nat)
  (w : world) : sonner * world :=
  match store_try (rls_update c (complete_filter userId orderId) (set_failed now)) w with
  | (inl _, w') => (toast_error (lit "Failed to mark order as failed"), w')
  | (inr _, w') => (toast_success (lit "Order marked as failed"), w')
  end.

(** [a !== b] for a nullable text and a text. *)
Definition js_neq (a : option jsstring) (b : jsstring) : bool :=
  match a with
  | Some x => negb (jsstring_eqb x b)
  | None => true
  end.

(** The two tabs of the list, from the rows it holds. *)
Definition takenOrders (rows : list order) : list order :=
  filter (fun o => status_eqb (status o) taken) rows.

Definition completedOrders (rows : list order) : list order :=
  filter (fun o => status_eqb (status o) completed && js_neq (deliverable_link o) FAILED)
    rows.

(** ** Reads of the dashboards

    A [select] on [orders] by an authenticated caller sees every row
    (policy "Authenticated users can view orders").  The rows come in
    the order of the table; a page limit of the API is not part of the
    program and is not modelled. *)

Definition select_where (p : order -> bool) (d : database) : list order * database :=
  (filter p (orders d), d).

(** [select("*", { count: "exact", head: true })] with its filters. *)
Definition count_where (p : order -> bool) (d : database) : nat * database :=
  (length (filter p (orders d)), d).

(** The Number a stored price is read as. *)
Definition number_of_jsint (v : jsint) : spec_float :=
  match v with
  | JInt z => number_of_Z z
  | JPosInf => S754_infinity false
  | JNegInf => S754_infinity true
  | JNaN => S754_nan
  end.

(** [x || 0] on a Number: 0, -0 and NaN are falsy. *)
Definition or_zero (x : spec_float) : spec_float :=
  match x with
  | S754_zero _ | S754_nan => S754_zero false
  | _ => x
  end.

(** [count || 0]: the count is [null] when the query fails. *)
Definition count_or_0 (r : pgerror + nat) : nat :=
  match r with
  | inr n => n
  | inl _ => 0%nat
  end.

Module AdminStats.

Record stats := {
  totalOrders : nat;
  availableOrders : nat;
  completedOrders : nat;
  totalRevenue : spec_float
}.

(** [Number(order.actual_amount ?? order.price ?? 0)]; the price is
    never [NULL]. *)
Definition amount_of (o : order) : spec_float :=
  match actual_amount o with
  | Some a => a
  | None => number_of_jsint (price o)
  end.

(** [revenueData?.reduce((sum, order) => sum + ..., 0) || 0] *)
Definition sum_revenue (revenueData : pgerror + list order) : spec_float :=
  match revenueData with
  | inr rows =>
      or_zero (fold_left (fun sum o => SFadd prec emax sum (amount_of o)) rows
                 (S754_zero false))
  | inl _ => S754_zero false
  end.

(** [.eq("status", "completed").neq("deliverable_link", "FAILED")] *)
Definition revenue_filter (o : order) : bool :=
  status_eqb (status o) completed && sql_neq (deliverable_link o) FAILED.

Definition fetchStats (w : world) : stats * world :=
  let '(total, w1) := store_call (count_where (fun _ => true)) w in
  let '(avail, w2) :=
    store_call (count_where (fun o => status_eqb (status o) available)) w1 in
  let '(done, w3) :=
    store_call (count_where (fun o => status_eqb (status o) completed)) w2 in
  let '(revenueData, w4) := store_call (select_where revenue_filter) w3 in
  ({| totalOrders := count_or_0 total;
      availableOrders := count_or_0 avail;
      completedOrders := count_or_0 done;
      totalRevenue := sum_revenue revenueData |}, w4).

End AdminStats.

(** ** The details of an order

    [extractFromSheet] of the grid of available orders and of the
    admin's table: the cells of the stored row, by position. *)

(** [v?.[i]] *)
Definition opt_index (v : option json) (i : nat) : option json :=
  match index v i with
  | inr x => x
  | inl _ => None
  end.

(** [get(idx)]: [(cell?.f ?? cell?.v) ?? null] for [cell = raw?.c?.[idx]].
    No step of it can throw, so the [catch] is never entered. *)
Definition sheet_get (raw : option json) (idx : nat) : json :=
  let cell := opt_index (opt_prop raw (lit "c")) idx in
  nullish (opt_prop cell (lit "f"))
    (nullish (opt_prop cell (lit "v")) JNull (fun v => v))
    (fun v => v).

Record sheet_details := {
  sd_timestamp : json;
  sd_service : json;
  sd_description : json;
  sd_budget : json;
  sd_timeline : json;
  sd_fullName : json;
  sd_email : json;
  sd_phone : json;
  sd_whatsapp : json
}.

Definition extractFromSheet (o : option order) : sheet_details :=
  let raw := match o with Some x => raw_sheet_json x | None => None end in
  {| sd_timestamp := sheet_get raw 0;
     sd_service := sheet_get raw 1;
     sd_description := sheet_get raw 2;
     sd_budget := sheet_get raw 3;
     sd_timeline := sheet_get raw 4;
     sd_fullName := sheet_get raw 5;
     sd_email := sheet_get raw 6;
     sd_phone := sheet_get raw 7;
     sd_whatsapp := sheet_get raw 8 |}.

(** ** Categories of the pie chart *)

(** [s.split(sep)[0]]: the text before the first [sep]. *)
Definition split_head (sep s : jsstring) : jsstring :=
  match indexOf sep s with
  | Some i => firstn i s
  | None => s
  end.

Definition Uncategorized : jsstring := lit "Uncategorized".

Definition extractCategory (req : option jsstring) : jsstring :=
  match req with
  | None => Uncategorized
  | Some r =>
      if is_empty r then Uncategorized
      else or_else (trim (split_head em_dash_sep r)) Uncategorized
  end.

(** ** The refresh buttons

    Each posts a body to the Edge Function; [now] is the reading of the
    browser's clock. *)

Definition sheetExportUrl (now : Z) : jsstring :=
  lit "https://docs.google.com/spreadsheets/d/1U3FZz4TCV3axNXy9U97xa9Zq85pCpTPZFNIy4Nfg7us/gviz/tq?tqx=out:json&gid=2062186565&cacheBust="
  ++ toString_radix 10 now.

Module OrdersGrid.

(** The request [handleRefresh] sends:
    [supabase.functions.invoke("sync-sheet", { body: { sheetUrl, user } })]. *)
Definition sync_request (now : Z) : request :=
  {| is_options := false;
     body := Some (JObj [ (lit "sheetUrl", JStr (sheetExportUrl now));
                          (lit "user", JStr (lit "celite")) ]) |}.

End OrdersGrid.

(** The sources hold two versions of the admin's button.  The
    component at [src/components/admin/AdminRefreshButton.tsx], which the
    admin page mounts, names the sheet only when the build sets
    [VITE_SHEET_URL] and never asks for a purge.  The other version
    ([_purging] below) names the sheet's export address and asks for a
    purge.  What follows the [fetch] is the same text in both. *)
Module AdminRefreshButton.

(** The body of the mounted component:
    [{ ...(import.meta.env.VITE_SHEET_URL ? { sheetUrl } : {}), user }].
    The variable is a text or is not defined; the empty text is falsy. *)
Definition sync_request (VITE_SHEET_URL : option jsstring) : request :=
  {| is_options := false;
     body := Some (JObj ((match VITE_SHEET_URL with
                          | Some u => if is_empty u then []
                                      else [ (lit "sheetUrl", JStr u) ]
                          | None => []
                          end)
                         ++ [ (lit "user", JStr (lit "celite")) ])) |}.

(** The body of the other version: [{ sheetUrl, user, purge: true }]. *)
Definition sync_request_purging (now : Z) : request :=
  {| is_options := false;
     body := Some (JObj [ (lit "sheetUrl", JStr (sheetExportUrl now));
                          (lit "user", JStr (lit "celite"));
                          (lit "purge", JBool true) ]) |}.

Section Refresh.

Variable JSON_parse : jsstring -> option json.
Variable fetch : jsstring -> fetch_response.

(** The texts the engine gives a [SyntaxError] and a [TypeError]. *)
Variable SyntaxError_message : jsstring.
Variable TypeError_message : jsstring.

(** [(e as Error).message], the [error] of a 500 answer. *)
Definition error_message (e : error) : jsstring :=
  match e with
  | InvalidGvizJsonp => lit "Invalid GViz JSONP"
  | SyntaxError => SyntaxError_message
  | MissingColumn label => lit "Missing column: " ++ label
  | SheetFetchFailed st => lit "Sheet fetch failed: " ++ toString_radix 10 st
  | NotAnArray => lit "OpenSheet response not an array"
  | TypeError => TypeError_message
  | StoreFailure e => message e
  end.

(** From the [fetch] on, in both versions: the answer is read as JSON;
    an answer that is not [ok] is thrown as
    [json?.error || `HTTP ${res.status}`] and shown as a failure, any
    other is shown as a success with the number of inserted orders when
    the answer carries one. *)
Definition post (req : request) (env_ok : bool) (server_now : Z) (w : world)
  : sonner * world :=
  let '(res, w') := serve JSON_parse fetch env_ok server_now req w in
  (match res with
   | NoContent204 => toast_success (lit "Refreshed")
   | MissingEnv500 => toast_error (lit "Refresh failed: " ++ lit "Missing Supabase env")
   | Error500 e =>
       toast_error (lit "Refresh failed: " ++ or_else (error_message e) (lit "HTTP 500"))
   | Ok200 inserted _ _ _ =>
       toast_success (lit "Refreshed" ++ lit ", inserted "
                      ++ toString_radix 10 (Z.of_nat inserted))
   end, w').

(** [handleRefresh] of the mounted component. *)
Definition handleRefresh (VITE_SHEET_URL : option jsstring) (env_ok : bool)
  (server_now : Z) (w : world) : sonner * world :=
  post (sync_request VITE_SHEET_URL) env_ok server_now w.

(** [handleRefresh] of the other version. *)
Definition handleRefresh_purging (env_ok : bool) (client_now server_now : Z) (w : world)
  : sonner * world :=
  post (sync_request_purging client_now) env_ok server_now w.

End Refresh.

End AdminRefreshButton.

(** ** The first version of the function

    The function as it was before the reconciliation was added: the
    wrapped variant only, a budget read from its digits, an identity by
    position, and inserts only. *)

Module FirstSync.

(** [budget.replace(/[^0-9]/g, "")], then [Number] of the digits.  The
    Number of a text of digits is the nearest to the integer they write;
    it is integral or +Infinity, and is kept as such. *)
Definition parseBudgetToNumber (budget : option jsstring) : jsint :=
  match budget with
  | None => JInt 0
  | Some b =>
      if is_empty b then JInt 0
      else
        let cleaned := filter is_digit b in
        if is_empty cleaned then JInt 0
        else Math_round (number_of_Z (digits_value 0 cleaned))
  end.

(** [`row-${idx + 1}`] *)
Definition row_id (idx : nat) : jsstring :=
  lit "row-" ++ toString_radix 10 (Z.of_nat (idx + 1)).

(** The callback of [rows.map]: a record for every row. *)
Definition record_of_fields (now : Z) (row : json) (idx : nat) (f : fields) : record :=
  {| rec_client_name := or_else (f_name f) (lit "Client");
     rec_requirement_text :=
       join em_dash_sep
         (filter (fun x => negb (is_empty x)) [f_service f; f_desc f]);
     rec_price := parseBudgetToNumber (Some (f_budgetRaw f));
     rec_due_date := mapTimelineToDueDate now (Some (f_timeline f));
     rec_sheet_row_id := or_else (f_timestamp f) (row_id idx);
     rec_raw_sheet_json := row |}.

(** [rows.map((row, idx) => ...)], stopping at the first exception. *)
Fixpoint map_rows (now : Z) (colIndex : list (jsstring * nat)) (rows : list json)
  (idx : nat) : error + list record :=
  match rows with
  | [] => inr []
  | row :: rows' =>
      match gviz_fields colIndex row with
      | inl e => inl e
      | inr f =>
          match map_rows now colIndex rows' (S idx) with
          | inl e => inl e
          | inr rs => inr (record_of_fields now row idx f :: rs)
          end
      end
  end.

Section Handler.

Variable JSON_parse : jsstring -> option json.
Variable fetch : jsstring -> fetch_response.

Definition SHEET_GVIZ_URL : jsstring :=
  lit "https://docs.google.com/spreadsheets/d/1U3FZz4TCV3axNXy9U97xa9Zq85pCpTPZFNIy4Nfg7us/gviz/tq?tqx=out:json".

(** From the fetch to [toInsert]. *)
Definition load_feed (now : Z) : error + list record :=
  let res := fetch SHEET_GVIZ_URL in
  if negb (ok res) then inl (SheetFetchFailed (http_status res))
  else
    match parseGvizJsonp JSON_parse (text res) with
    | inl e => inl e
    | inr gviz =>
    match prop (Some gviz) (lit "table") with
    | inl e => inl e
    | inr table =>
    match prop table (lit "cols") with
    | inl e => inl e
    | inr (Some (JArr cols)) =>
        match build_colIndex cols 0 [] with
        | inl e => inl e
        | inr colIndex =>
            match check_required required colIndex with
            | Some e => inl e
            | None =>
                match prop table (lit "rows") with
                | inl e => inl e
                | inr (Some (JArr rows)) => map_rows now colIndex rows 0
                | inr _ => inl TypeError
                end
            end
        end
    | inr _ => inl TypeError
    end end end.

(** [from("orders").select("sheet_row_id")] *)
Definition select_ids (d : database) : list (option jsstring) * database :=
  (map sheet_row_id (orders d), d).

(** [new Set(existing.map(r => r.sheet_row_id).filter(Boolean))] *)
Definition existingSet (existing : list (option jsstring)) : list jsstring :=
  flat_map (fun i => match i with
                     | Some k => if is_empty k then [] else [k]
                     | None => []
                     end) existing.

Definition set_has (k : jsstring) (s : list jsstring) : bool :=
  existsb (jsstring_eqb k) s.

(** The part of the handler that talks to the store: the number of
    inserted records. *)
Definition insert_new (now : Z) (toInsert : list record) : M nat :=
  existing <- call select_ids ;;
  let newRecords :=
    filter (fun r => negb (set_has (rec_sheet_row_id r) (existingSet existing)))
      toInsert in
  if (0 <? length newRecords)%nat
  then (_ <- call (insert_orders now newRecords) ;; ret (length newRecords))
  else ret 0%nat.

Inductive response :=
| NoContent204
| MissingEnv500
| Error500 (e : error)
| Ok200 (inserted totalRows : nat).

Definition serve (env_ok : bool) (now : Z) (is_options : bool) (w : world)
  : response * world :=
  if is_options then (NoContent204, w)
  else if negb env_ok then (MissingEnv500, w)
  else
    match load_feed now with
    | inl e => (Error500 e, w)
    | inr toInsert =>
        match insert_new now toInsert w with
        | (inl e, w') => (Error500 e, w')
        | (inr inserted, w') => (Ok200 inserted (length toInsert), w')
        end
    end.

End Handler.

End FirstSync.

(** [array.sort((a, b) => key(b) - key(a))] on whole keys: the elements
    by descending key, those of equal key in the order they had. *)
Fixpoint insert_desc {A} (key : A -> nat) (x : A) (l : list A) : list A :=
  match l with
  | [] => [x]
  | y :: l' => if (key y <=? key x)%nat then x :: l else y :: insert_desc key x l'
  end.

Definition sort_desc {A} (key : A -> nat) (l : list A) : list A :=
  fold_right (insert_desc key) [] l.

Module CategoryPieChart.

Record slice := {
  name : jsstring;
  value : nat;
  revenue : spec_float;
  success : nat;
  failed : nat
}.

(** [Number(o.price || 0)]: 0 and NaN are falsy. *)
Definition price_or_0 (o : order) : spec_float :=
  match price o with
  | JInt 0 | JNaN => S754_zero false
  | p => number_of_jsint p
  end.

(** One order added to the record [rec] of its category. *)
Definition add_order (o : order) (rec : slice) : slice :=
  if status_eqb (status o) completed
  then {| name := name rec; value := S (value rec);
          revenue := SFadd prec emax (revenue rec) (price_or_0 o);
          success := S (success rec); failed := failed rec |}
  else {| name := name rec; value := S (value rec); revenue := revenue rec;
          success := success rec; failed := failed rec |}.

(** The body of the loop on the map, whose keys keep the order of their
    first insertion: a category that is not in the map gets a record of
    zeros, then the record of the category takes the order. *)
Fixpoint tally (cat : jsstring) (o : order) (m : list slice) : list slice :=
  match m with
  | [] =>
      [add_order o {| name := cat; value := 0; revenue := S754_zero false;
                      success := 0; failed := 0 |}]
  | rec :: m' =>
      if jsstring_eqb (name rec) cat then add_order o rec :: m'
      else rec :: tally cat o m'
  end.

Definition pieData (orders : list order) : list slice :=
  let map :=
    fold_left (fun m o => tally (extractCategory (Some (requirement_text o))) o m)
      orders [] in
  firstn 8 (sort_desc value map).

End CategoryPieChart.

(** ** The performance of the editors

    [editorRoles] is what the query on the roles gives: for each
    editor the key of the user and the profile that is joined to it, or
    [null] when the query fails. *)

Module EditorPerformance.

Record profile := {
  full_name : option jsstring;
  profile_email : option jsstring
}.

Record EditorStats := {
  id : jsstring;
  name : jsstring;
  email : jsstring;
  total_orders : nat;
  completed_orders : nat;
  in_progress : nat;
  total_revenue : spec_float
}.

(** [revenueData?.reduce((sum, order) => sum + Number(order.price), 0) || 0] *)
Definition sum_prices (revenueData : pgerror + list order) : spec_float :=
  match revenueData with
  | inr rows =>
      or_zero (fold_left (fun sum o => SFadd prec emax sum (number_of_jsint (price o)))
                 rows (S754_zero false))
  | inl _ => S754_zero false
  end.

(** [x || d] on an optional text. *)
Definition text_or (x : option jsstring) (d : jsstring) : jsstring :=
  match x with
  | Some s => or_else s d
  | None => d
  end.

(** The body of the loop for one editor. *)
Definition editor_stats (userId : jsstring) (p : option profile) (w : world)
  : EditorStats * world :=
  let mine o := sql_eq (taken_by o) userId in
  let '(totalOrders, w1) := store_call (count_where mine) w in
  let '(completedOrders, w2) :=
    store_call (count_where (fun o => mine o && status_eqb (status o) completed)) w1 in
  let '(inProgress, w3) :=
    store_call (count_where (fun o => mine o && status_eqb (status o) taken)) w2 in
  let '(revenueData, w4) :=
    store_call (select_where (fun o => mine o && status_eqb (status o) completed)) w3 in
  ({| id := userId;
      name := text_or (match p with Some x => full_name x | None => None end)
                (lit "Unknown");
      email := text_or (match p with Some x => profile_email x | None => None end) [];
      total_orders := count_or_0 totalOrders;
      completed_orders := count_or_0 completedOrders;
      in_progress := count_or_0 inProgress;
      total_revenue := sum_prices revenueData |}, w4).

Fixpoint each_editor (editorRoles : list (jsstring * option profile)) (w : world)
  : list EditorStats * world :=
  match editorRoles with
  | [] => ([], w)
  | (userId, p) :: rest =>
      let '(s, w1) := editor_stats userId p w in
      let '(ss, w2) := each_editor rest w1 in
      (s :: ss, w2)
  end.

(** The editors that are set, if any are. *)
Definition fetchEditorPerformance (editorRoles : option (list (jsstring * option profile)))
  (w : world) : option (list EditorStats) * world :=
  match editorRoles with
  | None => (None, w)
  | Some l => let '(editorStats, w') := each_editor l w in (Some editorStats, w')
  end.

End EditorPerformance.

(** ** The bar of the monthly revenue *)

(** [Math.max(a, b)] and [Math.min(a, b)] on Numbers: NaN when an
    argument is; of the two zeros, +0 is the greater. *)
Definition Math_max2 (a b : spec_float) : spec_float :=
  match SFcompare a b with
  | None => S754_nan
  | Some Lt => b
  | Some Gt => a
  | Some Eq =>
      match a, b with
      | S754_zero true, S754_zero false => b
      | _, _ => a
      end
  end.

Definition Math_min2 (a b : spec_float) : spec_float :=
  match SFcompare a b with
  | None => S754_nan
  | Some Lt => a
  | Some Gt => b
  | Some Eq =>
      match a, b with
      | S754_zero false, S754_zero true => b
      | _, _ => a
      end
  end.

Module MonthlyRevenueBar.

(** [percent]: the share of the threshold that the revenue makes, cut
    to the range of the bar. *)
Definition percent (revenue threshold : spec_float) : spec_float :=
  if SFleb threshold (S754_zero false) then S754_zero false
  else
    Math_min2 (number_of_Z 100)
      (Math_max2 (S754_zero false)
         (SFmul prec emax (SFdiv prec emax revenue threshold) (number_of_Z 100))).

End MonthlyRevenueBar.

(** * Vocabulary of the statements *)

Definition nonneg_number (x : spec_float) : Prop :=
  match x with
  | S754_zero false | S754_finite false _ _ | S754_infinity false => True
  | _ => False
  end.

(** The order of the integral Numbers that are not NaN. *)
Definition jsint_le (a b : jsint) : Prop :=
  match a, b with
  | JNaN, _ | _, JNaN => False
  | JNegInf, _ | _, JPosInf => True
  | JInt x, JInt y => x <= y
  | _, _ => False
  end.

(** A non-negative integer or +Infinity: what the budget parser pushes. *)
Definition amount (v : jsint) : Prop :=
  match v with
  | JInt z => 0 <= z
  | JPosInf => True
  | _ => False
  end.

(** The text the budget pattern is run on. *)
Definition budget_text (b : jsstring) : jsstring :=
  normalize_dashes (trim (toLowerCase b)).

(** The value of one match when no match is left out: scaled and
    rounded, whatever the parsed number is. *)
Definition scaled_and_rounded (m : captures) : jsint :=
  Math_round
    (scale (toLowerCase (capture_or_empty 2 m))
       (parseFloat (strip_separators (capture_or_empty 1 m)))).

(** The maximum over all matches, or 0 when there is none. *)
Definition max_of_all_matches (b : jsstring) : jsint :=
  match map scaled_and_rounded (budget_matches (budget_text b)) with
  | [] => JInt 0
  | vs => Math_max vs
  end.

(** [p] occurs in [s]. *)
Definition occurs (p s : jsstring) : Prop :=
  exists pre post, s = pre ++ p ++ post.

(** The code unit [c] is the letter [x] up to case: [x] itself, its
    ASCII capital, or the Kelvin sign for [k]. *)
Definition same_letter (c x : Z) : Prop :=
  c = x \/ (65 <= c <= 90 /\ x = c + 32) \/ (c = 8490 /\ x = 107).

(** [p] occurs in [t] up to case. *)
Definition occurs_ci (p t : jsstring) : Prop :=
  exists pre mid post, t = pre ++ mid ++ post /\ Forall2 same_letter mid p.

(** A pattern in small letters, digits and signs: each of its code units
    is its own lower-case form and none is part of the two-unit form of
    U+0130. *)
Definition plain_unit (x : Z) : bool :=
  negb ((65 <=? x) && (x <=? 90)) && negb (x =? 8490) && negb (x =? 304)
  && negb (x =? 105) && negb (x =? 775).

Definition plain (p : jsstring) : bool :=
  negb (is_empty p) && forallb plain_unit p.

(** The text [t] contains the word [p], compared up to case. *)
Definition mentions (t : jsstring) (p : string) : Prop := occurs_ci (lit p) t.

(** The polynomial of the rolling hash, without wrap-around:
    [5381 * 33^n + c_1 * 33^(n-1) + ... + c_n]. *)
Definition djb2_poly (input : jsstring) : Z :=
  fold_left (fun h c => 33 * h + c) input 5381.

(** The value of a digit [0-9a-z] and of a text in a radix. *)
Definition digit_value (d : Z) : Z := if d <? 58 then d - 48 else d - 87.

Definition of_radix (radix : Z) (ds : jsstring) : Z :=
  fold_left (fun acc d => acc * radix + digit_value d) ds 0.

Definition is_radix36_digit (d : Z) : Prop :=
  48 <= d <= 57 \/ 97 <= d <= 122.

(** The part of the engine that does not depend on the answers of the
    backend: what a run that is not interrupted makes of the table. *)

Definition existing_of (os : list order) : existing_map :=
  build_existingMap (map (fun o => (sheet_row_id o, status o, taken_by o)) os) [].

(** Some persisted order carries the identity [i]. *)
Definition persisted (i : jsstring) (os : list order) : bool :=
  existsb (fun o => sql_eq (sheet_row_id o) i) os.

(** The number of persisted orders with the identity [i]. *)
Definition count_identity (i : jsstring) (os : list order) : nat :=
  length (filter (fun o => sql_eq (sheet_row_id o) i) os).

(** The number of parsed records with the identity [i]. *)
Definition count_parsed (i : jsstring) (rs : list record) : nat :=
  length (filter (fun r => jsstring_eqb (rec_sheet_row_id r) i) rs).

Definition newRecords_of (toInsert : list record) (os : list order) : list record :=
  filter (fun r => negb (map_has (rec_sheet_row_id r) (existing_of os))) toInsert.

Definition updateRecords_of (toInsert : list record) (os : list order) : list record :=
  filter (fun r => map_has (rec_sheet_row_id r) (existing_of os)) toInsert.

(** One row after the updates of the records [rs], in their order. *)
Definition updated_row (now : Z) (rs : list record) (o : order) : order :=
  fold_left (fun o r => if sql_eq (sheet_row_id o) (rec_sheet_row_id r)
                        then apply_update now r o else o) rs o.

Definition staleIds_of (toInsert : list record) (os : list order) : list jsstring :=
  filter (fun k => negb (existsb (jsstring_eqb k) (map rec_sheet_row_id toInsert)))
    (map fst (existing_of os)).

(** The table after the inserts and the updates of a run. *)
Definition upserted (now : Z) (toInsert : list record) (os : list order) : list order :=
  map (updated_row now (updateRecords_of toInsert os))
    (insert_rows now (newRecords_of toInsert os) os).

(** The table after a whole run. *)
Definition reconciled (now : Z) (purge : bool) (toInsert : list record)
  (os : list order) : list order :=
  if purge then
    filter (fun o => negb (sql_in (sheet_row_id o) (staleIds_of toInsert os)))
      (filter (fun o => negb (sql_neq (source o) google_sheet))
         (upserted now toInsert os))
  else upserted now toInsert os.


(** What an update leaves alone: the key, the identity and every
    workflow column. *)
Definition same_workflow (o o' : order) : Prop :=
  id o' = id o /\ sheet_row_id o' = sheet_row_id o /\
  status o' = status o /\ taken_by o' = taken_by o /\ taken_at o' = taken_at o /\
  completed_at o' = completed_at o /\ deliverable_link o' = deliverable_link o /\
  created_at o' = created_at o /\ actual_amount o' = actual_amount o /\
  editor_feedback o' = editor_feedback o.

(** The last parsed record with the identity [i], if any: the one whose
    update is applied last. *)
Definition last_parsed_from (acc : option record) (i : jsstring) (rs : list record)
  : option record :=
  fold_left (fun acc r => if jsstring_eqb i (rec_sheet_row_id r) then Some r else acc)
    rs acc.

Definition last_parsed (i : jsstring) (rs : list record) : option record :=
  last_parsed_from None i rs.

(** The rows of a decoded feed, before any filtering. *)
Definition opensheet_rows (JSON_parse : jsstring -> option json) (body : jsstring)
  : option (list json) :=
  match JSON_parse body with
  | Some (JArr rows) => Some rows
  | _ => None
  end.

Definition gviz_rows (JSON_parse : jsstring -> option json) (text : jsstring)
  : option (list json) :=
  match parseGvizJsonp JSON_parse text with
  | inr gviz =>
      match prop (Some gviz) (lit "table") with
      | inr table =>
          match prop table (lit "rows") with
          | inr (Some (JArr rows)) => Some rows
          | _ => None
          end
      | inl _ => None
      end
  | inl _ => None
  end.

(** The feed variant is read off the URL. *)
Definition is_array_variant (url : jsstring) : bool :=
  includes url (lit "opensheet.elk.sh").

Definition feed_rows (JSON_parse : jsstring -> option json)
  (fetch : jsstring -> fetch_response) (now : Z) (req : request) : option (list json) :=
  let url := targetUrl now req in
  if is_array_variant url then opensheet_rows JSON_parse (text (fetch url))
  else gviz_rows JSON_parse (text (fetch url)).

(** A row is discarded when its service and its description are both
    empty. *)
Definition blank (f : fields) : bool := is_empty (f_service f) && is_empty (f_desc f).

(** A map callback: the reads of the fields, then the record. *)
Definition callback (read : json -> error + fields) (now : Z) (row : json)
  : error + option record :=
  match read row with
  | inl e => inl e
  | inr f => inr (record_of_fields now row f)
  end.

(** The offset in days that the timeline rules give, if any. *)
Definition timeline_days (timeline : jsstring) : option Z :=
  option_map (fun d => d / ms_per_day) (mapTimelineToDueDate 0 (Some timeline)).

(** Two records parsed from the same row at the clock readings [now1]
    and [now2]: everything is equal but the due date, which is moved with
    the clock. *)
Definition same_but_due_date (now1 now2 : Z) (r1 r2 : record) : Prop :=
  rec_client_name r1 = rec_client_name r2 /\
  rec_requirement_text r1 = rec_requirement_text r2 /\
  rec_price r1 = rec_price r2 /\
  rec_sheet_row_id r1 = rec_sheet_row_id r2 /\
  rec_raw_sheet_json r1 = rec_raw_sheet_json r2 /\
  exists days : option Z,
    rec_due_date r1 = option_map (addDays now1) days /\
    rec_due_date r2 = option_map (addDays now2) days.

(** What every parsed record has: an identity and a requirement text. *)
Definition well_parsed (r : record) : Prop :=
  rec_sheet_row_id r <> [] /\ rec_requirement_text r <> [].

(** ** A small feed for the closed statements

    Rows of the array variant without a timestamp; the [note] column is
    not one the program reads. *)

Definition sample_row (service desc budget timeline note : string) : json :=
  JObj [ (lit "Full Name", JStr (lit "Asha"));
         (lit "Service", JStr (lit service));
         (lit "Description", JStr (lit desc));
         (lit "Budget", JStr (lit budget));
         (lit "Timeline", JStr (lit timeline));
         (lit "note", JStr (lit note)) ].

Definition sample_request (purge : bool) : request :=
  {| is_options := false;
     body := Some (JObj [ (lit "purge", JBool purge);
                          (lit "sheetUrl", JStr (lit "https://opensheet.elk.sh/sheet/1")) ]) |}.

Definition sample_fetch (url : jsstring) : fetch_response :=
  {| ok := true; http_status := 200; text := [] |}.

Definition empty_world : world :=
  {| db := {| orders := []; assignments := [] |}; pending := [] |}.

Definition world_of (os : list order) : world :=
  {| db := {| orders := os; assignments := [] |}; pending := [] |}.

(** A row of the array variant with a timestamp. *)
Definition sample_row_at (timestamp service desc budget timeline : string) : json :=
  JObj [ (lit "Timestamp", JStr (lit timestamp));
         (lit "Full Name", JStr (lit "Asha"));
         (lit "Service", JStr (lit service));
         (lit "Description", JStr (lit desc));
         (lit "Budget", JStr (lit budget));
         (lit "Timeline", JStr (lit timeline)) ].

(** A persisted order that an editor has taken. *)
Definition sample_taken_order (key : nat) (identity : option jsstring)
  (src : option jsstring) : order :=
  {| id := key;
     source := src;
     sheet_row_id := identity;
     client_name := lit "Asha";
     requirement_text := lit "Reel";
     price := JInt 10000;
     due_date := None;
     status := taken;
     taken_by := Some (lit "editor-1");
     taken_at := Some 5;
     completed_at := None;
     deliverable_link := None;
     raw_sheet_json := None;
     created_at := 1;
     updated_at := 5;
     actual_amount := None;
     editor_feedback := None |}.


(** The key a column contributes to [colIndex]: the text of its label. *)
Definition column_label (c : json) : option jsstring :=
  match prop (Some c) (lit "label") with
  | inr (Some v) => Some (String_of v)
  | inr None => Some (lit "undefined")
  | inl _ => None
  end.

(** An order its editor has completed. *)
Definition sample_completed_order (key : nat) : order :=
  {| id := key;
     source := Some google_sheet;
     sheet_row_id := Some (lit "3/1/2025 10:00:00");
     client_name := lit "Asha";
     requirement_text := lit "Reel";
     price := JInt 10000;
     due_date := None;
     status := completed;
     taken_by := Some (lit "editor-1");
     taken_at := Some 5;
     completed_at := Some 50;
     deliverable_link := Some (lit "https://example.org/first");
     raw_sheet_json := None;
     created_at := 1;
     updated_at := 50;
     actual_amount := None;
     editor_feedback := None |}.

(** The number of rows an update with the filter [p] touches. *)
Definition affected (p : order -> bool) (os : list order) : nat :=
  length (filter p os).

(** The rows of the feed that are not discarded. *)
Definition kept_rows (read : json -> error + fields) (rows : list json) : list json :=
  filter (fun row => match read row with
                     | inr f => negb (blank f)
                     | inl _ => false
                     end) rows.

(** ** What a pattern matches

    The texts of a pattern, declaratively: [matches r w c c'] says that
    [r] can consume exactly [w], taking the captures from [c] to [c'].
    The order in which a backtracking matcher tries the alternatives is
    not part of it. *)
Inductive matches : regex -> jsstring -> captures -> captures -> Prop :=
| MEmpty c : matches REmpty [] c c
| MClass (p : Z -> bool) x c : p x = true -> matches (RClass p) [x] c c
| MSeq a b w1 w2 c c1 c2 :
    matches a w1 c c1 -> matches b w2 c1 c2 -> matches (RSeq a b) (w1 ++ w2) c c2
| MAltL a b w c c' : matches a w c c' -> matches (RAlt a b) w c c'
| MAltR a b w c c' : matches b w c c' -> matches (RAlt a b) w c c'
| MRepStop hi a c : matches (RRep 0 hi a) [] c c
| MRepMore lo hi a w1 w2 c c1 c2 :
    hi <> Some 0%nat -> w1 <> [] ->
    matches a w1 c c1 ->
    matches (RRep (pred lo) (option_map pred hi) a) w2 c1 c2 ->
    matches (RRep lo hi a) (w1 ++ w2) c c2
| MGroup n a w c c' : matches a w c c' -> matches (RGroup n a) w c ((n, w) :: c').

(** The matches found in a text are matches of the pattern, one after
    the other. *)
Inductive scanned (r : regex) : jsstring -> list captures -> Prop :=
| ScanEnd s : scanned r s []
| ScanMatch pre w rest caps ms :
    matches r w [] caps -> scanned r rest ms ->
    scanned r (pre ++ w ++ rest) (caps :: ms).

(** A matcher that only succeeds by consuming a text of the pattern. *)
Definition sound {R} (m : matcher R) (r : regex) : Prop :=
  forall s c k x,
    m s c k = Some x ->
    exists w s' c', s = w ++ s' /\ matches r w c c' /\ k s' c' = Some x.

(** The shape of the number of a budget: one to three digits followed
    by groups of two or three digits, each after a comma or a space; or
    digits, optionally followed by a point and digits. *)
Definition digits (w : jsstring) : Prop := Forall (fun c => is_digit c = true) w.

Definition is_sep (c : Z) : bool := (c =? 44) || is_space c.

Inductive digit_groups : jsstring -> Prop :=
| GroupLast sep g :
    is_sep sep = true -> digits g -> (2 <= length g <= 3)%nat ->
    digit_groups (sep :: g)
| GroupMore sep g t :
    is_sep sep = true -> digits g -> (2 <= length g <= 3)%nat ->
    digit_groups t -> digit_groups ((sep :: g) ++ t).

Definition number_text (w : jsstring) : Prop :=
  (exists d t, w = d ++ t /\ digits d /\ (1 <= length d <= 3)%nat /\ digit_groups t) \/
  (digits w /\ w <> []) \/
  (exists ip fp, w = ip ++ 46 :: fp /\ digits ip /\ ip <> [] /\ digits fp /\ fp <> []).

Definition suffix_text (w : jsstring) : Prop :=
  In w [lit "k"; lit "m"; lit "l"; lit "lac"; lit "lakh"; lit "lakhs"; lit "cr"; lit "crore"].

(** One match of the budget pattern: a number, white space, and
    optionally a suffix; the captures are the number and the suffix. *)
Definition budget_match (w : jsstring) (caps : captures) : Prop :=
  exists num ws suf,
    w = num ++ ws ++ suf /\
    number_text num /\
    Forall (fun c => is_space c = true) ws /\
    capture 1 caps = Some num /\
    ((suf = [] /\ capture 2 caps = None) \/
     (suffix_text suf /\ capture 2 caps = Some suf)).

(** The [while] loop over [re.exec], as a relation: it stops at the
    first [null]. *)
Inductive exec_loop (r : regex) : jsstring -> list captures -> Prop :=
| LoopDone s : exec r s = None -> exec_loop r s []
| LoopStep s caps s' ms :
    exec r s = Some (caps, s') -> exec_loop r s' ms -> exec_loop r s (caps :: ms).

(** A matcher that does not tell apart two continuations that agree. *)
Definition extensional {R} (m : matcher R) : Prop :=
  forall s c k1 k2, (forall s' c', k1 s' c' = k2 s' c') -> m s c k1 = m s c k2.

(** ** Invariants of the tables *)

(** The workflow columns of an order agree with its status: an
    available order has no editor; an order that is taken or completed
    has one, and the time it was taken; a completed order has the time of
    its completion. *)
Definition workflow_ok (o : order) : Prop :=
  match status o with
  | available => taken_by o = None /\ taken_at o = None
  | taken => taken_by o <> None /\ taken_at o <> None
  | completed => taken_by o <> None /\ taken_at o <> None /\ completed_at o <> None
  end.

(** Every entry of the audit log is about an order of the table. *)
Definition references_ok (d : database) : Prop :=
  forall a, In a (assignments d) -> exists o, In o (orders d) /\ id o = order_id a.

(** Every order of [os] is still in the table [d], with its key and
    its workflow columns. *)
Definition all_kept (os : list order) (d : database) : Prop :=
  forall o, In o os -> exists o', In o' (orders d) /\ same_workflow o o'.

(** What a session can do to the store. *)
Inductive operation :=
| Sync (env_ok : bool) (now : Z) (req : request)
| Take (userId : jsstring) (now : Z) (orderId : nat)
| Complete (userId : jsstring) (now : Z) (orderId : nat)
    (deliverableLink actualAmountRaw feedback : option jsstring)
| Leave (c : caller) (userId : jsstring) (now : Z) (orderId : nat)
| MarkFailed (c : caller) (userId : jsstring) (now : Z) (orderId : nat).

Definition perform (JSON_parse : jsstring -> option json)
  (fetch : jsstring -> fetch_response) (Number : jsstring -> spec_float)
  (a : operation) (w : world) : world :=
  match a with
  | Sync env_ok now req => snd (serve JSON_parse fetch env_ok now req w)
  | Take userId now orderId => snd (handleTakeOrder userId now orderId w)
  | Complete userId now orderId link amount feedback =>
      snd (handleCompleteOrder Number userId now orderId link amount feedback w)
  | Leave c userId now orderId => snd (handleLeaveOrder c userId now orderId w)
  | MarkFailed c userId now orderId => snd (handleFailOrder c userId now orderId w)
  end.

(** A table with one order that an editor has taken, and the entry of
    the audit log for it. *)
Definition sample_world : world :=
  {| db := {| orders := [sample_taken_order 7 (Some (lit "3/1/2025 10:00:00"))
                           (Some google_sheet)];
              assignments := [{| order_id := 7; user_id := lit "editor-1";
                                 action := lit "taken"; timestamp := 5 |}] |};
     pending := [] |}.

(** Claims on one order by several editors, one after the other: the
    answers they get and the store after the last. *)
Fixpoint claims (orderId : nat) (cs : list (jsstring * Z)) (w : world)
  : list toast * world :=
  match cs with
  | [] => ([], w)
  | (userId, now) :: cs' =>
      let '(t, w1) := handleTakeOrder userId now orderId w in
      let '(ts, w2) := claims orderId cs' w1 in
      (t :: ts, w2)
  end.

(** The entry of the audit log for a claim. *)
Definition claim_entry (orderId : nat) (c : jsstring * Z) : assignment :=
  {| order_id := orderId; user_id := fst c; action := lit "taken"; timestamp := snd c |}.

(** A plain update: every row that matches the filter is rewritten. *)
Definition updated (p : order -> bool) (f : order -> order) (os : list order)
  : list order :=
  map (fun o => if p o then f o else o) os.

Definition editor (name : string) : caller :=
  {| auth_uid := lit name; has_role_admin := false |}.

(** An order of the sheet that nobody has taken. *)
Definition sample_row_order : order :=
  order_of_record 1 7
    {| rec_client_name := lit "Asha";
       rec_requirement_text := lit "Reel";
       rec_price := JInt 10000;
       rec_due_date := None;
       rec_sheet_row_id := lit "3/1/2025 10:00:00";
       rec_raw_sheet_json := JObj [] |}.

(** [String(x ?? "").trim()] for what [get] of the details gives. *)
Definition text_of (v : json) : jsstring :=
  match v with
  | JNull => []
  | _ => trim (String_of v)
  end.

(** A text without white space at its ends. *)
Definition trimmed (s : jsstring) : Prop := trim s = s.

(** One of the two readers of the rows of a feed. *)
Definition reader (read : json -> error + fields) : Prop :=
  read = opensheet_fields \/ exists colIndex, read = gviz_fields colIndex.

(** A space and a dash: the start of the separator of the requirement
    text. *)
Definition space_dash : jsstring := [32; 8212].

(** The details when the stored row gives none. *)
Definition no_details : sheet_details :=
  {| sd_timestamp := JNull; sd_service := JNull; sd_description := JNull;
     sd_budget := JNull; sd_timeline := JNull; sd_fullName := JNull;
     sd_email := JNull; sd_phone := JNull; sd_whatsapp := JNull |}.

(** The columns of the form, in the order of the sheet. *)
Definition sheet_columns : list (jsstring * nat) :=
  [ (lit "Timestamp", 0%nat);
    (lit "What type of service you want ?", 1%nat);
    (lit "Could you briefly describe your project or needs?", 2%nat);
    (lit "What is your estimated budget for this project?", 3%nat);
    (lit "What is your preferred timeline for project completion?", 4%nat);
    (lit "What is your full name?", 5%nat) ].

(** A cell of the wrapped variant with a value and no formatted text. *)
Definition cell (v : string) : json := JObj [(lit "v", JStr (lit v))].

(** A row of the wrapped variant. *)
Definition sample_gviz_row : json :=
  JObj [(lit "c", JArr [ JObj [(lit "v", JStr (lit "Date(2025,2,1,10,0,0)"));
                               (lit "f", JStr (lit "3/1/2025 10:00:00"))];
                         cell "Reel"; cell " 30 seconds "; cell "10k"; cell "1 week";
                         cell "Asha"; cell "asha@example.org" ])].

(** What every record of a feed has: a name, a requirement text and an
    identity that are not empty; a price that is a non-negative integer
    or +Infinity; and a due date that is absent or 3, 7 or 28 days after
    the reading of the clock. *)
Definition complete_record (now : Z) (r : record) : Prop :=
  rec_client_name r <> [] /\
  rec_requirement_text r <> [] /\
  rec_sheet_row_id r <> [] /\
  amount (rec_price r) /\
  (rec_due_date r = None \/
   exists days, In days [3; 7; 28] /\ rec_due_date r = Some (now + days * 86400000)).

(** The category the pie chart gives an order, and the orders of a
    category. *)
Definition category (o : order) : jsstring :=
  extractCategory (Some (requirement_text o)).

Definition in_category (cat : jsstring) (os : list order) : list order :=
  filter (fun o => jsstring_eqb (category o) cat) os.

(** The record of a category in the map of the chart, if any. *)
Definition slice_of (cat : jsstring) (m : list CategoryPieChart.slice)
  : option CategoryPieChart.slice :=
  find (fun s => jsstring_eqb (CategoryPieChart.name s) cat) m.

(** Numbers that do not go up. *)
Fixpoint descending (l : list nat) : Prop :=
  match l with
  | [] => True
  | x :: l' => Forall (fun y => (y <= x)%nat) l' /\ descending l'
  end.

(** An order with a requirement text and a status. *)
Definition sample_order (key : nat) (text : string) (st : status_t) : order :=
  {| id := key; source := Some google_sheet; sheet_row_id := None;
     client_name := lit "Asha"; requirement_text := lit text; price := JInt 100;
     due_date := None; status := st; taken_by := None; taken_at := None;
     completed_at := None; deliverable_link := None; raw_sheet_json := None;
     created_at := 0; updated_at := 0; actual_amount := None;
     editor_feedback := None |}.

(** The map of the chart after the loop over the orders [os], from the
    map [m]. *)
Definition tallied (os : list order) (m : list CategoryPieChart.slice)
  : list CategoryPieChart.slice :=
  fold_left (fun m o => CategoryPieChart.tally (category o) o m) os m.

(** The number a map gives for a category: 0 when it has no record. *)
Definition tally_of (field : CategoryPieChart.slice -> nat) (cat : jsstring)
  (m : list CategoryPieChart.slice) : nat :=
  match slice_of cat m with
  | Some s => field s
  | None => 0%nat
  end.

(** [1] for an order that is completed. *)
Definition done (o : order) : nat :=
  if status_eqb (status o) completed then 1%nat else 0%nat.

(** What a refresh button shows after the request [req], for a run on
    the world [w] that ended as [run]: a success only for a run that was
    completed, with the number of the records of the feed whose identity
    was not persisted and the table reconciled with or without [purge];
    a failure with a text that is not empty; never a plain note. *)
Definition shown_by_refresh (JSON_parse : jsstring -> option json)
  (fetch : jsstring -> fetch_response) (server_now : Z) (w : world)
  (purge : bool) (req : request) (run : sonner * world) : Prop :=
  (forall t, fst run = toast_success t ->
     exists toInsert total,
       load_feed JSON_parse fetch server_now req = inr (toInsert, total) /\
       t = lit "Refreshed, inserted "
           ++ toString_radix 10
                (Z.of_nat (length (newRecords_of toInsert (orders (db w))))) /\
       orders (db (snd run)) = reconciled server_now purge toInsert (orders (db w))) /\
  (forall t, fst run = toast_error t ->
     exists m, t = lit "Refresh failed: " ++ m /\ m <> []) /\
  (forall t, fst run <> toast_info t).

(** The admin's figures of a table, read from a backend that reports no
    error. *)
Definition figures (d : database) : AdminStats.stats :=
  fst (AdminStats.fetchStats {| db := d; pending := [] |}).

(** The refusal of a number that a column NUMERIC(10,2) does not hold. *)
Definition numeric_overflow : pgerror :=
  {| code := lit "22003"; message := lit "numeric field overflow" |}.

(** * Proofs *)

(** ** Numbers *)

Lemma shr_1_nonneg mrs : 0 <= shr_m mrs -> 0 <= shr_m (shr_1 mrs).
Proof.
  destruct mrs as [m r s]; simpl.
  destruct m as [|[p|p|]|[p|p|]]; simpl; lia.
Qed.

Lemma iter_pos_shr_1_nonneg p :
  forall mrs, 0 <= shr_m mrs -> 0 <= shr_m (iter_pos shr_1 p mrs).
Proof.
  induction p as [p IH|p IH|]; intros mrs H; simpl.
  - apply IH, IH, shr_1_nonneg, H.
  - apply IH, IH, H.
  - apply shr_1_nonneg, H.
Qed.

Lemma shr_fexp_nonneg m e l :
  0 <= m -> 0 <= shr_m (fst (shr_fexp prec emax m e l)).
Proof.
  intros H. unfold shr_fexp, shr.
  assert (H0 : 0 <= shr_m (shr_record_of_loc m l)).
  { destruct l as [|[| |]]; simpl; exact H. }
  destruct (fexp prec emax (Zdigits2 m + e) - e); simpl; auto.
  apply iter_pos_shr_1_nonneg, H0.
Qed.

Lemma round_nearest_even_nonneg m l : 0 <= m -> 0 <= round_nearest_even m l.
Proof.
  intros H. destruct l as [|[| |]]; simpl; try lia.
  destruct (Z.even m); lia.
Qed.


Lemma binary_round_aux_nonneg m e l :
  0 <= m -> nonneg_number (binary_round_aux prec emax false m e l).
Proof.
  intros H. unfold binary_round_aux.
  pose proof (shr_fexp_nonneg m e l H) as H1.
  destruct (shr_fexp prec emax m e l) as [mrs' e'] eqn:E1. simpl in H1.
  pose proof (shr_fexp_nonneg _ e' loc_Exact
                (round_nearest_even_nonneg _ (loc_of_shr_record mrs') H1)) as H2.
  destruct (shr_fexp prec emax _ e' loc_Exact) as [mrs'' e''] eqn:E2. simpl in H2.
  destruct (shr_m mrs'') as [|q|q]; simpl; try lia; auto.
  destruct (_ <=? _); simpl; auto.
Qed.

Lemma number_of_ratio_nonneg p q :
  0 <= p -> 0 < q -> nonneg_number (number_of_ratio p q).
Proof.
  intros Hp Hq. unfold number_of_ratio.
  destruct (p =? 0); [exact I|].
  set (s := Z.max 0 (Zdigits2 q - Zdigits2 p + 55)).
  assert (Hs : 0 <= s) by (unfold s; lia).
  pose proof (Z_div_mod (p * 2 ^ s) q ltac:(lia)) as D.
  destruct (Z.div_eucl (p * 2 ^ s) q) as [m r].
  apply binary_round_aux_nonneg.
  assert (0 <= p * 2 ^ s) by (apply Z.mul_nonneg_nonneg; [lia|apply Z.pow_nonneg; lia]).
  destruct D as [D1 D2]. nia.
Qed.

Lemma is_digit_range c : is_digit c = true -> 48 <= c <= 57.
Proof.
  unfold is_digit. intros H. apply andb_prop in H. destruct H as [H1 H2].
  apply Z.leb_le in H1, H2. lia.
Qed.

Lemma take_digits_digits s :
  Forall (fun c => is_digit c = true) (fst (take_digits s)).
Proof.
  induction s as [|c s IH]; simpl; [constructor|].
  destruct (is_digit c) eqn:E; [|constructor].
  destruct (take_digits s) as [ds rest]; simpl in *. constructor; assumption.
Qed.

Lemma digits_value_nonneg ds :
  Forall (fun c => is_digit c = true) ds ->
  forall acc, 0 <= acc -> 0 <= digits_value acc ds.
Proof.
  induction 1 as [|d ds Hd _ IH]; intros acc Hacc; cbn [digits_value]; [exact Hacc|].
  apply IH. apply is_digit_range in Hd. lia.
Qed.

Lemma parseFloat_finite_nonneg s :
  isFinite (parseFloat s) = true -> nonneg_number (parseFloat s).
Proof.
  unfold parseFloat.
  pose proof (take_digits_digits s) as Hip.
  destruct (take_digits s) as [ip rest]; simpl in Hip.
  destruct ip as [|d ip]; [discriminate|].
  intros _.
  apply number_of_ratio_nonneg.
  - apply digits_value_nonneg; [|lia].
    apply Forall_app; split; [exact Hip|].
    destruct rest as [|c rest']; [constructor|].
    destruct (c =? 46) eqn:E.
    + apply Z.eqb_eq in E; subst c. apply take_digits_digits.
    + destruct c as [|c|c]; try constructor.
      do 6 (destruct c as [c|c|]; try constructor).
      discriminate.
  - apply Z.pow_pos_nonneg; lia.
Qed.

Lemma SFmul_nonneg x y :
  nonneg_number x -> isFinite x = true ->
  nonneg_number y -> isFinite y = true ->
  nonneg_number (SFmul prec emax x y).
Proof.
  destruct x as [[|]|[|]| |[|] mx ex]; simpl; try tauto; try discriminate;
    destruct y as [[|]|[|]| |[|] my ey]; simpl; try tauto; try discriminate.
  intros _ _ _ _. apply binary_round_aux_nonneg. lia.
Qed.

Lemma scale_nonneg suf x :
  nonneg_number x -> isFinite x = true -> nonneg_number (scale suf x).
Proof.
  intros Hx Hf. unfold scale.
  repeat match goal with
         | |- context [if ?b then _ else _] => destruct b
         end; try exact Hx;
    apply SFmul_nonneg; try assumption; vm_compute; auto.
Qed.

Lemma Math_round_amount x : nonneg_number x -> amount (Math_round x).
Proof.
  destruct x as [[|]|[|]| |[|] m e];
    cbv beta iota zeta delta [Math_round amount nonneg_number];
    try tauto; try lia.
  intros _. destruct (0 <=? e) eqn:E.
  - apply Z.mul_nonneg_nonneg; [lia|]. apply Z.pow_nonneg; lia.
  - apply Z.leb_gt in E. apply Z.div_pos.
    + assert (0 < 2 ^ (- e)) by (apply Z.pow_pos_nonneg; lia). lia.
    + apply Z.pow_pos_nonneg; lia.
Qed.

Lemma budget_value_amount m : Forall amount (budget_value m).
Proof.
  unfold budget_value.
  destruct (isFinite (parseFloat _)) eqn:E; simpl; constructor; [|constructor].
  apply Math_round_amount, scale_nonneg; [|exact E].
  apply parseFloat_finite_nonneg, E.
Qed.

Lemma budget_values_amount s : Forall amount (budget_values s).
Proof.
  unfold budget_values.
  induction (budget_matches s) as [|m ms IH]; simpl; [constructor|].
  apply Forall_app; split; [apply budget_value_amount|exact IH].
Qed.

Lemma amount_le_refl v : amount v -> jsint_le v v.
Proof. destruct v; simpl; auto; lia. Qed.

Lemma jsint_max_amount a b : amount a -> amount b -> amount (jsint_max a b).
Proof. destruct a, b; simpl; auto; lia. Qed.

Lemma jsint_max_cases a b :
  amount a -> amount b ->
  (jsint_max a b = a \/ jsint_max a b = b) /\
  jsint_le a (jsint_max a b) /\ jsint_le b (jsint_max a b).
Proof.
  destruct a as [x| | |], b as [y| | |]; simpl; try tauto; intros Ha Hb.
  destruct (Z.max_spec x y) as [[H1 H2]|[H1 H2]]; rewrite H2;
    repeat split; auto; lia.
Qed.

Lemma jsint_le_trans a b c : jsint_le a b -> jsint_le b c -> jsint_le a c.
Proof. destruct a, b, c; simpl; auto; try tauto; lia. Qed.

Lemma fold_max_amount vs :
  Forall amount vs ->
  forall acc, amount acc ->
  let r := fold_left jsint_max vs acc in
  amount r /\ (r = acc \/ In r vs) /\ jsint_le acc r /\
  Forall (fun v => jsint_le v r) vs.
Proof.
  induction 1 as [|v vs Hv _ IH]; intros acc Hacc; simpl.
  - repeat split; auto using amount_le_refl.
  - destruct (jsint_max_cases acc v Hacc Hv) as [Hc [Hl1 Hl2]].
    destruct (IH (jsint_max acc v) (jsint_max_amount _ _ Hacc Hv))
      as [Hr [Hin [Hle Hall]]].
    repeat split; auto.
    + destruct Hin as [Hin|Hin]; [|right; right; exact Hin].
      destruct Hc as [Hc|Hc]; [left|right; left]; congruence.
    + eapply jsint_le_trans; eauto.
    + constructor; [eapply jsint_le_trans; eauto|exact Hall].
Qed.

Lemma Math_max_amount v vs :
  Forall amount (v :: vs) ->
  amount (Math_max (v :: vs)) /\
  In (Math_max (v :: vs)) (v :: vs) /\
  Forall (fun x => jsint_le x (Math_max (v :: vs))) (v :: vs).
Proof.
  intros H. inversion H as [|? ? Hv Hvs]; subst.
  unfold Math_max. cbn [fold_left].
  assert (E : jsint_max JNegInf v = v) by (destruct v; simpl in *; tauto).
  rewrite E.
  destruct (fold_max_amount vs Hvs v Hv) as [Hr [Hin [Hle Hall]]].
  repeat split; auto.
  - destruct Hin as [Hin|Hin]; [left; symmetry; exact Hin|right; exact Hin].
Qed.

(** [Math.round] gives the nearest integer, a tie going up: for a finite
    Number [n * 2^e], the result [z] has [z - 1/2 <= n * 2^e < z + 1/2]. *)
Lemma Math_round_nearest (sg : bool) (m : positive) (e : Z) :
  let n := if sg then Z.neg m else Z.pos m in
  exists z, Math_round (S754_finite sg m e) = JInt z /\
    if 0 <=? e then z = n * 2 ^ e
    else (2 * z - 1) * 2 ^ (- e) <= 2 * n < (2 * z + 1) * 2 ^ (- e).
Proof.
  intros n. cbv beta iota zeta delta [Math_round]. fold n.
  destruct (0 <=? e) eqn:E.
  - eexists; split; reflexivity.
  - eexists; split; [reflexivity|].
    apply Z.leb_gt in E.
    assert (Hp : 0 < 2 ^ (- e)) by (apply Z.pow_pos_nonneg; lia).
    replace (2 ^ (- e + 1)) with (2 * 2 ^ (- e)) by (rewrite Z.pow_add_r by lia; lia).
    set (k := 2 ^ (- e)) in *.
    pose proof (Z.div_mod (2 * n + k) (2 * k) ltac:(lia)) as D.
    pose proof (Z.mod_pos_bound (2 * n + k) (2 * k) ltac:(lia)) as B.
    set (z := (2 * n + k) / (2 * k)) in *. nia.
Qed.

(** ** The matcher finds matches of the pattern *)

Lemma rep_loop_sound {R} (ma : matcher R) a :
  sound ma a ->
  forall fuel lo hi, sound (rep_loop ma fuel lo hi) (RRep lo hi a).
Proof.
  intros Hma. induction fuel as [|fuel IH]; intros lo hi s c k x H;
    cbn [rep_loop] in H; [discriminate|].
  set (more := match hi with
               | Some O => None
               | _ => ma s c (fun s' c' =>
                        if (length s' <? length s)%nat
                        then rep_loop ma fuel (pred lo) (option_map pred hi) s' c' k
                        else None)
               end) in H.
  destruct more as [y|] eqn:Em.
  - injection H as ->.
    assert (Hhi : hi <> Some 0%nat /\
                  ma s c (fun s' c' =>
                            if (length s' <? length s)%nat
                            then rep_loop ma fuel (pred lo) (option_map pred hi) s' c' k
                            else None) = Some x).
    { subst more. destruct hi as [[|h]|]; [discriminate| |]; split; congruence. }
    destruct Hhi as [Hhi Hm].
    apply Hma in Hm. destruct Hm as [w1 [s1 [c1 [Es [M1 Hk]]]]].
    destruct (length s1 <? length s)%nat eqn:El; [|discriminate].
    apply Nat.ltb_lt in El.
    apply IH in Hk. destruct Hk as [w2 [s2 [c2 [Es2 [M2 Hk2]]]]].
    exists (w1 ++ w2), s2, c2. split; [rewrite Es, Es2, app_assoc; reflexivity|].
    split; [|exact Hk2].
    apply MRepMore with (c1 := c1); auto.
    intros ->. subst s. simpl in El. lia.
  - destruct lo as [|lo]; [|discriminate]. cbn [Nat.eqb] in H.
    exists [], s, c. split; [reflexivity|]. split; [constructor|exact H].
Qed.

Lemma rmatch_sound r : forall R, @sound R (rmatch r) r.
Proof.
  induction r as [|p|a IHa b IHb|a IHa b IHb|lo hi a IHa|n a IHa];
    intros R s c k x H; cbn [rmatch] in H.
  - exists [], s, c. split; [reflexivity|]. split; [constructor|exact H].
  - destruct s as [|y s]; [discriminate|].
    destruct (p y) eqn:E; [|discriminate].
    exists [y], s, c. split; [reflexivity|]. split; [constructor; exact E|exact H].
  - apply IHa in H. destruct H as [w1 [s1 [c1 [E1 [M1 H]]]]].
    apply IHb in H. destruct H as [w2 [s2 [c2 [E2 [M2 H]]]]].
    exists (w1 ++ w2), s2, c2. split; [rewrite E1, E2, app_assoc; reflexivity|].
    split; [econstructor; eauto|exact H].
  - destruct (rmatch a s c k) as [y|] eqn:E.
    + injection H as ->. apply IHa in E. destruct E as [w [s' [c' [E1 [M H]]]]].
      exists w, s', c'. split; [exact E1|]. split; [apply MAltL; exact M|exact H].
    + apply IHb in H. destruct H as [w [s' [c' [E1 [M H]]]]].
      exists w, s', c'. split; [exact E1|]. split; [apply MAltR; exact M|exact H].
  - eapply rep_loop_sound; [apply IHa|exact H].
  - apply IHa in H. destruct H as [w [s' [c' [E1 [M H]]]]].
    exists w, s', ((n, w) :: c'). split; [exact E1|]. split; [constructor; exact M|].
    rewrite E1, length_app in H.
    replace (length w + length s' - length s')%nat with (length w) in H by lia.
    rewrite firstn_app, firstn_all, Nat.sub_diag in H. cbn [firstn] in H.
    rewrite app_nil_r in H. exact H.
Qed.

Lemma exec_sound r : forall s caps s',
  exec r s = Some (caps, s') ->
  exists pre w, s = pre ++ w ++ s' /\ matches r w [] caps.
Proof.
  induction s as [|y s IH]; intros caps s' H; cbn [exec] in H.
  - destruct (rmatch r [] [] _) as [z|] eqn:E; [|discriminate].
    injection H as ->. apply rmatch_sound in E.
    destruct E as [w [s1 [c1 [E1 [M H]]]]]. injection H as <- <-.
    exists [], w. split; [exact E1|exact M].
  - destruct (rmatch r (y :: s) [] _) as [z|] eqn:E.
    + injection H as ->. apply rmatch_sound in E.
      destruct E as [w [s1 [c1 [E1 [M H]]]]]. injection H as <- <-.
      exists [], w. split; [exact E1|exact M].
    + apply IH in H. destruct H as [pre [w [E1 M]]].
      exists (y :: pre), w. split; [rewrite E1; reflexivity|exact M].
Qed.

Lemma exec_all_sound r fuel : forall s, scanned r s (exec_all fuel r s).
Proof.
  induction fuel as [|fuel IH]; intros s; cbn [exec_all]; [constructor|].
  destruct (exec r s) as [[caps s']|] eqn:E; [|constructor].
  apply exec_sound in E. destruct E as [pre [w [E M]]]. rewrite E.
  constructor; [exact M|].
  destruct (length s' <? length (pre ++ w ++ s'))%nat; [apply IH|constructor].
Qed.

(** ** The shape of a match of the budget pattern *)

Lemma matches_class p w c c' :
  matches (RClass p) w c c' -> exists x, w = [x] /\ p x = true /\ c' = c.
Proof. intros H. inversion H; subst. eauto. Qed.

(** A repeated class: as many code units of the class as the bounds
    allow. *)
Lemma matches_rep_class p r w c c' :
  matches r w c c' ->
  forall lo hi, r = RRep lo hi (RClass p) ->
  c' = c /\ Forall (fun x => p x = true) w /\ (lo <= length w)%nat /\
  (forall h, hi = Some h -> (length w <= h)%nat).
Proof.
  induction 1 as [c|q x c Hq|a b w1 w2 c c1 c2 H1 IH1 H2 IH2|a b w c c' H IH
                 |a b w c c' H IH|hi0 a c|lo0 hi0 a w1 w2 c c1 c2 Hhi Hw H1 IH1 H2 IH2
                 |n a w c c' H IH];
    intros lo hi E; try discriminate.
  - injection E as <- <- _. repeat split; [constructor|simpl; lia|simpl; intros; lia].
  - injection E as <- <- ->.
    apply matches_class in H1. destruct H1 as [x [-> [Hx ->]]].
    destruct (IH2 (pred lo0) (option_map pred hi0) eq_refl) as [-> [Hall [Hlo Hh]]].
    repeat split.
    + constructor; assumption.
    + simpl. lia.
    + intros h ->. simpl. destruct h as [|h]; [congruence|].
      specialize (Hh h eq_refl). lia.
Qed.

Lemma digits_rep lo hi w c c' :
  matches (RRep lo hi (RClass is_digit)) w c c' ->
  c' = c /\ digits w /\ (lo <= length w)%nat /\
  (forall h, hi = Some h -> (length w <= h)%nat).
Proof. intros H. exact (matches_rep_class is_digit _ _ _ _ H lo hi eq_refl). Qed.

Lemma matches_seq a b w c c' :
  matches (RSeq a b) w c c' ->
  exists w1 w2 c1, w = w1 ++ w2 /\ matches a w1 c c1 /\ matches b w2 c1 c'.
Proof. intros H. inversion H; subst. eauto 7. Qed.

Lemma matches_alt a b w c c' :
  matches (RAlt a b) w c c' -> matches a w c c' \/ matches b w c c'.
Proof. intros H. inversion H; subst; auto. Qed.

Lemma matches_group n a w c c' :
  matches (RGroup n a) w c c' -> exists c1, matches a w c c1 /\ c' = (n, w) :: c1.
Proof. intros H. inversion H; subst. eauto. Qed.

Lemma matches_lit s : forall w c c', matches (RLit s) w c c' -> w = s /\ c' = c.
Proof.
  induction s as [|x s IH]; intros w c c' H; cbn [RLit] in H.
  - inversion H; subst. auto.
  - apply matches_seq in H. destruct H as [w1 [w2 [c1 [-> [H1 H2]]]]].
    apply matches_class in H1. destruct H1 as [y [-> [Hy ->]]].
    apply Z.eqb_eq in Hy. subst y.
    apply IH in H2. destruct H2 as [-> ->]. auto.
Qed.

(** An optional part: nothing, or one match of the body. *)
Lemma matches_optional a w c c' :
  matches (RRep 0 (Some 1%nat) a) w c c' ->
  (w = [] /\ c' = c) \/ (w <> [] /\ matches a w c c').
Proof.
  intros H. inversion H as [| | | | | |lo hi a0 w1 w2 c0 c1 c2 Hhi Hw H1 H2|]; subst.
  - left. auto.
  - right. cbn [pred option_map] in H2.
    inversion H2 as [| | | | |hi0 a1 c3|lo hi a1 w3 w4 c3 c4 c5 Hhi' _ _ _|]; subst.
    + rewrite app_nil_r. auto.
    + congruence.
Qed.

(** The groups of the first alternative. *)
Lemma matches_groups r w c c' :
  matches r w c c' ->
  forall lo,
    r = RRep lo None (RSeq (RClass (fun x => (x =? 44) || is_space x))
                           (RRep 2 (Some 3%nat) (RClass is_digit))) ->
    c' = c /\ ((w = [] /\ lo = 0%nat) \/ digit_groups w).
Proof.
  induction 1 as [c|q x c Hq|a b w1 w2 c c1 c2 H1 IH1 H2 IH2|a b w c c' H IH
                 |a b w c c' H IH|hi0 a c|lo0 hi0 a w1 w2 c c1 c2 Hhi Hw H1 IH1 H2 IH2
                 |n a w c c' H IH];
    intros lo E; try discriminate.
  - injection E as <- _ _. auto.
  - injection E as <- -> ->.
    apply matches_seq in H1. destruct H1 as [u [g [c3 [-> [Hu Hg]]]]].
    apply matches_class in Hu. destruct Hu as [sep [-> [Hsep ->]]].
    apply digits_rep in Hg. destruct Hg as [-> [Hd [Hlo Hh]]].
    specialize (Hh 3%nat eq_refl).
    destruct (IH2 (pred lo0) eq_refl) as [-> [[-> _]|Ht]].
    + split; [reflexivity|]. right. rewrite app_nil_r. apply GroupLast; auto.
    + split; [reflexivity|]. right. apply GroupMore; auto.
Qed.

(** The number of a match: the first capture. *)
Lemma matches_number w c c' :
  matches
    (RAlt
       (RSeq (RRep 1 (Some 3%nat) (RClass is_digit))
             (RRep 1 None (RSeq (RClass (fun x => (x =? 44) || is_space x))
                                (RRep 2 (Some 3%nat) (RClass is_digit)))))
       (RSeq (RRep 1 None (RClass is_digit))
             (RRep 0 (Some 1%nat) (RSeq (RChar 46) (RRep 1 None (RClass is_digit))))))
    w c c' ->
  c' = c /\ number_text w.
Proof.
  intros H. apply matches_alt in H. destruct H as [H|H].
  - apply matches_seq in H. destruct H as [d [t [c1 [-> [Hd Ht]]]]].
    apply digits_rep in Hd. destruct Hd as [-> [Hd [Hlo Hh]]].
    specialize (Hh 3%nat eq_refl).
    destruct (matches_groups _ _ _ _ Ht 1%nat eq_refl) as [-> [[_ E]|Hg]];
      [discriminate|].
    split; [reflexivity|]. left. exists d, t. auto.
  - apply matches_seq in H. destruct H as [ip [t [c1 [-> [Hip Ht]]]]].
    apply digits_rep in Hip. destruct Hip as [-> [Hd [Hlo _]]].
    assert (Hne : ip <> []) by (intros ->; simpl in Hlo; lia).
    apply matches_optional in Ht. destruct Ht as [[-> ->]|[_ Ht]].
    + split; [reflexivity|]. right. left. rewrite app_nil_r. auto.
    + apply matches_seq in Ht. destruct Ht as [dot [fp [c2 [-> [Hdot Hfp]]]]].
      apply matches_class in Hdot. destruct Hdot as [x [-> [Hx ->]]].
      apply Z.eqb_eq in Hx. subst x.
      apply digits_rep in Hfp. destruct Hfp as [-> [Hf [Hlo2 _]]].
      split; [reflexivity|]. right. right. exists ip, fp.
      repeat split; auto. intros ->. simpl in Hlo2. lia.
Qed.

Lemma matches_suffix w c c' :
  matches
    (RAlt (RLit (lit "k"))
    (RAlt (RLit (lit "m"))
    (RAlt (RLit (lit "l"))
    (RAlt (RLit (lit "lac"))
    (RAlt (RLit (lit "lakh"))
    (RAlt (RLit (lit "lakhs"))
    (RAlt (RLit (lit "cr"))
          (RLit (lit "crore")))))))))
    w c c' ->
  c' = c /\ suffix_text w.
Proof.
  unfold suffix_text. intros H.
  repeat (apply matches_alt in H; destruct H as [H|H];
          [apply matches_lit in H; destruct H as [-> ->]; split; [reflexivity|];
           simpl; tauto|]).
  apply matches_lit in H. destruct H as [-> ->]. split; [reflexivity|].
  simpl; tauto.
Qed.

(** A match of the budget pattern is a number, white space and an
    optional suffix, captured as the pattern says. *)
Lemma matches_budget_re w caps :
  matches budget_re w [] caps -> budget_match w caps.
Proof.
  unfold budget_re. intros H.
  apply matches_seq in H. destruct H as [num [rest [c1 [-> [Hnum Hrest]]]]].
  apply matches_group in Hnum. destruct Hnum as [c0 [Hnum ->]].
  apply matches_number in Hnum. destruct Hnum as [-> Hnum].
  apply matches_seq in Hrest. destruct Hrest as [ws [suf [c2 [-> [Hws Hsuf]]]]].
  pose proof (matches_rep_class is_space _ _ _ _ Hws 0%nat None eq_refl)
    as [-> [Hsp _]].
  exists num, ws, suf. split; [reflexivity|]. split; [exact Hnum|].
  split; [exact Hsp|].
  apply matches_optional in Hsuf. destruct Hsuf as [[-> ->]|[_ Hsuf]].
  - split; [reflexivity|]. left. auto.
  - apply matches_group in Hsuf. destruct Hsuf as [c3 [Hsuf ->]].
    apply matches_suffix in Hsuf. destruct Hsuf as [-> Hsuf].
    split; [reflexivity|]. right. auto.
Qed.

Lemma number_text_head w :
  number_text w -> exists d rest, w = d :: rest /\ is_digit d = true.
Proof.
  intros [[d [t [-> [Hd [Hl _]]]]]|[[Hd Hne]|[ip [fp [-> [Hd [Hne _]]]]]]].
  - destruct d as [|x d]; [simpl in Hl; lia|]. inversion Hd; subst.
    exists x, (d ++ t). auto.
  - destruct w as [|x w]; [congruence|]. inversion Hd; subst. eauto.
  - destruct ip as [|x ip]; [congruence|]. inversion Hd; subst.
    exists x, (ip ++ 46 :: fp). auto.
Qed.

Lemma parseFloat_digit_head d s :
  is_digit d = true -> nonneg_number (parseFloat (d :: s)).
Proof.
  intros Hd.
  destruct (isFinite (parseFloat (d :: s))) eqn:E;
    [apply parseFloat_finite_nonneg, E|].
  revert E. unfold parseFloat. cbn [take_digits]. rewrite Hd.
  pose proof (take_digits_digits s) as Hs.
  destruct (take_digits s) as [ds rest]. cbn [fst] in Hs.
  set (fp := match rest with 46 :: rest' => fst (take_digits rest') | _ => [] end).
  assert (Hfp : digits fp).
  { unfold fp, digits. destruct rest as [|c rest']; [constructor|].
    destruct (Z.eq_dec c 46) as [->|Hc]; [apply take_digits_digits|].
    destruct c as [|c|c]; try constructor.
    do 6 (destruct c as [c|c|]; try constructor). congruence. }
  intros E.
  assert (Hn : nonneg_number
                 (number_of_ratio (digits_value 0 ((d :: ds) ++ fp))
                    (10 ^ Z.of_nat (length fp)))).
  { apply number_of_ratio_nonneg; [|apply Z.pow_pos_nonneg; lia].
    apply digits_value_nonneg; [|lia].
    apply Forall_app. split; [constructor; assumption|exact Hfp]. }
  exact Hn.
Qed.

(** The number of a match always parses: it is never NaN, so the only
    matches the parser skips are those whose number overflows. *)
Lemma number_text_parses w :
  number_text w -> nonneg_number (parseFloat (strip_separators w)).
Proof.
  intros H. destruct (number_text_head w H) as [d [rest [-> Hd]]].
  unfold strip_separators. cbn [filter].
  assert (Hns : negb (is_space d || (d =? 44)) = true).
  { apply is_digit_range in Hd. unfold is_space.
    repeat match goal with
           | |- context [?a <=? ?b] =>
               destruct (Z.leb_spec a b); try lia
           | |- context [?a =? ?b] =>
               destruct (Z.eqb_spec a b); try lia
           end; reflexivity. }
  rewrite Hns. apply parseFloat_digit_head, Hd.
Qed.

Lemma number_text_nonempty w : number_text w -> w <> [].
Proof.
  intros H. destruct (number_text_head w H) as [d [rest [-> _]]]. discriminate.
Qed.

(** The matches of a budget text: each has the shape of the pattern,
    they lie in the text one after the other, and the number of each
    parses to a Number that is not NaN. *)
Lemma budget_matches_scanned s : scanned budget_re s (budget_matches s).
Proof. apply exec_all_sound. Qed.

Lemma scanned_budget s ms :
  scanned budget_re s ms ->
  Forall (fun m => exists w, occurs w s /\ budget_match w m /\
                    nonneg_number
                      (parseFloat (strip_separators (capture_or_empty 1 m)))) ms.
Proof.
  induction 1 as [s|pre w rest caps ms M _ IH]; constructor.
  - apply matches_budget_re in M. exists w. split; [exists pre, rest; reflexivity|].
    split; [exact M|].
    destruct M as (num & ws & suf & _ & Hnum & _ & Hc & _).
    unfold capture_or_empty. rewrite Hc. apply number_text_parses, Hnum.
  - eapply Forall_impl; [|exact IH].
    intros m [w' [[p1 [p2 E]] H']]. exists w'. split; [|exact H'].
    exists (pre ++ w ++ p1), p2. rewrite E, <- !app_assoc. reflexivity.
Qed.

(** ** The fuel of the matcher is enough *)

Lemma rep_loop_ext {R} (ma : matcher R) :
  extensional ma -> forall fuel lo hi, extensional (rep_loop ma fuel lo hi).
Proof.
  intros Hma. induction fuel as [|fuel IH]; intros lo hi s c k1 k2 Hk;
    cbn [rep_loop]; [reflexivity|].
  assert (E : ma s c (fun s' c' =>
                if (length s' <? length s)%nat
                then rep_loop ma fuel (pred lo) (option_map pred hi) s' c' k1
                else None)
              = ma s c (fun s' c' =>
                if (length s' <? length s)%nat
                then rep_loop ma fuel (pred lo) (option_map pred hi) s' c' k2
                else None)).
  { apply Hma. intros s' c'. destruct (length s' <? length s)%nat; [|reflexivity].
    apply IH, Hk. }
  rewrite E, Hk. reflexivity.
Qed.

Lemma rmatch_ext r : forall R, @extensional R (rmatch r).
Proof.
  induction r as [|p|a IHa b IHb|a IHa b IHb|lo hi a IHa|n a IHa];
    intros R s c k1 k2 Hk; cbn [rmatch].
  - apply Hk.
  - destruct s as [|y s]; [reflexivity|]. destruct (p y); [apply Hk|reflexivity].
  - apply IHa. intros s' c'. apply IHb, Hk.
  - rewrite (IHa R s c k1 k2 Hk), (IHb R s c k1 k2 Hk). reflexivity.
  - apply rep_loop_ext; [apply IHa|exact Hk].
  - apply IHa. intros s' c'. apply Hk.
Qed.

(** With more fuel than the text is long, the repetition does not depend
    on the fuel: it never fails for want of it. *)
Lemma rep_loop_fuel {R} (ma : matcher R) :
  extensional ma ->
  forall n m lo hi s c k,
    (length s < n)%nat -> (length s < m)%nat ->
    rep_loop ma n lo hi s c k = rep_loop ma m lo hi s c k.
Proof.
  intros Hma. induction n as [|n IH]; intros m lo hi s c k Hn Hm; [lia|].
  destruct m as [|m]; [lia|]. cbn [rep_loop].
  assert (E : ma s c (fun s' c' =>
                if (length s' <? length s)%nat
                then rep_loop ma n (pred lo) (option_map pred hi) s' c' k
                else None)
              = ma s c (fun s' c' =>
                if (length s' <? length s)%nat
                then rep_loop ma m (pred lo) (option_map pred hi) s' c' k
                else None)).
  { apply Hma. intros s' c'. destruct (length s' <? length s)%nat eqn:El;
      [|reflexivity].
    apply Nat.ltb_lt in El. apply IH; lia. }
  rewrite E. reflexivity.
Qed.

Lemma exec_suffix r : forall s caps s',
  exec r s = Some (caps, s') -> (length s' <= length s)%nat.
Proof.
  intros s caps s' H. apply exec_sound in H. destruct H as [pre [w [-> _]]].
  rewrite !length_app. lia.
Qed.

(** A match of the budget pattern is not empty, so every call of [exec]
    moves on in the text. *)
Lemma exec_budget_progress s caps s' :
  exec budget_re s = Some (caps, s') -> (length s' < length s)%nat.
Proof.
  intros H. apply exec_sound in H. destruct H as [pre [w [-> M]]].
  apply matches_budget_re in M.
  destruct M as (num & ws & suf & -> & Hnum & _).
  apply number_text_nonempty in Hnum.
  rewrite !length_app. destruct num; [congruence|]. simpl. lia.
Qed.

(** The list of matches is the list the loop of the source builds. *)
Lemma exec_all_loop fuel : forall s,
  (length s < fuel)%nat -> exec_loop budget_re s (exec_all fuel budget_re s).
Proof.
  induction fuel as [|fuel IH]; intros s Hf; [lia|]. cbn [exec_all].
  destruct (exec budget_re s) as [[caps s']|] eqn:E; [|apply LoopDone, E].
  pose proof (exec_budget_progress _ _ _ E) as Hp.
  apply Nat.ltb_lt in Hp. rewrite Hp. apply Nat.ltb_lt in Hp.
  eapply LoopStep; [exact E|]. apply IH. lia.
Qed.

Lemma budget_matches_loop s : exec_loop budget_re s (budget_matches s).
Proof. apply exec_all_loop. lia. Qed.

Lemma exec_loop_functional r s ms :
  exec_loop r s ms -> forall ms', exec_loop r s ms' -> ms = ms'.
Proof.
  induction 1 as [s E|s caps s' ms E _ IH]; intros ms' H'; inversion H'; subst;
    try congruence.
  rewrite E in H. injection H as <- <-. f_equal. apply IH. assumption.
Qed.

(** ** C1: budget parser *)

(** C1, as stated, fails on a number too large for a Number: the text
    "1" followed by 309 zeros is one match of the pattern, its value
    scaled and rounded is +Infinity, so the maximum of all matches is
    +Infinity; the parser skips the match and returns 0. *)
Lemma parseBudgetToNumber_skips_non_finite_match :
  let b := lit "1" ++ repeat 48 309 in
  budget_matches (budget_text b) = [[(1%nat, b)]] /\
  max_of_all_matches b = JPosInf /\
  parseBudgetToNumber (Some b) = JInt 0 /\
  parseBudgetToNumber (Some b) <> max_of_all_matches b.
Proof.
  vm_compute. repeat split. discriminate.
Qed.

(** C1 (amended): for every input the parser returns 0 for null and for
    the empty string; otherwise it scans the lower-cased, trimmed text
    left to right for matches of the pattern (the loop over [exec] ends,
    and the matcher never fails for want of fuel), each a number (digits in
    groups after commas or spaces, or digits with an optional decimal
    part), white space and an optional suffix; it leaves out the matches
    whose number is not finite (the number of a match is never NaN, so
    these are the numbers too large for a Number), scales each other
    match by the multiplier of its suffix (k = 10^3, m = 10^6,
    l/lac/lakh/lakhs = 10^5, cr/crore = 10^7, none = 1) and rounds it to
    the nearest integer; the result is the maximum of these values, or 0
    when there is none.  Every value is a non-negative integer or
    +Infinity.  The four examples of the specification evaluate as it
    says. *)
Theorem parseBudgetToNumber_max_of_finite_matches :
  forall b : jsstring,
    let matches := budget_matches (budget_text b) in
    let values := flat_map budget_value matches in
    let result := parseBudgetToNumber (Some b) in
    parseBudgetToNumber None = JInt 0 /\
    parseBudgetToNumber (Some []) = JInt 0 /\
    (forall m,
        let val := parseFloat (strip_separators (capture_or_empty 1 m)) in
        budget_value m =
          if isFinite val
          then [Math_round (scale (toLowerCase (capture_or_empty 2 m)) val)]
          else []) /\
    (forall val,
        scale (lit "k") val = SFmul prec emax val (number_of_Z (10 ^ 3)) /\
        scale (lit "m") val = SFmul prec emax val (number_of_Z (10 ^ 6)) /\
        scale (lit "l") val = SFmul prec emax val (number_of_Z (10 ^ 5)) /\
        scale (lit "lac") val = SFmul prec emax val (number_of_Z (10 ^ 5)) /\
        scale (lit "lakh") val = SFmul prec emax val (number_of_Z (10 ^ 5)) /\
        scale (lit "lakhs") val = SFmul prec emax val (number_of_Z (10 ^ 5)) /\
        scale (lit "cr") val = SFmul prec emax val (number_of_Z (10 ^ 7)) /\
        scale (lit "crore") val = SFmul prec emax val (number_of_Z (10 ^ 7)) /\
        scale [] val = val) /\
    (forall sg m e,
        exists z, Math_round (S754_finite sg m e) = JInt z /\
          if 0 <=? e then z = (if sg then Z.neg m else Z.pos m) * 2 ^ e
          else (2 * z - 1) * 2 ^ (- e) <= 2 * (if sg then Z.neg m else Z.pos m)
               < (2 * z + 1) * 2 ^ (- e)) /\
    exec_loop budget_re (budget_text b) matches /\
    (forall a n lo hi s c (k : jsstring -> captures -> option (captures * jsstring)),
        (length s < n)%nat ->
        rep_loop (rmatch a) n lo hi s c k = rmatch (RRep lo hi a) s c k) /\
    scanned budget_re (budget_text b) matches /\
    Forall (fun m => exists w, occurs w (budget_text b) /\ budget_match w m /\
                      nonneg_number
                        (parseFloat (strip_separators (capture_or_empty 1 m))))
      matches /\
    Forall amount values /\
    match values with
    | [] => result = JInt 0
    | _ :: _ => In result values /\ Forall (fun v => jsint_le v result) values
    end /\
    parseBudgetToNumber (Some (8377 :: lit "15,000 - 20k")) = JInt 20000 /\
    parseBudgetToNumber (Some (lit "2.5 cr")) = JInt 25000000 /\
    parseBudgetToNumber (Some (lit "10L")) = JInt 1000000 /\
    parseBudgetToNumber (Some (lit "no budget given")) = JInt 0.
Proof.
  intros b matches values result.
  split; [reflexivity|]. split; [reflexivity|].
  split.
  { intros m val. unfold budget_value. fold val.
    destruct (isFinite val); reflexivity. }
  split.
  { intros val. repeat split. }
  split.
  { intros sg m e. apply Math_round_nearest. }
  split; [apply budget_matches_loop|].
  split.
  { intros a n lo hi s c k Hn. cbn [rmatch].
    apply rep_loop_fuel; [apply rmatch_ext|exact Hn|lia]. }
  split; [apply budget_matches_scanned|].
  split; [apply scanned_budget, budget_matches_scanned|].
  assert (Hv : Forall amount values) by apply budget_values_amount.
  split; [exact Hv|].
  split.
  { unfold result, parseBudgetToNumber.
    destruct b as [|c b']; [reflexivity|].
    cbn [is_empty]. fold (budget_text (c :: b')). unfold budget_values.
    fold matches. fold values.
    destruct values as [|v vs] eqn:E; [reflexivity|].
    destruct (Math_max_amount v vs Hv) as [_ [Hin Hall]]. split; assumption. }
  repeat split; vm_compute; reflexivity.
Qed.

(** ** Strings *)

Lemma jsstring_eqb_eq a : forall b, jsstring_eqb a b = true <-> a = b.
Proof.
  induction a as [|x a IH]; intros [|y b]; simpl; split; intros H;
    try reflexivity; try discriminate.
  - apply andb_prop in H. destruct H as [H1 H2].
    apply Z.eqb_eq in H1. apply IH in H2. congruence.
  - injection H as -> ->. rewrite Z.eqb_refl. apply IH. reflexivity.
Qed.

Lemma jsstring_eqb_refl a : jsstring_eqb a a = true.
Proof. apply jsstring_eqb_eq. reflexivity. Qed.

Lemma jsstring_eqb_neq a b : jsstring_eqb a b = false <-> a <> b.
Proof.
  split.
  - intros H E. apply jsstring_eqb_eq in E. congruence.
  - intros H. destruct (jsstring_eqb a b) eqn:E; [|reflexivity].
    apply jsstring_eqb_eq in E. contradiction.
Qed.

Lemma startsWith_spec p : forall s,
  startsWith p s = true <-> exists post, s = p ++ post.
Proof.
  induction p as [|x p IH]; intros s; simpl.
  - split; [intros _; exists s; reflexivity|reflexivity].
  - destruct s as [|y s].
    + split; [discriminate|intros [post H]; discriminate].
    + split.
      * intros H. apply andb_prop in H. destruct H as [H1 H2].
        apply Z.eqb_eq in H1. apply IH in H2. destruct H2 as [post ->].
        exists post. congruence.
      * intros [post H]. injection H as -> ->.
        rewrite Z.eqb_refl. apply IH. exists post. reflexivity.
Qed.

Lemma includes_cons y s p :
  includes (y :: s) p = startsWith p (y :: s) || includes s p.
Proof.
  unfold includes. cbn [indexOf].
  destruct (startsWith p (y :: s)); [reflexivity|].
  destruct (indexOf p s); reflexivity.
Qed.

Lemma includes_nil p : includes [] p = startsWith p [].
Proof. unfold includes. cbn [indexOf]. destruct (startsWith p []); reflexivity. Qed.

Lemma occurs_cons p y s :
  occurs p (y :: s) <-> (exists post, y :: s = p ++ post) \/ occurs p s.
Proof.
  split.
  - intros [[|c pre] [post H]].
    + left. exists post. exact H.
    + right. injection H as -> ->. exists pre, post. reflexivity.
  - intros [[post H]|[pre [post H]]].
    + exists [], post. exact H.
    + exists (y :: pre), post. rewrite H. reflexivity.
Qed.

(** [includes] decides occurrence. *)
Lemma includes_spec p s : includes s p = true <-> occurs p s.
Proof.
  induction s as [|y s IH].
  - rewrite includes_nil, startsWith_spec. split.
    + intros [post H]. exists [], post. exact H.
    + intros [[|c pre] [post H]]; [exists post; exact H|discriminate].
  - rewrite includes_cons, orb_true_iff, startsWith_spec, IH, occurs_cons.
    reflexivity.
Qed.

Lemma indexOf_None p s : indexOf p s = None <-> ~ occurs p s.
Proof.
  rewrite <- includes_spec. unfold includes.
  destruct (indexOf p s); split; intros H; try discriminate; auto.
  exfalso. apply H. reflexivity.
Qed.

(** [indexOf] gives the first position at which the pattern starts. *)
Lemma indexOf_Some p : forall s i,
  indexOf p s = Some i ->
  (exists post, skipn i s = p ++ post) /\ (i <= length s)%nat /\
  forall j, (j < i)%nat -> startsWith p (skipn j s) = false.
Proof.
  induction s as [|y s IH]; intros i H; cbn [indexOf] in H.
  - destruct (startsWith p []) eqn:E; [|discriminate].
    injection H as <-. split; [apply startsWith_spec; exact E|].
    split; [simpl; lia|intros j Hj; lia].
  - destruct (startsWith p (y :: s)) eqn:E.
    + injection H as <-. split; [apply startsWith_spec; exact E|].
      split; [simpl; lia|intros j Hj; lia].
    + destruct (indexOf p s) as [k|] eqn:Ek; [|discriminate].
      injection H as <-. destruct (IH k eq_refl) as [H1 [H2 H3]].
      split; [exact H1|]. split; [simpl; lia|].
      intros [|j] Hj; [exact E|]. apply H3. lia.
Qed.

Lemma occurs_dec p s : occurs p s \/ ~ occurs p s.
Proof.
  destruct (includes s p) eqn:E.
  - left. apply includes_spec. exact E.
  - right. intros H. apply includes_spec in H. congruence.
Qed.

Lemma lastIndexOf_None p s : lastIndexOf p s = None <-> ~ occurs p s.
Proof.
  induction s as [|y s IH]; cbn [lastIndexOf].
  - destruct (startsWith p []) eqn:E.
    + split; [discriminate|]. intros H. exfalso. apply H.
      apply includes_spec. rewrite includes_nil. exact E.
    + split; [|reflexivity]. intros _ H. apply includes_spec in H.
      rewrite includes_nil in H. congruence.
  - destruct (lastIndexOf p s) as [k|] eqn:Ek.
    + split; [discriminate|]. intros H. exfalso. apply H.
      apply occurs_cons. right.
      destruct (occurs_dec p s) as [Ho|Ho]; [exact Ho|].
      apply IH in Ho. discriminate.
    + destruct (startsWith p (y :: s)) eqn:E.
      * split; [discriminate|]. intros H. exfalso. apply H.
        apply occurs_cons. left. apply startsWith_spec. exact E.
      * split; [|reflexivity]. intros _ H. apply occurs_cons in H.
        destruct H as [H|H].
        -- apply startsWith_spec in H. congruence.
        -- apply (proj1 IH eq_refl). exact H.
Qed.

(** [lastIndexOf] gives the last position at which the pattern starts. *)
Lemma lastIndexOf_Some p : forall s i,
  lastIndexOf p s = Some i ->
  (exists post, skipn i s = p ++ post) /\ (i <= length s)%nat /\
  forall j, (i < j)%nat -> startsWith p (skipn j s) = true -> (length s < j)%nat.
Proof.
  induction s as [|y s IH]; intros i H; cbn [lastIndexOf] in H.
  - destruct (startsWith p []) eqn:E; [|discriminate].
    injection H as <-. split; [apply startsWith_spec; exact E|].
    split; [simpl; lia|]. intros j Hj _. simpl. lia.
  - destruct (lastIndexOf p s) as [k|] eqn:Ek.
    + injection H as <-. destruct (IH k eq_refl) as [H1 [H2 H3]].
      split; [exact H1|]. split; [simpl; lia|].
      intros [|j] Hj Hs; [lia|]. simpl in Hs. apply H3 in Hs; simpl; lia.
    + destruct (startsWith p (y :: s)) eqn:E; [|discriminate].
      injection H as <-. split; [apply startsWith_spec; exact E|].
      split; [simpl; lia|].
      intros [|j] Hj Hs; [lia|]. simpl in Hs.
      apply lastIndexOf_None in Ek. exfalso. apply Ek.
      apply startsWith_spec in Hs. destruct Hs as [post Hs].
      exists (firstn j s), post. rewrite <- Hs. symmetry. apply firstn_skipn.
Qed.

Lemma toLowerCase_app a b : toLowerCase (a ++ b) = toLowerCase a ++ toLowerCase b.
Proof. unfold toLowerCase. apply flat_map_app. Qed.

Lemma plain_unit_inv x :
  plain_unit x = true ->
  lower_unit x = [x] /\ x <> 105 /\ x <> 775 /\ x <> 304.
Proof.
  unfold plain_unit, lower_unit. intros H.
  repeat (apply andb_prop in H; destruct H as [H ?]).
  repeat match goal with
         | H : negb _ = true |- _ => apply negb_true_iff in H
         end.
  rewrite H, H3, H2.
  apply Z.eqb_neq in H0, H1, H2. repeat split; auto.
Qed.

(** The lower-case form of a code unit: one unit, or [i] and U+0307. *)
Lemma lower_unit_cases c :
  (exists y, lower_unit c = [y]) \/ (c = 304 /\ lower_unit c = [105; 775]).
Proof.
  unfold lower_unit.
  destruct ((65 <=? c) && (c <=? 90)); [left; eexists; reflexivity|].
  destruct (c =? 8490); [left; eexists; reflexivity|].
  destruct (c =? 304) eqn:E; [|left; eexists; reflexivity].
  right. apply Z.eqb_eq in E. auto.
Qed.

Lemma lower_unit_same_letter c x :
  plain_unit x = true -> (lower_unit c = [x] <-> same_letter c x).
Proof.
  intros Hx. destruct (plain_unit_inv x Hx) as [Hl [H1 [H2 H3]]].
  unfold same_letter, lower_unit in *.
  destruct ((65 <=? c) && (c <=? 90)) eqn:E1.
  - apply andb_prop in E1. destruct E1 as [Ea Eb].
    apply Z.leb_le in Ea, Eb. split.
    + intros H. injection H as <-. right. left. lia.
    + intros [H|[H|H]].
      * subst c. destruct ((65 <=? x) && (x <=? 90)) eqn:E.
        -- injection Hl as Hl. lia.
        -- apply andb_false_iff in E.
           destruct E as [E|E]; [apply Z.leb_gt in E|apply Z.leb_gt in E]; lia.
      * f_equal. lia.
      * lia.
  - assert (Hn : ~ (65 <= c <= 90)).
    { intros [Ha Hb]. apply Z.leb_le in Ha, Hb. rewrite Ha, Hb in E1. discriminate. }
    destruct (c =? 8490) eqn:E2.
    + apply Z.eqb_eq in E2. subst c. split.
      * intros H. injection H as <-. right. right. auto.
      * intros [H|[H|H]]; [subst x; discriminate Hl|lia|]. destruct H as [_ ->].
        reflexivity.
    + apply Z.eqb_neq in E2. destruct (c =? 304) eqn:E3.
      * apply Z.eqb_eq in E3. subst c. split; [discriminate|].
        intros [H|[H|H]]; [congruence|lia|lia].
      * split.
        -- intros H. injection H as <-. left. reflexivity.
        -- intros [H|[H|H]]; [congruence|lia|lia].
Qed.

Lemma startsWith_lower p :
  forallb plain_unit p = true ->
  forall t,
    startsWith p (toLowerCase t) = true <->
    exists mid post, t = mid ++ post /\ Forall2 same_letter mid p.
Proof.
  induction p as [|x p IH]; intros Hp t.
  - simpl. split; [|reflexivity]. intros _. exists [], t. split; [reflexivity|constructor].
  - cbn [forallb] in Hp. apply andb_prop in Hp. destruct Hp as [Hx Hp].
    destruct (plain_unit_inv x Hx) as [Hl [H1 [H2 H3]]].
    destruct t as [|c t].
    + simpl. split; [discriminate|].
      intros [mid [post [E F]]]. inversion F; subst. discriminate.
    + change (toLowerCase (c :: t)) with (lower_unit c ++ toLowerCase t).
      destruct (lower_unit_cases c) as [[y Hy]|[Hc Hy]]; rewrite Hy.
      * cbn [app startsWith]. rewrite andb_true_iff, Z.eqb_eq, (IH Hp t).
        split.
        -- intros [Exy [mid [post [E F]]]]. exists (c :: mid), post.
           split; [rewrite E; reflexivity|]. constructor; [|exact F].
           apply lower_unit_same_letter; [exact Hx|]. congruence.
        -- intros [mid [post [E F]]]. inversion F as [|c' x' mid' p' Hs F']; subst.
           injection E as <- ->. split.
           ++ apply lower_unit_same_letter in Hs; [|exact Hx]. congruence.
           ++ exists mid', post. auto.
      * cbn [app startsWith]. destruct (Z.eqb_spec x 105) as [E|E]; [contradiction|].
        cbn [andb]. split; [discriminate|].
        intros [mid [post [E' F]]]. inversion F as [|c' x' mid' p' Hs F']; subst.
        injection E' as <- _. apply lower_unit_same_letter in Hs; [|exact Hx].
        rewrite Hy in Hs. discriminate.
Qed.

Lemma occurs_ci_cons p c t :
  occurs_ci p (c :: t) <->
  (exists mid post, c :: t = mid ++ post /\ Forall2 same_letter mid p) \/ occurs_ci p t.
Proof.
  split.
  - intros [[|c' pre] [mid [post [E F]]]].
    + left. exists mid, post. auto.
    + right. injection E as <- ->. exists pre, mid, post. auto.
  - intros [[mid [post [E F]]]|[pre [mid [post [E F]]]]].
    + exists [], mid, post. auto.
    + exists (c :: pre), mid, post. rewrite E. auto.
Qed.

(** Searching the lower-cased text for a plain pattern is searching the
    text for the pattern up to case. *)
Lemma includes_lower p t :
  plain p = true -> (includes (toLowerCase t) p = true <-> occurs_ci p t).
Proof.
  unfold plain. intros Hp. apply andb_prop in Hp. destruct Hp as [Hne Hp].
  destruct p as [|x p]; [discriminate|]. clear Hne.
  pose proof Hp as Hp'. cbn [forallb] in Hp'. apply andb_prop in Hp'.
  destruct Hp' as [Hx _]. destruct (plain_unit_inv x Hx) as [_ [H1 [H2 _]]].
  induction t as [|c t IH].
  - change (toLowerCase []) with (@nil Z). rewrite includes_nil. simpl.
    split; [discriminate|].
    intros [pre [mid [post [E F]]]]. inversion F; subst.
    destruct pre; discriminate.
  - rewrite occurs_ci_cons, <- IH, <- (startsWith_lower _ Hp (c :: t)).
    change (toLowerCase (c :: t)) with (lower_unit c ++ toLowerCase t).
    destruct (lower_unit_cases c) as [[y Hy]|[Hc Hy]]; rewrite Hy; cbn [app].
    + rewrite includes_cons, orb_true_iff. reflexivity.
    + rewrite !includes_cons, !orb_true_iff.
      assert (E : startsWith (x :: p) (775 :: toLowerCase t) = false).
      { cbn [startsWith]. destruct (Z.eqb_spec x 775); [contradiction|reflexivity]. }
      rewrite E. split; [intros [H|[H|H]]; auto; discriminate|intros [H|H]; auto].
Qed.

(** ** C2: timeline classifier *)

Lemma occurs_ci_nil p : p <> [] -> ~ occurs_ci p [].
Proof.
  intros Hp [pre [mid [post [E F]]]].
  destruct pre; [|discriminate]. destruct mid; [|discriminate].
  inversion F. congruence.
Qed.

(** C2: the rules are tried top to bottom on the text compared up to
    case, and the first that matches decides: "urgent" or "1-3" give
    now + 3 days, else "week" or "3-7" give now + 7 days, else "month" or
    "1-4" give now + 28 days, else null; null gives null.  "1-4 weeks"
    gives now + 7 days. *)
Theorem mapTimelineToDueDate_first_match_wins :
  forall (now : Z) (t : jsstring),
    let day := 86400000 in
    let rule1 := mentions t "urgent" \/ mentions t "1-3" in
    let rule2 := mentions t "week" \/ mentions t "3-7" in
    let rule3 := mentions t "month" \/ mentions t "1-4" in
    mapTimelineToDueDate now None = None /\
    (rule1 -> mapTimelineToDueDate now (Some t) = Some (now + 3 * day)) /\
    (~ rule1 -> rule2 -> mapTimelineToDueDate now (Some t) = Some (now + 7 * day)) /\
    (~ rule1 -> ~ rule2 -> rule3 ->
     mapTimelineToDueDate now (Some t) = Some (now + 28 * day)) /\
    (~ rule1 -> ~ rule2 -> ~ rule3 -> mapTimelineToDueDate now (Some t) = None) /\
    mapTimelineToDueDate now (Some (lit "1-4 weeks")) = Some (now + 7 * day) /\
    mapTimelineToDueDate now (Some (lit "urgent, need by Friday")) = Some (now + 3 * day).
Proof.
  intros now t day rule1 rule2 rule3.
  assert (B : forall p q, plain (lit p) = true -> plain (lit q) = true ->
                (includes (toLowerCase t) (lit p) || includes (toLowerCase t) (lit q) = true
                 <-> mentions t p \/ mentions t q)).
  { intros p q Hp Hq. unfold mentions.
    rewrite orb_true_iff, (includes_lower _ t Hp), (includes_lower _ t Hq). reflexivity. }
  assert (N : forall p q, lit p <> [] -> lit q <> [] -> t = [] ->
                ~ (mentions t p \/ mentions t q)).
  { intros p q Hp Hq -> [H|H]; revert H; apply occurs_ci_nil; assumption. }
  pose proof (B "urgent"%string "1-3"%string eq_refl eq_refl) as B1.
  pose proof (B "week"%string "3-7"%string eq_refl eq_refl) as B2.
  pose proof (B "month"%string "1-4"%string eq_refl eq_refl) as B3.
  fold rule1 in B1. fold rule2 in B2. fold rule3 in B3.
  assert (N1 : t = [] -> ~ rule1) by (apply N; discriminate).
  assert (N2 : t = [] -> ~ rule2) by (apply N; discriminate).
  assert (N3 : t = [] -> ~ rule3) by (apply N; discriminate).
  clearbody rule1 rule2 rule3. clear B N.
  split; [reflexivity|].
  assert (E : mapTimelineToDueDate now (Some t) =
              if includes (toLowerCase t) (lit "urgent") || includes (toLowerCase t) (lit "1-3")
              then Some (now + 3 * day)
              else if includes (toLowerCase t) (lit "week") || includes (toLowerCase t) (lit "3-7")
              then Some (now + 7 * day)
              else if includes (toLowerCase t) (lit "month") || includes (toLowerCase t) (lit "1-4")
              then Some (now + 28 * day)
              else None).
  { destruct t; reflexivity. }
  rewrite E. clear E N1 N2 N3.
  destruct (includes (toLowerCase t) (lit "urgent") || includes (toLowerCase t) (lit "1-3"));
  destruct (includes (toLowerCase t) (lit "week") || includes (toLowerCase t) (lit "3-7"));
  destruct (includes (toLowerCase t) (lit "month") || includes (toLowerCase t) (lit "1-4")).
  all: destruct B1 as [P1 Q1]; destruct B2 as [P2 Q2]; destruct B3 as [P3 Q3];
    try specialize (P1 eq_refl); try specialize (P2 eq_refl);
    try specialize (P3 eq_refl);
    repeat split; try reflexivity; intros;
    try contradiction;
    repeat match goal with
           | H : ?r, Q : ?r -> false = true |- _ => apply Q in H; discriminate H
           end.
Qed.

(** The classifier on a text in capitals: the first rule fires. *)
Lemma mapTimelineToDueDate_first_match_wins_witness :
  mapTimelineToDueDate 1000 (Some (lit "URGENT: 1-4 weeks")) = Some (1000 + 3 * 86400000).
Proof.
  refine (proj1 (proj2 (mapTimelineToDueDate_first_match_wins 1000
                          (lit "URGENT: 1-4 weeks"))) _).
  left. exists [], (lit "URGENT"), (lit ": 1-4 weeks").
  split; [reflexivity|].
  change (lit "URGENT") with [85; 82; 71; 69; 78; 84].
  change (lit "urgent") with [117; 114; 103; 101; 110; 116].
  repeat (apply Forall2_cons; [right; left; split; [lia|reflexivity]|]).
  apply Forall2_nil.
Defined.

(** ** C3: row identity *)

Lemma to_int32_eq x : exists k, to_int32 x = x + k * 2 ^ 32.
Proof.
  unfold to_int32. exists (- ((x + 2 ^ 31) / 2 ^ 32)).
  pose proof (Z.div_mod (x + 2 ^ 31) (2 ^ 32) ltac:(lia)). lia.
Qed.

Lemma djb2_step_mod h c : djb2_step h c mod 2 ^ 32 = (33 * h + c) mod 2 ^ 32.
Proof.
  unfold djb2_step, shl32.
  destruct (to_int32_eq h) as [k1 E1].
  destruct (to_int32_eq (Z.shiftl (to_int32 h) 5)) as [k2 E2].
  destruct (to_int32_eq (to_int32 (Z.shiftl (to_int32 h) 5) + h + c)) as [k3 E3].
  rewrite E3, E2, Z.shiftl_mul_pow2, E1 by lia.
  replace ((h + k1 * 2 ^ 32) * 2 ^ 5 + k2 * 2 ^ 32 + h + c + k3 * 2 ^ 32)
    with (33 * h + c + (32 * k1 + k2 + k3) * 2 ^ 32) by lia.
  apply Z_mod_plus_full.
Qed.

Lemma mod_step_congr h h' c :
  h mod 2 ^ 32 = h' mod 2 ^ 32 ->
  (33 * h + c) mod 2 ^ 32 = (33 * h' + c) mod 2 ^ 32.
Proof.
  intros H.
  pose proof (Z.div_mod h (2 ^ 32) ltac:(lia)) as D.
  pose proof (Z.div_mod h' (2 ^ 32) ltac:(lia)) as D'.
  replace (33 * h + c)
    with (33 * h' + c + 33 * (h / 2 ^ 32 - h' / 2 ^ 32) * 2 ^ 32) by lia.
  apply Z_mod_plus_full.
Qed.

Lemma djb2_fold_mod input : forall h h',
  h mod 2 ^ 32 = h' mod 2 ^ 32 ->
  fold_left djb2_step input h mod 2 ^ 32
  = fold_left (fun h c => 33 * h + c) input h' mod 2 ^ 32.
Proof.
  induction input as [|c input IH]; intros h h' H; cbn [fold_left]; [exact H|].
  apply IH. rewrite djb2_step_mod. apply mod_step_congr, H.
Qed.

(** The hash is the polynomial reduced modulo 2^32. *)
Lemma djb2Hash_poly input :
  djb2Hash input = toString_radix 36 (djb2_poly input mod 2 ^ 32).
Proof.
  unfold djb2Hash, to_uint32, djb2_poly.
  rewrite (djb2_fold_mod input 5381 5381 eq_refl). reflexivity.
Qed.

Lemma radix_digit_value d : 0 <= d < 36 -> digit_value (radix_digit d) = d.
Proof.
  intros H. unfold digit_value, radix_digit.
  destruct (d <? 10) eqn:E.
  - apply Z.ltb_lt in E.
    destruct (48 + d <? 58) eqn:E'; [lia|]. apply Z.ltb_ge in E'. lia.
  - apply Z.ltb_ge in E.
    destruct (87 + d <? 58) eqn:E'; [|lia]. apply Z.ltb_lt in E'. lia.
Qed.

Lemma radix_digit_36 d : 0 <= d < 36 -> is_radix36_digit (radix_digit d).
Proof.
  intros H. unfold is_radix36_digit, radix_digit.
  destruct (d <? 10) eqn:E; [apply Z.ltb_lt in E|apply Z.ltb_ge in E]; lia.
Qed.

Lemma of_radix_acc radix ds : forall a,
  fold_left (fun acc d => acc * radix + digit_value d) ds a
  = a * radix ^ Z.of_nat (length ds) + of_radix radix ds.
Proof.
  unfold of_radix.
  induction ds as [|d ds IH]; intros a; cbn [fold_left length].
  - simpl. lia.
  - rewrite IH, (IH (0 * radix + digit_value d)).
    rewrite Nat2Z.inj_succ, Z.pow_succ_r by lia. lia.
Qed.

Lemma to_radix_spec fuel : forall n acc,
  0 <= n < 2 ^ Z.of_nat fuel ->
  let r := to_radix fuel 36 n acc in
  (fuel <> 0%nat -> r <> []) /\
  (Forall is_radix36_digit acc -> Forall is_radix36_digit r) /\
  (fuel <> 0%nat ->
   of_radix 36 r = n * 36 ^ Z.of_nat (length acc) + of_radix 36 acc).
Proof.
  induction fuel as [|fuel IH]; intros n acc Hn r.
  - split; [congruence|]. split; [auto|congruence].
  - subst r. cbn [to_radix].
    assert (Hm : 0 <= n mod 36 < 36) by (apply Z.mod_pos_bound; lia).
    assert (Hd : 0 <= n / 36) by (apply Z.div_pos; lia).
    assert (E36 : n = 36 * (n / 36) + n mod 36) by (apply Z.div_mod; lia).
    assert (Hacc : of_radix 36 (radix_digit (n mod 36) :: acc)
                   = n mod 36 * 36 ^ Z.of_nat (length acc) + of_radix 36 acc).
    { unfold of_radix at 1. cbn [fold_left]. rewrite of_radix_acc.
      rewrite radix_digit_value by exact Hm. lia. }
    destruct (n / 36 =? 0) eqn:E.
    + apply Z.eqb_eq in E. split; [discriminate|].
      split.
      * intros H. constructor; [apply radix_digit_36; exact Hm|exact H].
      * intros _. rewrite Hacc. rewrite E in E36. lia.
    + apply Z.eqb_neq in E.
      assert (Hlt : 0 <= n / 36 < 2 ^ Z.of_nat fuel).
      { split; [exact Hd|]. rewrite Nat2Z.inj_succ, Z.pow_succ_r in Hn by lia.
        apply Z.div_lt_upper_bound; lia. }
      assert (Hf : fuel <> 0%nat).
      { intros ->. simpl in Hlt. lia. }
      destruct (IH (n / 36) (radix_digit (n mod 36) :: acc) Hlt) as [H1 [H2 H3]].
      split; [intros _; apply H1; exact Hf|].
      split.
      * intros H. apply H2. constructor; [apply radix_digit_36; exact Hm|exact H].
      * intros _. rewrite (H3 Hf), Hacc. cbn [length].
        rewrite Nat2Z.inj_succ, Z.pow_succ_r by lia. lia.
Qed.

(** [toString(36)] writes a non-negative integer in digits [0-9a-z],
    at least one, and the text denotes the integer. *)
Lemma toString_radix_36 n :
  0 <= n ->
  toString_radix 36 n <> [] /\
  Forall is_radix36_digit (toString_radix 36 n) /\
  of_radix 36 (toString_radix 36 n) = n.
Proof.
  intros Hn. unfold toString_radix.
  assert (Hb : 0 <= n < 2 ^ Z.of_nat (S (Z.to_nat (Z.log2 n)))).
  { split; [exact Hn|]. rewrite Nat2Z.inj_succ, Z2Nat.id by apply Z.log2_nonneg.
    destruct (Z.eq_dec n 0) as [->|Hne]; [reflexivity|].
    apply Z.log2_spec. lia. }
  destruct (to_radix_spec _ n [] Hb) as [H1 [H2 H3]].
  split; [apply H1; discriminate|].
  split; [apply H2; constructor|].
  rewrite H3 by discriminate. simpl. unfold of_radix. simpl. lia.
Qed.

Lemma djb2Hash_nonempty input : djb2Hash input <> [].
Proof.
  rewrite djb2Hash_poly. apply toString_radix_36.
  apply Z.mod_pos_bound. lia.
Qed.

Lemma resolve_sheet_row_id_nonempty ts n s d b t :
  resolve_sheet_row_id ts n s d b t <> [].
Proof.
  unfold resolve_sheet_row_id, or_else.
  destruct ts; simpl; [apply djb2Hash_nonempty|discriminate].
Qed.



(** ** The engine, step by step *)

Lemma bind_inr {A B} (c : M A) (k : A -> M B) w b w' :
  bind c k w = (inr b, w') ->
  exists a w1, c w = (inr a, w1) /\ k a w1 = (inr b, w').
Proof.
  unfold bind. destruct (c w) as [[e|a] w1]; [discriminate|].
  intros H. exists a, w1. auto.
Qed.

Lemma call_inr {A} (op : database -> A * database) w a w' :
  call op w = (inr a, w') ->
  a = fst (op (db w)) /\ db w' = snd (op (db w)).
Proof.
  unfold call, store_call.
  destruct (pending w) as [|[e|] rest].
  - destruct (op (db w)) as [x d]. intros H. injection H as <- <-. auto.
  - discriminate.
  - destruct (op (db w)) as [x d]. intros H. injection H as <- <-. auto.
Qed.

Lemma ret_inr {A} (a b : A) w w' : ret a w = (inr b, w') -> a = b /\ w = w'.
Proof. unfold ret. intros H. injection H as <- <-. auto. Qed.

Lemma update_loop_ok now rs : forall k w n w',
  update_loop now rs k w = (inr n, w') ->
  n = (k + length rs)%nat /\
  orders (db w') = map (updated_row now rs) (orders (db w)) /\
  assignments (db w') = assignments (db w).
Proof.
  induction rs as [|r rs IH]; intros k w n w' H; cbn [update_loop] in H.
  - apply ret_inr in H. destruct H as [<- <-].
    split; [simpl; lia|]. split; [|reflexivity].
    unfold updated_row. simpl. symmetry. apply map_id.
  - apply bind_inr in H. destruct H as [u [w1 [H1 H2]]].
    apply call_inr in H1. destruct H1 as [_ H1].
    apply IH in H2. destruct H2 as [-> [H2 H3]].
    split; [simpl; lia|]. rewrite H2, H3, H1. simpl.
    split; [|reflexivity]. rewrite map_map. reflexivity.
Qed.

Lemma sql_in_app col a b : sql_in col (a ++ b) = sql_in col a || sql_in col b.
Proof. destruct col; simpl; [apply existsb_app|reflexivity]. Qed.

Lemma filter_filter {A} (p q : A -> bool) l :
  filter q (filter p l) = filter (fun x => p x && q x) l.
Proof.
  induction l as [|x l IH]; simpl; [reflexivity|].
  destruct (p x); simpl; [destruct (q x)|]; rewrite IH; reflexivity.
Qed.

Lemma filter_length_le {A} (p : A -> bool) l : (length (filter p l) <= length l)%nat.
Proof. induction l as [|x l IH]; simpl; [lia|]. destruct (p x); simpl; lia. Qed.

Lemma filter_negb_length {A} (p : A -> bool) l :
  (length (filter p l) + length (filter (fun x => negb (p x)) l) = length l)%nat.
Proof. induction l as [|x l IH]; simpl; [lia|]. destruct (p x); simpl; lia. Qed.

Lemma filter_all {A} (p : A -> bool) l :
  (forall x, In x l -> p x = true) -> filter p l = l.
Proof.
  induction l as [|x l IH]; intros H; [reflexivity|]. cbn [filter].
  rewrite (H x (or_introl eq_refl)). f_equal. apply IH. intros y Hy. apply H. right. exact Hy.
Qed.

Lemma filter_none {A} (p : A -> bool) l :
  (forall x, In x l -> p x = false) -> filter p l = [].
Proof.
  induction l as [|x l IH]; intros H; [reflexivity|]. cbn [filter].
  rewrite (H x (or_introl eq_refl)). apply IH. intros y Hy. apply H. right. exact Hy.
Qed.

Lemma slice_rest {A} (l : list A) i n :
  firstn n (skipn i l) ++ skipn (i + n) l = skipn i l.
Proof.
  rewrite Nat.add_comm, <- skipn_skipn. apply firstn_skipn.
Qed.

Lemma chunk_pos : (0 < chunk)%nat.
Proof. unfold chunk. apply Nat.lt_0_succ. Qed.

Opaque chunk.

Lemma purge_loop_ok fuel : forall staleIds i purged w n w',
  (length staleIds - i <= fuel)%nat ->
  purge_loop fuel staleIds i purged w = (inr n, w') ->
  orders (db w')
  = filter (fun o => negb (sql_in (sheet_row_id o) (skipn i staleIds))) (orders (db w)) /\
  (n + length (orders (db w')) = purged + length (orders (db w)))%nat.
Proof.
  induction fuel as [|fuel IH]; intros staleIds i purged w n w' Hf H;
    cbn [purge_loop] in H.
  - apply ret_inr in H. destruct H as [<- <-].
    rewrite skipn_all2 by lia.
    split; [|lia]. induction (orders (db w)) as [|o os IHo]; simpl; [reflexivity|].
    destruct (sheet_row_id o); simpl; f_equal; exact IHo.
  - destruct (i <? length staleIds)%nat eqn:E.
    + apply Nat.ltb_lt in E.
      apply bind_inr in H. destruct H as [c [w1 [H1 H2]]].
      apply call_inr in H1. destruct H1 as [Hc H1].
      apply IH in H2; [|pose proof chunk_pos; lia].
      destruct H2 as [H2 H3]. rewrite H1 in H2, H3. simpl in H2, H3, Hc.
      split.
      * rewrite H2, filter_filter. apply filter_ext. intros o.
        rewrite <- negb_orb, <- sql_in_app, slice_rest. reflexivity.
      * subst c.
        pose proof (filter_negb_length
                      (fun o => sql_in (sheet_row_id o) (firstn chunk (skipn i staleIds)))
                      (orders (db w))). lia.
    + apply Nat.ltb_ge in E. apply ret_inr in H. destruct H as [<- <-].
      rewrite skipn_all2 by lia.
      split; [|lia]. induction (orders (db w)) as [|o os IHo]; simpl; [reflexivity|].
      destruct (sheet_row_id o); simpl; f_equal; exact IHo.
Qed.


Lemma filter_nil_length {A} (p : A -> bool) l :
  (0 <? length (filter p l))%nat = false -> filter p l = [].
Proof. destruct (filter p l); [reflexivity|discriminate]. Qed.

(** A run of the engine that is not interrupted: the table it leaves is
    [reconciled], and the counts are those of the three steps. *)
Lemma reconcile_ok now purge toInsert w ins upd pur w' :
  reconcile now purge toInsert w = (inr (ins, upd, pur), w') ->
  let os := orders (db w) in
  orders (db w') = reconciled now purge toInsert os /\
  ins = length (newRecords_of toInsert os) /\
  upd = length (updateRecords_of toInsert os) /\
  (pur + length (orders (db w')) = length (upserted now toInsert os))%nat.
Proof.
  intros H os. unfold reconcile in H.
  apply bind_inr in H. destruct H as [existing [w1 [H1 H]]].
  apply call_inr in H1. destruct H1 as [He H1].
  change (fst (select_existing (db w)))
    with (map (fun o => (sheet_row_id o, status o, taken_by o)) os) in He.
  change (snd (select_existing (db w))) with (db w) in H1.
  subst existing. fold (existing_of os) in H.
  fold (newRecords_of toInsert os) in H. fold (updateRecords_of toInsert os) in H.
  apply bind_inr in H. destruct H as [ins' [w2 [H2 H]]].
  assert (Hins : ins' = length (newRecords_of toInsert os) /\
                 orders (db w2) = insert_rows now (newRecords_of toInsert os) os).
  { destruct (0 <? length (newRecords_of toInsert os))%nat eqn:E.
    - apply bind_inr in H2. destruct H2 as [u [w2' [H2 H2']]].
      apply call_inr in H2. destruct H2 as [_ H2].
      apply ret_inr in H2'. destruct H2' as [<- <-].
      split; [reflexivity|]. rewrite H2, H1. reflexivity.
    - apply ret_inr in H2. destruct H2 as [<- <-].
      unfold newRecords_of in *. rewrite (filter_nil_length _ _ E).
      split; [reflexivity|]. rewrite H1. reflexivity. }
  destruct Hins as [-> Hins].
  apply bind_inr in H. destruct H as [upd' [w3 [H3 H]]].
  apply update_loop_ok in H3. destruct H3 as [-> [H3 _]].
  rewrite Hins in H3. fold (upserted now toInsert os) in H3.
  apply bind_inr in H. destruct H as [pur' [w4 [H4 H]]].
  apply ret_inr in H. destruct H as [H <-]. injection H as <- <- <-.
  unfold reconciled. destruct purge.
  - apply bind_inr in H4. destruct H4 as [c [w5 [H5 H6]]].
    apply call_inr in H5. destruct H5 as [Hc H5].
    fold (staleIds_of toInsert os) in H6.
    apply purge_loop_ok in H6; [|lia]. destruct H6 as [H6 H7].
    rewrite H5 in H6, H7. cbn [delete_where snd orders] in H6, H7.
    cbn [delete_where fst] in Hc. rewrite H3 in H6, H7, Hc.
    cbn [skipn] in H6.
    split; [exact H6|]. split; [reflexivity|]. split; [simpl; lia|].
    subst c.
    pose proof (filter_negb_length (fun o => sql_neq (source o) google_sheet)
                  (upserted now toInsert os)). lia.
  - apply ret_inr in H4. destruct H4 as [<- <-].
    split; [exact H3|]. split; [reflexivity|]. split; [simpl; lia|].
    rewrite H3. reflexivity.
Qed.

(** ** The map of the persisted identities *)

Lemma assoc_map_set key v m : forall k,
  assoc k (map_set key v m) = if jsstring_eqb key k then Some v else assoc k m.
Proof.
  induction m as [|[k0 x] m IH]; intros k; cbn [map_set assoc].
  - reflexivity.
  - destruct (jsstring_eqb k0 key) eqn:E; cbn [assoc].
    + apply jsstring_eqb_eq in E. subst k0.
      destruct (jsstring_eqb key k); reflexivity.
    + destruct (jsstring_eqb k0 k) eqn:E'.
      * apply jsstring_eqb_eq in E'. subst k0.
        apply jsstring_eqb_neq in E.
        assert (E2 : jsstring_eqb key k = false) by (apply jsstring_eqb_neq; congruence).
        rewrite E2. reflexivity.
      * apply IH.
Qed.

Lemma map_has_set key v m k :
  map_has k (map_set key v m) = jsstring_eqb key k || map_has k m.
Proof.
  unfold map_has. rewrite assoc_map_set.
  destruct (jsstring_eqb key k); reflexivity.
Qed.

Lemma map_has_build rows : forall m k,
  map_has k (build_existingMap rows m)
  = map_has k m
    || (negb (is_empty k) && existsb (fun row => sql_eq (fst (fst row)) k) rows).
Proof.
  induction rows as [|[[i st] tb] rows IH]; intros m k; cbn [build_existingMap existsb].
  - rewrite andb_false_r, orb_false_r. reflexivity.
  - cbn [fst]. destruct i as [key|]; cbn [sql_eq].
    + destruct (is_empty key) eqn:Ek.
      * rewrite IH. destruct key; [|discriminate].
        destruct k; cbn [is_empty negb andb jsstring_eqb orb]; reflexivity.
      * rewrite IH, map_has_set.
        destruct (jsstring_eqb key k) eqn:E; cbn [orb].
        -- apply jsstring_eqb_eq in E. subst k. rewrite Ek.
           destruct (map_has key m); reflexivity.
        -- reflexivity.
    + rewrite IH. reflexivity.
Qed.

(** An identity is in the map when it is not empty and some persisted
    order carries it. *)
Lemma existsb_map_comp {A B} (f : A -> B) (p : B -> bool) l :
  existsb p (map f l) = existsb (fun x => p (f x)) l.
Proof. induction l as [|x l IH]; simpl; [reflexivity|]. rewrite IH. reflexivity. Qed.

Lemma map_has_existing_of k os :
  map_has k (existing_of os) = negb (is_empty k) && persisted k os.
Proof.
  unfold existing_of, persisted. rewrite map_has_build.
  cbn [map_has assoc orb]. rewrite existsb_map_comp. reflexivity.
Qed.



Lemma persisted_spec k os :
  persisted k os = true <-> exists o, In o os /\ sheet_row_id o = Some k.
Proof.
  unfold persisted. rewrite existsb_exists. split; intros [o [H1 H2]]; exists o.
  - split; [exact H1|]. destruct (sheet_row_id o) as [x|]; [|discriminate].
    simpl in H2. apply jsstring_eqb_eq in H2. congruence.
  - split; [exact H1|]. rewrite H2. simpl. apply jsstring_eqb_refl.
Qed.

Lemma sql_eq_spec col k : sql_eq col k = true <-> col = Some k.
Proof.
  destruct col as [x|]; simpl; [|split; discriminate].
  rewrite jsstring_eqb_eq. split; congruence.
Qed.

Lemma existsb_eqb_in k l : existsb (jsstring_eqb k) l = true <-> In k l.
Proof.
  rewrite existsb_exists. split.
  - intros [x [H1 H2]]. apply jsstring_eqb_eq in H2. congruence.
  - intros H. exists k. split; [exact H|apply jsstring_eqb_refl].
Qed.

Lemma sql_in_spec col l : sql_in col l = true <-> exists k, col = Some k /\ In k l.
Proof.
  destruct col as [x|]; simpl.
  - rewrite existsb_eqb_in. split; [eauto|]. intros [k [E H]]. congruence.
  - split; [discriminate|]. intros [k [E H]]. discriminate.
Qed.

(** ** Rows after the updates and the inserts *)

Lemma jsstring_eqb_sym a b : jsstring_eqb a b = jsstring_eqb b a.
Proof.
  destruct (jsstring_eqb a b) eqn:E.
  - apply jsstring_eqb_eq in E. subst. symmetry. apply jsstring_eqb_refl.
  - apply jsstring_eqb_neq in E. symmetry. apply jsstring_eqb_neq. congruence.
Qed.

Lemma same_workflow_refl o : same_workflow o o.
Proof. unfold same_workflow. repeat split. Qed.

Lemma same_workflow_trans a b c :
  same_workflow a b -> same_workflow b c -> same_workflow a c.
Proof.
  unfold same_workflow. intros H1 H2.
  repeat match goal with H : _ /\ _ |- _ => destruct H end.
  repeat split; congruence.
Qed.

Lemma apply_update_same_workflow now r o : same_workflow o (apply_update now r o).
Proof. unfold same_workflow. repeat split. Qed.

Lemma updated_row_same_workflow now rs : forall o,
  same_workflow o (updated_row now rs o).
Proof.
  unfold updated_row.
  induction rs as [|r rs IH]; intros o; cbn [fold_left].
  - apply same_workflow_refl.
  - eapply same_workflow_trans; [|apply IH].
    destruct (sql_eq (sheet_row_id o) (rec_sheet_row_id r));
      [apply apply_update_same_workflow|apply same_workflow_refl].
Qed.

Lemma apply_update_twice now r r0 o :
  apply_update now r (apply_update now r0 o) = apply_update now r o.
Proof. reflexivity. Qed.

Lemma updated_row_from now i rs : forall o acc,
  sheet_row_id o = Some i ->
  updated_row now rs
    (match acc with Some r => apply_update now r o | None => o end)
  = match last_parsed_from acc i rs with
    | Some r => apply_update now r o
    | None => o
    end.
Proof.
  unfold updated_row, last_parsed_from.
  induction rs as [|r rs IH]; intros o acc Ho; cbn [fold_left]; [reflexivity|].
  assert (E : sheet_row_id (match acc with Some r0 => apply_update now r0 o | None => o end)
              = Some i) by (destruct acc; simpl; exact Ho).
  rewrite E. cbn [sql_eq].
  destruct (jsstring_eqb i (rec_sheet_row_id r)) eqn:Ei.
  - rewrite <- (IH o (Some r) Ho). destruct acc; reflexivity.
  - apply (IH o acc Ho).
Qed.

(** A row with the identity [i] after the updates of [rs]: the last
    record with that identity has overwritten the descriptive columns. *)
Lemma updated_row_last now i rs o :
  sheet_row_id o = Some i ->
  updated_row now rs o
  = match last_parsed i rs with
    | Some r => apply_update now r o
    | None => o
    end.
Proof. intros Ho. exact (updated_row_from now i rs o None Ho). Qed.

Lemma updated_row_no_identity now rs : forall o,
  sheet_row_id o = None -> updated_row now rs o = o.
Proof.
  unfold updated_row.
  induction rs as [|r rs IH]; intros o Ho; cbn [fold_left]; [reflexivity|].
  rewrite Ho. cbn [sql_eq]. apply IH, Ho.
Qed.

Lemma last_parsed_from_some i rs : forall acc r,
  last_parsed_from acc i rs = Some r ->
  (acc = Some r \/ In r rs) /\ (acc = Some r \/ rec_sheet_row_id r = i).
Proof.
  unfold last_parsed_from.
  induction rs as [|r0 rs IH]; intros acc r H; cbn [fold_left] in H.
  - auto.
  - apply IH in H. destruct H as [H1 H2].
    destruct (jsstring_eqb i (rec_sheet_row_id r0)) eqn:E.
    + apply jsstring_eqb_eq in E. split.
      * destruct H1 as [H1|H1]; [injection H1 as <-; right; left; reflexivity
                                |right; right; exact H1].
      * destruct H2 as [H2|H2]; [injection H2 as <-; right; auto|auto].
    + split; [|exact H2]. destruct H1 as [H1|H1]; [auto|right; right; exact H1].
Qed.

Lemma last_parsed_some i rs r :
  last_parsed i rs = Some r -> In r rs /\ rec_sheet_row_id r = i.
Proof.
  intros H. apply last_parsed_from_some in H. destruct H as [[H1|H1] [H2|H2]];
    try discriminate; auto.
Qed.

Lemma last_parsed_from_acc i rs : forall x,
  exists r', last_parsed_from (Some x) i rs = Some r'.
Proof.
  unfold last_parsed_from.
  induction rs as [|r0 rs IH]; intros x; cbn [fold_left]; [eauto|].
  destruct (jsstring_eqb i (rec_sheet_row_id r0)); apply IH.
Qed.

Lemma last_parsed_from_in i rs : forall acc r,
  In r rs -> rec_sheet_row_id r = i ->
  exists r', last_parsed_from acc i rs = Some r'.
Proof.
  induction rs as [|r0 rs IH]; intros acc r Hin Hi; [destruct Hin|].
  unfold last_parsed_from. cbn [fold_left]. destruct Hin as [->|Hin].
  - subst i. rewrite jsstring_eqb_refl. apply last_parsed_from_acc.
  - eapply IH; eauto.
Qed.

Lemma last_parsed_in i rs r :
  In r rs -> rec_sheet_row_id r = i -> exists r', last_parsed i rs = Some r'.
Proof. apply last_parsed_from_in. Qed.

Lemma insert_rows_app now rs : forall os,
  exists new,
    insert_rows now rs os = os ++ new /\
    Forall2 (fun r o => exists k, o = order_of_record now k r) rs new.
Proof.
  induction rs as [|r rs IH]; intros os; cbn [insert_rows].
  - exists []. rewrite app_nil_r. split; [reflexivity|constructor].
  - destruct (IH (os ++ [order_of_record now (next_id os) r])) as [new [E F]].
    exists (order_of_record now (next_id os) r :: new).
    rewrite E, <- app_assoc. split; [reflexivity|].
    constructor; [eauto|exact F].
Qed.

(** ** Counting the orders of one identity *)

Lemma count_identity_app i a b :
  count_identity i (a ++ b) = (count_identity i a + count_identity i b)%nat.
Proof. unfold count_identity. rewrite filter_app, length_app. reflexivity. Qed.

Lemma filter_map_length {A B} (f : A -> B) (p : B -> bool) l :
  length (filter p (map f l)) = length (filter (fun x => p (f x)) l).
Proof.
  induction l as [|x l IH]; simpl; [reflexivity|].
  destruct (p (f x)); simpl; rewrite IH; reflexivity.
Qed.

Lemma count_identity_updated now rs i os :
  count_identity i (map (updated_row now rs) os) = count_identity i os.
Proof.
  unfold count_identity. rewrite filter_map_length. f_equal.
  apply filter_ext. intros o.
  destruct (updated_row_same_workflow now rs o) as [_ [E _]]. rewrite E. reflexivity.
Qed.

Lemma count_identity_new now i rs new :
  Forall2 (fun r o => exists k, o = order_of_record now k r) rs new ->
  count_identity i new = count_parsed i rs.
Proof.
  unfold count_identity, count_parsed.
  induction 1 as [|r o rs new [k ->] _ IH]; [reflexivity|].
  cbn [filter order_of_record sheet_row_id sql_eq].
  destruct (jsstring_eqb (rec_sheet_row_id r) i); cbn [length]; rewrite IH; reflexivity.
Qed.

Lemma count_parsed_new i toInsert os :
  count_parsed i (newRecords_of toInsert os)
  = if map_has i (existing_of os) then 0%nat else count_parsed i toInsert.
Proof.
  unfold count_parsed, newRecords_of. rewrite filter_filter.
  destruct (map_has i (existing_of os)) eqn:E.
  - induction toInsert as [|r rs IH]; [reflexivity|]. cbn [filter].
    destruct (jsstring_eqb (rec_sheet_row_id r) i) eqn:Er.
    + apply jsstring_eqb_eq in Er. rewrite Er, E. exact IH.
    + rewrite andb_false_r. exact IH.
  - f_equal. apply filter_ext_in. intros r _.
    destruct (jsstring_eqb (rec_sheet_row_id r) i) eqn:Er.
    + apply jsstring_eqb_eq in Er. rewrite Er, E. reflexivity.
    + apply andb_false_r.
Qed.

Lemma count_identity_zero i os :
  persisted i os = false -> count_identity i os = 0%nat.
Proof.
  unfold persisted, count_identity. intros H.
  induction os as [|o os IH]; [reflexivity|].
  cbn [existsb] in H. apply orb_false_iff in H. destruct H as [H1 H2].
  cbn [filter]. rewrite H1. apply IH, H2.
Qed.

Lemma count_identity_pos i os :
  persisted i os = true <-> (0 < count_identity i os)%nat.
Proof.
  split.
  - intros H. destruct (count_identity i os) eqn:E; [|lia].
    exfalso. unfold persisted, count_identity in *.
    apply existsb_exists in H. destruct H as [o [H1 H2]].
    assert (Hin : In o (filter (fun o => sql_eq (sheet_row_id o) i) os))
      by (apply filter_In; auto).
    destruct (filter _ os); [destruct Hin|discriminate].
  - intros H. destruct (persisted i os) eqn:E; [reflexivity|].
    apply count_identity_zero in E. lia.
Qed.

(** ** The feed *)

Lemma build_record_well_parsed now row n s d b t ts r :
  build_record now row n s d b t ts = Some r -> well_parsed r.
Proof.
  unfold build_record. destruct (is_empty s && is_empty d) eqn:E; [discriminate|].
  intros H. injection H as <-. split; cbn [rec_sheet_row_id rec_requirement_text].
  - apply resolve_sheet_row_id_nonempty.
  - destruct s as [|c s]; destruct d as [|c' d]; try discriminate E;
      cbn [filter is_empty negb join]; try discriminate.
Qed.

Lemma mapTimelineToDueDate_days tl :
  exists days : option Z,
    forall now, mapTimelineToDueDate now (Some tl) = option_map (addDays now) days.
Proof.
  unfold mapTimelineToDueDate.
  destruct (is_empty tl); [exists None; reflexivity|].
  destruct (_ || _); [exists (Some 3); reflexivity|].
  destruct (_ || _); [exists (Some 7); reflexivity|].
  destruct (_ || _); [exists (Some 28); reflexivity|].
  exists None; reflexivity.
Qed.

Lemma record_of_fields_two_clocks now1 now2 row f :
  match record_of_fields now1 row f, record_of_fields now2 row f with
  | Some r1, Some r2 => same_but_due_date now1 now2 r1 r2
  | None, None => True
  | _, _ => False
  end.
Proof.
  unfold record_of_fields, build_record.
  destruct (is_empty (f_service f) && is_empty (f_desc f)); [exact I|].
  unfold same_but_due_date.
  cbn [rec_client_name rec_requirement_text rec_price rec_sheet_row_id
       rec_raw_sheet_json rec_due_date].
  repeat split.
  destruct (mapTimelineToDueDate_days (f_timeline f)) as [days H].
  exists days. rewrite !H. auto.
Qed.

Lemma map_rows_length f rows : forall rs,
  map_rows f rows = inr rs -> (length rs <= length rows)%nat.
Proof.
  induction rows as [|row rows IH]; intros rs H; cbn [map_rows] in H.
  - injection H as <-. simpl. lia.
  - destruct (f row) as [e|r]; [discriminate|].
    destruct (map_rows f rows) as [e|rs']; [discriminate|].
    specialize (IH rs' eq_refl). injection H as <-.
    destruct r; simpl; lia.
Qed.

Lemma map_rows_Forall (P : record -> Prop) f rows :
  (forall row r, f row = inr (Some r) -> P r) ->
  forall rs, map_rows f rows = inr rs -> Forall P rs.
Proof.
  intros Hf. induction rows as [|row rows IH]; intros rs H; cbn [map_rows] in H.
  - injection H as <-. constructor.
  - destruct (f row) as [e|r] eqn:E; [discriminate|].
    destruct (map_rows f rows) as [e|rs']; [discriminate|].
    specialize (IH rs' eq_refl). injection H as <-.
    destruct r; [constructor; eauto|exact IH].
Qed.

Lemma callback_well_parsed read now row r :
  callback read now row = inr (Some r) -> well_parsed r.
Proof.
  unfold callback. destruct (read row) as [e|f]; [discriminate|].
  intros H. injection H as H. unfold record_of_fields in H.
  eapply build_record_well_parsed, H.
Qed.

(** The same rows read at two clock readings: the second reading
    succeeds when the first does, and gives the same records but for the
    due dates. *)
Lemma map_rows_two_clocks read now1 now2 rows : forall t1,
  map_rows (callback read now1) rows = inr t1 ->
  exists t2, map_rows (callback read now2) rows = inr t2 /\
             Forall2 (same_but_due_date now1 now2) t1 t2.
Proof.
  induction rows as [|row rows IH]; intros t1 H; cbn [map_rows] in *.
  - injection H as <-. exists []. split; [reflexivity|constructor].
  - unfold callback at 1 in H. unfold callback at 1.
    destruct (read row) as [e|f]; [discriminate|].
    destruct (map_rows (callback read now1) rows) as [e|rs1]; [discriminate|].
    destruct (IH rs1 eq_refl) as [rs2 [E F]]. rewrite E.
    pose proof (record_of_fields_two_clocks now1 now2 row f) as R.
    injection H as <-.
    destruct (record_of_fields now1 row f), (record_of_fields now2 row f);
      try contradiction.
    + eexists; split; [reflexivity|]. constructor; assumption.
    + eexists; split; [reflexivity|]. exact F.
Qed.

Section FeedFacts.

Variable JSON_parse : jsstring -> option json.

Lemma parse_opensheet_ok now body toInsert n :
  parse_opensheet JSON_parse now body = inr (toInsert, n) ->
  exists rows,
    opensheet_rows JSON_parse body = Some rows /\ n = length rows /\
    map_rows (callback opensheet_fields now) rows = inr toInsert.
Proof.
  unfold parse_opensheet, opensheet_rows.
  destruct (JSON_parse body) as [[| | | |rows|]|]; try discriminate.
  change (opensheet_row now) with (callback opensheet_fields now).
  destruct (map_rows _ rows) as [e|rs] eqn:E; [discriminate|].
  intros H. injection H as <- <-. exists rows. auto.
Qed.

Lemma parse_gviz_ok now text toInsert n :
  parse_gviz JSON_parse now text = inr (toInsert, n) ->
  exists rows colIndex,
    gviz_rows JSON_parse text = Some rows /\ n = length rows /\
    check_required required colIndex = None /\
    map_rows (callback (gviz_fields colIndex) now) rows = inr toInsert.
Proof.
  unfold parse_gviz, gviz_rows.
  destruct (parseGvizJsonp JSON_parse text) as [e|gviz]; [discriminate|].
  destruct (prop (Some gviz) (lit "table")) as [e|table]; [discriminate|].
  destruct (prop table (lit "cols")) as [e|[[| | | |cols|]|]]; try discriminate.
  destruct (build_colIndex cols 0 []) as [e|colIndex]; [discriminate|].
  destruct (check_required required colIndex) eqn:Ec; [discriminate|].
  destruct (prop table (lit "rows")) as [e|[[| | | |rows|]|]]; try discriminate.
  change (gviz_row now colIndex) with (callback (gviz_fields colIndex) now).
  destruct (map_rows _ rows) as [e|rs] eqn:E; [discriminate|].
  intros H. injection H as <- <-. exists rows, colIndex. auto.
Qed.

Variable fetch : jsstring -> fetch_response.

(** A feed that loads: the count is the number of its rows, and the
    records are the rows that are not blank. *)
Lemma load_feed_ok now req toInsert n :
  load_feed JSON_parse fetch now req = inr (toInsert, n) ->
  exists rows read,
    feed_rows JSON_parse fetch now req = Some rows /\ n = length rows /\
    map_rows (callback read now) rows = inr toInsert /\
    (length toInsert <= n)%nat /\ Forall well_parsed toInsert.
Proof.
  unfold load_feed, feed_rows, is_array_variant.
  destruct (negb (ok (fetch (targetUrl now req)))); [discriminate|].
  destruct (includes (targetUrl now req) (lit "opensheet.elk.sh")); intros H.
  - apply parse_opensheet_ok in H. destruct H as [rows [H1 [H2 H3]]].
    exists rows, opensheet_fields. repeat split; auto.
    + subst n. eapply map_rows_length, H3.
    + eapply map_rows_Forall; [|exact H3]. intros row r. apply callback_well_parsed.
  - apply parse_gviz_ok in H. destruct H as [rows [ci [H1 [H2 [_ H3]]]]].
    exists rows, (gviz_fields ci). repeat split; auto.
    + subst n. eapply map_rows_length, H3.
    + eapply map_rows_Forall; [|exact H3]. intros row r. apply callback_well_parsed.
Qed.

(** A run that answers 200: the feed loaded and the engine was not
    interrupted. *)
Lemma serve_ok env_ok now req w ins upd pur total w' :
  serve JSON_parse fetch env_ok now req w = (Ok200 ins upd pur total, w') ->
  exists toInsert,
    load_feed JSON_parse fetch now req = inr (toInsert, total) /\
    reconcile now (purge_flag req) toInsert w = (inr (ins, upd, pur), w').
Proof.
  unfold serve. destruct (is_options req); [discriminate|].
  destruct (negb env_ok); [discriminate|].
  destruct (load_feed JSON_parse fetch now req) as [e|[toInsert n]]; [discriminate|].
  destruct (reconcile now (purge_flag req) toInsert w) as [[e|[[a b] c]] w1] eqn:E;
    [discriminate|].
  intros H. injection H as -> -> -> -> ->. exists toInsert. split; [reflexivity|exact E].
Qed.

End FeedFacts.

(** ** The table after the inserts and the updates *)

Lemma last_parsed_from_none i rs :
  (forall r, In r rs -> rec_sheet_row_id r <> i) -> last_parsed_from None i rs = None.
Proof.
  unfold last_parsed_from.
  induction rs as [|r rs IH]; intros H; cbn [fold_left]; [reflexivity|].
  destruct (jsstring_eqb i (rec_sheet_row_id r)) eqn:E.
  - apply jsstring_eqb_eq in E. exfalso. apply (H r); [left; reflexivity|congruence].
  - apply IH. intros r' Hr'. apply H. right. exact Hr'.
Qed.

Lemma in_updateRecords r toInsert os :
  In r (updateRecords_of toInsert os) <->
  In r toInsert /\ map_has (rec_sheet_row_id r) (existing_of os) = true.
Proof. unfold updateRecords_of. apply filter_In. Qed.

Lemma in_newRecords r toInsert os :
  In r (newRecords_of toInsert os) <->
  In r toInsert /\ map_has (rec_sheet_row_id r) (existing_of os) = false.
Proof.
  unfold newRecords_of. rewrite filter_In, negb_true_iff. reflexivity.
Qed.

(** A row that has just been inserted is not touched by the updates. *)
Lemma updated_row_new now toInsert os k r :
  In r (newRecords_of toInsert os) ->
  updated_row now (updateRecords_of toInsert os) (order_of_record now k r)
  = order_of_record now k r.
Proof.
  intros Hr. apply in_newRecords in Hr. destruct Hr as [_ Hr].
  rewrite (updated_row_last now (rec_sheet_row_id r)) by reflexivity.
  unfold last_parsed. rewrite last_parsed_from_none; [reflexivity|].
  intros r' Hr' E. apply in_updateRecords in Hr'. destruct Hr' as [_ Hr'].
  congruence.
Qed.

Lemma Forall2_in_right {A B} (R : A -> B -> Prop) l l' y :
  Forall2 R l l' -> In y l' -> exists x, In x l /\ R x y.
Proof.
  induction 1 as [|a b l l' Hab _ IH]; intros Hin; [destruct Hin|].
  destruct Hin as [<-|Hin].
  - exists a. split; [left; reflexivity|exact Hab].
  - destruct (IH Hin) as [x [H1 H2]]. exists x. split; [right; exact H1|exact H2].
Qed.

(** Every row of the table after the upsert is an old row, updated, or
    the row of a new record. *)
Lemma upserted_cases now toInsert os o' :
  In o' (upserted now toInsert os) ->
  (exists o, In o os /\ o' = updated_row now (updateRecords_of toInsert os) o) \/
  (exists r k, In r (newRecords_of toInsert os) /\ o' = order_of_record now k r).
Proof.
  unfold upserted. intros H. apply in_map_iff in H. destruct H as [o [<- Ho]].
  destruct (insert_rows_app now (newRecords_of toInsert os) os) as [new [E F]].
  rewrite E in Ho. apply in_app_or in Ho. destruct Ho as [Ho|Ho].
  - left. exists o. auto.
  - right. destruct (Forall2_in_right _ _ _ _ F Ho) as [r [Hr [k ->]]].
    exists r, k. split; [exact Hr|]. apply updated_row_new, Hr.
Qed.

Lemma upserted_old now toInsert os o :
  In o os -> In (updated_row now (updateRecords_of toInsert os) o) (upserted now toInsert os).
Proof.
  intros Ho. unfold upserted. apply in_map.
  destruct (insert_rows_app now (newRecords_of toInsert os) os) as [new [E _]].
  rewrite E. apply in_or_app. left. exact Ho.
Qed.

(** After the upsert, a row whose identity is one of the parse is
    tagged as coming from the sheet. *)
Lemma upserted_source now toInsert os o' i :
  In o' (upserted now toInsert os) ->
  sheet_row_id o' = Some i -> i <> [] ->
  In i (map rec_sheet_row_id toInsert) ->
  source o' = Some google_sheet.
Proof.
  intros Ho' Hi Hne Hcur. apply upserted_cases in Ho'.
  destruct Ho' as [[o [Ho ->]]|[r [k [Hr ->]]]]; [|reflexivity].
  destruct (updated_row_same_workflow now (updateRecords_of toInsert os) o) as [_ [E _]].
  rewrite E in Hi.
  apply in_map_iff in Hcur. destruct Hcur as [r [Hr1 Hr2]].
  assert (Hm : map_has i (existing_of os) = true).
  { rewrite map_has_existing_of. apply andb_true_iff. split.
    - destruct i; [congruence|reflexivity].
    - apply persisted_spec. exists o. auto. }
  assert (Hu : In r (updateRecords_of toInsert os)).
  { apply in_updateRecords. split; [exact Hr2|]. rewrite Hr1. exact Hm. }
  destruct (last_parsed_in i _ r Hu Hr1) as [r' Hr'].
  rewrite (updated_row_last now i _ o Hi), Hr'. reflexivity.
Qed.

Lemma count_identity_filter keep i os :
  (forall o, In o os -> sheet_row_id o = Some i -> keep o = true) ->
  count_identity i (filter keep os) = count_identity i os.
Proof.
  unfold count_identity. intros H. rewrite filter_filter. f_equal.
  apply filter_ext_in. intros o Ho.
  destruct (sql_eq (sheet_row_id o) i) eqn:E; [|apply andb_false_r].
  apply sql_eq_spec in E. rewrite (H o Ho E). reflexivity.
Qed.

Lemma not_stale i toInsert os col :
  In i (map rec_sheet_row_id toInsert) ->
  col = Some i -> sql_in col (staleIds_of toInsert os) = false.
Proof.
  intros Hcur ->. destruct (sql_in (Some i) (staleIds_of toInsert os)) eqn:E;
    [|reflexivity].
  apply sql_in_spec in E. destruct E as [k [Ek Hk]]. injection Ek as <-.
  unfold staleIds_of in Hk. apply filter_In in Hk. destruct Hk as [_ Hk].
  apply negb_true_iff in Hk. apply existsb_eqb_in in Hcur. congruence.
Qed.

(** The number of orders with an identity of the parse, after a run. *)
Lemma count_identity_reconciled now purge toInsert os i :
  In i (map rec_sheet_row_id toInsert) -> i <> [] ->
  count_identity i (reconciled now purge toInsert os)
  = if persisted i os then count_identity i os else count_parsed i toInsert.
Proof.
  intros Hcur Hne.
  assert (Hu : count_identity i (upserted now toInsert os)
               = if persisted i os then count_identity i os else count_parsed i toInsert).
  { unfold upserted. rewrite count_identity_updated.
    destruct (insert_rows_app now (newRecords_of toInsert os) os) as [new [E F]].
    rewrite E, count_identity_app, (count_identity_new now i _ _ F), count_parsed_new.
    rewrite map_has_existing_of.
    assert (Ei : is_empty i = false) by (destruct i; [congruence|reflexivity]).
    rewrite Ei. cbn [negb andb].
    destruct (persisted i os) eqn:Ep; [lia|].
    rewrite (count_identity_zero i os Ep). reflexivity. }
  unfold reconciled. destruct purge; [|exact Hu].
  rewrite filter_filter, count_identity_filter; [exact Hu|].
  intros o Ho Hi. apply andb_true_iff. split.
  - rewrite (upserted_source now toInsert os o i Ho Hi Hne Hcur). reflexivity.
  - apply negb_true_iff. apply not_stale with (i := i); assumption.
Qed.

Lemma count_parsed_two i rs j k r1 r2 :
  j <> k -> nth_error rs j = Some r1 -> nth_error rs k = Some r2 ->
  rec_sheet_row_id r1 = i -> rec_sheet_row_id r2 = i ->
  (2 <= count_parsed i rs)%nat.
Proof.
  unfold count_parsed. revert j k.
  induction rs as [|r rs IH]; intros j k Hjk H1 H2 E1 E2.
  - destruct j; discriminate.
  - cbn [filter].
    destruct j as [|j], k as [|k]; cbn [nth_error] in H1, H2.
    + congruence.
    + injection H1 as ->. rewrite E1, jsstring_eqb_refl. cbn [length].
      apply nth_error_In in H2.
      assert (Hin : In r2 (filter (fun r => jsstring_eqb (rec_sheet_row_id r) i) rs))
        by (apply filter_In; split; [exact H2|rewrite E2; apply jsstring_eqb_refl]).
      destruct (filter _ rs); [destruct Hin|simpl; lia].
    + injection H2 as ->. rewrite E2, jsstring_eqb_refl. cbn [length].
      apply nth_error_In in H1.
      assert (Hin : In r1 (filter (fun r => jsstring_eqb (rec_sheet_row_id r) i) rs))
        by (apply filter_In; split; [exact H1|rewrite E1; apply jsstring_eqb_refl]).
      destruct (filter _ rs); [destruct Hin|simpl; lia].
    + assert (Hjk' : j <> k) by congruence.
      specialize (IH j k Hjk' H1 H2 E1 E2).
      destruct (jsstring_eqb (rec_sheet_row_id r) i); simpl; lia.
Qed.

(** ** C4: rows with one identity *)

(** C4, as stated, fails: two different rows with the same visible
    content and no timestamp, synchronised into an empty table, become
    two persisted orders with one identity. *)
Lemma identical_rows_are_inserted_twice :
  let rows := [ sample_row "Reel" "30 seconds" "10k" "1 week" "first";
                sample_row "Reel" "30 seconds" "10k" "1 week" "second" ] in
  let run := serve (fun _ => Some (JArr rows)) sample_fetch true 0
               (sample_request false) empty_world in
  let i := djb2Hash (lit "Asha|Reel|30 seconds|10k|1 week") in
  fst run = Ok200 2 0 0 2 /\
  map sheet_row_id (orders (db (snd run))) = [Some i; Some i] /\
  map id (orders (db (snd run))) = [1%nat; 2%nat] /\
  count_identity i (orders (db (snd run))) = 2%nat /\
  ~ (count_identity i (orders (db (snd run))) <= 1)%nat.
Proof.
  vm_compute.
  split; [reflexivity|]. split; [reflexivity|]. split; [reflexivity|].
  split; [reflexivity|]. intros H. inversion H as [|? H']. inversion H'.
Qed.

Section SyncRun.

Variable JSON_parse : jsstring -> option json.
Variable fetch : jsstring -> fetch_response.

(** C4 (amended): in a run that completes, for every identity [i] of
    the parse: when an order with that identity was persisted before the
    run, none is inserted and the orders with that identity stay as many
    as they were; when none was, one order is inserted for each parsed
    row with that identity.  Two rows without timestamp and with the same
    name, service, description, budget and timeline share their identity,
    so that first seen in one run they become two orders. *)
Theorem rows_of_one_identity_after_sync :
  forall env_ok now req w ins upd pur total w' toInsert,
    serve JSON_parse fetch env_ok now req w = (Ok200 ins upd pur total, w') ->
    load_feed JSON_parse fetch now req = inr (toInsert, total) ->
    (forall i,
        In i (map rec_sheet_row_id toInsert) ->
        count_identity i (orders (db w'))
        = if persisted i (orders (db w))
          then count_identity i (orders (db w))
          else count_parsed i toInsert) /\
    (forall i j k r1 r2,
        j <> k ->
        nth_error toInsert j = Some r1 -> nth_error toInsert k = Some r2 ->
        rec_sheet_row_id r1 = i -> rec_sheet_row_id r2 = i ->
        persisted i (orders (db w)) = false ->
        (2 <= count_identity i (orders (db w')))%nat) /\
    (forall row1 row2 f1 f2 r1 r2,
        f_timestamp f1 = [] -> f_timestamp f2 = [] ->
        f_name f1 = f_name f2 -> f_service f1 = f_service f2 ->
        f_desc f1 = f_desc f2 -> f_budgetRaw f1 = f_budgetRaw f2 ->
        f_timeline f1 = f_timeline f2 ->
        record_of_fields now row1 f1 = Some r1 ->
        record_of_fields now row2 f2 = Some r2 ->
        rec_sheet_row_id r1 = rec_sheet_row_id r2).
Proof.
  intros env_ok now req w ins upd pur total w' toInsert Hrun Hfeed.
  destruct (serve_ok _ _ _ _ _ _ _ _ _ _ _ Hrun) as [toInsert' [Hfeed' Hrec]].
  rewrite Hfeed in Hfeed'. injection Hfeed' as <-.
  destruct (load_feed_ok _ _ _ _ _ _ Hfeed) as [rows [read [_ [_ [_ [_ Hwp]]]]]].
  destruct (reconcile_ok _ _ _ _ _ _ _ _ Hrec) as [Hos _].
  assert (Hcount : forall i, In i (map rec_sheet_row_id toInsert) ->
            count_identity i (orders (db w'))
            = if persisted i (orders (db w))
              then count_identity i (orders (db w))
              else count_parsed i toInsert).
  { intros i Hi. rewrite Hos. apply count_identity_reconciled; [exact Hi|].
    apply in_map_iff in Hi. destruct Hi as [r [<- Hr]].
    rewrite Forall_forall in Hwp. apply (Hwp r Hr). }
  split; [exact Hcount|]. split.
  - intros i j k r1 r2 Hjk H1 H2 E1 E2 Hp.
    rewrite Hcount, Hp.
    + eapply count_parsed_two; eauto.
    + apply in_map_iff. exists r1. split; [exact E1|]. eapply nth_error_In, H1.
  - intros row1 row2 f1 f2 r1 r2 T1 T2 En Es Ed Eb Et H1 H2.
    unfold record_of_fields, build_record in H1, H2.
    rewrite T1 in H1. rewrite T2, <- En, <- Es, <- Ed, <- Eb, <- Et in H2.
    destruct (is_empty (f_service f1) && is_empty (f_desc f1)); [discriminate|].
    injection H1 as <-. injection H2 as <-. reflexivity.
Qed.

End SyncRun.

(** The run of the counterexample: the identity is new, two rows carry
    it, two orders carry it afterwards. *)
Lemma rows_of_one_identity_after_sync_witness :
  let rows := [ sample_row "Reel" "30 seconds" "10k" "1 week" "first";
                sample_row "Reel" "30 seconds" "10k" "1 week" "second" ] in
  let JSON_parse := fun _ : jsstring => Some (JArr rows) in
  let run := serve JSON_parse sample_fetch true 0 (sample_request false) empty_world in
  let i := djb2Hash (lit "Asha|Reel|30 seconds|10k|1 week") in
  count_identity i (orders (db (snd run))) = 2%nat.
Proof.
  intros rows JSON_parse run i.
  destruct (load_feed JSON_parse sample_fetch 0 (sample_request false))
    as [e|[toInsert total]] eqn:Hfeed; [discriminate Hfeed|].
  assert (Hrun : serve JSON_parse sample_fetch true 0 (sample_request false) empty_world
                 = (Ok200 2 0 0 2, snd run)) by (vm_compute; reflexivity).
  assert (Ht : total = 2%nat) by (vm_compute in Hfeed; congruence).
  subst total.
  destruct (rows_of_one_identity_after_sync JSON_parse sample_fetch true 0
              (sample_request false) empty_world 2 0 0 2 (snd run) toInsert Hrun Hfeed)
    as [Hcount _].
  assert (Hi : In i (map rec_sheet_row_id toInsert)).
  { vm_compute in Hfeed. injection Hfeed as <-. left. vm_compute. reflexivity. }
  rewrite (Hcount i Hi).
  vm_compute in Hfeed. injection Hfeed as <-. vm_compute. reflexivity.
Defined.

(** ** Runs that are interrupted *)

Lemma call_cases {A} (op : database -> A * database) w :
  (exists e, call op w = (inl (StoreFailure e), {| db := db w; pending := tl (pending w) |})) \/
  call op w = (inr (fst (op (db w))),
               {| db := snd (op (db w)); pending := tl (pending w) |}).
Proof.
  unfold call, store_call.
  destruct (pending w) as [|[e|] rest]; cbn [tl].
  - right. destruct (op (db w)); reflexivity.
  - left. exists e. reflexivity.
  - right. destruct (op (db w)); reflexivity.
Qed.

(** Whatever the backend answers, the update loop leaves each row as
    the updates of some first records have made it. *)
Lemma update_loop_any now rs : forall k w res w',
  update_loop now rs k w = (res, w') ->
  exists j, orders (db w') = map (updated_row now (firstn j rs)) (orders (db w)).
Proof.
  induction rs as [|r rs IH]; intros k w res w' H; cbn [update_loop] in H.
  - unfold ret in H. injection H as _ <-. exists 0%nat.
    cbn [firstn]. unfold updated_row. cbn [fold_left]. symmetry. apply map_id.
  - unfold bind in H.
    destruct (call_cases (update_order now r) w) as [[e E]|E]; rewrite E in H.
    + injection H as _ <-. exists 0%nat. cbn [firstn db].
      unfold updated_row. cbn [fold_left]. symmetry. apply map_id.
    + apply IH in H. destruct H as [j Hj]. exists (S j).
      rewrite Hj. cbn [db update_order snd orders firstn]. rewrite map_map.
      reflexivity.
Qed.

Lemma filter_true {A} (l : list A) : filter (fun _ => true) l = l.
Proof. apply filter_all. reflexivity. Qed.

(** Whatever the backend answers, the purge loop has deleted the rows
    of some of the stale identities. *)
Lemma purge_loop_any fuel : forall staleIds i purged w res w',
  purge_loop fuel staleIds i purged w = (res, w') ->
  exists gone,
    incl gone staleIds /\
    orders (db w')
    = filter (fun o => negb (sql_in (sheet_row_id o) gone)) (orders (db w)).
Proof.
  induction fuel as [|fuel IH]; intros staleIds i purged w res w' H;
    cbn [purge_loop] in H.
  - unfold ret in H. injection H as _ <-. exists []. split; [intros x []|].
    symmetry. apply filter_all. intros o _. destruct (sheet_row_id o); reflexivity.
  - destruct (i <? length staleIds)%nat.
    + unfold bind in H.
      destruct (call_cases
                  (delete_where
                     (fun o => sql_in (sheet_row_id o) (firstn chunk (skipn i staleIds)))) w)
        as [[e E]|E]; rewrite E in H.
      * injection H as _ <-. exists []. split; [intros x []|].
        symmetry. apply filter_all. intros o _. destruct (sheet_row_id o); reflexivity.
      * apply IH in H. destruct H as [gone [Hi Hg]].
        exists (firstn chunk (skipn i staleIds) ++ gone). split.
        -- intros x Hx. apply in_app_or in Hx. destruct Hx as [Hx|Hx]; [|apply Hi, Hx].
           rewrite <- (firstn_skipn i staleIds). apply in_or_app. right.
           rewrite <- (firstn_skipn chunk (skipn i staleIds)). apply in_or_app. auto.
        -- rewrite Hg. cbn [db delete_where snd orders]. rewrite filter_filter.
           apply filter_ext. intros o. rewrite sql_in_app, negb_orb. reflexivity.
    + unfold ret in H. injection H as _ <-. exists []. split; [intros x []|].
      symmetry. apply filter_all. intros o _. destruct (sheet_row_id o); reflexivity.
Qed.

(** The table after a run of the engine, whatever its outcome: the old
    rows and perhaps the new ones, some of the updates applied; or, once
    all updates are applied, that table less the foreign rows and the
    rows of some stale identities. *)
Lemma reconcile_any now purge toInsert w res w' :
  reconcile now purge toInsert w = (res, w') ->
  let os := orders (db w) in
  (exists base j,
      (base = os \/ base = insert_rows now (newRecords_of toInsert os) os) /\
      orders (db w') = map (updated_row now (firstn j (updateRecords_of toInsert os))) base) \/
  (exists gone (foreign : bool),
      incl gone (staleIds_of toInsert os) /\
      orders (db w')
      = filter (fun o => negb (sql_in (sheet_row_id o) gone))
          (filter (fun o => negb (foreign && sql_neq (source o) google_sheet))
             (upserted now toInsert os))).
Proof.
  intros H os. unfold reconcile in H. unfold bind at 1 in H.
  destruct (call_cases select_existing w) as [[e E]|E]; rewrite E in H.
  { injection H as _ <-. left. exists os, 0%nat. split; [auto|].
    cbn [db firstn]. unfold updated_row. cbn [fold_left]. symmetry. apply map_id. }
  cbn [select_existing fst snd] in H. fold os in H. fold (existing_of os) in H.
  fold (newRecords_of toInsert os) in H. fold (updateRecords_of toInsert os) in H.
  set (w1 := {| db := db w; pending := tl (pending w) |}) in *.
  unfold bind at 1 in H.
  set (ins := if (0 <? length (newRecords_of toInsert os))%nat
              then bind (call (insert_orders now (newRecords_of toInsert os)))
                     (fun _ => ret (length (newRecords_of toInsert os)))
              else ret 0%nat) in H.
  assert (Hins : (exists e w2, ins w1 = (inl e, w2) /\ orders (db w2) = os) \/
                 (exists n w2, ins w1 = (inr n, w2) /\
                    orders (db w2) = insert_rows now (newRecords_of toInsert os) os)).
  { unfold ins. destruct (0 <? length (newRecords_of toInsert os))%nat eqn:El.
    - unfold bind.
      destruct (call_cases (insert_orders now (newRecords_of toInsert os)) w1)
        as [[e E1]|E1]; rewrite E1.
      + left. eauto.
      + right. unfold ret. eauto.
    - right. unfold ret. exists 0%nat, w1. split; [reflexivity|].
      destruct (newRecords_of toInsert os); [reflexivity|discriminate El]. }
  destruct Hins as [[e [w2 [E2 Hw2]]]|[n [w2 [E2 Hw2]]]]; rewrite E2 in H.
  { injection H as _ <-. left. exists os, 0%nat. split; [auto|].
    rewrite Hw2. cbn [firstn]. unfold updated_row. cbn [fold_left].
    symmetry. apply map_id. }
  unfold bind at 1 in H.
  destruct (update_loop now (updateRecords_of toInsert os) 0 w2) as [[e|upd] w3] eqn:E3.
  { injection H as _ <-. apply update_loop_any in E3. destruct E3 as [j Hj].
    left. exists (insert_rows now (newRecords_of toInsert os) os), j.
    split; [auto|]. rewrite Hj, Hw2. reflexivity. }
  apply update_loop_ok in E3. destruct E3 as [_ [Hw3 _]]. rewrite Hw2 in Hw3.
  fold (upserted now toInsert os) in Hw3.
  assert (Hnone : forall w4, orders (db w4) = upserted now toInsert os ->
            exists gone (foreign : bool),
              incl gone (staleIds_of toInsert os) /\
              orders (db w4)
              = filter (fun o => negb (sql_in (sheet_row_id o) gone))
                  (filter (fun o => negb (foreign && sql_neq (source o) google_sheet))
                     (upserted now toInsert os))).
  { intros w4 Hw4. exists [], false. split; [intros x []|].
    cbn [andb negb]. rewrite filter_true, Hw4. symmetry.
    apply filter_all. intros o _. destruct (sheet_row_id o); reflexivity. }
  right. unfold bind at 1 in H. destruct purge.
  - unfold bind at 1 in H.
    destruct (call_cases (delete_where (fun o => sql_neq (source o) google_sheet)) w3)
      as [[e E4]|E4]; rewrite E4 in H.
    + injection H as _ <-. apply Hnone. exact Hw3.
    + fold (staleIds_of toInsert os) in H.
      destruct (purge_loop _ _ _ _ _) as [[e|p] w5] eqn:E5.
      * injection H as _ <-. apply purge_loop_any in E5.
        destruct E5 as [gone [Hi Hg]]. exists gone, true. split; [exact Hi|].
        rewrite Hg. cbn [db delete_where snd orders andb]. rewrite Hw3. reflexivity.
      * unfold ret in H. injection H as _ <-. apply purge_loop_any in E5.
        destruct E5 as [gone [Hi Hg]]. exists gone, true. split; [exact Hi|].
        rewrite Hg. cbn [db delete_where snd orders andb]. rewrite Hw3. reflexivity.
  - unfold ret in H. injection H as _ <-. apply Hnone. exact Hw3.
Qed.

Lemma sql_in_incl col a b :
  incl a b -> sql_in col b = false -> sql_in col a = false.
Proof.
  intros Hi Hb. destruct (sql_in col a) eqn:E; [|reflexivity].
  apply sql_in_spec in E. destruct E as [k [E Hk]].
  assert (Hb' : sql_in col b = true) by (apply sql_in_spec; exists k; auto).
  congruence.
Qed.

(** Whatever the outcome of a run of the engine, a persisted order whose
    identity is one of the parse is still there, with its key and its
    workflow columns. *)
Lemma reconcile_frame now purge toInsert w res w' o r :
  reconcile now purge toInsert w = (res, w') ->
  In o (orders (db w)) -> In r toInsert ->
  sheet_row_id o = Some (rec_sheet_row_id r) -> rec_sheet_row_id r <> [] ->
  exists o', In o' (orders (db w')) /\ same_workflow o o'.
Proof.
  intros H Ho Hr Hi Hne. apply reconcile_any in H.
  destruct H as [[base [j [Hb E]]]|[gone [foreign [Hg E]]]].
  - exists (updated_row now (firstn j (updateRecords_of toInsert (orders (db w)))) o).
    split; [|apply updated_row_same_workflow].
    rewrite E. apply in_map. destruct Hb as [->| ->]; [exact Ho|].
    destruct (insert_rows_app now (newRecords_of toInsert (orders (db w))) (orders (db w)))
      as [new [En _]].
    rewrite En. apply in_or_app. left. exact Ho.
  - set (o' := updated_row now (updateRecords_of toInsert (orders (db w))) o).
    assert (Hw : same_workflow o o') by apply updated_row_same_workflow.
    assert (Hin : In o' (upserted now toInsert (orders (db w)))) by (apply upserted_old, Ho).
    assert (Hi' : sheet_row_id o' = Some (rec_sheet_row_id r)).
    { destruct Hw as [_ [E' _]]. congruence. }
    assert (Hcur : In (rec_sheet_row_id r) (map rec_sheet_row_id toInsert))
      by (apply in_map, Hr).
    exists o'. split; [|exact Hw].
    rewrite E. apply filter_In. split.
    + apply filter_In. split; [exact Hin|].
      rewrite (upserted_source _ _ _ _ _ Hin Hi' Hne Hcur).
      cbn [sql_neq]. rewrite jsstring_eqb_refl. destruct foreign; reflexivity.
    + apply negb_true_iff. apply (sql_in_incl _ _ _ Hg).
      apply not_stale with (i := rec_sheet_row_id r); assumption.
Qed.

Section AnyRun.

Variable JSON_parse : jsstring -> option json.
Variable fetch : jsstring -> fetch_response.

Lemma serve_any env_ok now req w resp w' :
  serve JSON_parse fetch env_ok now req w = (resp, w') ->
  w' = w \/
  exists toInsert total res,
    load_feed JSON_parse fetch now req = inr (toInsert, total) /\
    reconcile now (purge_flag req) toInsert w = (res, w').
Proof.
  unfold serve. destruct (is_options req); [intros H; injection H as _ <-; auto|].
  destruct (negb env_ok); [intros H; injection H as _ <-; auto|].
  destruct (load_feed JSON_parse fetch now req) as [e|[toInsert n]];
    [intros H; injection H as _ <-; auto|].
  destruct (reconcile now (purge_flag req) toInsert w) as [[e|[[a b] c]] w1] eqn:E;
    intros H; injection H as _ <-; right; eauto.
Qed.

End AnyRun.

(** ** C5: the workflow columns *)

Lemma next_id_fresh os o : In o os -> (id o < next_id os)%nat.
Proof.
  unfold next_id. induction os as [|x os IH]; intros H; [destruct H|].
  cbn [fold_right]. destruct H as [->|H]; [lia|]. specialize (IH H). lia.
Qed.

Lemma insert_rows_NoDup now rs : forall os,
  NoDup (map id os) -> NoDup (map id (insert_rows now rs os)).
Proof.
  induction rs as [|r rs IH]; intros os H; cbn [insert_rows]; [exact H|].
  apply IH. rewrite map_app. cbn [map order_of_record id].
  apply NoDup_app; [exact H|repeat constructor; intros []|].
  intros k Hk [<-|[]]. apply in_map_iff in Hk. destruct Hk as [o [E Ho]].
  apply next_id_fresh in Ho. lia.
Qed.

Lemma NoDup_map_filter {A B} (f : A -> B) (p : A -> bool) l :
  NoDup (map f l) -> NoDup (map f (filter p l)).
Proof.
  induction l as [|x l IH]; intros H; cbn [filter map]; [constructor|].
  cbn [map] in H. inversion H as [|? ? Hn Hd]; subst.
  destruct (p x); [|apply IH, Hd].
  cbn [map]. constructor; [|apply IH, Hd].
  intros Hin. apply Hn. apply in_map_iff in Hin. destruct Hin as [y [E Hy]].
  apply filter_In in Hy. apply in_map_iff. exists y. tauto.
Qed.

Lemma reconciled_NoDup now purge toInsert os :
  NoDup (map id os) -> NoDup (map id (reconciled now purge toInsert os)).
Proof.
  intros H.
  assert (Hu : NoDup (map id (upserted now toInsert os))).
  { unfold upserted. rewrite map_map.
    rewrite (map_ext _ id); [apply insert_rows_NoDup, H|].
    intros o. apply (updated_row_same_workflow now _ o). }
  unfold reconciled. destruct purge; [|exact Hu].
  apply NoDup_map_filter, NoDup_map_filter, Hu.
Qed.

Lemma NoDup_map_inj {A B} (f : A -> B) l x y :
  NoDup (map f l) -> In x l -> In y l -> f x = f y -> x = y.
Proof.
  induction l as [|a l IH]; intros H Hx Hy E; [destruct Hx|].
  cbn [map] in H. inversion H as [|? ? Hn Hd]; subst.
  destruct Hx as [->|Hx], Hy as [->|Hy]; auto.
  - exfalso. apply Hn. rewrite E. apply in_map, Hy.
  - exfalso. apply Hn. rewrite <- E. apply in_map, Hx.
Qed.

Section SyncFrame.

Variable JSON_parse : jsstring -> option json.
Variable fetch : jsstring -> fetch_response.

(** C5: whatever the outcome of a run, every persisted order whose
    identity is the identity of a parsed row is still there afterwards,
    with the same key and the same workflow columns (status, taken_by,
    taken_at, completed_at, deliverable_link, and also created_at,
    actual_amount, editor_feedback): an order that is taken stays taken
    by the same editor.  When the run completes, the client name,
    requirement text, price, due date and raw payload of the order are
    those of the last parsed row with that identity, its source is the
    sheet tag and its update time is the time of the run; when keys are
    unique it is the only order with its key. *)
Theorem sync_update_keeps_workflow_fields :
  forall env_ok now req w resp w' toInsert total o r,
    serve JSON_parse fetch env_ok now req w = (resp, w') ->
    load_feed JSON_parse fetch now req = inr (toInsert, total) ->
    In o (orders (db w)) ->
    In r toInsert ->
    sheet_row_id o = Some (rec_sheet_row_id r) ->
    (exists o',
        In o' (orders (db w')) /\ same_workflow o o' /\
        (status o = taken -> status o' = taken /\ taken_by o' = taken_by o)) /\
    (forall ins upd pur tot,
        resp = Ok200 ins upd pur tot ->
        exists o' r',
          In o' (orders (db w')) /\
          same_workflow o o' /\
          In r' toInsert /\ rec_sheet_row_id r' = rec_sheet_row_id r /\
          client_name o' = rec_client_name r' /\
          requirement_text o' = rec_requirement_text r' /\
          price o' = rec_price r' /\
          due_date o' = rec_due_date r' /\
          raw_sheet_json o' = Some (rec_raw_sheet_json r') /\
          source o' = Some google_sheet /\
          updated_at o' = now /\
          (NoDup (map id (orders (db w))) ->
           forall o'', In o'' (orders (db w')) -> id o'' = id o -> o'' = o')).
Proof.
  intros env_ok now req w resp w' toInsert total o r Hrun Hfeed Ho Hr Hi.
  destruct (load_feed_ok _ _ _ _ _ _ Hfeed) as [rows [read [_ [_ [_ [_ Hwp]]]]]].
  rewrite Forall_forall in Hwp. destruct (Hwp r Hr) as [Hne _].
  split.
  { assert (Hex : exists o', In o' (orders (db w')) /\ same_workflow o o').
    { destruct (serve_any _ _ _ _ _ _ _ _ Hrun) as [->|[t [n [res [Hf Hrec]]]]].
      - exists o. split; [exact Ho|apply same_workflow_refl].
      - rewrite Hfeed in Hf. injection Hf as <- <-.
        eapply reconcile_frame; eauto. }
    destruct Hex as [o' [Hin Hw]]. exists o'. split; [exact Hin|].
    split; [exact Hw|]. intros Hs.
    destruct Hw as (_ & _ & Es & Et & _). split; congruence. }
  intros ins upd pur tot ->.
  destruct (serve_ok _ _ _ _ _ _ _ _ _ _ _ Hrun) as [toInsert' [Hfeed' Hrec]].
  rewrite Hfeed in Hfeed'. injection Hfeed' as <- <-.
  destruct (reconcile_ok _ _ _ _ _ _ _ _ Hrec) as [Hos _].
  set (i := rec_sheet_row_id r) in *.
  set (os := orders (db w)) in *.
  assert (Hcur : In i (map rec_sheet_row_id toInsert)) by (apply in_map, Hr).
  assert (Hm : map_has i (existing_of os) = true).
  { rewrite map_has_existing_of. apply andb_true_iff. split.
    - destruct i; [congruence|reflexivity].
    - apply persisted_spec. exists o. auto. }
  assert (Hu : In r (updateRecords_of toInsert os)).
  { apply in_updateRecords. split; [exact Hr|exact Hm]. }
  destruct (last_parsed_in i _ r Hu eq_refl) as [r' Hr'].
  pose proof (updated_row_last now i (updateRecords_of toInsert os) o Hi) as E.
  rewrite Hr' in E.
  apply last_parsed_some in Hr'. destruct Hr' as [Hr'1 Hr'2].
  apply in_updateRecords in Hr'1. destruct Hr'1 as [Hr'1 _].
  pose proof (upserted_old now toInsert os o Ho) as Hin. rewrite E in Hin.
  assert (Hfin : In (apply_update now r' o) (orders (db w'))).
  { rewrite Hos. unfold reconciled. destruct (purge_flag req); [|exact Hin].
    apply filter_In. split; [apply filter_In; split; [exact Hin|reflexivity]|].
    apply negb_true_iff. apply not_stale with (i := i); [exact Hcur|exact Hi]. }
  exists (apply_update now r' o), r'.
  split; [exact Hfin|].
  split; [apply apply_update_same_workflow|].
  repeat (split; [first [assumption|reflexivity]|]).
  intros Hnd o'' Ho'' Eid.
  apply (NoDup_map_inj id (orders (db w'))); auto.
  rewrite Hos. apply reconciled_NoDup, Hnd.
Qed.

End SyncFrame.

(** An order taken by an editor, and a run with purge whose feed has the
    row of that order with a new description: the order is still taken by
    the same editor, and carries the new text. *)
Lemma sync_update_keeps_workflow_fields_witness :
  let o := sample_taken_order 7 (Some (lit "3/1/2025 10:00:00")) (Some (lit "manual")) in
  let rows := [ sample_row_at "3/1/2025 10:00:00" "Reel" "shorter cut" "10k" "1 week" ] in
  let run := serve (fun _ => Some (JArr rows)) sample_fetch true 100
               (sample_request true) (world_of [o]) in
  exists o',
    In o' (orders (db (snd run))) /\ id o' = 7%nat /\
    status o' = taken /\ taken_by o' = Some (lit "editor-1") /\
    requirement_text o' = join em_dash_sep [lit "Reel"; lit "shorter cut"] /\
    source o' = Some google_sheet.
Proof.
  intros o rows run.
  set (JSON_parse := fun _ : jsstring => Some (JArr rows)).
  destruct (load_feed JSON_parse sample_fetch 100 (sample_request true))
    as [e|[toInsert total]] eqn:Hfeed; [discriminate Hfeed|].
  assert (Hrun : serve JSON_parse sample_fetch true 100 (sample_request true) (world_of [o])
                 = (Ok200 0 1 0 1, snd run)) by (vm_compute; reflexivity).
  destruct toInsert as [|r toInsert]; [vm_compute in Hfeed; discriminate Hfeed|].
  destruct (sync_update_keeps_workflow_fields JSON_parse sample_fetch true 100
              (sample_request true) (world_of [o]) (Ok200 0 1 0 1) (snd run)
              (r :: toInsert) total o r Hrun Hfeed) as [_ H].
  - left. reflexivity.
  - left. reflexivity.
  - vm_compute in Hfeed. injection Hfeed as <- _. reflexivity.
  - destruct (H 0%nat 1%nat 0%nat 1%nat eq_refl)
      as (o' & r' & H1 & H2 & H3 & H4 & _ & H6 & _ & _ & _ & H10 & _ & _).
    exists o'. split; [exact H1|].
    destruct H2 as (E1 & _ & E2 & E3 & _). split; [exact E1|].
    split; [exact E2|]. split; [exact E3|]. split; [|exact H10].
    rewrite H6. vm_compute in Hfeed. injection Hfeed as <- <- _.
    destruct H3 as [<-|[]]. reflexivity.
Defined.

(** ** C6: a second run on the same feed *)

(** C6, as stated, fails: the due date is computed from the clock of the
    run, so a second run on the same feed, one second later, inserts
    nothing but writes another due date. *)
Lemma second_run_writes_another_due_date :
  let rows := [ sample_row "Reel" "30 seconds" "10k" "urgent" "first" ] in
  let JSON_parse := fun _ : jsstring => Some (JArr rows) in
  let run1 := serve JSON_parse sample_fetch true 0 (sample_request false) empty_world in
  let run2 := serve JSON_parse sample_fetch true 1000 (sample_request false) (snd run1) in
  fst run1 = Ok200 1 0 0 1 /\
  fst run2 = Ok200 0 1 0 1 /\
  map due_date (orders (db (snd run1))) = [Some 259200000] /\
  map due_date (orders (db (snd run2))) = [Some 259201000] /\
  map due_date (orders (db (snd run2))) <> map due_date (orders (db (snd run1))).
Proof.
  vm_compute.
  split; [reflexivity|]. split; [reflexivity|]. split; [reflexivity|].
  split; [reflexivity|]. discriminate.
Qed.

Lemma count_parsed_pos r rs : In r rs -> (0 < count_parsed (rec_sheet_row_id r) rs)%nat.
Proof.
  unfold count_parsed. intros H.
  assert (Hin : In r (filter (fun x => jsstring_eqb (rec_sheet_row_id x) (rec_sheet_row_id r)) rs))
    by (apply filter_In; split; [exact H|apply jsstring_eqb_refl]).
  destruct (filter _ rs); [destruct Hin|simpl; lia].
Qed.

(** After a run, every identity of its parse is persisted. *)
Lemma reconciled_persisted now purge toInsert os r :
  In r toInsert -> rec_sheet_row_id r <> [] ->
  persisted (rec_sheet_row_id r) (reconciled now purge toInsert os) = true.
Proof.
  intros Hr Hne. apply count_identity_pos.
  rewrite count_identity_reconciled; [|apply in_map, Hr|exact Hne].
  destruct (persisted (rec_sheet_row_id r) os) eqn:E.
  - apply count_identity_pos, E.
  - apply count_parsed_pos, Hr.
Qed.

Lemma Forall2_in_left {A B} (R : A -> B -> Prop) l l' y :
  Forall2 R l l' -> In y l' -> exists x, In x l /\ R x y.
Proof. apply Forall2_in_right. Qed.

Lemma same_but_due_date_same_clock now r1 r2 :
  same_but_due_date now now r1 r2 -> r1 = r2.
Proof.
  intros (H1 & H2 & H3 & H4 & H5 & days & H6 & H7).
  destruct r1, r2. cbn in *. congruence.
Qed.

Lemma Forall2_eq {A} (R : A -> A -> Prop) l l' :
  (forall x y, R x y -> x = y) -> Forall2 R l l' -> l = l'.
Proof.
  intros H. induction 1 as [|x y l l' Hxy _ IH]; [reflexivity|].
  f_equal; [apply H, Hxy|exact IH].
Qed.

Section TwoClocks.

Variable JSON_parse : jsstring -> option json.

Lemma map_rows_functional read now rows t t' :
  map_rows (callback read now) rows = inr t ->
  map_rows (callback read now) rows = inr t' -> t = t'.
Proof. congruence. Qed.

Lemma parse_opensheet_two_clocks now1 now2 body t1 n1 t2 n2 :
  parse_opensheet JSON_parse now1 body = inr (t1, n1) ->
  parse_opensheet JSON_parse now2 body = inr (t2, n2) ->
  n1 = n2 /\ Forall2 (same_but_due_date now1 now2) t1 t2.
Proof.
  intros H1 H2.
  apply parse_opensheet_ok in H1. destruct H1 as [rows [R1 [-> M1]]].
  apply parse_opensheet_ok in H2. destruct H2 as [rows' [R2 [-> M2]]].
  rewrite R1 in R2. injection R2 as <-. split; [reflexivity|].
  destruct (map_rows_two_clocks _ now1 now2 _ _ M1) as [t2' [M2' F]].
  rewrite M2 in M2'. injection M2' as <-. exact F.
Qed.

Lemma parse_gviz_two_clocks now1 now2 text t1 n1 t2 n2 :
  parse_gviz JSON_parse now1 text = inr (t1, n1) ->
  parse_gviz JSON_parse now2 text = inr (t2, n2) ->
  n1 = n2 /\ Forall2 (same_but_due_date now1 now2) t1 t2.
Proof.
  unfold parse_gviz.
  destruct (parseGvizJsonp JSON_parse text) as [e|gviz]; [discriminate|].
  destruct (prop (Some gviz) (lit "table")) as [e|table]; [discriminate|].
  destruct (prop table (lit "cols")) as [e|[[| | | |cols|]|]]; try discriminate.
  destruct (build_colIndex cols 0 []) as [e|colIndex]; [discriminate|].
  destruct (check_required required colIndex); [discriminate|].
  destruct (prop table (lit "rows")) as [e|[[| | | |rows|]|]]; try discriminate.
  change (gviz_row now1 colIndex) with (callback (gviz_fields colIndex) now1).
  change (gviz_row now2 colIndex) with (callback (gviz_fields colIndex) now2).
  destruct (map_rows (callback (gviz_fields colIndex) now1) rows) as [e|r1] eqn:M1;
    [discriminate|].
  destruct (map_rows (callback (gviz_fields colIndex) now2) rows) as [e|r2] eqn:M2;
    [discriminate|].
  intros H1 H2. injection H1 as <- <-. injection H2 as <- <-.
  split; [reflexivity|].
  destruct (map_rows_two_clocks _ now1 now2 _ _ M1) as [t2' [M2' F]].
  rewrite M2 in M2'. injection M2' as <-. exact F.
Qed.

Variables fetch1 fetch2 : jsstring -> fetch_response.

(** The same payload of the same variant, loaded at two clock readings. *)
Lemma load_feed_two_clocks now1 now2 req1 req2 t1 n1 t2 n2 :
  text (fetch1 (targetUrl now1 req1)) = text (fetch2 (targetUrl now2 req2)) ->
  is_array_variant (targetUrl now1 req1) = is_array_variant (targetUrl now2 req2) ->
  load_feed JSON_parse fetch1 now1 req1 = inr (t1, n1) ->
  load_feed JSON_parse fetch2 now2 req2 = inr (t2, n2) ->
  n1 = n2 /\ Forall2 (same_but_due_date now1 now2) t1 t2.
Proof.
  unfold load_feed, is_array_variant. intros Et Ev.
  destruct (negb (ok (fetch1 _))); [discriminate|].
  destruct (negb (ok (fetch2 _))); [discriminate|].
  rewrite <- Ev, <- Et.
  destruct (includes (targetUrl now1 req1) (lit "opensheet.elk.sh")).
  - apply parse_opensheet_two_clocks.
  - apply parse_gviz_two_clocks.
Qed.

(** C6 (amended): when a run that completes is followed by a run on the
    same payload of the same feed variant, on the table the first run
    left, and the second run completes, the second run inserts nothing
    and updates once for every parsed row; the records it writes have the
    client name, requirement text, price, identity and raw payload of the
    records of the first run, and a due date computed from the clock of
    the second run by the same timeline rule (equal to the first due date
    only when no rule matches or the clock reading is the same). *)
Theorem second_run_inserts_nothing :
  forall env1 env2 now1 now2 req1 req2 w0 w1 w1' w2
         ins1 upd1 pur1 tot1 ins2 upd2 pur2 tot2 t1 t2,
    serve JSON_parse fetch1 env1 now1 req1 w0 = (Ok200 ins1 upd1 pur1 tot1, w1) ->
    orders (db w1') = orders (db w1) ->
    serve JSON_parse fetch2 env2 now2 req2 w1' = (Ok200 ins2 upd2 pur2 tot2, w2) ->
    text (fetch1 (targetUrl now1 req1)) = text (fetch2 (targetUrl now2 req2)) ->
    is_array_variant (targetUrl now1 req1) = is_array_variant (targetUrl now2 req2) ->
    load_feed JSON_parse fetch1 now1 req1 = inr (t1, tot1) ->
    load_feed JSON_parse fetch2 now2 req2 = inr (t2, tot2) ->
    ins2 = 0%nat /\
    upd2 = length t2 /\
    tot2 = tot1 /\
    newRecords_of t2 (orders (db w1')) = [] /\
    Forall2 (same_but_due_date now1 now2) t1 t2 /\
    (now1 = now2 -> t2 = t1).
Proof.
  intros env1 env2 now1 now2 req1 req2 w0 w1 w1' w2
         ins1 upd1 pur1 tot1 ins2 upd2 pur2 tot2 t1 t2
         Hrun1 Hdb Hrun2 Et Ev Hf1 Hf2.
  destruct (serve_ok _ _ _ _ _ _ _ _ _ _ _ Hrun1) as [t1' [Hf1' Hrec1]].
  rewrite Hf1 in Hf1'. injection Hf1' as <-.
  destruct (serve_ok _ _ _ _ _ _ _ _ _ _ _ Hrun2) as [t2' [Hf2' Hrec2]].
  rewrite Hf2 in Hf2'. injection Hf2' as <-.
  destruct (load_feed_two_clocks _ _ _ _ _ _ _ _ Et Ev Hf1 Hf2) as [En F].
  destruct (load_feed_ok _ _ _ _ _ _ Hf1) as [rows1 [read1 [_ [_ [_ [_ Hwp1]]]]]].
  destruct (reconcile_ok _ _ _ _ _ _ _ _ Hrec1) as [Hos1 _].
  destruct (reconcile_ok _ _ _ _ _ _ _ _ Hrec2) as [_ [Hi2 [Hu2 _]]].
  assert (Hall : forall r2, In r2 t2 ->
            map_has (rec_sheet_row_id r2) (existing_of (orders (db w1'))) = true).
  { intros r2 Hr2. destruct (Forall2_in_right _ _ _ _ F Hr2) as [r1 [Hr1 S]].
    destruct S as [_ [_ [_ [Eid _]]]]. rewrite <- Eid.
    rewrite Forall_forall in Hwp1. destruct (Hwp1 r1 Hr1) as [Hne _].
    rewrite map_has_existing_of, Hdb, Hos1.
    rewrite (reconciled_persisted _ _ _ _ r1 Hr1 Hne).
    destruct (rec_sheet_row_id r1); [congruence|reflexivity]. }
  assert (Hnew : newRecords_of t2 (orders (db w1')) = []).
  { unfold newRecords_of. apply filter_none. intros r2 Hr2.
    rewrite (Hall r2 Hr2). reflexivity. }
  split; [rewrite Hi2, Hnew; reflexivity|].
  split.
  { rewrite Hu2. unfold updateRecords_of. rewrite (filter_all _ _ Hall). reflexivity. }
  split; [symmetry; exact En|].
  split; [exact Hnew|].
  split; [exact F|].
  intros ->. symmetry. eapply Forall2_eq; [|exact F].
  apply same_but_due_date_same_clock.
Qed.

End TwoClocks.

(** The two runs of the counterexample: no record of the second run is
    new. *)
Lemma second_run_inserts_nothing_witness :
  let rows := [ sample_row "Reel" "30 seconds" "10k" "urgent" "first" ] in
  let JSON_parse := fun _ : jsstring => Some (JArr rows) in
  let run1 := serve JSON_parse sample_fetch true 0 (sample_request false) empty_world in
  let parsed := match load_feed JSON_parse sample_fetch 1000 (sample_request false) with
                | inr (t, _) => t
                | inl _ => []
                end in
  parsed <> [] /\ newRecords_of parsed (orders (db (snd run1))) = [].
Proof.
  intros rows JSON_parse run1 parsed.
  split; [vm_compute; discriminate|].
  set (run2 := serve JSON_parse sample_fetch true 1000 (sample_request false) (snd run1)).
  destruct (load_feed JSON_parse sample_fetch 0 (sample_request false))
    as [e|[t1 n1]] eqn:Hf1; [discriminate Hf1|].
  assert (Hn1 : n1 = 1%nat) by (vm_compute in Hf1; congruence). subst n1.
  assert (Hf2 : load_feed JSON_parse sample_fetch 1000 (sample_request false)
                = inr (parsed, 1%nat)) by (vm_compute; reflexivity).
  assert (Hrun1 : serve JSON_parse sample_fetch true 0 (sample_request false) empty_world
                  = (Ok200 1 0 0 1, snd run1)) by (vm_compute; reflexivity).
  assert (Hrun2 : serve JSON_parse sample_fetch true 1000 (sample_request false) (snd run1)
                  = (Ok200 0 1 0 1, snd run2)) by (vm_compute; reflexivity).
  exact (proj1 (proj2 (proj2 (proj2
           (second_run_inserts_nothing JSON_parse sample_fetch sample_fetch
              true true 0 1000 (sample_request false) (sample_request false)
              empty_world (snd run1) (snd run1) (snd run2)
              1 0 0 1 0 1 0 1 t1 parsed
              Hrun1 eq_refl Hrun2 eq_refl eq_refl Hf1 Hf2))))).
Defined.

(** ** C7: purge *)





Section Purge.

Variable JSON_parse : jsstring -> option json.
Variable fetch : jsstring -> fetch_response.


End Purge.


(** ** C8: errors of the feed parser *)

Lemma field2_error row a b e : field2 row a b = inl e -> e = TypeError.
Proof.
  unfold field2, prop, nullish.
  destruct row; try discriminate; try congruence.
  - destruct (assoc a props) as [[]|]; try discriminate;
      destruct (assoc b props) as [[]|]; discriminate.
Qed.

Lemma field2_object kv a b : exists s, field2 (JObj kv) a b = inr s.
Proof.
  unfold field2, prop, nullish.
  destruct (assoc a kv) as [[]|]; eauto;
    destruct (assoc b kv) as [[]|]; eauto.
Qed.

Lemma field2_missing kv a b :
  assoc a kv = None -> assoc b kv = None -> field2 (JObj kv) a b = inr [].
Proof. unfold field2, prop, nullish. intros -> ->. reflexivity. Qed.

Lemma opensheet_fields_error row e : opensheet_fields row = inl e -> e = TypeError.
Proof.
  unfold opensheet_fields.
  repeat match goal with
         | |- context [match field2 ?r ?a ?b with _ => _ end] =>
             let E := fresh "E" in
             destruct (field2 r a b) eqn:E;
             [apply field2_error in E; congruence|]
         end.
  discriminate.
Qed.

Lemma opensheet_fields_object kv : exists f, opensheet_fields (JObj kv) = inr f.
Proof.
  unfold opensheet_fields.
  repeat match goal with
         | |- context [match field2 ?r ?a ?b with _ => _ end] =>
             let s := fresh "s" in
             let E := fresh "E" in
             destruct (field2_object kv a b) as [s E]; rewrite E
         end.
  eauto.
Qed.

Lemma map_rows_error f rows : forall e,
  map_rows f rows = inl e -> exists row, In row rows /\ f row = inl e.
Proof.
  induction rows as [|row rows IH]; intros e H; cbn [map_rows] in H; [discriminate|].
  destruct (f row) as [e'|r] eqn:E.
  - injection H as <-. exists row. split; [left; reflexivity|exact E].
  - destruct (map_rows f rows) as [e'|rs]; [|discriminate].
    injection H as <-. destruct (IH e' eq_refl) as [row' [H1 H2]].
    exists row'. split; [right; exact H1|exact H2].
Qed.

Lemma check_required_some labels colIndex e :
  check_required labels colIndex = Some e ->
  exists r, In r labels /\ assoc r colIndex = None /\ e = MissingColumn r.
Proof.
  induction labels as [|r labels IH]; cbn [check_required]; [discriminate|].
  destruct (assoc r colIndex) eqn:E.
  - intros H. destruct (IH H) as [r' [H1 [H2 H3]]].
    exists r'. split; [right; exact H1|auto].
  - intros H. injection H as <-. exists r. split; [left; reflexivity|auto].
Qed.

Lemma check_required_none labels colIndex :
  check_required labels colIndex = None ->
  forall r, In r labels -> assoc r colIndex <> None.
Proof.
  induction labels as [|r0 labels IH]; cbn [check_required]; intros H r Hr;
    [destruct Hr|].
  destruct (assoc r0 colIndex) eqn:E; [|discriminate].
  destruct Hr as [<-|Hr]; [congruence|apply IH; assumption].
Qed.

Lemma assoc_set_index key idx m : forall k,
  assoc k (set_index key idx m) = if jsstring_eqb key k then Some idx else assoc k m.
Proof.
  induction m as [|[k0 x] m IH]; intros k; cbn [set_index assoc].
  - reflexivity.
  - destruct (jsstring_eqb k0 key) eqn:E; cbn [assoc].
    + apply jsstring_eqb_eq in E. subst k0.
      destruct (jsstring_eqb key k); reflexivity.
    + destruct (jsstring_eqb k0 k) eqn:E'.
      * apply jsstring_eqb_eq in E'. subst k0.
        apply jsstring_eqb_neq in E.
        assert (E2 : jsstring_eqb key k = false) by (apply jsstring_eqb_neq; congruence).
        rewrite E2. reflexivity.
      * apply IH.
Qed.

(** The labels in [colIndex] are the labels of the columns. *)
Lemma build_colIndex_keys cols : forall idx m colIndex k,
  build_colIndex cols idx m = inr colIndex ->
  (assoc k colIndex <> None <->
   assoc k m <> None \/ exists c, In c cols /\ column_label c = Some k).
Proof.
  induction cols as [|c cols IH]; intros idx m colIndex k H; cbn [build_colIndex] in H.
  - injection H as <-. split; [auto|]. intros [H|[c [[] _]]]. exact H.
  - unfold column_label.
    destruct (prop (Some c) (lit "label")) as [e|l] eqn:El; [discriminate|].
    apply (IH _ _ _ k) in H. rewrite H, assoc_set_index.
    set (key := match l with None => lit "undefined" | Some v => String_of v end).
    assert (Ekey : match l with Some v => Some (String_of v) | None => Some (lit "undefined") end
                   = Some key) by (destruct l; reflexivity).
    split.
    + intros [H1|[c' [H1 H2]]].
      * destruct (jsstring_eqb key k) eqn:E; [|auto].
        apply jsstring_eqb_eq in E. right. exists c. split; [left; reflexivity|].
        unfold column_label. rewrite El, Ekey. congruence.
      * right. exists c'. split; [right; exact H1|exact H2].
    + intros [H1|[c' [[<-|H1] H2]]].
      * left. destruct (jsstring_eqb key k); [discriminate|exact H1].
      * left. unfold column_label in H2. rewrite El, Ekey in H2. injection H2 as <-.
        rewrite jsstring_eqb_refl. discriminate.
      * right. exists c'. auto.
Qed.

Lemma substring_interior (s : jsstring) a b :
  (a <= b)%nat -> (b <= length s)%nat ->
  s = firstn a s ++ substring a b s ++ skipn b s.
Proof.
  intros Hab Hb. unfold substring.
  rewrite Nat.min_l, Nat.max_r by lia.
  rewrite <- (firstn_skipn a s) at 1. f_equal.
  rewrite <- (firstn_skipn (b - a) (skipn a s)) at 1. f_equal.
  rewrite skipn_skipn. f_equal. lia.
Qed.

Lemma slice_between (s : jsstring) a n b :
  (a + n <= b)%nat ->
  s = firstn a s ++ firstn n (skipn a s) ++ substring (a + n) b s ++ skipn b s.
Proof.
  intros Hab. unfold substring. rewrite Nat.min_l, Nat.max_r by lia.
  rewrite <- (firstn_skipn a s) at 1. f_equal.
  rewrite <- (firstn_skipn n (skipn a s)) at 1. f_equal.
  rewrite skipn_skipn.
  rewrite <- (firstn_skipn (b - (a + n)) (skipn (n + a) s)) at 1.
  rewrite skipn_skipn. replace (n + a)%nat with (a + n)%nat by lia.
  do 2 f_equal. lia.
Qed.

Section FeedErrors.

Variable JSON_parse : jsstring -> option json.

(** C8: [parseGvizJsonp] fails exactly when "setResponse(" does not
    occur in the payload, or ")" does not, or the text sliced between the
    first "setResponse(" and the last ")" does not decode; each of its
    failures is a MalformedFeed.  The check of the required columns is
    made on the wrapped variant only: there a required label that no
    column carries gives a MissingColumn error; on the array variant no
    error is a MissingColumn, an object row always gives its fields, and
    a field whose keys are absent is the empty text (the name then
    becomes "Client"). *)
Theorem feed_parser_errors :
  forall (input : jsstring) (now : Z),
    (forall e, parseGvizJsonp JSON_parse input = inl e -> MalformedFeed e = true) /\
    ((exists e, parseGvizJsonp JSON_parse input = inl e) <->
     ~ occurs setResponse input \/ ~ occurs (lit ")") input \/
     exists start end_,
       indexOf setResponse input = Some start /\
       lastIndexOf (lit ")") input = Some end_ /\
       JSON_parse (substring (start + 12) end_ input) = None) /\
    (forall start end_,
        indexOf setResponse input = Some start ->
        lastIndexOf (lit ")") input = Some end_ ->
        (start + 12 <= end_)%nat ->
        input = firstn start input ++ setResponse
                ++ substring (start + 12) end_ input ++ skipn end_ input /\
        (exists rest, skipn end_ input = lit ")" ++ rest) /\
        (forall j, (j < start)%nat -> startsWith setResponse (skipn j input) = false) /\
        ~ occurs (lit ")") (skipn (S end_) input)) /\
    (forall gviz table cols colIndex r,
        parseGvizJsonp JSON_parse input = inr gviz ->
        prop (Some gviz) (lit "table") = inr table ->
        prop table (lit "cols") = inr (Some (JArr cols)) ->
        build_colIndex cols 0 [] = inr colIndex ->
        In r required ->
        (forall c, In c cols -> column_label c <> Some r) ->
        exists r', In r' required /\
                   (forall c, In c cols -> column_label c <> Some r') /\
                   parse_gviz JSON_parse now input = inl (MissingColumn r')) /\
    (forall e label, parse_opensheet JSON_parse now input = inl e -> e <> MissingColumn label) /\
    (forall kv, exists f, opensheet_fields (JObj kv) = inr f) /\
    (forall kv a b, assoc a kv = None -> assoc b kv = None ->
                    field2 (JObj kv) a b = inr []) /\
    (forall row service desc budgetRaw timeline timestamp r,
        build_record now row [] service desc budgetRaw timeline timestamp = Some r ->
        rec_client_name r = lit "Client").
Proof.
  intros input now.
  split.
  { unfold parseGvizJsonp. intros e.
    destruct (indexOf setResponse input); [|intros H; injection H as <-; reflexivity].
    destruct (lastIndexOf (lit ")") input); [|intros H; injection H as <-; reflexivity].
    destruct (JSON_parse _); [discriminate|]. intros H; injection H as <-; reflexivity. }
  split.
  { unfold parseGvizJsonp. split.
    - intros [e H].
      destruct (indexOf setResponse input) as [start|] eqn:E1;
        [|left; apply indexOf_None, E1].
      destruct (lastIndexOf (lit ")") input) as [end_|] eqn:E2;
        [|right; left; apply lastIndexOf_None, E2].
      right. right. exists start, end_. repeat split.
      change (length setResponse) with 12%nat in H.
      destruct (JSON_parse _); [discriminate|reflexivity].
    - intros [H|[H|[start [end_ [E1 [E2 E3]]]]]].
      + apply indexOf_None in H. rewrite H. eauto.
      + apply lastIndexOf_None in H. rewrite H.
        destruct (indexOf setResponse input); eauto.
      + rewrite E1, E2. change (length setResponse) with 12%nat. rewrite E3. eauto. }
  split.
  { intros start end_ E1 E2 Hle.
    destruct (indexOf_Some _ _ _ E1) as [[post Hpost] [Hs Hfirst]].
    destruct (lastIndexOf_Some _ _ _ E2) as [[rest Hrest] [He Hlast]].
    split.
    - rewrite (slice_between input start 12 end_ Hle) at 1.
      rewrite Hpost. reflexivity.
    - split; [exists rest; exact Hrest|]. split; [exact Hfirst|].
      intros [pre [post' Ho]].
      assert (Hj : startsWith (lit ")") (skipn (S end_ + length pre) input) = true).
      { apply startsWith_spec. exists post'.
        rewrite Nat.add_comm, <- skipn_skipn, Ho, skipn_app, skipn_all, Nat.sub_diag.
        reflexivity. }
      apply Hlast in Hj; [|lia].
      apply (f_equal (@length _)) in Ho. rewrite length_skipn, !length_app in Ho.
      cbn [length lit] in Ho. simpl in Ho. lia. }
  split.
  { intros gviz table cols colIndex r Hg Ht Hc Hci Hr Hno.
    assert (Hmiss : assoc r colIndex = None).
    { destruct (assoc r colIndex) eqn:E; [|reflexivity]. exfalso.
      assert (Hn : assoc r colIndex <> None) by congruence.
      apply (build_colIndex_keys _ _ _ _ r Hci) in Hn.
      destruct Hn as [Hn|[c [H1 H2]]]; [apply Hn; reflexivity|].
      apply (Hno c H1 H2). }
    destruct (check_required required colIndex) as [e|] eqn:Ec.
    - destruct (check_required_some _ _ _ Ec) as [r' [H1 [H2 ->]]].
      exists r'. split; [exact H1|]. split.
      + intros c Hin Hl.
        assert (Hn : assoc r' colIndex <> None).
        { apply (build_colIndex_keys _ _ _ _ r' Hci). right. exists c. auto. }
        apply Hn, H2.
      + unfold parse_gviz. rewrite Hg, Ht, Hc, Hci, Ec. reflexivity.
    - exfalso. apply (check_required_none _ _ Ec r Hr). exact Hmiss. }
  split.
  { intros e label H ->. unfold parse_opensheet in H.
    destruct (JSON_parse input) as [[| | | |rows|]|]; try discriminate.
    destruct (map_rows (opensheet_row now) rows) as [e|rs] eqn:E; [|discriminate].
    injection H as ->. apply map_rows_error in E. destruct E as [row [_ E]].
    unfold opensheet_row in E.
    destruct (opensheet_fields row) as [e|f] eqn:Ef; [|discriminate].
    apply opensheet_fields_error in Ef. congruence. }
  split; [apply opensheet_fields_object|].
  split; [apply field2_missing|].
  intros row service desc budgetRaw timeline timestamp r H.
  unfold build_record in H.
  destruct (is_empty service && is_empty desc); [discriminate|].
  injection H as <-. reflexivity.
Qed.

End FeedErrors.

(** A payload without closing delimiter is rejected, whatever the
    decoder would say of its interior. *)
Lemma feed_parser_errors_witness :
  exists e, parseGvizJsonp (fun _ => Some JNull) (lit "setResponse({}") = inl e.
Proof.
  apply (proj2 (proj1 (proj2 (feed_parser_errors (fun _ => Some JNull)
                                (lit "setResponse({}") 0)))).
  right. left. intros H. apply includes_spec in H. vm_compute in H. discriminate H.
Defined.

(** ** C9: claim and completion *)

(** C9, as stated, fails for the completion: its update is filtered on
    the key and on the assignee, not on the status, so an order that is
    already completed is matched again and rewritten. *)
Lemma completion_matches_completed_order :
  let o := sample_completed_order 7 in
  let run := handleCompleteOrder (fun _ => S754_zero false) (lit "editor-1") 100 7
               (Some (lit "https://example.org/second")) None None (world_of [o]) in
  status o <> taken /\
  affected (complete_filter (lit "editor-1") 7) [o] = 1%nat /\
  fst run = ToastCompleted /\
  map completed_at (orders (db (snd run))) = [Some 100] /\
  map deliverable_link (orders (db (snd run))) = [Some (lit "https://example.org/second")] /\
  orders (db (snd run)) <> [o].
Proof.
  vm_compute.
  split; [discriminate|]. split; [reflexivity|]. split; [reflexivity|].
  split; [reflexivity|]. split; [reflexivity|]. discriminate.
Qed.

Lemma map_unaffected (p : order -> bool) (f : order -> order) os :
  (forall o, In o os -> p o = false) ->
  map (fun o => if p o then f o else o) os = os /\ affected p os = 0%nat.
Proof.
  intros H. unfold affected. rewrite (filter_none p os H). split; [|reflexivity].
  rewrite <- (map_id os) at 2. apply map_ext_in. intros o Ho.
  rewrite (H o Ho). reflexivity.
Qed.

Lemma store_call_update p f w :
  let r := store_call (update_where p f) w in
  (exists e, fst r = inl e /\ db (snd r) = db w) \/
  (fst r = inr (affected p (orders (db w))) /\
   orders (db (snd r)) = map (fun o => if p o then f o else o) (orders (db w)) /\
   assignments (db (snd r)) = assignments (db w)).
Proof.
  unfold store_call, update_where, affected.
  destruct (pending w) as [|[e|] rest]; cbn; eauto.
Qed.

Lemma store_call_insert_assignment now oid uid act w :
  orders (db (snd (store_call (insert_assignment now oid uid act) w))) = orders (db w).
Proof.
  unfold store_call, insert_assignment.
  destruct (pending w) as [|[e|] rest]; reflexivity.
Qed.

Lemma in_map_if (p : order -> bool) (f : order -> order) os o' :
  In o' (map (fun o => if p o then f o else o) os) ->
  In o' os \/ exists o, In o os /\ p o = true /\ o' = f o.
Proof.
  intros H. apply in_map_iff in H. destruct H as [o [E Ho]].
  destruct (p o) eqn:Ep; [right; exists o; auto|left; congruence].
Qed.

Section Dashboards.

Variable Number : jsstring -> spec_float.

(** C9 (amended): a claim is one update filtered on the key and on the
    status being available; a completion is one update filtered on the
    key and on the assignee being the caller, whatever the status.  A row
    is rewritten only if it matches the filter; when no row matches, the
    update touches no row and the table is as it was. *)
Theorem claim_and_completion_are_conditional_updates :
  forall (userId : jsstring) (now : Z) (orderId : nat)
         (deliverableLink actualAmountRaw feedback : option jsstring) (w : world),
    let claimed := snd (handleTakeOrder userId now orderId w) in
    let done := snd (handleCompleteOrder Number userId now orderId
                       deliverableLink actualAmountRaw feedback w) in
    (forall o', In o' (orders (db claimed)) ->
        In o' (orders (db w)) \/
        exists o, In o (orders (db w)) /\ id o = orderId /\ status o = available /\
                  o' = set_taken now userId o) /\
    ((forall o, In o (orders (db w)) -> id o = orderId -> status o <> available) ->
     affected (take_filter orderId) (orders (db w)) = 0%nat /\
     orders (db claimed) = orders (db w)) /\
    (forall o', In o' (orders (db done)) ->
        In o' (orders (db w)) \/
        exists o, In o (orders (db w)) /\ id o = orderId /\ taken_by o = Some userId /\
                  o' = set_completed now (or_null deliverableLink)
                         (option_map Number (or_null actualAmountRaw))
                         (or_null feedback) o) /\
    ((forall o, In o (orders (db w)) -> id o = orderId -> taken_by o <> Some userId) ->
     affected (complete_filter userId orderId) (orders (db w)) = 0%nat /\
     orders (db done) = orders (db w)).
Proof.
  intros userId now orderId deliverableLink actualAmountRaw feedback w claimed done.
  assert (Tk : forall o, take_filter orderId o = true <->
                         id o = orderId /\ status o = available).
  { intros o. unfold take_filter. rewrite andb_true_iff, Nat.eqb_eq.
    destruct (status o); simpl; split; intros [H1 H2]; split; auto; discriminate. }
  assert (Ck : forall o, complete_filter userId orderId o = true <->
                         id o = orderId /\ taken_by o = Some userId).
  { intros o. unfold complete_filter. rewrite andb_true_iff, Nat.eqb_eq, sql_eq_spec.
    reflexivity. }
  assert (Hc : orders (db claimed) = orders (db w) \/
               orders (db claimed)
               = map (fun o => if take_filter orderId o then set_taken now userId o else o)
                   (orders (db w))).
  { unfold claimed, handleTakeOrder.
    destruct (store_call_update (take_filter orderId) (set_taken now userId) w)
      as [[e [H1 H2]]|[H1 [H2 _]]];
      destruct (store_call (update_where _ _) w) as [[e'|n] w1]; cbn [fst snd] in *;
      try discriminate.
    - left. destruct (jsstring_eqb (code e') PGRST116); cbn [snd]; rewrite H2; reflexivity.
    - right.
      pose proof (store_call_insert_assignment now orderId userId (lit "taken") w1) as Ha.
      destruct (store_call (insert_assignment _ _ _ _) w1) as [u w2].
      cbn [snd] in *. congruence. }
  assert (Hd : orders (db done) = orders (db w) \/
               orders (db done)
               = map (fun o => if complete_filter userId orderId o
                               then set_completed now (or_null deliverableLink)
                                      (option_map Number (or_null actualAmountRaw))
                                      (or_null feedback) o
                               else o)
                   (orders (db w))).
  { unfold done, handleCompleteOrder.
    destruct (store_call_update (complete_filter userId orderId)
                (set_completed now (or_null deliverableLink)
                   (option_map Number (or_null actualAmountRaw)) (or_null feedback)) w)
      as [[e [H1 H2]]|[H1 [H2 _]]];
      destruct (store_call (update_where _ _) w) as [[e'|n] w1]; cbn [fst snd] in *;
      try discriminate.
    - left. rewrite H2. reflexivity.
    - right.
      pose proof (store_call_insert_assignment now orderId userId (lit "completed") w1) as Ha.
      destruct (store_call (insert_assignment _ _ _ _) w1) as [u w2].
      cbn [snd] in *. congruence. }
  split.
  { intros o' Ho'. destruct Hc as [Hc|Hc]; rewrite Hc in Ho'; [left; exact Ho'|].
    apply in_map_if in Ho'. destruct Ho' as [Ho'|[o [H1 [H2 H3]]]]; [left; exact Ho'|].
    right. exists o. apply Tk in H2. tauto. }
  split.
  { intros Hno.
    assert (Hf : forall o, In o (orders (db w)) -> take_filter orderId o = false).
    { intros o Ho. destruct (take_filter orderId o) eqn:E; [|reflexivity].
      apply Tk in E. destruct E as [E1 E2]. exfalso. exact (Hno o Ho E1 E2). }
    destruct (map_unaffected _ (set_taken now userId) _ Hf) as [Hm Ha].
    split; [exact Ha|]. destruct Hc as [Hc|Hc]; congruence. }
  split.
  { intros o' Ho'. destruct Hd as [Hd|Hd]; rewrite Hd in Ho'; [left; exact Ho'|].
    apply in_map_if in Ho'. destruct Ho' as [Ho'|[o [H1 [H2 H3]]]]; [left; exact Ho'|].
    right. exists o. apply Ck in H2. tauto. }
  intros Hno.
  assert (Hf : forall o, In o (orders (db w)) -> complete_filter userId orderId o = false).
  { intros o Ho. destruct (complete_filter userId orderId o) eqn:E; [|reflexivity].
    apply Ck in E. destruct E as [E1 E2]. exfalso. exact (Hno o Ho E1 E2). }
  destruct (map_unaffected _ (set_completed now (or_null deliverableLink)
                                (option_map Number (or_null actualAmountRaw))
                                (or_null feedback)) _ Hf) as [Hm Ha].
  split; [exact Ha|]. destruct Hd as [Hd|Hd]; congruence.
Qed.

End Dashboards.

(** A claim on an order that is already taken: no row matches and the
    table is as it was. *)
Lemma claim_and_completion_are_conditional_updates_witness :
  let o := sample_taken_order 7 (Some (lit "3/1/2025 10:00:00")) (Some google_sheet) in
  affected (take_filter 7) [o] = 0%nat /\
  orders (db (snd (handleTakeOrder (lit "editor-2") 100 7 (world_of [o])))) = [o].
Proof.
  intros o.
  refine (proj1 (proj2 (claim_and_completion_are_conditional_updates
                          (fun _ => S754_zero false) (lit "editor-2") 100 7
                          None None None (world_of [o]))) _).
  intros x [<-|[]] _. discriminate.
Defined.

(** The answer of the handler when the update of a claim matches no row
    and the backend reports no error, which is what it does then: the
    caller is told that the order is theirs, and an audit entry is
    written. *)
Remark lost_claim_is_answered_as_taken :
  let o := sample_taken_order 7 (Some (lit "3/1/2025 10:00:00")) (Some google_sheet) in
  let run := handleTakeOrder (lit "editor-2") 100 7 (world_of [o]) in
  affected (take_filter 7) [o] = 0%nat /\
  fst run = ToastTaken /\
  orders (db (snd run)) = [o] /\
  length (assignments (db (snd run))) = 1%nat.
Proof. vm_compute. repeat split. Qed.

(** ** C10: the counts of a run *)

Lemma record_of_fields_blank now row f :
  record_of_fields now row f = None <-> blank f = true.
Proof.
  unfold record_of_fields, build_record, blank.
  destruct (is_empty (f_service f) && is_empty (f_desc f)); split; congruence.
Qed.

(** The records are the rows that are kept, one for one and in order. *)
Lemma map_rows_kept read now rows : forall t,
  map_rows (callback read now) rows = inr t ->
  Forall2 (fun row r => exists f, read row = inr f /\ blank f = false /\
                                  record_of_fields now row f = Some r)
    (kept_rows read rows) t /\
  (forall row, In row rows -> exists f, read row = inr f).
Proof.
  unfold kept_rows.
  induction rows as [|row rows IH]; intros t H; cbn [map_rows] in H.
  - injection H as <-. split; [constructor|intros row []].
  - unfold callback at 1 in H.
    destruct (read row) as [e|f] eqn:Ef; [discriminate|].
    destruct (map_rows (callback read now) rows) as [e|rs]; [discriminate|].
    destruct (IH rs eq_refl) as [F Hall]. injection H as <-.
    cbn [filter]. rewrite Ef. split.
    + destruct (record_of_fields now row f) as [r|] eqn:Er.
      * assert (Eb : blank f = false).
        { destruct (blank f) eqn:Eb; [|reflexivity].
          apply (record_of_fields_blank now row f) in Eb. congruence. }
        rewrite Eb. cbn [negb]. constructor; [|exact F]. exists f. auto.
      * apply record_of_fields_blank in Er. rewrite Er. exact F.
    + intros row' [<-|Hin]; [eauto|apply Hall, Hin].
Qed.

Lemma filter_partition_length {A} (p : A -> bool) l :
  (length (filter (fun x => negb (p x)) l) + length (filter p l) = length l)%nat.
Proof. rewrite Nat.add_comm. apply filter_negb_length. Qed.

(** C10: in a run that completes, the reported total is the number of
    rows of the decoded feed, before the blank rows are dropped; the
    records that are inserted or updated correspond one for one to the
    rows that are kept, so that inserted + updated is the number of kept
    rows, at most the total, and a row whose service and description are
    both empty gives no record.  With a blank row in the feed,
    inserted + updated is less than the total. *)
Theorem totalRows_counts_every_feed_row :
  forall (JSON_parse : jsstring -> option json) (fetch : jsstring -> fetch_response)
         env_ok now req w ins upd pur total w' toInsert,
    serve JSON_parse fetch env_ok now req w = (Ok200 ins upd pur total, w') ->
    load_feed JSON_parse fetch now req = inr (toInsert, total) ->
    (exists rows read,
        feed_rows JSON_parse fetch now req = Some rows /\
        total = length rows /\
        Forall2 (fun row r => exists f, read row = inr f /\ blank f = false /\
                                        record_of_fields now row f = Some r)
          (kept_rows read rows) toInsert /\
        (forall row f, In row rows -> read row = inr f -> blank f = true ->
                       record_of_fields now row f = None) /\
        (ins + upd = length (kept_rows read rows))%nat) /\
    (ins + upd = length toInsert)%nat /\
    (ins + upd <= total)%nat /\
    ins = length (newRecords_of toInsert (orders (db w))) /\
    upd = length (updateRecords_of toInsert (orders (db w))) /\
    (let rows := [ sample_row "Reel" "30 seconds" "10k" "1 week" "first";
                   sample_row "" "" "5k" "urgent" "blank" ] in
     fst (serve (fun _ => Some (JArr rows)) sample_fetch true 0 (sample_request false)
            empty_world) = Ok200 1 0 0 2).
Proof.
  intros JSON_parse fetch env_ok now req w ins upd pur total w' toInsert Hrun Hfeed.
  destruct (serve_ok _ _ _ _ _ _ _ _ _ _ _ Hrun) as [toInsert' [Hfeed' Hrec]].
  rewrite Hfeed in Hfeed'. injection Hfeed' as <-.
  destruct (load_feed_ok _ _ _ _ _ _ Hfeed) as [rows [read [Hr [Hn [Hm [Hle _]]]]]].
  destruct (reconcile_ok _ _ _ _ _ _ _ _ Hrec) as [_ [Hins [Hupd _]]].
  destruct (map_rows_kept _ _ _ _ Hm) as [F _].
  assert (Hsum : (ins + upd = length toInsert)%nat).
  { rewrite Hins, Hupd. unfold newRecords_of, updateRecords_of.
    apply filter_partition_length. }
  split.
  { exists rows, read. split; [exact Hr|]. split; [exact Hn|]. split; [exact F|].
    split.
    - intros row f _ _ Hb. apply record_of_fields_blank, Hb.
    - rewrite Hsum. symmetry. eapply Forall2_length, F. }
  split; [exact Hsum|]. split; [lia|]. split; [exact Hins|]. split; [exact Hupd|].
  vm_compute. reflexivity.
Qed.

(** The run on a feed with a blank row: one record for two rows. *)
Lemma totalRows_counts_every_feed_row_witness :
  let rows := [ sample_row "Reel" "30 seconds" "10k" "1 week" "first";
                sample_row "" "" "5k" "urgent" "blank" ] in
  let JSON_parse := fun _ : jsstring => Some (JArr rows) in
  let run := serve JSON_parse sample_fetch true 0 (sample_request false) empty_world in
  fst run = Ok200 1 0 0 2 /\ (1 + 0 <= 2)%nat /\ (1 + 0 < 2)%nat.
Proof.
  intros rows JSON_parse run.
  assert (Hrun : serve JSON_parse sample_fetch true 0 (sample_request false) empty_world
                 = (Ok200 1 0 0 2, snd run)) by (vm_compute; reflexivity).
  destruct (load_feed JSON_parse sample_fetch 0 (sample_request false))
    as [e|[toInsert total]] eqn:Hfeed; [discriminate Hfeed|].
  assert (Ht : total = 2%nat) by (vm_compute in Hfeed; congruence). subst total.
  destruct (totalRows_counts_every_feed_row JSON_parse sample_fetch true 0
              (sample_request false) empty_world 1 0 0 2 (snd run) toInsert Hrun Hfeed)
    as (_ & _ & Hle & _).
  split; [vm_compute; reflexivity|]. split; [exact Hle|]. lia.
Defined.

(** * Further properties

    ** Invariants of a run of the engine *)

Lemma call_invariant {A} (P : database -> Prop) (op : database -> A * database) w r w' :
  (forall d, P d -> P (snd (op d))) ->
  call op w = (r, w') -> P (db w) -> P (db w').
Proof.
  intros Hop H HP.
  destruct (call_cases op w) as [[e E]|E]; rewrite E in H; injection H as _ <-; cbn [db].
  - exact HP.
  - apply Hop, HP.
Qed.

Lemma update_loop_invariant (P : database -> Prop) now :
  (forall r d, P d -> P (snd (update_order now r d))) ->
  forall rs k w res w',
    update_loop now rs k w = (res, w') -> P (db w) -> P (db w').
Proof.
  intros Hop. induction rs as [|r rs IH]; intros k w res w' H HP; cbn [update_loop] in H.
  - unfold ret in H. injection H as _ <-. exact HP.
  - unfold bind in H.
    destruct (call (update_order now r) w) as [[e|u] w1] eqn:E.
    + injection H as _ <-. eapply call_invariant; [apply Hop|exact E|exact HP].
    + eapply IH; [exact H|]. eapply call_invariant; [apply Hop|exact E|exact HP].
Qed.

Lemma purge_loop_invariant (P : database -> Prop) :
  (forall p d, P d -> P (snd (delete_where p d))) ->
  forall fuel staleIds i purged w res w',
    purge_loop fuel staleIds i purged w = (res, w') -> P (db w) -> P (db w').
Proof.
  intros Hop. induction fuel as [|fuel IH]; intros staleIds i purged w res w' H HP;
    cbn [purge_loop] in H.
  - unfold ret in H. injection H as _ <-. exact HP.
  - destruct (i <? length staleIds)%nat.
    + unfold bind in H.
      destruct (call _ w) as [[e|n] w1] eqn:E.
      * injection H as _ <-. eapply call_invariant; [apply Hop|exact E|exact HP].
      * eapply IH; [exact H|]. eapply call_invariant; [apply Hop|exact E|exact HP].
    + unfold ret in H. injection H as _ <-. exact HP.
Qed.

(** A property of the tables that the insert and the updates keep, and
    the deletions too when the run purges, holds after a run of the
    engine if it held before, whatever the backend answers. *)
Lemma reconcile_invariant (P : database -> Prop) now purge toInsert :
  (forall rs d, P d -> P (snd (insert_orders now rs d))) ->
  (forall r d, P d -> P (snd (update_order now r d))) ->
  (purge = true -> forall p d, P d -> P (snd (delete_where p d))) ->
  forall w res w',
    reconcile now purge toInsert w = (res, w') -> P (db w) -> P (db w').
Proof.
  intros Hins Hupd Hdel w res w' H HP. unfold reconcile in H.
  unfold bind at 1 in H.
  destruct (call select_existing w) as [[e|existing] w1] eqn:E1.
  { injection H as _ <-. eapply call_invariant; [|exact E1|exact HP]. auto. }
  assert (P1 : P (db w1)) by (eapply call_invariant; [|exact E1|exact HP]; auto).
  unfold bind at 1 in H.
  match type of H with
  | context [if ?c then ?a else ?b] =>
      destruct ((if c then a else b) w1) as [[e|inserted] w2] eqn:E2
  end.
  { injection H as _ <-.
    destruct (0 <? length _)%nat; [|discriminate E2].
    unfold bind in E2. destruct (call _ w1) as [[e'|u] w2'] eqn:E2'.
    - injection E2 as _ <-. eapply call_invariant; [apply Hins|exact E2'|exact P1].
    - discriminate E2. }
  assert (P2 : P (db w2)).
  { destruct (0 <? length _)%nat.
    - unfold bind in E2. destruct (call _ w1) as [[e'|u] w2'] eqn:E2'; [discriminate|].
      unfold ret in E2. injection E2 as _ <-.
      eapply call_invariant; [apply Hins|exact E2'|exact P1].
    - unfold ret in E2. injection E2 as _ <-. exact P1. }
  unfold bind at 1 in H.
  destruct (update_loop now _ 0 w2) as [[e|updated] w3] eqn:E3.
  { injection H as _ <-. eapply update_loop_invariant; [exact Hupd|exact E3|exact P2]. }
  assert (P3 : P (db w3))
    by (eapply update_loop_invariant; [exact Hupd|exact E3|exact P2]).
  unfold bind at 1 in H. destruct purge.
  - specialize (Hdel eq_refl). unfold bind at 1 in H.
    destruct (call _ w3) as [[e|n] w4] eqn:E4.
    + injection H as _ <-. eapply call_invariant; [apply Hdel|exact E4|exact P3].
    + assert (P4 : P (db w4)) by (eapply call_invariant; [apply Hdel|exact E4|exact P3]).
      destruct (purge_loop _ _ _ _ w4) as [[e|p] w5] eqn:E5.
      * injection H as _ <-. eapply purge_loop_invariant; [exact Hdel|exact E5|exact P4].
      * unfold ret in H. injection H as _ <-.
        eapply purge_loop_invariant; [exact Hdel|exact E5|exact P4].
  - unfold ret in H. injection H as _ <-. exact P3.
Qed.

Section RunInvariant.

Variable JSON_parse : jsstring -> option json.
Variable fetch : jsstring -> fetch_response.

Lemma serve_invariant (P : database -> Prop) env_ok now req :
  (forall rs d, P d -> P (snd (insert_orders now rs d))) ->
  (forall r d, P d -> P (snd (update_order now r d))) ->
  (purge_flag req = true -> forall p d, P d -> P (snd (delete_where p d))) ->
  forall w, P (db w) -> P (db (snd (serve JSON_parse fetch env_ok now req w))).
Proof.
  intros Hins Hupd Hdel w HP.
  destruct (serve JSON_parse fetch env_ok now req w) as [resp w'] eqn:E.
  apply serve_any in E. destruct E as [->|[toInsert [total [res [_ E]]]]]; [exact HP|].
  cbn [snd]. eapply reconcile_invariant; eauto.
Qed.

End RunInvariant.

Lemma references_insert now rs d :
  references_ok d -> references_ok (snd (insert_orders now rs d)).
Proof.
  intros H a Ha. cbn [insert_orders snd assignments orders] in *.
  destruct (H a Ha) as [o [Ho E]]. exists o. split; [|exact E].
  destruct (insert_rows_app now rs (orders d)) as [new [En _]].
  rewrite En. apply in_or_app. left. exact Ho.
Qed.

Lemma references_update now r d :
  references_ok d -> references_ok (snd (update_order now r d)).
Proof.
  intros H a Ha. cbn [update_order snd assignments orders] in *.
  destruct (H a Ha) as [o [Ho E]].
  exists (if sql_eq (sheet_row_id o) (rec_sheet_row_id r) then apply_update now r o else o).
  split.
  - apply (in_map (fun o => if sql_eq (sheet_row_id o) (rec_sheet_row_id r)
                            then apply_update now r o else o)), Ho.
  - destruct (sql_eq _ _); exact E.
Qed.

Lemma references_delete p d :
  references_ok d -> references_ok (snd (delete_where p d)).
Proof.
  intros H a Ha. cbn [delete_where snd assignments orders] in *.
  apply filter_In in Ha. destruct Ha as [Ha Hk].
  destruct (H a Ha) as [o [Ho E]]. exists o. split; [|exact E].
  apply filter_In. split; [exact Ho|].
  destruct (p o) eqn:Ep; [|reflexivity].
  apply negb_true_iff in Hk. exfalso.
  assert (Hex : existsb (fun o => Nat.eqb (id o) (order_id a)) (filter p (orders d)) = true).
  { apply existsb_exists. exists o. split; [apply filter_In; auto|].
    apply Nat.eqb_eq, E. }
  congruence.
Qed.

(** Referential integrity of the audit log: a run of the function,
    with or without purge and whatever the feed and the backend answer,
    leaves no entry of the log without its order, if there was none
    before.  The orders a purge deletes take their entries with them. *)
Theorem sync_keeps_audit_log_referenced :
  forall (JSON_parse : jsstring -> option json) (fetch : jsstring -> fetch_response)
         env_ok now req w,
    references_ok (db w) ->
    references_ok (db (snd (serve JSON_parse fetch env_ok now req w))).
Proof.
  intros JSON_parse fetch env_ok now req w H.
  apply (serve_invariant JSON_parse fetch references_ok); auto.
  - intros rs d. apply references_insert.
  - intros r d. apply references_update.
  - intros _ p d. apply references_delete.
Qed.

(** A purge on an empty feed: the order goes, and its entry with it. *)
Lemma sync_keeps_audit_log_referenced_witness :
  let w' := snd (serve (fun _ => Some (JArr [])) sample_fetch true 100
                   (sample_request true) sample_world) in
  references_ok (db sample_world) /\ references_ok (db w') /\
  orders (db w') = [] /\ assignments (db w') = [].
Proof.
  intros w'.
  assert (H : references_ok (db sample_world)).
  { intros a [<-|[]]. eexists. split; [left; reflexivity|reflexivity]. }
  split; [exact H|]. split.
  - exact (sync_keeps_audit_log_referenced (fun _ => Some (JArr [])) sample_fetch true 100
             (sample_request true) sample_world H).
  - split; vm_compute; reflexivity.
Defined.

(** ** The workflow columns and the status *)

Lemma same_workflow_ok o o' : same_workflow o o' -> workflow_ok o -> workflow_ok o'.
Proof.
  unfold same_workflow, workflow_ok.
  intros (_ & _ & -> & -> & -> & -> & _). auto.
Qed.

Lemma Forall_map_if (P : order -> Prop) (p : order -> bool) (f : order -> order) os :
  (forall o, P o -> p o = true -> P (f o)) ->
  Forall P os -> Forall P (map (fun o => if p o then f o else o) os).
Proof.
  intros Hf H. induction H as [|o os Ho _ IH]; cbn [map]; constructor; [|exact IH].
  destruct (p o) eqn:E; auto.
Qed.

Lemma workflow_insert now rs d :
  Forall workflow_ok (orders d) ->
  Forall workflow_ok (orders (snd (insert_orders now rs d))).
Proof.
  intros H. cbn [insert_orders snd orders].
  destruct (insert_rows_app now rs (orders d)) as [new [-> F]].
  apply Forall_app. split; [exact H|].
  clear H. induction F as [|r o rs' new' [k ->] _ IH]; constructor; [|exact IH].
  unfold workflow_ok. cbn. auto.
Qed.

Lemma workflow_update now r d :
  Forall workflow_ok (orders d) ->
  Forall workflow_ok (orders (snd (update_order now r d))).
Proof.
  intros H. cbn [update_order snd orders].
  apply Forall_map_if; [|exact H].
  intros o Ho _. eapply same_workflow_ok; [apply apply_update_same_workflow|exact Ho].
Qed.

Lemma workflow_delete p d :
  Forall workflow_ok (orders d) ->
  Forall workflow_ok (orders (snd (delete_where p d))).
Proof.
  intros H. cbn [delete_where snd orders].
  apply Forall_forall. intros o Ho. apply filter_In in Ho.
  rewrite Forall_forall in H. apply H, Ho.
Qed.

(** The table after a guarded update: as it was, or with the targets
    rewritten, all of which pass a check. *)
Lemma store_try_update c p f w :
  let r := store_try (rls_update c p f) w in
  let target o := p o && (editors_using c o || admins_manage c o) in
  (exists e, fst r = inl e /\ db (snd r) = db w) \/
  (fst r = inr (length (filter target (orders (db w)))) /\
   (forall o, In o (orders (db w)) -> target o = true ->
      editors_with_check c (f o) || admins_manage c (f o) = true) /\
   orders (db (snd r)) = map (fun o => if target o then f o else o) (orders (db w)) /\
   assignments (db (snd r)) = assignments (db w)).
Proof.
  unfold store_try, rls_update.
  destruct (pending w) as [|[e|] rest]; cbn [tl fst snd db]; eauto;
    match goal with
    | |- context [forallb ?g ?l] => destruct (forallb g l) eqn:E
    end; cbn [fst snd db update_where orders assignments]; eauto;
    right; (split; [reflexivity|]); (split; [|split; reflexivity]);
    intros o Ho Ht; rewrite forallb_forall in E; specialize (E o Ho);
    rewrite Ht in E; exact E.
Qed.

Lemma complete_filter_spec userId orderId o :
  complete_filter userId orderId o = true <-> id o = orderId /\ taken_by o = Some userId.
Proof.
  unfold complete_filter. rewrite andb_true_iff, Nat.eqb_eq, sql_eq_spec. reflexivity.
Qed.

Lemma take_filter_spec orderId o :
  take_filter orderId o = true <-> id o = orderId /\ status o = available.
Proof.
  unfold take_filter. rewrite andb_true_iff, Nat.eqb_eq.
  destruct (status o); simpl; split; intros [H1 H2]; split; auto; discriminate.
Qed.

Lemma handleTakeOrder_orders userId now orderId w :
  let w' := snd (handleTakeOrder userId now orderId w) in
  orders (db w') = orders (db w) \/
  orders (db w')
  = map (fun o => if take_filter orderId o then set_taken now userId o else o)
      (orders (db w)).
Proof.
  unfold handleTakeOrder.
  destruct (store_call_update (take_filter orderId) (set_taken now userId) w)
    as [[e [H1 H2]]|[H1 [H2 _]]];
    destruct (store_call (update_where _ _) w) as [[e'|n] w1]; cbn [fst snd] in *;
    try discriminate.
  - left. destruct (jsstring_eqb (code e') PGRST116); cbn [snd]; rewrite H2; reflexivity.
  - right.
    pose proof (store_call_insert_assignment now orderId userId (lit "taken") w1) as Ha.
    destruct (store_call (insert_assignment _ _ _ _) w1) as [u w2].
    cbn [snd] in *. congruence.
Qed.

Lemma handleCompleteOrder_orders Number userId now orderId link amount feedback w :
  let w' := snd (handleCompleteOrder Number userId now orderId link amount feedback w) in
  orders (db w') = orders (db w) \/
  orders (db w')
  = map (fun o => if complete_filter userId orderId o
                  then set_completed now (or_null link)
                         (option_map Number (or_null amount)) (or_null feedback) o
                  else o)
      (orders (db w)).
Proof.
  unfold handleCompleteOrder.
  destruct (store_call_update (complete_filter userId orderId)
              (set_completed now (or_null link)
                 (option_map Number (or_null amount)) (or_null feedback)) w)
    as [[e [H1 H2]]|[H1 [H2 _]]];
    destruct (store_call (update_where _ _) w) as [[e'|n] w1]; cbn [fst snd] in *;
    try discriminate.
  - left. rewrite H2. reflexivity.
  - right.
    pose proof (store_call_insert_assignment now orderId userId (lit "completed") w1) as Ha.
    destruct (store_call (insert_assignment _ _ _ _) w1) as [u w2].
    cbn [snd] in *. congruence.
Qed.

Lemma workflow_assigned o userId :
  workflow_ok o -> taken_by o = Some userId ->
  taken_by o <> None /\ taken_at o <> None.
Proof.
  unfold workflow_ok. intros H E. destruct (status o).
  - destruct H as [H _]. congruence.
  - exact H.
  - destruct H as (H1 & H2 & _). auto.
Qed.

(** The workflow columns agree with the status after every operation on
    the store, if they did before: a run of the function on any feed and
    with any answers of the backend, a claim, a completion, a release and
    a mark of failure, in any order and by any callers. *)
Theorem workflow_columns_agree_with_status :
  forall (JSON_parse : jsstring -> option json) (fetch : jsstring -> fetch_response)
         (Number : jsstring -> spec_float) (ops : list operation) (w : world),
    Forall workflow_ok (orders (db w)) ->
    Forall workflow_ok
      (orders (db (fold_left (fun w a => perform JSON_parse fetch Number a w) ops w))).
Proof.
  intros JSON_parse fetch Number ops.
  induction ops as [|a ops IH]; intros w H; cbn [fold_left]; [exact H|].
  apply IH. clear IH ops.
  destruct a as [env_ok now req|userId now orderId
                 |userId now orderId link amount feedback
                 |c userId now orderId|c userId now orderId]; cbn [perform].
  - apply (serve_invariant JSON_parse fetch
             (fun d => Forall workflow_ok (orders d))); auto.
    + intros rs d. apply workflow_insert.
    + intros r d. apply workflow_update.
    + intros _ p d. apply workflow_delete.
  - destruct (handleTakeOrder_orders userId now orderId w) as [->| ->]; [exact H|].
    apply Forall_map_if; [|exact H]. intros o _ _.
    unfold workflow_ok. cbn. split; discriminate.
  - destruct (handleCompleteOrder_orders Number userId now orderId link amount feedback w)
      as [->| ->]; [exact H|].
    apply Forall_map_if; [|exact H]. intros o Ho Hf.
    apply complete_filter_spec in Hf. destruct Hf as [_ Hf].
    destruct (workflow_assigned o userId Ho Hf) as [H1 H2].
    unfold workflow_ok. cbn. repeat split; [exact H1|exact H2|discriminate].
  - unfold handleLeaveOrder.
    destruct (store_try_update c (complete_filter userId orderId) (set_left now) w)
      as [[e [H1 H2]]|[H1 [_ [H2 _]]]];
      destruct (store_try _ w) as [[e'|n] w1]; cbn [fst snd] in *; try discriminate.
    + rewrite H2. exact H.
    + rewrite H2. apply Forall_map_if; [|exact H]. intros o _ _.
      unfold workflow_ok. cbn. auto.
  - unfold handleFailOrder.
    destruct (store_try_update c (complete_filter userId orderId) (set_failed now) w)
      as [[e [H1 H2]]|[H1 [_ [H2 _]]]];
      destruct (store_try _ w) as [[e'|n] w1]; cbn [fst snd] in *; try discriminate.
    + rewrite H2. exact H.
    + rewrite H2. apply Forall_map_if; [|exact H]. intros o Ho Hf.
      apply andb_true_iff in Hf. destruct Hf as [Hf _].
      apply complete_filter_spec in Hf. destruct Hf as [_ Hf].
      destruct (workflow_assigned o userId Ho Hf) as [H3 H4].
      unfold workflow_ok. cbn. repeat split; [exact H3|exact H4|discriminate].
Qed.

(** The order of the sample is completed by its editor, a second editor
    claims it, and the function runs without purge on an empty feed. *)
Lemma workflow_columns_agree_with_status_witness :
  let ops := [ Complete (lit "editor-1") 50 7 (Some (lit "https://example.org/cut")) None None;
               Take (lit "editor-2") 60 7;
               Sync true 100 (sample_request false) ] in
  let w' := fold_left (fun w a => perform (fun _ => Some (JArr [])) sample_fetch
                                    (fun _ => S754_zero false) a w) ops sample_world in
  Forall workflow_ok (orders (db sample_world)) /\
  Forall workflow_ok (orders (db w')) /\
  map status (orders (db w')) = [completed].
Proof.
  intros ops w'.
  assert (H : Forall workflow_ok (orders (db sample_world))).
  { constructor; [|constructor]. unfold workflow_ok. cbn. split; discriminate. }
  split; [exact H|]. split.
  - exact (workflow_columns_agree_with_status (fun _ => Some (JArr [])) sample_fetch
             (fun _ => S754_zero false) ops sample_world H).
  - vm_compute. reflexivity.
Defined.

(** ** The dashboards under the policies *)

Lemma update_where_ext p q f d :
  (forall o, In o (orders d) -> p o = q o) -> update_where p f d = update_where q f d.
Proof.
  intros H. unfold update_where. f_equal; [f_equal; apply filter_ext_in; exact H|].
  f_equal. apply map_ext_in. intros o Ho. rewrite (H o Ho). reflexivity.
Qed.

Lemma rls_update_admitted c p f d :
  (forall o, In o (orders d) -> p o = true ->
     editors_using c o || admins_manage c o = true) ->
  (forall o, In o (orders d) -> p o = true ->
     editors_with_check c (f o) || admins_manage c (f o) = true) ->
  rls_update c p f d = inr (update_where p f d).
Proof.
  intros Hu Hc. unfold rls_update.
  assert (Ht : forall o, In o (orders d) ->
            p o && (editors_using c o || admins_manage c o) = p o).
  { intros o Ho. destruct (p o) eqn:Ep; [|reflexivity]. rewrite (Hu o Ho Ep). reflexivity. }
  match goal with
  | |- context [forallb ?g ?l] => assert (E : forallb g l = true)
  end.
  { apply forallb_forall. intros o Ho. rewrite (Ht o Ho).
    destruct (p o) eqn:Ep; [|reflexivity]. cbn [implb]. apply Hc; assumption. }
  rewrite E. f_equal. apply update_where_ext. exact Ht.
Qed.

(** The policies on [orders] never stand in the way of what an editor
    does under their own name: the update of a claim, of a completion and
    of a mark of failure has the rows of its filters as its targets, and
    every rewritten row passes the check.  Under the policies these
    updates are the plain conditional updates. *)
Theorem policies_admit_own_claim_completion_and_failure :
  forall (c : caller) (now : Z) (orderId : nat)
         (link : option jsstring) (amount : option spec_float)
         (feedback : option jsstring) (d : database),
    let me := auth_uid c in
    rls_update c (take_filter orderId) (set_taken now me) d
    = inr (update_where (take_filter orderId) (set_taken now me) d) /\
    rls_update c (complete_filter me orderId) (set_completed now link amount feedback) d
    = inr (update_where (complete_filter me orderId)
             (set_completed now link amount feedback) d) /\
    rls_update c (complete_filter me orderId) (set_failed now) d
    = inr (update_where (complete_filter me orderId) (set_failed now) d).
Proof.
  intros c now orderId link amount feedback d me. subst me.
  assert (Hown : forall o, complete_filter (auth_uid c) orderId o = true ->
                           sql_eq (taken_by o) (auth_uid c) = true).
  { intros o H. apply andb_true_iff in H. apply H. }
  split; [|split]; apply rls_update_admitted; intros o _ Hp.
  - apply take_filter_spec in Hp. destruct Hp as [_ Hp].
    unfold editors_using. rewrite Hp. reflexivity.
  - unfold editors_with_check. cbn [set_taken status taken_by status_eqb sql_eq].
    rewrite jsstring_eqb_refl. reflexivity.
  - unfold editors_using. rewrite (Hown o Hp). rewrite orb_true_r. reflexivity.
  - unfold editors_with_check. cbn [set_completed status taken_by status_eqb].
    rewrite (Hown o Hp). cbn [andb orb]. reflexivity.
  - unfold editors_using. rewrite (Hown o Hp). rewrite orb_true_r. reflexivity.
  - unfold editors_with_check. cbn [set_failed status taken_by status_eqb].
    rewrite (Hown o Hp). cbn [andb orb]. reflexivity.
Qed.

Lemma database_eq (d d' : database) :
  orders d = orders d' -> assignments d = assignments d' -> d = d'.
Proof. destruct d, d'. cbn. intros -> ->. reflexivity. Qed.

Lemma left_fails_check c now o :
  has_role_admin c = false ->
  editors_with_check c (set_left now o) || admins_manage c (set_left now o) = false.
Proof.
  intros H. unfold editors_with_check, admins_manage. rewrite H. reflexivity.
Qed.

Lemma own_order_is_target c orderId o :
  complete_filter (auth_uid c) orderId o = true ->
  complete_filter (auth_uid c) orderId o
  && (editors_using c o || admins_manage c o) = true.
Proof.
  intros H. rewrite H. cbn [andb]. apply andb_true_iff in H. destruct H as [_ H].
  unfold editors_using. rewrite H, orb_true_r. reflexivity.
Qed.

(** The button "Leave it" gives an order back: status available, no
    editor.  The check of the policies admits a rewritten row only with
    the status taken or completed and the caller as its editor, or for an
    admin.  So for an editor who is not an admin the release never
    changes the tables: when the order is theirs the statement is refused
    and the failure is shown; when it is not, no row matches and the
    release is shown as done.  For an admin the rows are released. *)
Theorem release_is_refused_to_editors :
  forall (c : caller) (now : Z) (orderId : nat) (w : world),
    let me := auth_uid c in
    let run := handleLeaveOrder c me now orderId w in
    (has_role_admin c = false ->
     db (snd run) = db w /\
     ((exists o, In o (orders (db w)) /\ id o = orderId /\ taken_by o = Some me) ->
      fst run = toast_error (lit "Failed to leave order")) /\
     ((forall o, In o (orders (db w)) -> id o = orderId -> taken_by o <> Some me) ->
      hd None (pending w) = None ->
      fst run = toast_success (lit "Order released back to available"))) /\
    (has_role_admin c = true -> hd None (pending w) = None ->
     fst run = toast_success (lit "Order released back to available") /\
     orders (db (snd run))
     = updated (complete_filter me orderId) (set_left now) (orders (db w)) /\
     assignments (db (snd run)) = assignments (db w)).
Proof.
  intros c now orderId w me run. subst me. split.
  - intros Hadm.
    pose proof (store_try_update c (complete_filter (auth_uid c) orderId) (set_left now) w)
      as Hs. cbv zeta in Hs.
    assert (Hnone : forall n w1,
              store_try (rls_update c (complete_filter (auth_uid c) orderId) (set_left now)) w
              = (inr n, w1) ->
              forall o, In o (orders (db w)) ->
                complete_filter (auth_uid c) orderId o = false).
    { intros n w1 E o Ho. rewrite E in Hs. cbn [fst snd] in Hs.
      destruct Hs as [[e [He _]]|[_ [Hc _]]]; [discriminate|].
      destruct (complete_filter (auth_uid c) orderId o) eqn:Ep; [|reflexivity].
      cbv beta in Hc. specialize (Hc o Ho (own_order_is_target c orderId o Ep)).
      rewrite (left_fails_check c now o Hadm) in Hc. discriminate. }
    subst run. unfold handleLeaveOrder.
    destruct (store_try _ w) as [[e|n] w1] eqn:E; cbn [fst snd] in *.
    + split; [|split].
      * destruct Hs as [[e' [_ Hd]]|[He _]]; [exact Hd|discriminate].
      * reflexivity.
      * intros Hno Hp. exfalso. unfold store_try in E.
        assert (Hall : forall o, In o (orders (db w)) ->
                  complete_filter (auth_uid c) orderId o = false).
        { intros o Ho. destruct (complete_filter _ _ o) eqn:Ep; [|reflexivity].
          apply complete_filter_spec in Ep. destruct Ep as [E1 E2].
          exfalso. exact (Hno o Ho E1 E2). }
        assert (Hr : rls_update c (complete_filter (auth_uid c) orderId) (set_left now) (db w)
                     = inr (update_where (complete_filter (auth_uid c) orderId)
                              (set_left now) (db w))).
        { apply rls_update_admitted; intros o Ho Hp'; rewrite (Hall o Ho) in Hp';
            discriminate. }
        rewrite Hr in E. unfold update_where in E.
        destruct (pending w) as [|[e'|] rest]; cbn [hd] in Hp; try discriminate;
          cbn in E; discriminate.
    + specialize (Hnone n w1 eq_refl).
      split; [|split].
      * destruct Hs as [[e' [He _]]|[_ [_ [Ho Ha]]]]; [discriminate|].
        apply database_eq; [|exact Ha]. rewrite Ho.
        apply map_unaffected with (f := set_left now).
        intros o Hin. rewrite (Hnone o Hin). reflexivity.
      * intros [o [Ho [E1 E2]]]. exfalso.
        assert (Ep : complete_filter (auth_uid c) orderId o = true)
          by (apply complete_filter_spec; auto).
        rewrite (Hnone o Ho) in Ep. discriminate.
      * reflexivity.
  - intros Hadm Hp. subst run. unfold handleLeaveOrder, store_try.
    assert (Hr : rls_update c (complete_filter (auth_uid c) orderId) (set_left now) (db w)
                 = inr (update_where (complete_filter (auth_uid c) orderId)
                          (set_left now) (db w))).
    { apply rls_update_admitted; intros o _ _.
      - unfold admins_manage. rewrite Hadm. apply orb_true_r.
      - unfold admins_manage. rewrite Hadm. apply orb_true_r. }
    rewrite Hr. unfold update_where, updated.
    destruct (pending w) as [|[e'|] rest]; cbn [hd] in Hp; try discriminate;
      cbn [fst snd db orders assignments]; auto.
Qed.

(** The editor of the sample order asks to leave it: the statement is
    refused and the order stays theirs. *)
Lemma release_is_refused_to_editors_witness :
  let run := handleLeaveOrder (editor "editor-1") (lit "editor-1") 100 7 sample_world in
  fst run = toast_error (lit "Failed to leave order") /\ db (snd run) = db sample_world.
Proof.
  intros run.
  destruct (release_is_refused_to_editors (editor "editor-1") 100 7 sample_world)
    as [H _].
  destruct (H eq_refl) as [Hd [He _]].
  split; [|exact Hd]. apply He.
  eexists. split; [left; reflexivity|]. split; reflexivity.
Defined.

Lemma store_try_cases {A} (op : database -> pgerror + (A * database)) w a d' :
  op (db w) = inr (a, d') ->
  (exists e, store_try op w = (inl e, {| db := db w; pending := tl (pending w) |})) \/
  store_try op w = (inr a, {| db := d'; pending := tl (pending w) |}).
Proof.
  intros H. unfold store_try. rewrite H.
  destruct (pending w) as [|[e|] rest]; cbn [tl]; eauto.
Qed.

Lemma rls_update_failed c now orderId d :
  rls_update c (complete_filter (auth_uid c) orderId) (set_failed now) d
  = inr (update_where (complete_filter (auth_uid c) orderId) (set_failed now) d).
Proof.
  apply rls_update_admitted; intros o _ Hp;
    apply andb_true_iff in Hp; destruct Hp as [_ Hp].
  - unfold editors_using. rewrite Hp, orb_true_r. reflexivity.
  - unfold editors_with_check. cbn [set_failed status taken_by status_eqb].
    rewrite Hp. reflexivity.
Qed.

(** A mark of failure completes the order with the link "FAILED" and
    writes nothing in the audit log.  Every row it rewrites was the
    caller's; the rewritten row is in neither tab of the editor's list,
    and the revenue of the admin's figures does not count it; the amount
    and the feedback of the row are kept.  When the mark is shown as
    done, every order of the caller with the key is marked. *)
Theorem failed_order_leaves_both_tabs :
  forall (c : caller) (now : Z) (orderId : nat) (w : world),
    let me := auth_uid c in
    let run := handleFailOrder c me now orderId w in
    assignments (db (snd run)) = assignments (db w) /\
    (forall o', In o' (orders (db (snd run))) ->
       In o' (orders (db w)) \/
       exists o, In o (orders (db w)) /\ id o = orderId /\ taken_by o = Some me /\
                 o' = set_failed now o /\
                 takenOrders [o'] = [] /\ completedOrders [o'] = [] /\
                 AdminStats.revenue_filter o' = false /\
                 actual_amount o' = actual_amount o /\
                 editor_feedback o' = editor_feedback o) /\
    (fst run = toast_success (lit "Order marked as failed") ->
     orders (db (snd run))
     = updated (complete_filter me orderId) (set_failed now) (orders (db w))).
Proof.
  intros c now orderId w me run. subst me run. unfold handleFailOrder.
  destruct (store_try_cases _ w _ _ (rls_update_failed c now orderId (db w)))
    as [[e ->]| ->]; cbn [fst snd db].
  - split; [reflexivity|]. split; [auto|discriminate].
  - cbn [update_where orders assignments]. split; [reflexivity|].
    split; [|reflexivity].
    intros o' Ho'. apply in_map_if in Ho'.
    destruct Ho' as [Ho'|[o [Ho [Hp ->]]]]; [left; exact Ho'|].
    right. exists o. apply complete_filter_spec in Hp. destruct Hp as [H1 H2].
    repeat split; auto.
Qed.

(** An editor marks the sample order as failed. *)
Lemma failed_order_leaves_both_tabs_witness :
  let run := handleFailOrder (editor "editor-1") (lit "editor-1") 100 7 sample_world in
  orders (db (snd run))
  = updated (complete_filter (lit "editor-1") 7) (set_failed 100)
      (orders (db sample_world)) /\
  map deliverable_link (orders (db (snd run))) = [Some FAILED].
Proof.
  intros run.
  destruct (failed_order_leaves_both_tabs (editor "editor-1") 100 7 sample_world)
    as [_ [_ H]].
  split; [apply H; reflexivity|reflexivity].
Defined.

(** ** Claims of several editors *)

Lemma store_call_quiet {A} (op : database -> A * database) w :
  pending w = [] ->
  store_call op w = (inr (fst (op (db w))), {| db := snd (op (db w)); pending := [] |}).
Proof.
  intros H. unfold store_call. rewrite H. destruct (op (db w)); reflexivity.
Qed.

Lemma handleTakeOrder_quiet userId now orderId w :
  pending w = [] ->
  handleTakeOrder userId now orderId w
  = (ToastTaken,
     {| db := {| orders := updated (take_filter orderId) (set_taken now userId)
                             (orders (db w));
                 assignments := assignments (db w)
                                ++ [claim_entry orderId (userId, now)] |};
        pending := [] |}).
Proof.
  intros H. unfold handleTakeOrder. rewrite (store_call_quiet _ w H).
  rewrite store_call_quiet by reflexivity. reflexivity.
Qed.

Lemma updated_twice_taken orderId f g os :
  (forall o, status (f o) = taken /\ id (f o) = id o) ->
  updated (take_filter orderId) g (updated (take_filter orderId) f os)
  = updated (take_filter orderId) f os.
Proof.
  intros Hf. unfold updated. rewrite map_map. apply map_ext. intros o.
  destruct (take_filter orderId o) eqn:E.
  - destruct (take_filter orderId (f o)) eqn:E'; [|reflexivity].
    apply take_filter_spec in E'. destruct E' as [_ E'].
    destruct (Hf o) as [Hs _]. congruence.
  - rewrite E. reflexivity.
Qed.

(** Claims on one order by several editors, one after the other, with
    a backend that reports no error: the order goes to the first, the
    later claims rewrite no row, and yet every claimant is told that the
    order is taken for them and gets an entry in the audit log. *)
Theorem first_claim_wins :
  forall (orderId : nat) (first : jsstring * Z) (later : list (jsstring * Z)) (w : world),
    pending w = [] ->
    let run := claims orderId (first :: later) w in
    orders (db (snd run))
    = updated (take_filter orderId) (set_taken (snd first) (fst first)) (orders (db w)) /\
    Forall (fun t => t = ToastTaken) (fst run) /\
    length (fst run) = S (length later) /\
    assignments (db (snd run))
    = assignments (db w) ++ map (claim_entry orderId) (first :: later).
Proof.
  intros orderId [u t] later w Hw run. subst run. cbn [fst snd].
  cbn [claims]. rewrite (handleTakeOrder_quiet u t orderId w Hw).
  set (w1 := {| db := _; pending := [] |}).
  assert (G : forall cs w2,
            pending w2 = [] ->
            orders (db w2)
            = updated (take_filter orderId) (set_taken t u) (orders (db w)) ->
            orders (db (snd (claims orderId cs w2))) = orders (db w2) /\
            Forall (fun x => x = ToastTaken) (fst (claims orderId cs w2)) /\
            length (fst (claims orderId cs w2)) = length cs /\
            assignments (db (snd (claims orderId cs w2)))
            = assignments (db w2) ++ map (claim_entry orderId) cs).
  { induction cs as [|[u' t'] cs IH]; intros w2 Hp Ho; cbn [claims].
    - cbn [fst snd map length]. rewrite app_nil_r. auto.
    - rewrite (handleTakeOrder_quiet u' t' orderId w2 Hp).
      set (w3 := {| db := _; pending := [] |}).
      assert (Ho3 : orders (db w3) = orders (db w2)).
      { unfold w3. cbn [db orders]. rewrite Ho.
        apply updated_twice_taken. intros o. split; reflexivity. }
      destruct (IH w3 eq_refl (eq_trans Ho3 Ho)) as [H1 [H2 [H3 H4]]].
      destruct (claims orderId cs w3) as [ts w4]. cbn [fst snd] in *.
      split; [congruence|]. split; [constructor; auto|]. split; [cbn; congruence|].
      rewrite H4. unfold w3. cbn [db assignments map].
      rewrite <- app_assoc. reflexivity. }
  destruct (G later w1 eq_refl eq_refl) as [H1 [H2 [H3 H4]]].
  destruct (claims orderId later w1) as [ts w4]. cbn [fst snd] in *.
  split; [rewrite H1; reflexivity|]. split; [constructor; auto|].
  split; [cbn; congruence|].
  rewrite H4. unfold w1. cbn [db assignments map]. rewrite <- app_assoc. reflexivity.
Qed.

(** Two editors claim the same available order. *)
Lemma first_claim_wins_witness :
  let o := sample_row_order in
  let run := claims 7 [(lit "editor-1", 10); (lit "editor-2", 11)] (world_of [o]) in
  map taken_by (orders (db (snd run))) = [Some (lit "editor-1")] /\
  fst run = [ToastTaken; ToastTaken] /\
  map user_id (assignments (db (snd run))) = [lit "editor-1"; lit "editor-2"].
Proof.
  intros o run.
  destruct (first_claim_wins 7 (lit "editor-1", 10) [(lit "editor-2", 11)] (world_of [o])
              eq_refl) as [H1 [_ [_ H4]]].
  fold run in H1, H4.
  split; [rewrite H1; reflexivity|]. split; [reflexivity|]. rewrite H4. reflexivity.
Defined.

(** ** The admin's figures *)

Lemma fetchStats_quiet w :
  pending w = [] ->
  fst (AdminStats.fetchStats w)
  = {| AdminStats.totalOrders := length (orders (db w));
       AdminStats.availableOrders :=
         length (filter (fun o => status_eqb (status o) available) (orders (db w)));
       AdminStats.completedOrders :=
         length (filter (fun o => status_eqb (status o) completed) (orders (db w)));
       AdminStats.totalRevenue :=
         AdminStats.sum_revenue
           (inr (filter AdminStats.revenue_filter (orders (db w)))) |}.
Proof.
  intros H. unfold AdminStats.fetchStats.
  rewrite (store_call_quiet _ w H). repeat rewrite store_call_quiet by reflexivity.
  cbn [fst snd count_where select_where db count_or_0]. rewrite filter_true. reflexivity.
Qed.

Lemma filter_updated_out (q p : order -> bool) f os :
  (forall o, In o os -> p o = true -> q (f o) = false /\ q o = false) ->
  filter q (updated p f os) = filter q os.
Proof.
  intros H. unfold updated. induction os as [|o os IH]; [reflexivity|].
  cbn [map filter].
  rewrite IH by (intros o' Ho'; apply H; right; exact Ho').
  destruct (p o) eqn:E; [|reflexivity].
  destruct (H o (or_introl eq_refl) E) as [-> ->]. reflexivity.
Qed.

Lemma filter_updated_in (q p : order -> bool) f os :
  (forall o, In o os -> p o = true -> q (f o) = true /\ q o = false) ->
  length (filter q (updated p f os)) = (length (filter q os) + length (filter p os))%nat.
Proof.
  intros H. unfold updated. induction os as [|o os IH]; [reflexivity|].
  cbn [map filter].
  specialize (IH (fun o' Ho' => H o' (or_intror Ho'))).
  destruct (p o) eqn:E.
  - destruct (H o (or_introl eq_refl) E) as [-> ->]. cbn [length]. rewrite IH. lia.
  - destruct (q o); cbn [length]; rewrite IH; reflexivity.
Qed.

Section Figures.

Variable Number : jsstring -> spec_float.

(** The revenue of the admin's figures is read with the filter
    [deliverable_link <> 'FAILED'], which no row without a link passes.
    So an editor who completes an order in progress and gives no link
    never adds to the revenue, whatever amount they enter and whatever
    the backend answers.  When the backend refuses the update, as it
    does for an amount that the column NUMERIC(10,2) does not hold, the
    failure is shown and the table and the figures are as before.  When
    the update is carried out, the success is shown, the completed
    orders grow by the rows of the filter, and the revenue is the one
    before the completion. *)
Theorem completion_without_link_earns_nothing :
  forall (userId : jsstring) (now : Z) (orderId : nat)
         (link amountRaw feedback : option jsstring) (w : world),
    or_null link = None ->
    (forall o, In o (orders (db w)) -> id o = orderId -> taken_by o = Some userId ->
               status o = taken) ->
    let run := handleCompleteOrder Number userId now orderId link amountRaw feedback w in
    let before := figures (db w) in
    let after := figures (db (snd run)) in
    AdminStats.totalRevenue after = AdminStats.totalRevenue before /\
    AdminStats.totalOrders after = AdminStats.totalOrders before /\
    (fst run = ToastCompleteFailed \/ fst run = ToastCompleted) /\
    (fst run = ToastCompleteFailed <-> exists e, hd None (pending w) = Some e) /\
    (fst run = ToastCompleteFailed ->
     db (snd run) = db w /\
     AdminStats.completedOrders after = AdminStats.completedOrders before) /\
    (fst run = ToastCompleted ->
     orders (db (snd run))
     = updated (complete_filter userId orderId)
         (set_completed now None (option_map Number (or_null amountRaw))
            (or_null feedback)) (orders (db w)) /\
     AdminStats.completedOrders after
     = (AdminStats.completedOrders before
        + affected (complete_filter userId orderId) (orders (db w)))%nat) /\
    (forall o', In o' (orders (db (snd run))) -> ~ In o' (orders (db w)) ->
                status o' = completed /\ AdminStats.revenue_filter o' = false).
Proof.
  intros userId now orderId link amountRaw feedback w Hl Ht run before after.
  assert (Hm : forall o, In o (orders (db w)) -> complete_filter userId orderId o = true ->
                         status o = taken).
  { intros o Ho Hf. apply complete_filter_spec in Hf. destruct Hf. auto. }
  set (f := set_completed now None (option_map Number (or_null amountRaw))
              (or_null feedback)).
  set (p := complete_filter userId orderId).
  assert (Hrev : filter AdminStats.revenue_filter (updated p f (orders (db w)))
                 = filter AdminStats.revenue_filter (orders (db w))).
  { apply filter_updated_out. intros o Ho Hf.
    unfold AdminStats.revenue_filter. rewrite (Hm o Ho Hf). split; reflexivity. }
  assert (Hcnt : length (filter (fun o => status_eqb (status o) completed)
                           (updated p f (orders (db w))))
                 = (length (filter (fun o => status_eqb (status o) completed)
                              (orders (db w)))
                    + affected p (orders (db w)))%nat).
  { unfold affected. apply filter_updated_in. intros o Ho Hf.
    rewrite (Hm o Ho Hf). split; reflexivity. }
  assert (Hcase :
    (fst run = ToastCompleteFailed /\ (exists e, hd None (pending w) = Some e) /\
     db (snd run) = db w) \/
    (fst run = ToastCompleted /\ (forall e, hd None (pending w) <> Some e) /\
     orders (db (snd run)) = updated p f (orders (db w)))).
  { unfold run, handleCompleteOrder. rewrite Hl. fold f. fold p.
    unfold store_call, insert_assignment, update_where.
    destruct (pending w) as [|[e|] rest] eqn:E; cbn [hd fst snd db pending].
    - right. split; [reflexivity|]. split; [discriminate|reflexivity].
    - left. split; [reflexivity|]. split; [eauto|reflexivity].
    - right. destruct rest as [|[e|] r]; cbn [hd fst snd db pending orders];
        (split; [reflexivity|]; split; [discriminate|reflexivity]). }
  subst before after. unfold figures.
  rewrite !fetchStats_quiet by reflexivity.
  cbn [db AdminStats.totalRevenue AdminStats.completedOrders AdminStats.totalOrders].
  destruct Hcase as [[H1 [H2 H3]]|[H1 [H2 H3]]].
  - rewrite H3. split; [reflexivity|]. split; [reflexivity|]. split; [left; exact H1|].
    split; [tauto|]. split; [intros _; split; reflexivity|].
    split; [rewrite H1; discriminate|]. intros o' Ho' Hn. contradiction.
  - rewrite H3. rewrite Hrev, Hcnt. split; [reflexivity|].
    split; [unfold updated; apply length_map|]. split; [right; exact H1|].
    split.
    { split; [rewrite H1; discriminate|]. intros [e He]. exfalso. exact (H2 e He). }
    split; [rewrite H1; discriminate|]. split; [intros _; split; reflexivity|].
    intros o' Ho' Hn. unfold updated in Ho'. apply in_map_if in Ho'.
    destruct Ho' as [Ho'|[o [_ [_ ->]]]]; [contradiction|].
    split; reflexivity.
Qed.

End Figures.

(** The editor of the sample order completes it without a link: with
    900 as the amount, which the backend takes, and with 100000000, which
    it refuses. *)
Lemma completion_without_link_earns_nothing_witness :
  let taken_900 :=
    handleCompleteOrder (fun _ : jsstring => number_of_Z 900) (lit "editor-1") 100 7
      (Some []) (Some (lit "900")) None sample_world in
  let refused :=
    handleCompleteOrder (fun _ : jsstring => number_of_Z 100000000) (lit "editor-1") 100 7
      (Some []) (Some (lit "100000000")) None
      {| db := db sample_world; pending := [Some numeric_overflow] |} in
  (fst taken_900 = ToastCompleted /\
   map actual_amount (orders (db (snd taken_900))) = [Some (number_of_Z 900)] /\
   AdminStats.completedOrders (figures (db (snd taken_900))) = 1%nat /\
   AdminStats.totalRevenue (figures (db (snd taken_900))) = S754_zero false) /\
  (fst refused = ToastCompleteFailed /\
   db (snd refused) = db sample_world /\
   AdminStats.completedOrders (figures (db (snd refused))) = 0%nat /\
   AdminStats.totalRevenue (figures (db (snd refused))) = S754_zero false).
Proof.
  intros taken_900 refused.
  assert (Ht : forall o, In o (orders (db sample_world)) -> id o = 7%nat ->
                 taken_by o = Some (lit "editor-1") -> status o = taken).
  { intros o [<-|[]] _ _. reflexivity. }
  destruct (completion_without_link_earns_nothing (fun _ : jsstring => number_of_Z 900)
              (lit "editor-1") 100 7 (Some []) (Some (lit "900")) None sample_world
              eq_refl Ht) as [A1 [_ [_ [_ [_ [A2 _]]]]]].
  destruct (completion_without_link_earns_nothing
              (fun _ : jsstring => number_of_Z 100000000)
              (lit "editor-1") 100 7 (Some []) (Some (lit "100000000")) None
              {| db := db sample_world; pending := [Some numeric_overflow] |}
              eq_refl Ht) as [B1 [_ [_ [_ [B2 _]]]]].
  fold taken_900 in A1, A2. fold refused in B1, B2.
  assert (T : fst taken_900 = ToastCompleted) by reflexivity.
  assert (R : fst refused = ToastCompleteFailed) by reflexivity.
  destruct (A2 T) as [_ A3]. destruct (B2 R) as [B3 B4].
  split.
  - split; [exact T|]. split; [reflexivity|]. split; [rewrite A3; reflexivity|].
    rewrite A1. reflexivity.
  - split; [exact R|]. split; [exact B3|]. split; [rewrite B4; reflexivity|].
    rewrite B1. reflexivity.
Defined.

(** ** The envelope of the wrapped feed *)

Lemma startsWith_app p : forall s t,
  startsWith p s = true -> startsWith p (s ++ t) = true.
Proof.
  intros s t H. apply startsWith_spec in H. destruct H as [post ->].
  apply startsWith_spec. exists (post ++ t). symmetry. apply app_assoc.
Qed.

Lemma startsWith_app_false p : forall s t,
  startsWith p s = false -> (length p <= length s)%nat -> startsWith p (s ++ t) = false.
Proof.
  induction p as [|x p IH]; intros [|y s] t H Hl; cbn in *; try discriminate; try lia.
  destruct (x =? y); [|reflexivity]. cbn in *. apply IH; [exact H|lia].
Qed.

Lemma occurrence_fits (p s : jsstring) i post :
  (i <= length s)%nat -> skipn i s = p ++ post -> (i + length p <= length s)%nat.
Proof.
  intros Hi H.
  assert (E : length (skipn i s) = length (p ++ post)) by (rewrite H; reflexivity).
  rewrite length_skipn, length_app in E. lia.
Qed.

Lemma indexOf_app p : forall s t i,
  indexOf p s = Some i -> indexOf p (s ++ t) = Some i.
Proof.
  induction s as [|y s IH]; intros t i H.
  - cbn [indexOf] in H. destruct (startsWith p []) eqn:E; [|discriminate].
    injection H as <-. assert (Ep : p = []) by (destruct p; [reflexivity|discriminate E]).
    subst p. destruct t; reflexivity.
  - cbn [indexOf] in H. cbn [app indexOf].
    destruct (startsWith p (y :: s)) eqn:E.
    + injection H as <-.
      change (y :: s ++ t) with ((y :: s) ++ t). rewrite (startsWith_app p _ t E).
      reflexivity.
    + destruct (indexOf p s) as [k|] eqn:Ek; [|discriminate]. injection H as <-.
      destruct (indexOf_Some p s k Ek) as [[post Hk] [Hle _]].
      apply occurrence_fits in Hk; [|exact Hle].
      change (y :: s ++ t) with ((y :: s) ++ t).
      rewrite (startsWith_app_false p (y :: s) t E) by (cbn; lia).
      rewrite (IH t k eq_refl). reflexivity.
Qed.

Lemma lastIndexOf_app p a : forall s i,
  lastIndexOf p s = Some i -> lastIndexOf p (a ++ s) = Some (length a + i)%nat.
Proof.
  induction a as [|x a IH]; intros s i H; [exact H|].
  cbn [app lastIndexOf length]. rewrite (IH s i H). reflexivity.
Qed.

Lemma skipn_length_app {A} (a b : list A) : skipn (length a) (a ++ b) = b.
Proof. induction a; [reflexivity|exact IHa]. Qed.

Lemma firstn_length_app {A} (a b : list A) : firstn (length a) (a ++ b) = a.
Proof. induction a as [|x a IH]; [reflexivity|cbn; rewrite IH; reflexivity]. Qed.

Section Envelope.

Variable JSON_parse : jsstring -> option json.

(** The envelope is taken off and its interior, whatever it is, is what
    the decoder gets: when the payload is a prefix, the opening
    delimiter, an interior, a closing parenthesis and a rest, the
    opening delimiter does not start earlier and the rest has no
    parenthesis, the result is that of decoding the interior.  Delimiters
    inside the interior do not matter. *)
Theorem parseGvizJsonp_unwraps_the_envelope :
  forall pre interior rest : jsstring,
    indexOf setResponse (pre ++ setResponse) = Some (length pre) ->
    includes rest (lit ")") = false ->
    parseGvizJsonp JSON_parse (pre ++ setResponse ++ interior ++ lit ")" ++ rest)
    = match JSON_parse interior with
      | Some v => inr v
      | None => inl SyntaxError
      end.
Proof.
  intros pre interior rest Hpre Hrest. unfold parseGvizJsonp.
  set (tail := interior ++ lit ")" ++ rest).
  assert (E1 : indexOf setResponse (pre ++ setResponse ++ tail) = Some (length pre)).
  { rewrite app_assoc. apply indexOf_app. exact Hpre. }
  assert (E2 : lastIndexOf (lit ")") (pre ++ setResponse ++ tail)
               = Some (length pre + length setResponse + length interior)%nat).
  { assert (E : lastIndexOf (lit ")") (lit ")" ++ rest) = Some 0%nat).
    { change (lit ")" ++ rest) with (41 :: rest). cbn [lastIndexOf].
      assert (En : lastIndexOf (lit ")") rest = None).
      { apply lastIndexOf_None. intros H. apply includes_spec in H. congruence. }
      rewrite En. reflexivity. }
    unfold tail. rewrite !app_assoc. rewrite <- (app_assoc _ (lit ")") rest).
    rewrite (lastIndexOf_app _ _ _ _ E). rewrite !length_app. f_equal. lia. }
  rewrite E1, E2. unfold substring.
  rewrite Nat.min_l, Nat.max_r by lia.
  replace (length pre + length setResponse + length interior
           - (length pre + length setResponse))%nat with (length interior) by lia.
  rewrite app_assoc, <- length_app, skipn_length_app.
  unfold tail. rewrite firstn_length_app. reflexivity.
Qed.

End Envelope.

(** The answer of the sheet: a comment, the call and a semicolon. *)
Lemma parseGvizJsonp_unwraps_the_envelope_witness :
  let pre := lit "/*O_o*/" ++ [10] ++ lit "google.visualization.Query." in
  let JSON_parse := fun t : jsstring =>
    if jsstring_eqb t (lit "{(0)}") then Some (JObj []) else None in
  parseGvizJsonp JSON_parse (pre ++ setResponse ++ lit "{(0)}" ++ lit ")" ++ lit ";")
  = inr (JObj []).
Proof.
  intros pre JSON_parse.
  exact (parseGvizJsonp_unwraps_the_envelope JSON_parse pre (lit "{(0)}") (lit ";")
           eq_refl eq_refl).
Defined.

(** ** The variant of the feed *)

Lemma to_radix_decimal fuel : forall n acc,
  Forall (fun c => is_digit c = true) acc ->
  Forall (fun c => is_digit c = true) (to_radix fuel 10 n acc).
Proof.
  induction fuel as [|fuel IH]; intros n acc H; cbn [to_radix]; [exact H|].
  assert (Hd : Forall (fun c => is_digit c = true) (radix_digit (n mod 10) :: acc)).
  { constructor; [|exact H].
    assert (Hm : 0 <= n mod 10 < 10) by (apply Z.mod_pos_bound; lia).
    unfold radix_digit, is_digit.
    destruct (n mod 10 <? 10) eqn:E; [|apply Z.ltb_ge in E; lia].
    apply andb_true_iff. split; apply Z.leb_le; lia. }
  destruct (n / 10 =? 0); [exact Hd|apply IH, Hd].
Qed.

Lemma toString_decimal n : Forall (fun c => is_digit c = true) (toString_radix 10 n).
Proof. apply to_radix_decimal. constructor. Qed.

Lemma occurs_app_l p u t : occurs p u -> occurs p (u ++ t).
Proof.
  intros [pre [post ->]]. exists pre, (post ++ t). rewrite <- !app_assoc. reflexivity.
Qed.

(** A text that is appended does not bring an occurrence of the pattern
    when its first code unit is not in the pattern and the first code
    unit of the pattern is not in it. *)
Lemma occurs_app_inv (p u t : jsstring) x q y t' :
  p = x :: q -> t = y :: t' -> ~ In x t -> ~ In y p ->
  occurs p (u ++ t) -> occurs p u.
Proof.
  intros Ep Et Hx Hy [pre [post H]].
  apply app_eq_app in H. destruct H as [l [[E1 E2]|[E1 E2]]].
  - apply app_eq_app in E2. destruct E2 as [m [[E3 E4]|[E3 E4]]].
    + destruct m as [|z m].
      * rewrite app_nil_r in E3. subst l. exists pre, []. rewrite app_nil_r. exact E1.
      * exfalso. apply Hy. rewrite Et in E4. injection E4 as <- _.
        rewrite E3. apply in_or_app. right. left. reflexivity.
    + exists pre, m. rewrite E1, E3. reflexivity.
  - exfalso. apply Hx. rewrite E2, Ep. apply in_or_app. right. left. reflexivity.
Qed.

Lemma includes_cache_bust u sep now :
  sep = 38 \/ sep = 63 ->
  includes (u ++ sep :: lit "cacheBust=" ++ toString_radix 10 now) (lit "opensheet.elk.sh")
  = includes u (lit "opensheet.elk.sh").
Proof.
  intros Hsep.
  set (p := lit "opensheet.elk.sh").
  set (t := sep :: lit "cacheBust=" ++ toString_radix 10 now).
  destruct (includes u p) eqn:E.
  - apply includes_spec. apply occurs_app_l. apply includes_spec. exact E.
  - destruct (includes (u ++ t) p) eqn:E'; [|reflexivity].
    apply includes_spec in E'. exfalso.
    assert (Hu : occurs p u).
    { eapply occurs_app_inv; [reflexivity|reflexivity| | |exact E'].
      - intros [H|H]; [destruct Hsep; subst sep; discriminate H|].
        apply in_app_or in H. destruct H as [H|H].
        + cbn in H. repeat (destruct H as [H|H]; [discriminate H|]). exact H.
        + pose proof (toString_decimal now) as Hd. rewrite Forall_forall in Hd.
          specialize (Hd _ H). discriminate Hd.
      - intros H. cbn in H.
        repeat (destruct H as [H|H]; [destruct Hsep; subst sep; discriminate H|]).
        exact H. }
    apply includes_spec in Hu. congruence.
Qed.

(** The decoder is chosen from the address the feed is fetched from,
    and the reading of the clock that is appended to it never changes
    the choice: with a sheet named in the body, the feed is read as an
    array exactly when the name contains "opensheet.elk.sh"; without one,
    the default address is read as the wrapped variant. *)
Theorem cache_bust_never_changes_the_variant :
  forall (now : Z) (req : request),
    is_array_variant (targetUrl now req)
    = match sheetUrlOverride req with
      | Some u => includes u (lit "opensheet.elk.sh")
      | None => false
      end.
Proof.
  intros now req. unfold is_array_variant, targetUrl.
  destruct (sheetUrlOverride req) as [u|].
  - destruct (includes u (lit "?"));
      [change (lit "&cacheBust=") with (38 :: lit "cacheBust=")
      |change (lit "?cacheBust=") with (63 :: lit "cacheBust=")];
      cbn [app]; apply includes_cache_bust; auto.
  - unfold defaultGviz.
    change (lit "https://docs.google.com/spreadsheets/d/1U3FZz4TCV3axNXy9U97xa9Zq85pCpTPZFNIy4Nfg7us/gviz/tq?tqx=out:json&cacheBust=")
      with (lit "https://docs.google.com/spreadsheets/d/1U3FZz4TCV3axNXy9U97xa9Zq85pCpTPZFNIy4Nfg7us/gviz/tq?tqx=out:json"
            ++ 38 :: lit "cacheBust=").
    rewrite <- app_assoc. cbn [app].
    rewrite includes_cache_bust by auto. reflexivity.
Qed.

(** ** Runs without purge *)

Lemma same_workflow_apply_update now r o o' :
  same_workflow o o' -> same_workflow o (apply_update now r o').
Proof.
  intros H. eapply same_workflow_trans; [exact H|apply apply_update_same_workflow].
Qed.

Lemma all_kept_insert os now rs d :
  all_kept os d -> all_kept os (snd (insert_orders now rs d)).
Proof.
  intros H o Ho. destruct (H o Ho) as [o' [Ho' Hw]]. exists o'. split; [|exact Hw].
  cbn [insert_orders snd orders].
  destruct (insert_rows_app now rs (orders d)) as [new [-> _]].
  apply in_or_app. left. exact Ho'.
Qed.

Lemma all_kept_update os now r d :
  all_kept os d -> all_kept os (snd (update_order now r d)).
Proof.
  intros H o Ho. destruct (H o Ho) as [o' [Ho' Hw]].
  exists (if sql_eq (sheet_row_id o') (rec_sheet_row_id r) then apply_update now r o' else o').
  split.
  - cbn [update_order snd orders].
    apply (in_map (fun o => if sql_eq (sheet_row_id o) (rec_sheet_row_id r)
                            then apply_update now r o else o)), Ho'.
  - destruct (sql_eq _ _); [apply same_workflow_apply_update|]; exact Hw.
Qed.

Section WithoutPurge.

Variable JSON_parse : jsstring -> option json.
Variable fetch : jsstring -> fetch_response.

Lemma serve_without_purge env_ok now req w :
  purge_flag req = false ->
  let w' := snd (serve JSON_parse fetch env_ok now req w) in
  all_kept (orders (db w)) (db w') /\
  assignments (db w') = assignments (db w) /\
  (length (orders (db w)) <= length (orders (db w')))%nat.
Proof.
  intros Hp w'. subst w'.
  assert (Hd : purge_flag req = true -> forall (P : database -> Prop) p d,
                 P d -> P (snd (delete_where p d))) by congruence.
  split; [|split].
  - apply (serve_invariant JSON_parse fetch (all_kept (orders (db w)))).
    + intros rs d. apply all_kept_insert.
    + intros r d. apply all_kept_update.
    + intros H. apply Hd, H.
    + intros o Ho. exists o. split; [exact Ho|apply same_workflow_refl].
  - apply (serve_invariant JSON_parse fetch
             (fun d => assignments d = assignments (db w))); auto.
    intros H. apply (Hd H (fun d => assignments d = assignments (db w))).
  - apply (serve_invariant JSON_parse fetch
             (fun d => (length (orders (db w)) <= length (orders d))%nat)); auto.
    + intros rs d H. cbn [insert_orders snd orders].
      destruct (insert_rows_app now rs (orders d)) as [new [-> _]].
      rewrite length_app. lia.
    + intros r d H. cbn [update_order snd orders]. rewrite length_map. exact H.
    + intros H. apply (Hd H (fun d => (length (orders (db w)) <= length (orders d))%nat)).
Qed.

(** A run whose body does not set the purge flag deletes nothing,
    whatever the feed is and whatever the backend answers, also when the
    run is interrupted: every order is still there with its key and its
    workflow columns, the audit log is untouched, and the table has not
    become shorter. *)
Theorem sync_without_purge_deletes_nothing :
  forall env_ok now req w,
    purge_flag req = false ->
    let w' := snd (serve JSON_parse fetch env_ok now req w) in
    all_kept (orders (db w)) (db w') /\
    assignments (db w') = assignments (db w) /\
    (length (orders (db w)) <= length (orders (db w')))%nat.
Proof. exact serve_without_purge. Qed.

End WithoutPurge.

(** A run without purge on an empty feed. *)
Lemma sync_without_purge_deletes_nothing_witness :
  let w' := snd (serve (fun _ => Some (JArr [])) sample_fetch true 100
                   (sample_request false) sample_world) in
  all_kept (orders (db sample_world)) (db w') /\
  assignments (db w') = assignments (db sample_world).
Proof.
  intros w'.
  destruct (sync_without_purge_deletes_nothing (fun _ => Some (JArr [])) sample_fetch
              true 100 (sample_request false) sample_world eq_refl) as [H1 [H2 _]].
  split; [exact H1|exact H2].
Defined.

(** ** The refresh buttons *)

Lemma sheetExportUrl_variant client_now sep server_now :
  sep = 38 \/ sep = 63 ->
  is_array_variant (sheetExportUrl client_now ++ sep :: lit "cacheBust="
                    ++ toString_radix 10 server_now) = false.
Proof.
  intros Hsep. unfold is_array_variant. rewrite includes_cache_bust by exact Hsep.
  unfold sheetExportUrl.
  change (lit "https://docs.google.com/spreadsheets/d/1U3FZz4TCV3axNXy9U97xa9Zq85pCpTPZFNIy4Nfg7us/gviz/tq?tqx=out:json&gid=2062186565&cacheBust=")
    with (lit "https://docs.google.com/spreadsheets/d/1U3FZz4TCV3axNXy9U97xa9Zq85pCpTPZFNIy4Nfg7us/gviz/tq?tqx=out:json&gid=2062186565"
          ++ 38 :: lit "cacheBust=").
  rewrite <- app_assoc. cbn [app].
  rewrite includes_cache_bust by auto. reflexivity.
Qed.

Lemma sheetExportUrl_has_query now : includes (sheetExportUrl now) (lit "?") = true.
Proof.
  apply includes_spec. unfold sheetExportUrl.
  exists (lit "https://docs.google.com/spreadsheets/d/1U3FZz4TCV3axNXy9U97xa9Zq85pCpTPZFNIy4Nfg7us/gviz/tq"),
         (lit "tqx=out:json&gid=2062186565&cacheBust=" ++ toString_radix 10 now).
  reflexivity.
Qed.

Lemma targetUrl_of_sheetExportUrl server_now client_now req :
  sheetUrlOverride req = Some (sheetExportUrl client_now) ->
  targetUrl server_now req
  = sheetExportUrl client_now ++ lit "&cacheBust=" ++ toString_radix 10 server_now.
Proof.
  intros H. unfold targetUrl. rewrite H, sheetExportUrl_has_query. reflexivity.
Qed.

Section Refresh.

Variable JSON_parse : jsstring -> option json.
Variable fetch : jsstring -> fetch_response.

(** The button of the grid of available orders asks for a run without
    purge, on the sheet's own address: the function fetches that address
    with a second cacheBust parameter and reads the answer as the wrapped
    variant.  Whatever the sheet and the backend answer, the run deletes
    no order and leaves the audit log as it is. *)
Theorem refresh_of_the_grid_never_purges :
  forall env_ok client_now server_now w,
    let req := OrdersGrid.sync_request client_now in
    let w' := snd (serve JSON_parse fetch env_ok server_now req w) in
    purge_flag req = false /\
    targetUrl server_now req
    = sheetExportUrl client_now ++ lit "&cacheBust=" ++ toString_radix 10 server_now /\
    is_array_variant (targetUrl server_now req) = false /\
    all_kept (orders (db w)) (db w') /\
    assignments (db w') = assignments (db w) /\
    (length (orders (db w)) <= length (orders (db w')))%nat.
Proof.
  intros env_ok client_now server_now w req w'.
  assert (Hp : purge_flag req = false) by reflexivity.
  assert (Hu : targetUrl server_now req
               = sheetExportUrl client_now ++ lit "&cacheBust="
                 ++ toString_radix 10 server_now)
    by (apply targetUrl_of_sheetExportUrl; reflexivity).
  split; [exact Hp|]. split; [exact Hu|]. split.
  - rewrite Hu. apply (sheetExportUrl_variant client_now 38). auto.
  - apply serve_without_purge. exact Hp.
Qed.

End Refresh.

Section AdminRefresh.

Variable JSON_parse : jsstring -> option json.
Variable fetch : jsstring -> fetch_response.
Variable SyntaxError_message : jsstring.
Variable TypeError_message : jsstring.

(** What the button shows, for any body that is no preflight: a
    success is shown only for a run that was completed, with its number
    of inserted orders; any other outcome is shown as a failure with a
    text. *)
Lemma post_shown req env_ok server_now w :
  is_options req = false ->
  let run := AdminRefreshButton.post JSON_parse fetch SyntaxError_message
               TypeError_message req env_ok server_now w in
  (forall t, fst run = toast_success t ->
     exists toInsert total,
       load_feed JSON_parse fetch server_now req = inr (toInsert, total) /\
       t = lit "Refreshed, inserted "
           ++ toString_radix 10
                (Z.of_nat (length (newRecords_of toInsert (orders (db w))))) /\
       orders (db (snd run))
       = reconciled server_now (purge_flag req) toInsert (orders (db w))) /\
  (forall t, fst run = toast_error t ->
     exists m, t = lit "Refresh failed: " ++ m /\ m <> []) /\
  (forall t, fst run <> toast_info t) /\
  snd run = snd (serve JSON_parse fetch env_ok server_now req w).
Proof.
  intros Ho run. subst run. unfold AdminRefreshButton.post.
  destruct (serve JSON_parse fetch env_ok server_now req w) as [res w'] eqn:E.
  cbn [fst snd].
  destruct res as [| |e|ins upd pur total].
  - exfalso. unfold serve in E. rewrite Ho in E.
    destruct (negb env_ok); [discriminate|].
    destruct (load_feed _ _ _ _) as [e|[t n]]; [discriminate|].
    destruct (reconcile _ _ _ _) as [[e|[[a b] c]] w1]; discriminate.
  - split; [discriminate|]. split; [|split; [discriminate|reflexivity]].
    intros t H. injection H as <-. eexists. split; [reflexivity|]. discriminate.
  - split; [discriminate|]. split; [|split; [discriminate|reflexivity]].
    intros t H. injection H as <-. eexists. split; [reflexivity|].
    unfold or_else.
    destruct (AdminRefreshButton.error_message _ _ e); discriminate.
  - split; [|split; [discriminate|split; [discriminate|reflexivity]]].
    intros t H. injection H as <-.
    destruct (serve_ok _ _ _ _ _ _ _ _ _ _ _ E) as [toInsert [Hf Hr]].
    destruct (reconcile_ok _ _ _ _ _ _ _ _ Hr) as [Hos [Hins _]].
    exists toInsert, total. split; [exact Hf|]. split; [|exact Hos].
    rewrite Hins. reflexivity.
Qed.

Lemma sync_request_no_purge VITE_SHEET_URL :
  purge_flag (AdminRefreshButton.sync_request VITE_SHEET_URL) = false /\
  sheetUrlOverride (AdminRefreshButton.sync_request VITE_SHEET_URL)
  = match VITE_SHEET_URL with
    | Some u => if is_empty u then None else Some u
    | None => None
    end.
Proof.
  destruct VITE_SHEET_URL as [u|]; [|split; reflexivity].
  unfold AdminRefreshButton.sync_request, purge_flag, sheetUrlOverride.
  destruct (is_empty u) eqn:E; [split; reflexivity|].
  cbn. rewrite E. split; reflexivity.
Qed.

(** The admin's button, in the two versions the sources hold.  The
    mounted component never asks for a purge: it names the sheet only
    when the build sets a non-empty [VITE_SHEET_URL], and whatever the
    sheet and the backend answer, its run deletes no order and leaves the
    audit log as it is.  The other version always asks for a purge, on
    the sheet's export address, which is read as the wrapped variant.  In
    both, a success is shown only for a run that was completed: the
    number shown is the number of records of the feed whose identity was
    not persisted, and the table is the reconciled one, with the purge in
    the second version only.  Any other outcome is shown as a failure
    with a text. *)
Theorem refresh_of_the_admin_in_both_versions :
  forall VITE_SHEET_URL env_ok client_now server_now w,
    let req := AdminRefreshButton.sync_request VITE_SHEET_URL in
    let run := AdminRefreshButton.handleRefresh JSON_parse fetch SyntaxError_message
                 TypeError_message VITE_SHEET_URL env_ok server_now w in
    let req_p := AdminRefreshButton.sync_request_purging client_now in
    let run_p := AdminRefreshButton.handleRefresh_purging JSON_parse fetch
                   SyntaxError_message TypeError_message env_ok client_now server_now w in
    (purge_flag req = false /\
     sheetUrlOverride req
     = match VITE_SHEET_URL with
       | Some u => if is_empty u then None else Some u
       | None => None
       end /\
     all_kept (orders (db w)) (db (snd run)) /\
     assignments (db (snd run)) = assignments (db w) /\
     (length (orders (db w)) <= length (orders (db (snd run))))%nat /\
     shown_by_refresh JSON_parse fetch server_now w false req run) /\
    (purge_flag req_p = true /\
     targetUrl server_now req_p
     = sheetExportUrl client_now ++ lit "&cacheBust=" ++ toString_radix 10 server_now /\
     is_array_variant (targetUrl server_now req_p) = false /\
     shown_by_refresh JSON_parse fetch server_now w true req_p run_p).
Proof.
  intros u env_ok client_now server_now w req run req_p run_p.
  destruct (sync_request_no_purge u) as [Hp Hu]. fold req in Hp, Hu.
  assert (Hq : purge_flag req_p = true) by reflexivity.
  pose proof (post_shown req env_ok server_now w eq_refl) as H.
  pose proof (post_shown req_p env_ok server_now w eq_refl) as H'.
  cbv zeta in H, H'.
  destruct H as [S1 [S2 [S3 S4]]]. destruct H' as [P1 [P2 [P3 _]]].
  fold (AdminRefreshButton.handleRefresh JSON_parse fetch SyntaxError_message
          TypeError_message u env_ok server_now w) in S1, S2, S3, S4.
  fold run in S1, S2, S3, S4.
  fold (AdminRefreshButton.handleRefresh_purging JSON_parse fetch SyntaxError_message
          TypeError_message env_ok client_now server_now w) in P1, P2, P3.
  fold run_p in P1, P2, P3.
  rewrite Hp in S1. rewrite Hq in P1.
  pose proof (serve_without_purge JSON_parse fetch env_ok server_now req w Hp) as K.
  cbv zeta in K. rewrite <- S4 in K. destruct K as [K1 [K2 K3]].
  split.
  - split; [exact Hp|]. split; [exact Hu|]. split; [exact K1|]. split; [exact K2|].
    split; [exact K3|]. unfold shown_by_refresh. auto.
  - split; [exact Hq|].
    pose proof (targetUrl_of_sheetExportUrl server_now client_now req_p eq_refl) as T.
    split; [exact T|]. split.
    + rewrite T. apply (sheetExportUrl_variant client_now 38). auto.
    + unfold shown_by_refresh. auto.
Qed.

End AdminRefresh.

(** ** White space at the ends of a text *)

Lemma trimStart_head s c t : trimStart s = c :: t -> is_space c = false.
Proof.
  induction s as [|x s IH]; cbn [trimStart]; [discriminate|].
  destruct (is_space x) eqn:E; [exact IH|]. intros H. injection H as <- _. exact E.
Qed.

Lemma trimStart_fixed c t : is_space c = false -> trimStart (c :: t) = c :: t.
Proof. intros H. cbn [trimStart]. rewrite H. reflexivity. Qed.

Lemma trimStart_suffix s : exists pre, s = pre ++ trimStart s.
Proof.
  induction s as [|x s [pre IH]]; [exists []; reflexivity|].
  cbn [trimStart]. destruct (is_space x).
  - exists (x :: pre). cbn. rewrite <- IH. reflexivity.
  - exists []. reflexivity.
Qed.

Lemma trimStart_last l c : is_space c = false -> exists l', trimStart (l ++ [c]) = l' ++ [c].
Proof.
  intros H. induction l as [|x l [l' IH]]; cbn [app trimStart].
  - rewrite H. exists []. reflexivity.
  - destruct (is_space x); [exists l'; exact IH|exists (x :: l); reflexivity].
Qed.

(** A text that starts with a code unit that is no white space keeps it
    when trimmed. *)
Lemma trim_head c t : is_space c = false -> exists t', trim (c :: t) = c :: t'.
Proof.
  intros H. unfold trim. rewrite (trimStart_fixed c t H). cbn [rev].
  destruct (trimStart_last (rev t) c H) as [l' ->].
  rewrite rev_app_distr. cbn. eauto.
Qed.

Lemma trim_cases s : trim s = [] \/ exists c t, trim s = c :: t /\ is_space c = false.
Proof.
  unfold trim. destruct (trimStart s) as [|c t] eqn:E; [left; reflexivity|].
  pose proof (trimStart_head s c t E) as Hc. cbn [rev].
  destruct (trimStart_last (rev t) c Hc) as [l' ->].
  rewrite rev_app_distr. cbn. right. eauto.
Qed.

Lemma trim_idempotent s : trim (trim s) = trim s.
Proof.
  unfold trim at 2 3.
  destruct (trimStart s) as [|c t] eqn:E; [reflexivity|].
  pose proof (trimStart_head s c t E) as Hc. cbn [rev].
  destruct (trimStart_last (rev t) c Hc) as [l' El]. rewrite El.
  assert (Hl : l' ++ [c] = [] \/ exists x y, l' ++ [c] = x :: y /\ is_space x = false).
  { destruct (l' ++ [c]) as [|x y] eqn:E'; [left; reflexivity|].
    right. exists x, y. split; [reflexivity|].
    exact (trimStart_head (rev t ++ [c]) x y El). }
  rewrite rev_app_distr. cbn [rev app].
  unfold trim. rewrite (trimStart_fixed c (rev l') Hc). cbn [rev].
  rewrite rev_involutive.
  destruct Hl as [Hl|[x [y [Hl Hx]]]]; [destruct l'; discriminate Hl|].
  rewrite Hl, (trimStart_fixed x y Hx), <- Hl.
  rewrite rev_app_distr. reflexivity.
Qed.

Lemma trimmed_trim s : trimmed (trim s).
Proof. apply trim_idempotent. Qed.

Lemma trimmed_nil : trimmed [].
Proof. reflexivity. Qed.

Lemma trimmed_head c t : trimmed (c :: t) -> is_space c = false.
Proof.
  unfold trimmed. intros H. destruct (trim_cases (c :: t)) as [E|[x [y [E Hx]]]];
    rewrite H in E; [discriminate|]. injection E as -> _. exact Hx.
Qed.

(** ** The category of an order *)

Lemma field2_trimmed row a b t : field2 row a b = inr t -> trimmed t.
Proof.
  unfold field2. destruct (prop (Some row) a) as [e|[va|]]; [discriminate| |].
  - destruct va; cbn [nullish];
      try (intros H; injection H as <-; apply trimmed_trim).
    destruct (prop (Some row) b) as [e|[vb|]]; [discriminate| |];
      intros H; injection H as <-; [|apply trimmed_nil].
    destruct vb; cbn [nullish]; try apply trimmed_trim. apply trimmed_nil.
  - cbn [nullish]. destruct (prop (Some row) b) as [e|[vb|]]; [discriminate| |];
      intros H; injection H as <-; [|apply trimmed_nil].
    destruct vb; cbn [nullish]; try apply trimmed_trim. apply trimmed_nil.
Qed.

Lemma gviz_field_trimmed colIndex row label t :
  gviz_field colIndex row label = inr t -> trimmed t.
Proof.
  unfold gviz_field. destruct (prop (Some row) (lit "c")) as [e|c]; [discriminate|].
  destruct (match assoc label colIndex with
            | Some i => index c i
            | None => prop c (lit "undefined")
            end) as [e|cell]; [discriminate|].
  intros H. injection H as <-.
  destruct (opt_prop cell (lit "f")) as [[]|]; cbn [nullish]; try apply trimmed_trim;
    destruct (opt_prop cell (lit "v")) as [[]|]; cbn [nullish];
    try apply trimmed_trim; apply trimmed_nil.
Qed.

Ltac next_read H :=
  match type of H with
  | match ?x with _ => _ end = _ => destruct x eqn:?; [discriminate H|]
  end.

(** The service and the description that a reader gives are trimmed. *)
Lemma reader_trimmed read row f :
  reader read -> read row = inr f -> trimmed (f_service f) /\ trimmed (f_desc f).
Proof.
  intros [->|[colIndex ->]] H.
  - unfold opensheet_fields in H. do 6 next_read H.
    injection H as <-. cbn [f_service f_desc].
    split; eapply field2_trimmed; eassumption.
  - unfold gviz_fields in H. do 6 next_read H.
    injection H as <-. cbn [f_service f_desc].
    split; eapply gviz_field_trimmed; eassumption.
Qed.

Lemma indexOf_separator s rest :
  includes s space_dash = false ->
  indexOf em_dash_sep (s ++ em_dash_sep ++ rest) = Some (length s).
Proof.
  induction s as [|x s IH]; intros H; [reflexivity|].
  rewrite includes_cons in H. apply orb_false_iff in H. destruct H as [H1 H2].
  cbn [app indexOf length]. rewrite (IH H2). cbn [option_map].
  assert (E : startsWith em_dash_sep (x :: s ++ em_dash_sep ++ rest) = false).
  { unfold em_dash_sep. cbn [startsWith].
    destruct (32 =? x) eqn:Ex; [|reflexivity]. cbn [andb].
    destruct s as [|y s]; [reflexivity|]. cbn [app].
    destruct (8212 =? y) eqn:Ey; [|reflexivity]. exfalso.
    unfold space_dash in H1. cbn [startsWith] in H1.
    rewrite Ex, Ey in H1. destruct s; discriminate H1. }
  rewrite E. reflexivity.
Qed.

Lemma split_head_first c t :
  is_space c = false -> exists t', split_head em_dash_sep (c :: t) = c :: t'.
Proof.
  intros H. unfold split_head.
  destruct (indexOf em_dash_sep (c :: t)) as [i|] eqn:E; [|eauto].
  destruct i as [|i]; [|cbn [firstn]; eauto]. exfalso.
  cbn [indexOf] in E.
  destruct (startsWith em_dash_sep (c :: t)) eqn:Es.
  - unfold em_dash_sep in Es. cbn [startsWith] in Es.
    destruct (32 =? c) eqn:Ec; [|discriminate Es].
    apply Z.eqb_eq in Ec. subst c. discriminate H.
  - destruct (indexOf em_dash_sep t); discriminate E.
Qed.

(** The pie chart takes the category of an order from its requirement
    text: the part before the first separator, trimmed.  The requirement
    text of a record of the feed is the service, the separator and the
    description, without the empty ones.  So for these records the name
    "Uncategorized" is never given for want of a category; the category
    is the service when the service holds no space followed by a dash;
    and when the service is empty the requirement text, from which the
    category is taken, is the description. *)
Theorem category_of_a_parsed_record :
  forall (read : json -> error + fields) (now : Z) (row : json) (f : fields) (r : record),
    reader read ->
    read row = inr f ->
    record_of_fields now row f = Some r ->
    let req := rec_requirement_text r in
    extractCategory (Some req) = trim (split_head em_dash_sep req) /\
    extractCategory (Some req) <> [] /\
    (f_service f <> [] -> includes (f_service f) space_dash = false ->
     extractCategory (Some req) = f_service f) /\
    (f_service f = [] -> req = f_desc f).
Proof.
  intros read now row f r Hread Hrow Hrec req.
  destruct (reader_trimmed read row f Hread Hrow) as [Hs Hd].
  unfold record_of_fields, build_record in Hrec.
  destruct (is_empty (f_service f) && is_empty (f_desc f)) eqn:Eb; [discriminate|].
  injection Hrec as <-. subst req. cbn [rec_requirement_text].
  set (s := f_service f) in *. set (d := f_desc f) in *.
  match goal with
  | |- context [join em_dash_sep ?l] => set (req := join em_dash_sep l)
  end.
  assert (Hreq : exists c t, req = c :: t /\ is_space c = false).
  { subst req. destruct s as [|c s']; cbn [is_empty negb].
    - destruct d as [|c d']; [discriminate Eb|]. cbn [is_empty negb join].
      exists c, d'. split; [reflexivity|apply (trimmed_head c d' Hd)].
    - destruct d as [|c' d']; cbn [is_empty negb join app]; eexists _, _;
        (split; [reflexivity|apply (trimmed_head c s' Hs)]). }
  destruct Hreq as [c [t [Ereq Hc]]]. rewrite Ereq.
  destruct (split_head_first c t Hc) as [t' Et'].
  destruct (trim_head c t' Hc) as [t'' Et''].
  match goal with |- ?A /\ _ => assert (Ecat : A) end.
  { unfold extractCategory. cbn [is_empty]. rewrite Et', Et''. reflexivity. }
  split; [exact Ecat|]. split; [rewrite Ecat, Et', Et''; discriminate|]. split.
  - intros Hne Hinc. rewrite Ecat, <- Ereq. subst req.
    destruct s as [|x s'] eqn:Es; [congruence|]. rewrite <- Es in *.
    assert (Ee : negb (is_empty s) = true) by (rewrite Es; reflexivity).
    rewrite Ee. unfold split_head.
    destruct d as [|y d']; cbn [is_empty negb join].
    + assert (En : indexOf em_dash_sep s = None).
      { apply indexOf_None. intros [pre [post H]].
        assert (Ho : occurs space_dash s).
        { exists pre, (32 :: post). rewrite H. reflexivity. }
        apply includes_spec in Ho. congruence. }
      rewrite En. exact Hs.
    + rewrite Es at 1. cbn [join]. rewrite <- Es.
      rewrite (indexOf_separator s (y :: d') Hinc).
      rewrite firstn_length_app. exact Hs.
  - intros Hs0. rewrite <- Ereq. subst req. rewrite Hs0.
    cbn [is_empty negb]. destruct d; reflexivity.
Qed.

(** A row of the array variant, with a service and a description. *)
Lemma category_of_a_parsed_record_witness :
  let row := sample_row "Reel" "30 seconds" "10k" "1 week" "" in
  match opensheet_fields row with
  | inr f =>
      match record_of_fields 0 row f with
      | Some r => extractCategory (Some (rec_requirement_text r)) = lit "Reel"
      | None => False
      end
  | inl _ => False
  end.
Proof.
  intros row.
  destruct (opensheet_fields row) as [e|f] eqn:Ef; [discriminate Ef|].
  assert (Hs : f_service f = lit "Reel")
    by (vm_compute in Ef; injection Ef as <-; reflexivity).
  destruct (record_of_fields 0 row f) as [r|] eqn:Er.
  - destruct (category_of_a_parsed_record opensheet_fields 0 row f r
                (or_introl eq_refl) Ef Er) as [_ [_ [H _]]].
    rewrite H; [exact Hs|rewrite Hs; discriminate|rewrite Hs; reflexivity].
  - vm_compute in Ef. injection Ef as <-. discriminate Er.
Defined.

(** ** The details of an order *)

Lemma opt_index_of c i cell : index c i = inr cell -> opt_index c i = cell.
Proof. unfold opt_index. intros ->. reflexivity. Qed.

(** The text the sync reads under a label is the text of the cell the
    details read at the position of the label. *)
Lemma gviz_field_by_position colIndex row label i t :
  assoc label colIndex = Some i ->
  gviz_field colIndex row label = inr t ->
  t = text_of (sheet_get (Some row) i).
Proof.
  intros Hi. unfold gviz_field, sheet_get. rewrite Hi.
  destruct (prop (Some row) (lit "c")) as [e|c] eqn:Ec; [discriminate|].
  assert (Eo : opt_prop (Some row) (lit "c") = c).
  { destruct row; cbn in Ec |- *; try discriminate Ec; injection Ec as <-; reflexivity. }
  rewrite Eo.
  destruct (index c i) as [e|cell] eqn:Ei; [discriminate|].
  rewrite (opt_index_of c i cell Ei).
  intros H. injection H as <-.
  destruct (opt_prop cell (lit "f")) as [[]|]; cbn [nullish text_of]; try reflexivity;
    destruct (opt_prop cell (lit "v")) as [[]|]; cbn [nullish text_of]; reflexivity.
Qed.

Lemma sheet_get_none raw i : opt_prop raw (lit "c") = None -> sheet_get raw i = JNull.
Proof. unfold sheet_get. intros ->. reflexivity. Qed.

Lemma record_of_fields_raw now row f r :
  record_of_fields now row f = Some r -> rec_raw_sheet_json r = row.
Proof.
  unfold record_of_fields, build_record.
  destruct (is_empty (f_service f) && is_empty (f_desc f)); [discriminate|].
  intros H. injection H as <-. reflexivity.
Qed.

(** The dialogs of the grid and of the admin's table read the stored
    row by fixed positions, the sync reads the feed by the labels of its
    columns.  For an order of the wrapped variant a detail is the text
    the sync read for the field whenever the label of the field is at the
    position the dialogs assume: timestamp 0, service 1, description 2,
    budget 3, timeline 4, name 5.  For an order whose stored row has no
    property [c], as the rows of the array variant, and for an order
    without a stored row, every detail is [null]. *)
Theorem details_are_read_by_position :
  forall (now : Z) (key : nat) (row : json) (f : fields) (r : record),
    record_of_fields now row f = Some r ->
    let s := extractFromSheet (Some (order_of_record now key r)) in
    (forall colIndex,
       gviz_fields colIndex row = inr f ->
       (assoc (lit "Timestamp") colIndex = Some 0%nat ->
        f_timestamp f = text_of (sd_timestamp s)) /\
       (assoc (lit "What type of service you want ?") colIndex = Some 1%nat ->
        f_service f = text_of (sd_service s)) /\
       (assoc (lit "Could you briefly describe your project or needs?") colIndex
        = Some 2%nat ->
        f_desc f = text_of (sd_description s)) /\
       (assoc (lit "What is your estimated budget for this project?") colIndex
        = Some 3%nat ->
        f_budgetRaw f = text_of (sd_budget s)) /\
       (assoc (lit "What is your preferred timeline for project completion?") colIndex
        = Some 4%nat ->
        f_timeline f = text_of (sd_timeline s)) /\
       (assoc (lit "What is your full name?") colIndex = Some 5%nat ->
        f_name f = text_of (sd_fullName s))) /\
    (opt_prop (Some row) (lit "c") = None -> s = no_details) /\
    (forall o, raw_sheet_json o = None -> extractFromSheet (Some o) = no_details) /\
    extractFromSheet None = no_details.
Proof.
  intros now key row f r Hr s.
  assert (Es : forall i, sheet_get (raw_sheet_json (order_of_record now key r)) i
                         = sheet_get (Some row) i).
  { intros i. cbn [order_of_record raw_sheet_json].
    rewrite (record_of_fields_raw now row f r Hr). reflexivity. }
  split; [|split; [|split]].
  - intros colIndex Hf. subst s. unfold extractFromSheet.
    cbn [sd_timestamp sd_service sd_description sd_budget sd_timeline sd_fullName].
    rewrite !Es. unfold gviz_fields in Hf. do 6 next_read Hf. injection Hf as <-.
    cbn [f_name f_service f_desc f_budgetRaw f_timeline f_timestamp].
    repeat split; intros Hi; eapply gviz_field_by_position; eassumption.
  - intros Hc. subst s. unfold extractFromSheet, no_details. rewrite !Es.
    rewrite !(sheet_get_none (Some row)) by exact Hc. reflexivity.
  - intros o Ho. unfold extractFromSheet. rewrite Ho. reflexivity.
  - reflexivity.
Qed.

(** A row of the wrapped variant with the columns where the dialogs
    expect them; the formatted text of the timestamp is what both
    read. *)
Lemma details_are_read_by_position_witness :
  match gviz_fields sheet_columns sample_gviz_row with
  | inr f =>
      match record_of_fields 0 sample_gviz_row f with
      | Some r =>
          let s := extractFromSheet (Some (order_of_record 0 7 r)) in
          f_timestamp f = text_of (sd_timestamp s) /\
          f_timestamp f = lit "3/1/2025 10:00:00" /\
          f_desc f = text_of (sd_description s) /\
          sd_description s = JStr (lit " 30 seconds ")
      | None => False
      end
  | inl _ => False
  end.
Proof.
  destruct (gviz_fields sheet_columns sample_gviz_row) as [e|f] eqn:Ef;
    [discriminate Ef|].
  destruct (record_of_fields 0 sample_gviz_row f) as [r|] eqn:Er.
  - destruct (details_are_read_by_position 0 7 sample_gviz_row f r Er) as [H _].
    destruct (H sheet_columns Ef) as [H0 [_ [H2 _]]].
    split; [exact (H0 eq_refl)|]. split.
    + vm_compute in Ef. injection Ef as <-. reflexivity.
    + split; [exact (H2 eq_refl)|].
      vm_compute in Ef. injection Ef as <-. vm_compute in Er. injection Er as <-.
      reflexivity.
  - vm_compute in Ef. injection Ef as <-. discriminate Er.
Defined.

(** ** The records of a feed *)

Lemma parseBudgetToNumber_amount b : amount (parseBudgetToNumber b).
Proof.
  unfold parseBudgetToNumber. destruct b as [b|]; [|simpl; lia].
  destruct (is_empty b); [simpl; lia|].
  pose proof (budget_values_amount (normalize_dashes (trim (toLowerCase b)))) as H.
  destruct (budget_values _) as [|v vs]; [simpl; lia|].
  apply Math_max_amount, H.
Qed.

Lemma due_date_cases now tl :
  mapTimelineToDueDate now tl = None \/
  exists days, In days [3; 7; 28] /\
               mapTimelineToDueDate now tl = Some (now + days * 86400000).
Proof.
  unfold mapTimelineToDueDate, addDays, ms_per_day.
  destruct tl as [t|]; [|left; reflexivity].
  destruct (is_empty t); [left; reflexivity|].
  destruct (_ || _); [right; exists 3; cbn; auto|].
  destruct (_ || _); [right; exists 7; cbn; auto|].
  destruct (_ || _); [right; exists 28; cbn; auto 6|].
  left; reflexivity.
Qed.

Lemma build_record_complete now row n s d b t ts r :
  build_record now row n s d b t ts = Some r -> complete_record now r.
Proof.
  intros H. destruct (build_record_well_parsed _ _ _ _ _ _ _ _ _ H) as [Hi Hq].
  unfold build_record in H. destruct (is_empty s && is_empty d); [discriminate|].
  injection H as <-. unfold complete_record.
  split; [destruct n; discriminate|]. split; [exact Hq|]. split; [exact Hi|].
  split; [exact (parseBudgetToNumber_amount (Some b))|].
  exact (due_date_cases now (Some t)).
Qed.

Section Records.

Variable JSON_parse : jsstring -> option json.
Variable fetch : jsstring -> fetch_response.

(** Whatever the feed holds, the records a run takes from it are
    complete: each has a name (the text "Client" when the sheet gives
    none), a requirement text and an identity that are not empty, a price
    that is a non-negative integer or +Infinity and never NaN, and a due
    date that is absent or 3, 7 or 28 days after the reading of the
    clock. *)
Theorem records_of_a_feed_are_complete :
  forall (now : Z) (req : request) (toInsert : list record) (total : nat),
    load_feed JSON_parse fetch now req = inr (toInsert, total) ->
    Forall (complete_record now) toInsert.
Proof.
  intros now req toInsert total H.
  destruct (load_feed_ok _ _ _ _ _ _ H) as [rows [read [_ [_ [Hm _]]]]].
  eapply map_rows_Forall; [|exact Hm].
  intros row r Hc. unfold callback in Hc.
  destruct (read row) as [e|f]; [discriminate|]. injection Hc as Hc.
  unfold record_of_fields in Hc. eapply build_record_complete, Hc.
Qed.

End Records.

(** A feed of one row without a name, read at the clock reading 1000. *)
Lemma records_of_a_feed_are_complete_witness :
  let row := JObj [ (lit "Service", JStr (lit "Reel"));
                    (lit "Budget", JStr (lit "10k - 15k"));
                    (lit "Timeline", JStr (lit "Urgent")) ] in
  let JSON_parse := fun _ : jsstring => Some (JArr [row]) in
  exists r,
    load_feed JSON_parse sample_fetch 1000 (sample_request false) = inr ([r], 1%nat) /\
    complete_record 1000 r /\
    rec_client_name r = lit "Client" /\ rec_price r = JInt 15000 /\
    rec_due_date r = Some (1000 + 3 * 86400000).
Proof.
  intros row JSON_parse.
  destruct (load_feed JSON_parse sample_fetch 1000 (sample_request false))
    as [e|[toInsert total]] eqn:E; [discriminate E|].
  pose proof (records_of_a_feed_are_complete JSON_parse sample_fetch 1000
                (sample_request false) toInsert total E) as H.
  vm_compute in E. injection E as <- <-.
  eexists. split; [reflexivity|]. split; [inversion H; assumption|].
  split; [reflexivity|]. split; reflexivity.
Defined.

(** ** Identities that coincide *)

Lemma to_radix_length fuel : forall k n acc,
  (1 <= k)%nat -> 0 <= n < 36 ^ Z.of_nat k ->
  (length (to_radix fuel 36 n acc) <= k + length acc)%nat.
Proof.
  induction fuel as [|fuel IH]; intros k n acc Hk Hn; cbn [to_radix]; [lia|].
  destruct (n / 36 =? 0) eqn:E; [cbn [length]; lia|].
  apply Z.eqb_neq in E.
  destruct k as [|k]; [lia|].
  assert (Hd : 0 <= n / 36 < 36 ^ Z.of_nat k).
  { rewrite Nat2Z.inj_succ, Z.pow_succ_r in Hn by lia.
    split; [apply Z.div_pos; lia|apply Z.div_lt_upper_bound; lia]. }
  assert (Hk' : (1 <= k)%nat).
  { destruct k; [|lia]. simpl in Hd. lia. }
  specialize (IH k (n / 36) (radix_digit (n mod 36) :: acc) Hk' Hd).
  cbn [length] in IH. lia.
Qed.

Lemma djb2Hash_injective_on_residues a b :
  djb2Hash a = djb2Hash b <-> djb2_poly a mod 2 ^ 32 = djb2_poly b mod 2 ^ 32.
Proof.
  rewrite !djb2Hash_poly. split; [|intros ->; reflexivity].
  intros H.
  assert (Ha : 0 <= djb2_poly a mod 2 ^ 32) by (apply Z.mod_pos_bound; lia).
  assert (Hb : 0 <= djb2_poly b mod 2 ^ 32) by (apply Z.mod_pos_bound; lia).
  destruct (toString_radix_36 _ Ha) as [_ [_ Ea]].
  destruct (toString_radix_36 _ Hb) as [_ [_ Eb]].
  rewrite <- Ea, <- Eb, H. reflexivity.
Qed.

(** Two rows without a timestamp get the same identity exactly when
    the polynomials of their joined fields agree modulo 2^32: the hash
    has at most seven digits, so that different rows can meet.  The
    fields are joined by "|" as they are: rows whose joined fields are
    the same text get the same identity although their fields differ, as
    when a part of the description after a "|" is moved to the
    service. *)
Theorem rows_with_the_same_identity :
  forall n1 s1 d1 b1 t1 n2 s2 d2 b2 t2 : jsstring,
    let id1 := resolve_sheet_row_id [] n1 s1 d1 b1 t1 in
    let id2 := resolve_sheet_row_id [] n2 s2 d2 b2 t2 in
    (id1 = id2 <->
     djb2_poly (fingerprint n1 s1 d1 b1 t1) mod 2 ^ 32
     = djb2_poly (fingerprint n2 s2 d2 b2 t2) mod 2 ^ 32) /\
    (1 <= length id1 <= 7)%nat /\
    (forall a b c : jsstring,
        resolve_sheet_row_id [] n1 (a ++ lit "|" ++ b) c b1 t1
        = resolve_sheet_row_id [] n1 a (b ++ lit "|" ++ c) b1 t1).
Proof.
  intros n1 s1 d1 b1 t1 n2 s2 d2 b2 t2 id1 id2. subst id1 id2.
  unfold resolve_sheet_row_id, or_else. cbn [is_empty].
  split; [apply djb2Hash_injective_on_residues|]. split.
  - split.
    + pose proof (djb2Hash_nonempty (fingerprint n1 s1 d1 b1 t1)) as H.
      destruct (djb2Hash _); [congruence|simpl; lia].
    + rewrite djb2Hash_poly. unfold toString_radix.
      pose proof (to_radix_length
                    (S (Z.to_nat (Z.log2 (djb2_poly (fingerprint n1 s1 d1 b1 t1) mod 2 ^ 32))))
                    7 (djb2_poly (fingerprint n1 s1 d1 b1 t1) mod 2 ^ 32) []) as H.
      cbn [length] in H. rewrite Nat.add_0_r in H. apply H; [lia|].
      pose proof (Z.mod_pos_bound (djb2_poly (fingerprint n1 s1 d1 b1 t1)) (2 ^ 32)) as Hb.
      change (36 ^ Z.of_nat 7) with 78364164096. change (2 ^ 32) with 4294967296 in *.
      lia.
  - intros a b c. f_equal. unfold fingerprint. rewrite <- !app_assoc. reflexivity.
Qed.

(** ** The first version of the function *)

Lemma in_existingSet k ids :
  In k (FirstSync.existingSet ids) <-> k <> [] /\ In (Some k) ids.
Proof.
  unfold FirstSync.existingSet. rewrite in_flat_map. split.
  - intros [[i|] [Hi Hk]]; [|destruct Hk].
    destruct i as [|c i]; cbn [is_empty] in Hk; [destruct Hk|].
    destruct Hk as [<-|[]]. split; [discriminate|exact Hi].
  - intros [Hne Hi]. exists (Some k). split; [exact Hi|].
    destruct k; [congruence|left; reflexivity].
Qed.

Lemma set_has_spec k s : FirstSync.set_has k s = true <-> In k s.
Proof.
  unfold FirstSync.set_has. rewrite existsb_exists. split.
  - intros [x [Hx E]]. apply jsstring_eqb_eq in E. subst x. exact Hx.
  - intros H. exists k. split; [exact H|apply jsstring_eqb_refl].
Qed.

Lemma row_id_nonempty idx : FirstSync.row_id idx <> [].
Proof. unfold FirstSync.row_id. discriminate. Qed.

Lemma first_identity_nonempty now row idx f :
  rec_sheet_row_id (FirstSync.record_of_fields now row idx f) <> [].
Proof.
  cbn [FirstSync.record_of_fields rec_sheet_row_id]. unfold or_else.
  destruct (f_timestamp f); cbn [is_empty]; [apply row_id_nonempty|discriminate].
Qed.

(** The identities of the records do not depend on the clock. *)
Lemma first_map_rows_two_clocks now1 now2 colIndex rows : forall idx t1,
  FirstSync.map_rows now1 colIndex rows idx = inr t1 ->
  exists t2, FirstSync.map_rows now2 colIndex rows idx = inr t2 /\
             map rec_sheet_row_id t2 = map rec_sheet_row_id t1 /\
             Forall (fun r => rec_sheet_row_id r <> []) t1.
Proof.
  induction rows as [|row rows IH]; intros idx t1 H; cbn [FirstSync.map_rows] in *.
  - injection H as <-. exists []. repeat split. constructor.
  - destruct (gviz_fields colIndex row) as [e|f]; [discriminate|].
    destruct (FirstSync.map_rows now1 colIndex rows (S idx)) as [e|rs1] eqn:E1;
      [discriminate|].
    destruct (IH (S idx) rs1 E1) as [rs2 [E2 [Hm Hn]]]. rewrite E2.
    injection H as <-. eexists. split; [reflexivity|]. split.
    + cbn [map]. rewrite Hm. reflexivity.
    + constructor; [apply first_identity_nonempty|exact Hn].
Qed.

Section FirstVersion.

Variable JSON_parse : jsstring -> option json.
Variable fetch : jsstring -> fetch_response.

Lemma first_load_two_clocks now1 now2 t1 :
  FirstSync.load_feed JSON_parse fetch now1 = inr t1 ->
  exists t2, FirstSync.load_feed JSON_parse fetch now2 = inr t2 /\
             map rec_sheet_row_id t2 = map rec_sheet_row_id t1 /\
             Forall (fun r => rec_sheet_row_id r <> []) t1.
Proof.
  unfold FirstSync.load_feed.
  destruct (negb (ok (fetch FirstSync.SHEET_GVIZ_URL))); [discriminate|].
  destruct (parseGvizJsonp JSON_parse _) as [e|gviz]; [discriminate|].
  destruct (prop (Some gviz) (lit "table")) as [e|table]; [discriminate|].
  destruct (prop table (lit "cols")) as [e|[[| | | |cols|]|]]; try discriminate.
  destruct (build_colIndex cols 0 []) as [e|colIndex]; [discriminate|].
  destruct (check_required required colIndex); [discriminate|].
  destruct (prop table (lit "rows")) as [e|[[| | | |rows|]|]]; try discriminate.
  apply first_map_rows_two_clocks.
Qed.

(** The table after the store part of a run, whatever its outcome: as
    it was, or with the new records at its end. *)
Lemma insert_new_cases now toInsert w res w' :
  FirstSync.insert_new now toInsert w = (res, w') ->
  let os := orders (db w) in
  let newRecords :=
    filter (fun r => negb (FirstSync.set_has (rec_sheet_row_id r)
                             (FirstSync.existingSet (map sheet_row_id os)))) toInsert in
  assignments (db w') = assignments (db w) /\
  ((orders (db w') = os /\ (res = inr 0%nat -> newRecords = []) /\
    (forall n, res = inr n -> n = 0%nat)) \/
   (orders (db w') = insert_rows now newRecords os /\ res = inr (length newRecords))).
Proof.
  intros H os newRecords. unfold FirstSync.insert_new in H. unfold bind at 1 in H.
  destruct (call_cases FirstSync.select_ids w) as [[e E]|E]; rewrite E in H.
  { injection H as <- <-. cbn [db]. split; [reflexivity|]. left.
    split; [reflexivity|]. split; discriminate. }
  cbn [FirstSync.select_ids fst snd] in H. fold os in H. fold newRecords in H.
  set (w1 := {| db := db w; pending := tl (pending w) |}) in *.
  destruct (0 <? length newRecords)%nat eqn:El.
  - unfold bind in H.
    destruct (call_cases (insert_orders now newRecords) w1) as [[e E1]|E1];
      rewrite E1 in H.
    + injection H as <- <-. cbn [db]. split; [reflexivity|]. left.
      split; [reflexivity|]. split; discriminate.
    + unfold ret in H. injection H as <- <-. cbn [db insert_orders snd orders assignments].
      split; [reflexivity|]. right. split; reflexivity.
  - unfold ret in H. injection H as <- <-. cbn [db]. split; [reflexivity|]. left.
    split; [reflexivity|]. split.
    + intros _. destruct newRecords; [reflexivity|discriminate El].
    + intros n Hn. injection Hn as <-. reflexivity.
Qed.

Lemma first_serve_cases env_ok now is_options w :
  let run := FirstSync.serve JSON_parse fetch env_ok now is_options w in
  (snd run = w /\ forall i t, fst run <> FirstSync.Ok200 i t) \/
  exists toInsert res w1,
    FirstSync.load_feed JSON_parse fetch now = inr toInsert /\
    FirstSync.insert_new now toInsert w = (res, w1) /\
    snd run = w1 /\
    fst run = match res with
              | inl e => FirstSync.Error500 e
              | inr n => FirstSync.Ok200 n (length toInsert)
              end.
Proof.
  unfold FirstSync.serve.
  destruct is_options; [left; split; [reflexivity|discriminate]|].
  destruct (negb env_ok); [left; split; [reflexivity|discriminate]|].
  destruct (FirstSync.load_feed JSON_parse fetch now) as [e|toInsert];
    [left; split; [reflexivity|discriminate]|].
  destruct (FirstSync.insert_new now toInsert w) as [res w1] eqn:E.
  right. exists toInsert, res, w1. destruct res; auto.
Qed.

(** The first version only inserts, and a second run on the feed of a
    run that was completed inserts nothing.  Whatever the outcome of a
    run, the orders that were in the table are its first rows, unchanged,
    and the audit log is untouched.  After a run that answers 200, a run
    on the same answer of the sheet, at any reading of the clock, leaves
    the table as it is, and when it answers 200 it reports no insert and
    the same number of rows. *)
Theorem first_version_only_inserts :
  forall env_ok now is_options w,
    let run := FirstSync.serve JSON_parse fetch env_ok now is_options w in
    (exists new, orders (db (snd run)) = orders (db w) ++ new /\
                 Forall (fun o => status o = available /\ taken_by o = None /\
                                  source o = Some google_sheet) new) /\
    assignments (db (snd run)) = assignments (db w) /\
    (forall inserted total,
        fst run = FirstSync.Ok200 inserted total ->
        forall env_ok2 now2 is_options2,
          let again := FirstSync.serve JSON_parse fetch env_ok2 now2 is_options2 (snd run) in
          orders (db (snd again)) = orders (db (snd run)) /\
          (forall inserted2 total2,
              fst again = FirstSync.Ok200 inserted2 total2 ->
              inserted2 = 0%nat /\ total2 = total)).
Proof.
  intros env_ok now is_options w run.
  assert (Hnil : exists new : list order, orders (db w) = orders (db w) ++ new /\
            Forall (fun o => status o = available /\ taken_by o = None /\
                             source o = Some google_sheet) new).
  { exists []. rewrite app_nil_r. split; [reflexivity|constructor]. }
  destruct (first_serve_cases env_ok now is_options w)
    as [[Hs Hf]|[toInsert [res [w1 [Ef [Ei [Hs Hf]]]]]]]; fold run in Hs, Hf.
  { rewrite Hs. split; [exact Hnil|]. split; [reflexivity|].
    intros i t H. exfalso. exact (Hf i t H). }
  rewrite Hs, Hf. clear Hs Hf run.
  pose proof (insert_new_cases now toInsert w res w1 Ei) as Hc. cbv zeta in Hc.
  set (newRecords := filter _ toInsert) in Hc.
  destruct Hc as [Ha Ho].
  split; [|split; [exact Ha|]].
  - destruct Ho as [[Ho _]|[Ho _]]; [rewrite Ho; exact Hnil|].
    destruct (insert_rows_app now newRecords (orders (db w))) as [new [En F]].
    exists new. split; [congruence|].
    clear -F. induction F as [|r o rs new' [k ->] _ IH]; constructor; [|exact IH].
    cbn. auto.
  - intros inserted total Hok env_ok2 now2 is_options2 again.
    destruct res as [e|n]; [discriminate Hok|].
    injection Hok as -> <-.
    assert (Hall : forall r, In r toInsert ->
              FirstSync.set_has (rec_sheet_row_id r)
                (FirstSync.existingSet (map sheet_row_id (orders (db w1)))) = true).
    { intros r Hr.
      destruct (first_load_two_clocks now now toInsert Ef) as [_ [_ [_ Hne]]].
      rewrite Forall_forall in Hne. specialize (Hne r Hr).
      apply set_has_spec, in_existingSet. split; [exact Hne|].
      destruct (FirstSync.set_has (rec_sheet_row_id r)
                  (FirstSync.existingSet (map sheet_row_id (orders (db w))))) eqn:Eh.
      - apply set_has_spec, in_existingSet in Eh. destruct Eh as [_ Eh].
        apply in_map_iff in Eh. destruct Eh as [o [Eo Hin]].
        apply in_map_iff. exists o. split; [exact Eo|].
        destruct Ho as [[-> _]|[-> _]]; [exact Hin|].
        destruct (insert_rows_app now newRecords (orders (db w))) as [new [-> _]].
        apply in_or_app. left. exact Hin.
      - assert (Hn : In r newRecords).
        { apply filter_In. split; [exact Hr|]. rewrite Eh. reflexivity. }
        destruct Ho as [[_ [Hz Hz']]|[-> _]].
        + exfalso. assert (E0 : inserted = 0%nat) by (apply Hz'; reflexivity).
          subst inserted. rewrite (Hz eq_refl) in Hn. destruct Hn.
        + destruct (insert_rows_app now newRecords (orders (db w))) as [new [-> F]].
          rewrite map_app. apply in_or_app. right.
          clear -F Hn. induction F as [|r' o rs new' [k ->] _ IH]; [destruct Hn|].
          destruct Hn as [->|Hn]; [left; reflexivity|right; apply IH, Hn]. }
    destruct (first_serve_cases env_ok2 now2 is_options2 w1)
      as [[Hs Hf]|[t2 [res2 [w2 [Ef2 [Ei2 [Hs Hf]]]]]]]; fold again in Hs, Hf.
    { rewrite Hs. split; [reflexivity|]. intros i t H. exfalso. exact (Hf i t H). }
    rewrite Hs, Hf. clear Hs Hf again.
    destruct (first_load_two_clocks now now2 toInsert Ef) as [t2' [Ef2' [Hm _]]].
    rewrite Ef2 in Ef2'. injection Ef2' as <-.
    pose proof (insert_new_cases now2 t2 w1 res2 w2 Ei2) as Hc2. cbv zeta in Hc2.
    set (new2 := filter _ t2) in Hc2.
    assert (Hnew2 : new2 = []).
    { unfold new2. apply filter_none. intros r Hr. apply negb_false_iff.
      assert (Hid : In (rec_sheet_row_id r) (map rec_sheet_row_id toInsert))
        by (rewrite <- Hm; apply in_map, Hr).
      apply in_map_iff in Hid. destruct Hid as [r1 [E1 Hr1]].
      rewrite <- E1. apply Hall, Hr1. }
    destruct Hc2 as [_ Ho2].
    assert (Hlen : length t2 = length toInsert).
    { rewrite <- (length_map rec_sheet_row_id t2), Hm. apply length_map. }
    split.
    + destruct Ho2 as [[-> _]|[-> _]]; [reflexivity|]. rewrite Hnew2. reflexivity.
    + intros i2 tot2 H. destruct res2 as [e|n2]; [discriminate H|].
      injection H as <- <-. split; [|exact Hlen].
      destruct Ho2 as [[_ [_ Hz]]|[_ Hz]]; [apply Hz; reflexivity|].
      injection Hz as ->. rewrite Hnew2. reflexivity.
Qed.

End FirstVersion.

Lemma to_radix_decimal_value fuel : forall n acc,
  0 <= n < 2 ^ Z.of_nat fuel -> fuel <> 0%nat ->
  of_radix 10 (to_radix fuel 10 n acc)
  = n * 10 ^ Z.of_nat (length acc) + of_radix 10 acc.
Proof.
  induction fuel as [|fuel IH]; intros n acc Hn Hf; [congruence|].
  cbn [to_radix].
  assert (Hm : 0 <= n mod 10 < 10) by (apply Z.mod_pos_bound; lia).
  assert (Hd : 0 <= n / 10) by (apply Z.div_pos; lia).
  assert (E10 : n = 10 * (n / 10) + n mod 10) by (apply Z.div_mod; lia).
  assert (Hacc : of_radix 10 (radix_digit (n mod 10) :: acc)
                 = n mod 10 * 10 ^ Z.of_nat (length acc) + of_radix 10 acc).
  { unfold of_radix at 1. cbn [fold_left]. rewrite of_radix_acc.
    rewrite radix_digit_value by lia. lia. }
  destruct (n / 10 =? 0) eqn:E.
  - apply Z.eqb_eq in E. rewrite Hacc. rewrite E in E10. lia.
  - apply Z.eqb_neq in E.
    assert (Hlt : 0 <= n / 10 < 2 ^ Z.of_nat fuel).
    { split; [exact Hd|]. rewrite Nat2Z.inj_succ, Z.pow_succ_r in Hn by lia.
      apply Z.div_lt_upper_bound; lia. }
    assert (Hf' : fuel <> 0%nat) by (intros ->; simpl in Hlt; lia).
    rewrite (IH (n / 10) (radix_digit (n mod 10) :: acc) Hlt Hf'), Hacc.
    cbn [length]. rewrite Nat2Z.inj_succ, Z.pow_succ_r by lia. lia.
Qed.

(** The decimal text of a non-negative integer denotes it. *)
Lemma toString_decimal_value n : 0 <= n -> of_radix 10 (toString_radix 10 n) = n.
Proof.
  intros Hn. unfold toString_radix.
  rewrite to_radix_decimal_value; [unfold of_radix; simpl; lia| |discriminate].
  split; [exact Hn|]. rewrite Nat2Z.inj_succ, Z2Nat.id by apply Z.log2_nonneg.
  destruct (Z.eq_dec n 0) as [->|Hne]; [reflexivity|].
  apply Z.log2_spec. lia.
Qed.

Lemma row_id_injective i j : FirstSync.row_id i = FirstSync.row_id j -> i = j.
Proof.
  unfold FirstSync.row_id. intros H. apply app_inv_head in H.
  apply (f_equal (of_radix 10)) in H.
  rewrite !toString_decimal_value in H by lia. lia.
Qed.

(** In the first version a row without a timestamp is known by its
    position: two such rows of one feed have different identities, also
    when all their fields are equal, and a row has the same identity in
    two feeds only at the same position, so that a row moved by an
    insertion above it gets another identity. *)
Theorem first_version_identifies_rows_by_position :
  forall (now1 now2 : Z) (row1 row2 : json) (i j : nat) (f1 f2 : fields),
    f_timestamp f1 = [] -> f_timestamp f2 = [] ->
    (rec_sheet_row_id (FirstSync.record_of_fields now1 row1 i f1)
     = rec_sheet_row_id (FirstSync.record_of_fields now2 row2 j f2) <-> i = j) /\
    rec_sheet_row_id (FirstSync.record_of_fields now1 row1 i f1)
    = lit "row-" ++ toString_radix 10 (Z.of_nat i + 1).
Proof.
  intros now1 now2 row1 row2 i j f1 f2 H1 H2.
  cbn [FirstSync.record_of_fields rec_sheet_row_id]. rewrite H1, H2.
  unfold or_else. cbn [is_empty]. split.
  - split; [apply row_id_injective|intros ->; reflexivity].
  - unfold FirstSync.row_id. rewrite Nat2Z.inj_add. reflexivity.
Qed.

(** Two rows with the same fields and no timestamp, one below the
    other. *)
Lemma first_version_identifies_rows_by_position_witness :
  let f := {| f_name := lit "Asha"; f_service := lit "Reel"; f_desc := [];
              f_budgetRaw := lit "10k"; f_timeline := []; f_timestamp := [] |} in
  rec_sheet_row_id (FirstSync.record_of_fields 0 JNull 0 f) = lit "row-1" /\
  rec_sheet_row_id (FirstSync.record_of_fields 0 JNull 1 f) = lit "row-2" /\
  rec_sheet_row_id (FirstSync.record_of_fields 0 JNull 0 f)
  <> rec_sheet_row_id (FirstSync.record_of_fields 0 JNull 1 f).
Proof.
  intros f.
  destruct (first_version_identifies_rows_by_position 0 0 JNull JNull 0 1 f f
              eq_refl eq_refl) as [H _].
  split; [reflexivity|]. split; [reflexivity|].
  intros E. apply H in E. discriminate E.
Defined.

(** ** The pie chart *)

Lemma insert_desc_in {A} (key : A -> nat) x l y :
  In y (insert_desc key x l) <-> y = x \/ In y l.
Proof.
  induction l as [|z l IH]; cbn [insert_desc].
  - cbn. intuition.
  - destruct (key z <=? key x)%nat; cbn [In]; [intuition|].
    rewrite IH. cbn [In]. intuition.
Qed.

Lemma insert_desc_length {A} (key : A -> nat) x l :
  length (insert_desc key x l) = S (length l).
Proof.
  induction l as [|z l IH]; cbn [insert_desc]; [reflexivity|].
  destruct (key z <=? key x)%nat; cbn [length]; [reflexivity|rewrite IH; reflexivity].
Qed.

Lemma insert_desc_Add {A B} (key : A -> nat) (f : A -> B) x l :
  Add (f x) (map f l) (map f (insert_desc key x l)).
Proof.
  induction l as [|z l IH]; cbn [insert_desc map]; [constructor|].
  destruct (key z <=? key x)%nat; cbn [map]; constructor. exact IH.
Qed.

Lemma insert_desc_descending {A} (key : A -> nat) x l :
  descending (map key l) -> descending (map key (insert_desc key x l)).
Proof.
  induction l as [|z l IH]; intros H; cbn [insert_desc map descending]; [auto|].
  cbn [map descending] in H. destruct H as [H1 H2].
  destruct (key z <=? key x)%nat eqn:E.
  - apply Nat.leb_le in E. cbn [map descending]. repeat split; auto.
    constructor; [exact E|]. eapply Forall_impl; [|exact H1]. cbn. intros; lia.
  - apply Nat.leb_gt in E. cbn [map descending]. split; [|apply IH, H2].
    apply Forall_forall. intros k Hk. apply in_map_iff in Hk.
    destruct Hk as [y [<- Hy]]. apply insert_desc_in in Hy.
    destruct Hy as [->|Hy]; [lia|].
    rewrite Forall_forall in H1. apply H1. apply in_map, Hy.
Qed.

Lemma sort_desc_in {A} (key : A -> nat) l y : In y (sort_desc key l) <-> In y l.
Proof.
  induction l as [|x l IH]; cbn [sort_desc fold_right]; [reflexivity|].
  fold (sort_desc key l). rewrite insert_desc_in, IH. cbn [In]. intuition.
Qed.

Lemma sort_desc_length {A} (key : A -> nat) l : length (sort_desc key l) = length l.
Proof.
  induction l as [|x l IH]; cbn [sort_desc fold_right]; [reflexivity|].
  fold (sort_desc key l). rewrite insert_desc_length, IH. reflexivity.
Qed.

Lemma sort_desc_NoDup {A B} (key : A -> nat) (f : A -> B) l :
  NoDup (map f l) -> NoDup (map f (sort_desc key l)).
Proof.
  induction l as [|x l IH]; cbn [sort_desc fold_right map]; [auto|].
  fold (sort_desc key l). intros H. inversion H as [|? ? Hn Hd]; subst.
  apply (NoDup_Add (insert_desc_Add key f x (sort_desc key l))).
  split; [apply IH, Hd|].
  intros Hin. apply Hn. apply in_map_iff in Hin. destruct Hin as [y [E Hy]].
  apply sort_desc_in in Hy. rewrite <- E. apply in_map, Hy.
Qed.

Lemma sort_desc_descending {A} (key : A -> nat) l :
  descending (map key (sort_desc key l)).
Proof.
  induction l as [|x l IH]; cbn [sort_desc fold_right]; [exact I|].
  apply insert_desc_descending, IH.
Qed.

Lemma descending_firstn n : forall l, descending l -> descending (firstn n l).
Proof.
  induction n as [|n IH]; intros [|x l] H; cbn [firstn descending]; auto.
  cbn [descending] in H. destruct H as [H1 H2]. split; [|apply IH, H2].
  apply Forall_forall. intros y Hy. rewrite Forall_forall in H1. apply H1.
  rewrite <- (firstn_skipn n l). apply in_or_app. left. exact Hy.
Qed.

(** What is cut off is not greater than what is kept. *)
Lemma descending_cut n : forall l x y,
  descending l -> In x (firstn n l) -> In y (skipn n l) -> (y <= x)%nat.
Proof.
  induction n as [|n IH]; intros [|z l] x y H Hx Hy; cbn [firstn skipn] in *;
    try destruct Hx.
  - cbn [descending] in H. destruct H as [H1 H2]. rewrite Forall_forall in H1.
    subst z. apply H1. rewrite <- (firstn_skipn n l). apply in_or_app. right. exact Hy.
  - cbn [descending] in H. destruct H as [_ H2]. eapply IH; eassumption.
Qed.

Lemma add_order_fields o s :
  CategoryPieChart.name (CategoryPieChart.add_order o s) = CategoryPieChart.name s /\
  CategoryPieChart.value (CategoryPieChart.add_order o s) = S (CategoryPieChart.value s) /\
  CategoryPieChart.success (CategoryPieChart.add_order o s)
  = (CategoryPieChart.success s + done o)%nat /\
  CategoryPieChart.failed (CategoryPieChart.add_order o s) = CategoryPieChart.failed s.
Proof.
  unfold CategoryPieChart.add_order, done.
  destruct (status_eqb (status o) completed); cbn; repeat split; lia.
Qed.

(** The record of a category after one order is tallied. *)
Lemma slice_of_tally cat o m cat' :
  slice_of cat' (CategoryPieChart.tally cat o m)
  = if jsstring_eqb cat cat'
    then Some (CategoryPieChart.add_order o
                 match slice_of cat m with
                 | Some s => s
                 | None => {| CategoryPieChart.name := cat; CategoryPieChart.value := 0;
                              CategoryPieChart.revenue := S754_zero false;
                              CategoryPieChart.success := 0;
                              CategoryPieChart.failed := 0 |}
                 end)
    else slice_of cat' m.
Proof.
  unfold slice_of.
  induction m as [|rec m IH]; cbn [CategoryPieChart.tally find].
  - destruct (add_order_fields o {| CategoryPieChart.name := cat;
                                    CategoryPieChart.value := 0;
                                    CategoryPieChart.revenue := S754_zero false;
                                    CategoryPieChart.success := 0;
                                    CategoryPieChart.failed := 0 |}) as [-> _].
    cbn [CategoryPieChart.name]. destruct (jsstring_eqb cat cat'); reflexivity.
  - destruct (jsstring_eqb (CategoryPieChart.name rec) cat) eqn:E; cbn [find].
    + destruct (add_order_fields o rec) as [-> _].
      apply jsstring_eqb_eq in E. rewrite E.
      destruct (jsstring_eqb cat cat'); reflexivity.
    + rewrite IH. destruct (jsstring_eqb (CategoryPieChart.name rec) cat') eqn:E';
        [|reflexivity].
      apply jsstring_eqb_eq in E'. rewrite <- E', jsstring_eqb_sym, E. reflexivity.
Qed.

Lemma slice_of_name cat m s : slice_of cat m = Some s -> CategoryPieChart.name s = cat.
Proof.
  unfold slice_of. intros H. apply find_some in H. destruct H as [_ H].
  apply jsstring_eqb_eq, H.
Qed.

Lemma slice_of_in cat m s : slice_of cat m = Some s -> In s m.
Proof. unfold slice_of. intros H. apply find_some in H. apply H. Qed.

Lemma slice_of_none cat m :
  slice_of cat m = None -> ~ In cat (map CategoryPieChart.name m).
Proof.
  unfold slice_of. intros H Hin. apply in_map_iff in Hin. destruct Hin as [s [E Hs]].
  pose proof (find_none _ _ H s Hs) as Hn. cbn in Hn.
  rewrite E, jsstring_eqb_refl in Hn. discriminate.
Qed.

Lemma slice_of_NoDup m s :
  NoDup (map CategoryPieChart.name m) -> In s m ->
  slice_of (CategoryPieChart.name s) m = Some s.
Proof.
  unfold slice_of. induction m as [|x m IH]; intros Hd Hs; [destruct Hs|].
  cbn [map] in Hd. inversion Hd as [|? ? Hn Hd']; subst. cbn [find].
  destruct Hs as [->|Hs]; [rewrite jsstring_eqb_refl; reflexivity|].
  destruct (jsstring_eqb (CategoryPieChart.name x) (CategoryPieChart.name s)) eqn:E;
    [|apply IH; assumption].
  apply jsstring_eqb_eq in E. exfalso. apply Hn. rewrite E. apply in_map, Hs.
Qed.

Lemma tally_names cat o m :
  map CategoryPieChart.name (CategoryPieChart.tally cat o m)
  = match slice_of cat m with
    | Some _ => map CategoryPieChart.name m
    | None => map CategoryPieChart.name m ++ [cat]
    end.
Proof.
  unfold slice_of. induction m as [|rec m IH]; cbn [CategoryPieChart.tally find map app].
  - destruct (add_order_fields o {| CategoryPieChart.name := cat;
                                    CategoryPieChart.value := 0;
                                    CategoryPieChart.revenue := S754_zero false;
                                    CategoryPieChart.success := 0;
                                    CategoryPieChart.failed := 0 |}) as [-> _].
    reflexivity.
  - destruct (jsstring_eqb (CategoryPieChart.name rec) cat); cbn [map].
    + destruct (add_order_fields o rec) as [-> _]. reflexivity.
    + rewrite IH. destruct (find _ m); reflexivity.
Qed.

Lemma tally_NoDup cat o m :
  NoDup (map CategoryPieChart.name m) ->
  NoDup (map CategoryPieChart.name (CategoryPieChart.tally cat o m)).
Proof.
  intros H. rewrite tally_names. destruct (slice_of cat m) eqn:E; [exact H|].
  apply slice_of_none in E.
  apply (NoDup_Add (a := cat) (l := map CategoryPieChart.name m)).
  - rewrite <- (app_nil_r (map CategoryPieChart.name m)) at 1.
    rewrite <- (app_nil_r (map CategoryPieChart.name m ++ [cat])), <- app_assoc.
    apply Add_app.
  - split; assumption.
Qed.

(** The map after the loop: the numbers of a category have grown by
    the orders of the category, and no counter of failures has moved. *)
Lemma tallied_spec os : forall m cat,
  tally_of CategoryPieChart.value cat (tallied os m)
  = (tally_of CategoryPieChart.value cat m + length (in_category cat os))%nat /\
  tally_of CategoryPieChart.success cat (tallied os m)
  = (tally_of CategoryPieChart.success cat m
     + length (filter (fun o => status_eqb (status o) completed) (in_category cat os)))%nat /\
  tally_of CategoryPieChart.failed cat (tallied os m)
  = tally_of CategoryPieChart.failed cat m.
Proof.
  unfold tallied, in_category.
  induction os as [|o os IH]; intros m cat; cbn [fold_left filter length].
  - repeat split; lia.
  - destruct (IH (CategoryPieChart.tally (category o) o m) cat) as [H1 [H2 H3]].
    rewrite H1, H2, H3. clear IH H1 H2 H3.
    unfold tally_of. rewrite slice_of_tally.
    destruct (jsstring_eqb (category o) cat) eqn:E; [|repeat split; lia].
    apply jsstring_eqb_eq in E. rewrite E.
    set (s := match slice_of cat m with Some s => s | None => _ end).
    destruct (add_order_fields o s) as [_ [-> [-> ->]]].
    assert (Hs : CategoryPieChart.value s = tally_of CategoryPieChart.value cat m /\
                 CategoryPieChart.success s = tally_of CategoryPieChart.success cat m /\
                 CategoryPieChart.failed s = tally_of CategoryPieChart.failed cat m).
    { unfold s, tally_of. destruct (slice_of cat m); auto. }
    destruct Hs as [-> [-> ->]]. unfold tally_of, done.
    cbn [filter]. destruct (status_eqb (status o) completed); cbn [length];
      repeat split; lia.
Qed.

Lemma tallied_NoDup os : forall m,
  NoDup (map CategoryPieChart.name m) ->
  NoDup (map CategoryPieChart.name (tallied os m)).
Proof.
  unfold tallied. induction os as [|o os IH]; intros m H; cbn [fold_left]; [exact H|].
  apply IH, tally_NoDup, H.
Qed.

Lemma NoDup_firstn {A} n : forall l : list A, NoDup l -> NoDup (firstn n l).
Proof.
  induction n as [|n IH]; intros [|x l] H; cbn [firstn]; try constructor.
  - inversion H as [|? ? Hn Hd]; subst. intros Hin. apply Hn.
    rewrite <- (firstn_skipn n l). apply in_or_app. left. exact Hin.
  - inversion H; subst. apply IH. assumption.
Qed.

(** The pie chart shows at most eight categories, each once, by
    descending number of orders.  The number of a category is the number
    of the orders whose requirement text gives the category, and its
    successes are those of them that are completed; the counter of
    failures is never moved and stays 0.  A category that is not shown
    has no more orders than any that is. *)
Theorem pie_chart_counts_orders_by_category :
  forall os : list order,
    let pd := CategoryPieChart.pieData os in
    (length pd <= 8)%nat /\
    NoDup (map CategoryPieChart.name pd) /\
    descending (map CategoryPieChart.value pd) /\
    (forall s, In s pd ->
       let mine := in_category (CategoryPieChart.name s) os in
       CategoryPieChart.value s = length mine /\
       (1 <= CategoryPieChart.value s)%nat /\
       CategoryPieChart.success s
       = length (filter (fun o => status_eqb (status o) completed) mine) /\
       CategoryPieChart.failed s = 0%nat) /\
    (forall o, In o os ->
       In (category o) (map CategoryPieChart.name pd) \/
       (length pd = 8%nat /\
        forall s, In s pd ->
          (length (in_category (category o) os) <= CategoryPieChart.value s)%nat)).
Proof.
  intros os pd. subst pd. unfold CategoryPieChart.pieData.
  change (fold_left _ os []) with (tallied os []).
  set (m := tallied os []).
  set (sorted := sort_desc CategoryPieChart.value m).
  assert (Hd : NoDup (map CategoryPieChart.name m))
    by (apply tallied_NoDup; constructor).
  assert (Hds : NoDup (map CategoryPieChart.name sorted))
    by (apply sort_desc_NoDup, Hd).
  assert (Hm : forall s, In s m ->
            CategoryPieChart.value s = length (in_category (CategoryPieChart.name s) os) /\
            CategoryPieChart.success s
            = length (filter (fun o => status_eqb (status o) completed)
                        (in_category (CategoryPieChart.name s) os)) /\
            CategoryPieChart.failed s = 0%nat).
  { intros s Hs. pose proof (slice_of_NoDup m s Hd Hs) as E.
    destruct (tallied_spec os [] (CategoryPieChart.name s)) as [H1 [H2 H3]].
    fold m in H1, H2, H3. unfold tally_of in H1, H2, H3. rewrite E in H1, H2, H3.
    cbn in H1, H2, H3. auto. }
  assert (Hin : forall o, In o os ->
            exists s, In s m /\ CategoryPieChart.name s = category o /\
                      (1 <= CategoryPieChart.value s)%nat).
  { intros o Ho. destruct (tallied_spec os [] (category o)) as [H1 _].
    fold m in H1. unfold tally_of in H1. cbn [slice_of find] in H1.
    assert (Hpos : (1 <= length (in_category (category o) os))%nat).
    { assert (Hi : In o (in_category (category o) os)).
      { apply filter_In. split; [exact Ho|apply jsstring_eqb_refl]. }
      destruct (in_category (category o) os); [destruct Hi|cbn; lia]. }
    destruct (slice_of (category o) m) as [s|] eqn:E; [|lia].
    exists s. split; [eapply slice_of_in, E|]. split; [eapply slice_of_name, E|lia]. }
  split; [apply firstn_le_length|].
  split; [rewrite <- firstn_map; apply NoDup_firstn, Hds|].
  split; [rewrite <- firstn_map; apply descending_firstn, sort_desc_descending|].
  split.
  - intros s Hs. cbv zeta.
    assert (Hsm : In s m).
    { apply (sort_desc_in CategoryPieChart.value). fold sorted.
      rewrite <- (firstn_skipn 8 sorted). apply in_or_app. left. exact Hs. }
    destruct (Hm s Hsm) as [H1 [H2 H3]].
    split; [exact H1|]. split; [|split; assumption].
    rewrite H1.
    assert (Hne : in_category (CategoryPieChart.name s) os <> []).
    { intros E. rewrite E in H1. cbn in H1.
      pose proof (slice_of_NoDup m s Hd Hsm) as Es.
      (* a record is made only when an order is tallied *)
      assert (Hv : forall os' m', (forall x, In x m' -> (1 <= CategoryPieChart.value x)%nat) ->
                     forall x, In x (tallied os' m') -> (1 <= CategoryPieChart.value x)%nat).
      { unfold tallied. induction os' as [|o' os' IH]; intros m' Hm' x Hx;
          cbn [fold_left] in Hx; [apply Hm', Hx|].
        eapply IH; [|exact Hx]. clear x Hx. intros x Hx.
        induction m' as [|r m' IHm]; cbn [CategoryPieChart.tally] in Hx.
        - destruct Hx as [<-|[]].
          destruct (add_order_fields o' {| CategoryPieChart.name := category o';
                                           CategoryPieChart.value := 0;
                                           CategoryPieChart.revenue := S754_zero false;
                                           CategoryPieChart.success := 0;
                                           CategoryPieChart.failed := 0 |})
            as [_ [-> _]]. lia.
        - destruct (jsstring_eqb (CategoryPieChart.name r) (category o')).
          + destruct Hx as [<-|Hx]; [|apply Hm'; right; exact Hx].
            destruct (add_order_fields o' r) as [_ [-> _]]. lia.
          + destruct Hx as [<-|Hx]; [apply Hm'; left; reflexivity|].
            apply IHm; [|exact Hx]. intros y Hy. apply Hm'. right. exact Hy. }
      specialize (Hv os [] (fun x (H : In x []) => match H with end) s Hsm). lia. }
    destruct (in_category (CategoryPieChart.name s) os); [congruence|cbn; lia].
  - intros o Ho. destruct (Hin o Ho) as [s [Hs [En Hv]]].
    assert (Hss : In s sorted) by (apply sort_desc_in; exact Hs).
    rewrite <- (firstn_skipn 8 sorted) in Hss. apply in_app_or in Hss.
    destruct Hss as [Hss|Hss].
    + left. rewrite <- En. apply in_map, Hss.
    + right. split.
      * assert (Hl : (8 < length sorted)%nat).
        { destruct (Nat.le_gt_cases (length sorted) 8) as [Hle|Hgt]; [|exact Hgt].
          rewrite skipn_all2 in Hss by exact Hle. destruct Hss. }
        rewrite length_firstn. lia.
      * intros s' Hs'. destruct (Hm s Hs) as [H1 _]. rewrite <- En, <- H1.
        apply (descending_cut 8 (map CategoryPieChart.value sorted)).
        -- apply sort_desc_descending.
        -- rewrite firstn_map. apply in_map, Hs'.
        -- rewrite skipn_map. apply in_map, Hss.
Qed.

(** ** The performance of the editors *)

Lemma editor_stats_quiet userId p w :
  pending w = [] ->
  let mine := filter (fun o => sql_eq (taken_by o) userId) (orders (db w)) in
  exists s,
    EditorPerformance.editor_stats userId p w = (s, {| db := db w; pending := [] |}) /\
    EditorPerformance.id s = userId /\
    EditorPerformance.name s <> [] /\
    EditorPerformance.total_orders s = length mine /\
    EditorPerformance.completed_orders s
    = length (filter (fun o => status_eqb (status o) completed) mine) /\
    EditorPerformance.in_progress s
    = length (filter (fun o => status_eqb (status o) taken) mine).
Proof.
  intros H mine. unfold EditorPerformance.editor_stats.
  rewrite (store_call_quiet _ w H). repeat rewrite store_call_quiet by reflexivity.
  cbn [fst snd count_where select_where db count_or_0].
  eexists. split; [reflexivity|].
  cbn [EditorPerformance.id EditorPerformance.name EditorPerformance.total_orders
       EditorPerformance.completed_orders EditorPerformance.in_progress].
  split; [reflexivity|]. split.
  { unfold EditorPerformance.text_or, or_else.
    destruct p as [[[n|] e]|]; cbn; try discriminate. destruct n; discriminate. }
  subst mine. rewrite !filter_filter. split; [reflexivity|].
  split; f_equal; apply filter_ext; intros o; apply andb_comm.
Qed.

Lemma assigned_is_taken_or_completed userId os :
  Forall workflow_ok os ->
  let mine := filter (fun o => sql_eq (taken_by o) userId) os in
  length mine
  = (length (filter (fun o => status_eqb (status o) completed) mine)
     + length (filter (fun o => status_eqb (status o) taken) mine))%nat.
Proof.
  intros H. cbv zeta. induction H as [|o os Ho _ IH]; [reflexivity|].
  cbn [filter]. destruct (sql_eq (taken_by o) userId) eqn:E; [|exact IH].
  apply sql_eq_spec in E. unfold workflow_ok in Ho. cbn [filter length].
  destruct (status o); cbn [status_eqb filter length].
  - destruct Ho as [Ho _]. congruence.
  - rewrite IH. lia.
  - rewrite IH. lia.
Qed.

(** With a backend that reports no error, the list has one entry for
    each editor of the roles, in their order and with a name that is not
    empty; the figures of an editor count the orders that name them, and
    when the workflow columns of the table agree with the status, the
    total of an editor is the sum of the orders in progress and of the
    completed ones.  The store is left as it is. *)
Theorem performance_of_an_editor_adds_up :
  forall (editorRoles : list (jsstring * option EditorPerformance.profile)) (w : world),
    pending w = [] ->
    Forall workflow_ok (orders (db w)) ->
    let run := EditorPerformance.fetchEditorPerformance (Some editorRoles) w in
    db (snd run) = db w /\
    exists editors,
      fst run = Some editors /\
      map EditorPerformance.id editors = map fst editorRoles /\
      Forall (fun s =>
                let mine := filter (fun o => sql_eq (taken_by o) (EditorPerformance.id s))
                              (orders (db w)) in
                EditorPerformance.name s <> [] /\
                EditorPerformance.total_orders s = length mine /\
                EditorPerformance.completed_orders s
                = length (filter (fun o => status_eqb (status o) completed) mine) /\
                EditorPerformance.in_progress s
                = length (filter (fun o => status_eqb (status o) taken) mine) /\
                EditorPerformance.total_orders s
                = (EditorPerformance.completed_orders s
                   + EditorPerformance.in_progress s)%nat) editors.
Proof.
  intros editorRoles w Hp Hw run. subst run. unfold EditorPerformance.fetchEditorPerformance.
  assert (G : forall l w0, pending w0 = [] -> db w0 = db w ->
            exists editors,
              EditorPerformance.each_editor l w0
              = (editors, match l with [] => w0 | _ => {| db := db w; pending := [] |} end) /\
              map EditorPerformance.id editors = map fst l /\
              Forall (fun s =>
                let mine := filter (fun o => sql_eq (taken_by o) (EditorPerformance.id s))
                              (orders (db w)) in
                EditorPerformance.name s <> [] /\
                EditorPerformance.total_orders s = length mine /\
                EditorPerformance.completed_orders s
                = length (filter (fun o => status_eqb (status o) completed) mine) /\
                EditorPerformance.in_progress s
                = length (filter (fun o => status_eqb (status o) taken) mine) /\
                EditorPerformance.total_orders s
                = (EditorPerformance.completed_orders s
                   + EditorPerformance.in_progress s)%nat) editors).
  { induction l as [|[u p] l IH]; intros w0 Hp0 Hd; cbn [EditorPerformance.each_editor].
    - exists []. repeat split. constructor.
    - destruct (editor_stats_quiet u p w0 Hp0) as [s [Es [Hi [Hn [Ht [Hc Hg]]]]]].
      rewrite Es, Hd in *.
      destruct (IH {| db := db w; pending := [] |} eq_refl eq_refl) as [ss [Ess [Hm Hf]]].
      rewrite Ess. exists (s :: ss). split; [destruct l; reflexivity|].
      split; [cbn [map fst]; rewrite Hi, Hm; reflexivity|].
      constructor; [|exact Hf]. cbv zeta. rewrite Hi.
      split; [exact Hn|]. split; [exact Ht|]. split; [exact Hc|]. split; [exact Hg|].
      rewrite Ht, Hc, Hg. apply (assigned_is_taken_or_completed u _ Hw). }
  destruct (G editorRoles w Hp eq_refl) as [editors [E [Hm Hf]]]. rewrite E. cbn [fst snd].
  split; [destruct editorRoles; reflexivity|]. exists editors. auto.
Qed.

(** The editor of the sample order, with a profile without a name. *)
Lemma performance_of_an_editor_adds_up_witness :
  let roles := [(lit "editor-1",
                 Some {| EditorPerformance.full_name := None;
                         EditorPerformance.profile_email := Some (lit "e1@example.org") |})] in
  let run := EditorPerformance.fetchEditorPerformance (Some roles) sample_world in
  db (snd run) = db sample_world /\
  option_map (map EditorPerformance.name) (fst run) = Some [lit "Unknown"] /\
  option_map (map EditorPerformance.in_progress) (fst run) = Some [1%nat].
Proof.
  intros roles run.
  assert (Hw : Forall workflow_ok (orders (db sample_world))).
  { constructor; [|constructor]. unfold workflow_ok. cbn. split; discriminate. }
  destruct (performance_of_an_editor_adds_up roles sample_world eq_refl Hw) as [H _].
  split; [exact H|]. split; reflexivity.
Defined.

(** ** The bar of the monthly revenue *)

Lemma binary_round_aux_number s m e l :
  0 <= m -> binary_round_aux prec emax s m e l <> S754_nan.
Proof.
  intros H. unfold binary_round_aux.
  pose proof (shr_fexp_nonneg m e l H) as H1.
  destruct (shr_fexp prec emax m e l) as [mrs' e'] eqn:E1. simpl in H1.
  pose proof (shr_fexp_nonneg _ e' loc_Exact
                (round_nearest_even_nonneg _ (loc_of_shr_record mrs') H1)) as H2.
  destruct (shr_fexp prec emax _ e' loc_Exact) as [mrs'' e''] eqn:E2. simpl in H2.
  destruct (shr_m mrs'') as [|q|q]; simpl; try lia; try discriminate.
  destruct (_ <=? _); discriminate.
Qed.

Lemma SFdiv_core_binary_nonneg m1 e1 m2 e2 :
  0 <= m1 -> 0 < m2 ->
  0 <= fst (fst (SFdiv_core_binary prec emax m1 e1 m2 e2)).
Proof.
  intros H1 H2. unfold SFdiv_core_binary.
  set (s := e1 - e2 - _).
  set (m' := match s with Z0 => m1 | Zpos _ => Z.shiftl m1 s | Zneg _ => 0 end).
  assert (Hm : 0 <= m').
  { subst m'. destruct s; try lia. apply Z.shiftl_nonneg. exact H1. }
  pose proof (Z_div_mod m' m2 ltac:(lia)) as D.
  destruct (Z.div_eucl m' m2) as [q r]. cbn [fst]. destruct D as [D1 D2]. nia.
Qed.

(** A quotient is NaN only for an argument that is, for two zeros and
    for two infinities. *)
Lemma SFdiv_finite_number s1 m1 e1 s2 m2 e2 :
  SFdiv prec emax (S754_finite s1 m1 e1) (S754_finite s2 m2 e2) <> S754_nan.
Proof.
  cbn [SFdiv].
  pose proof (SFdiv_core_binary_nonneg (Zpos m1) e1 (Zpos m2) e2 ltac:(lia) ltac:(lia)) as H.
  destruct (SFdiv_core_binary prec emax (Zpos m1) e1 (Zpos m2) e2) as [[mz ez] lz].
  cbn [fst] in H. apply binary_round_aux_number. exact H.
Qed.

Lemma SFmul_100_number y :
  SFmul prec emax y (number_of_Z 100) = S754_nan <-> y = S754_nan.
Proof.
  let v := eval vm_compute in (number_of_Z 100) in change (number_of_Z 100) with v.
  destruct y as [s|s| |s m e]; cbn [SFmul]; split; try discriminate; try reflexivity.
  intros H. exfalso. revert H. apply binary_round_aux_number. lia.
Qed.

Lemma SFcompare_Gt_Lt a b :
  SFcompare a b = Some Gt -> SFcompare b a = Some Lt.
Proof.
  destruct a as [[|]|[|]| |[|] m1 e1], b as [[|]|[|]| |[|] m2 e2]; cbn [SFcompare];
    try discriminate; try reflexivity.
  all: change (Pos.compare_cont Eq m1 m2) with (Pos.compare m1 m2);
    change (Pos.compare_cont Eq m2 m1) with (Pos.compare m2 m1);
    rewrite (Z.compare_antisym e1 e2), (Pos.compare_antisym m1 m2);
    destruct (e1 ?= e2); cbn [CompOpp]; try discriminate; try reflexivity;
    destruct (m1 ?= m2)%positive; cbn [CompOpp]; try discriminate; reflexivity.
Qed.

(** What [Math.min(100, Math.max(0, z))] is. *)
Lemma clamp_number z :
  z <> S754_nan ->
  let p := Math_min2 (number_of_Z 100) (Math_max2 (S754_zero false) z) in
  p <> S754_nan /\
  SFleb (S754_zero false) p = true /\ SFleb p (number_of_Z 100) = true.
Proof.
  let v := eval vm_compute in (number_of_Z 100) in change (number_of_Z 100) with v.
  intros Hz.
  destruct z as [[|]|[|]| |[|] m e]; try congruence;
    try (cbv zeta; split; [discriminate|split; reflexivity]).
  cbv zeta. unfold Math_max2. cbn [SFcompare]. unfold Math_min2.
  match goal with |- context [SFcompare ?a ?b] =>
    pose proof (SFcompare_Gt_Lt a b) as A; destruct (SFcompare a b) as [[| |]|] eqn:E end.
  - split; [discriminate|split; reflexivity].
  - split; [discriminate|split; reflexivity].
  - split; [discriminate|split; [reflexivity|]]. unfold SFleb. rewrite (A eq_refl). reflexivity.
  - cbn [SFcompare] in E. discriminate.
Qed.

Lemma clamp_nan :
  Math_min2 (number_of_Z 100) (Math_max2 (S754_zero false) S754_nan) = S754_nan.
Proof. reflexivity. Qed.

(** The share shown on the bar is NaN only when the threshold is NaN,
    or when the threshold is above zero and the revenue is NaN or both
    are infinite.  In every other case it is a Number from 0 to 100,
    whatever the two amounts are: a threshold of zero or less shows 0. *)
Theorem percent_stays_on_the_bar :
  forall revenue threshold : spec_float,
    let p := MonthlyRevenueBar.percent revenue threshold in
    (p = S754_nan <->
     threshold = S754_nan \/
     (SFltb (S754_zero false) threshold = true /\
      (revenue = S754_nan \/
       (threshold = S754_infinity false /\ exists s, revenue = S754_infinity s)))) /\
    (p <> S754_nan ->
     SFleb (S754_zero false) p = true /\ SFleb p (number_of_Z 100) = true) /\
    (SFleb threshold (S754_zero false) = true -> p = S754_zero false).
Proof.
  intros revenue threshold p. subst p. unfold MonthlyRevenueBar.percent.
  destruct (SFleb threshold (S754_zero false)) eqn:L.
  - split; [|split; [intros _; split; reflexivity | reflexivity]].
    split; [discriminate|].
    intros [H|[H _]]; [subst; discriminate|].
    destruct threshold as [[|]|[|]| |[|] m e]; discriminate.
  - set (q := SFdiv prec emax revenue threshold).
    assert (Q : q = S754_nan <->
                threshold = S754_nan \/
                (SFltb (S754_zero false) threshold = true /\
                 (revenue = S754_nan \/
                  (threshold = S754_infinity false /\ exists s, revenue = S754_infinity s)))).
    { subst q.
      destruct threshold as [[|]|[|]| |[|] m e]; try discriminate L;
        destruct revenue as [s|s| |s m1 e1]; split; intros H;
        try (cbn [SFdiv] in H; discriminate H); try reflexivity;
        try (left; reflexivity);
        try (right; split; [reflexivity|]; left; reflexivity);
        try (right; split; [reflexivity|]; right; split; [reflexivity|];
             eexists; reflexivity);
        try (destruct H as [H|[_ [H|[H [s' H']]]]]; discriminate);
        exfalso; revert H; apply SFdiv_finite_number. }
    set (p := Math_min2 _ _).
    assert (Hq : q = S754_nan \/ q <> S754_nan)
      by (destruct q; [right|right|left|right]; congruence).
    destruct Hq as [Hq|Hq].
    + assert (Hp : p = S754_nan) by (subst p; rewrite Hq; reflexivity).
      rewrite Hp. split; [|split; [congruence|discriminate]].
      split; [intros _; apply Q; exact Hq | reflexivity].
    + assert (Hz : SFmul prec emax q (number_of_Z 100) <> S754_nan).
      { intros H. apply Hq. apply SFmul_100_number. exact H. }
      destruct (clamp_number _ Hz) as [C1 [C2 C3]]. fold p in C1, C2, C3.
      split; [|split; [intros _; split; assumption|discriminate]].
      split; [intros H; contradiction | intros H; apply Q in H; contradiction].
Qed.
